(** * A sharded ledger: shallow embedding of the Go sources and its properties

    The development follows the packages of the repository:
    - byte strings, SHA-256, HMAC-SHA256 and hex encoding (Go's [crypto/sha256],
      [crypto/hmac], [encoding/hex]), written out so that every digest the
      program prints can be evaluated;
    - [core/block.go]: blocks, the chain, the RSA accumulator;
    - [core/merkle_tree.go]: Merkle trees and the state pruner;
    - the red-black shard index, shards and the shard manager, and the
      block slices of the shards with their backing arrays;
    - [core/homomorphic_auth.go]: the authenticator, the two-phase transfer
      with its shard mutexes, and Shamir's secret sharing;
    - the succinct trie, the nodes and the leader election;
    - [core/adaptive_cap.go]: the state manager, vector clocks and the
      default capacity policy on binary64 numbers;
    - [core/probabilistic_verification.go]: membership by digest and the Bloom
      filter.

    Go strings are byte sequences, so they are modelled by [string] (a list of
    8-bit characters).  Go's [int] is a 64-bit signed integer: it is a [Z]
    with the wrap-around written out where the code does arithmetic on it. *)

From Stdlib Require Import ZArith List Ascii String Lia Bool Permutation DecimalString Zpow_facts.
From Stdlib Require Import Floats.SpecFloat.
From stdpp Require Import base option list gmap strings sorting.

Local Open Scope string_scope.
Local Open Scope list_scope.
Local Open Scope Z_scope.

(** ** Byte strings *)

Definition byte_of_ascii (c : ascii) : Z := Z.of_N (N_of_ascii c).
Definition ascii_of_byte (b : Z) : ascii := ascii_of_N (Z.to_N (b mod 256)).

(** [[]byte(s)] *)
Fixpoint bytes_of_string (s : string) : list Z :=
  match s with
  | EmptyString => []
  | String c r => byte_of_ascii c :: bytes_of_string r
  end.

(** [string(bs)] *)
Fixpoint string_of_bytes (bs : list Z) : string :=
  match bs with
  | [] => EmptyString
  | b :: r => String (ascii_of_byte b) (string_of_bytes r)
  end.

(** Concatenation of a list of strings, left to right. *)
Fixpoint concat_strings (l : list string) : string :=
  match l with
  | [] => ""
  | s :: r => (s ++ concat_strings r)%string
  end.

(** ** SHA-256 (FIPS 180-4), on 32-bit words kept in [Z] *)

Definition mask32 : Z := 0xffffffff.
Definition add32 (x y : Z) : Z := Z.land (x + y) mask32.
Definition rotr32 (n x : Z) : Z :=
  Z.lor (Z.shiftr x n) (Z.land (Z.shiftl x (32 - n)) mask32).
Definition not32 (x : Z) : Z := Z.lxor x mask32.

Definition Ch (x y z : Z) : Z := Z.lxor (Z.land x y) (Z.land (not32 x) z).
Definition Maj (x y z : Z) : Z :=
  Z.lxor (Z.lxor (Z.land x y) (Z.land x z)) (Z.land y z).
Definition bigSigma0 (x : Z) : Z :=
  Z.lxor (Z.lxor (rotr32 2 x) (rotr32 13 x)) (rotr32 22 x).
Definition bigSigma1 (x : Z) : Z :=
  Z.lxor (Z.lxor (rotr32 6 x) (rotr32 11 x)) (rotr32 25 x).
Definition smallSigma0 (x : Z) : Z :=
  Z.lxor (Z.lxor (rotr32 7 x) (rotr32 18 x)) (Z.shiftr x 3).
Definition smallSigma1 (x : Z) : Z :=
  Z.lxor (Z.lxor (rotr32 17 x) (rotr32 19 x)) (Z.shiftr x 10).

(** The round constants are the first thirty-two bits of the fractional
    parts of the cube roots of the first sixty-four primes; the initial hash
    value comes in the same way from the square roots of the first eight. *)
Definition is_prime (n : nat) : bool :=
  forallb (fun d => negb (n mod d =? 0)%nat) (seq 2 (n - 2)).

Definition first_primes (k : nat) : list Z :=
  map Z.of_nat (firstn k (filter is_prime (seq 2 310))).

(** The integer cube root of [n], built bit by bit from bit [bit - 1]. *)
Fixpoint icbrt_bits (bit : nat) (n r : Z) : Z :=
  match bit with
  | O => r
  | S b =>
      let c := r + 2 ^ Z.of_nat b in
      icbrt_bits b n (if c * c * c <=? n then c else r)
  end.

Definition frac_cbrt32 (p : Z) : Z := Z.land (icbrt_bits 36 (p * 2 ^ 96) 0) mask32.
Definition frac_sqrt32 (p : Z) : Z := Z.land (Z.sqrt (p * 2 ^ 64)) mask32.

Definition sha256_K : list Z :=
  Eval vm_compute in map frac_cbrt32 (first_primes 64).

Definition sha256_H0 : list Z :=
  Eval vm_compute in map frac_sqrt32 (first_primes 8).

(** Big-endian encoding of [x] on [n] bytes. *)
Fixpoint be_bytes (n : nat) (x : Z) : list Z :=
  match n with
  | O => []
  | S k => Z.land (Z.shiftr x (8 * Z.of_nat k)) 0xff :: be_bytes k x
  end.

(** Big-endian decoding, most significant byte first. *)
Definition be_value (bs : list Z) : Z :=
  fold_left (fun acc b => acc * 256 + b) bs 0.

(** Message padding: a one bit, zeros up to 56 mod 64, the bit length on
    eight bytes. *)
Definition sha256_pad (msg : list Z) : list Z :=
  let len := Z.of_nat (length msg) in
  let zeros := Z.to_nat ((55 - len) mod 64) in
  msg ++ 0x80 :: repeat 0 zeros ++ be_bytes 8 (8 * len).

(** The words of a byte sequence, four bytes each. *)
Fixpoint words_of_bytes (fuel : nat) (bs : list Z) : list Z :=
  match fuel with
  | O => []
  | S k =>
      match bs with
      | a :: b :: c :: d :: r => be_value [a; b; c; d] :: words_of_bytes k r
      | _ => []
      end
  end.

(** The message schedule: [win] holds the last sixteen words, oldest first. *)
Fixpoint schedule_ext (n : nat) (win : list Z) : list Z :=
  match n with
  | O => []
  | S k =>
      let w := add32 (add32 (add32 (smallSigma1 (nth 14 win 0)) (nth 9 win 0))
                            (smallSigma0 (nth 1 win 0))) (nth 0 win 0) in
      w :: schedule_ext k (tl win ++ [w])
  end.

Definition schedule (block : list Z) : list Z :=
  let w16 := words_of_bytes 16 block in
  w16 ++ schedule_ext 48 w16.

Record sha_regs := ShaRegs {
  ra : Z; rb : Z; rc : Z; rd : Z; re : Z; rf : Z; rg : Z; rh : Z }.

Definition sha_round (s : sha_regs) (kw : Z * Z) : sha_regs :=
  let t1 := add32 (add32 (add32 (add32 (rh s) (bigSigma1 (re s)))
                                (Ch (re s) (rf s) (rg s))) (fst kw)) (snd kw) in
  let t2 := add32 (bigSigma0 (ra s)) (Maj (ra s) (rb s) (rc s)) in
  ShaRegs (add32 t1 t2) (ra s) (rb s) (rc s) (add32 (rd s) t1) (re s) (rf s) (rg s).

Definition regs_of_list (h : list Z) : sha_regs :=
  ShaRegs (nth 0 h 0) (nth 1 h 0) (nth 2 h 0) (nth 3 h 0)
          (nth 4 h 0) (nth 5 h 0) (nth 6 h 0) (nth 7 h 0).

Definition list_of_regs (s : sha_regs) : list Z :=
  [ra s; rb s; rc s; rd s; re s; rf s; rg s; rh s].

Definition sha256_compress (h : list Z) (block : list Z) : list Z :=
  let s := fold_left sha_round (combine sha256_K (schedule block)) (regs_of_list h) in
  map (fun p => add32 (fst p) (snd p)) (combine h (list_of_regs s)).

Fixpoint sha256_blocks (fuel : nat) (h : list Z) (bs : list Z) : list Z :=
  match fuel with
  | O => h
  | S k =>
      match bs with
      | [] => h
      | _ => sha256_blocks k (sha256_compress h (firstn 64 bs)) (skipn 64 bs)
      end
  end.

(** [sha256.Sum256(msg)]: the thirty-two bytes of the digest.  The padded
    message has at most [length msg + 72] bytes, so the fuel below covers
    every block. *)
Definition sha256 (msg : list Z) : list Z :=
  let padded := sha256_pad msg in
  flat_map (be_bytes 4) (sha256_blocks (S (length msg)) sha256_H0 padded).

(** ** Hex encoding ([encoding/hex], lowercase) *)

Definition hex_digit (n : Z) : ascii :=
  if n <? 10 then ascii_of_byte (48 + n) else ascii_of_byte (87 + n).

Fixpoint hex_EncodeToString (bs : list Z) : string :=
  match bs with
  | [] => EmptyString
  | b :: r => String (hex_digit (Z.shiftr b 4))
               (String (hex_digit (Z.land b 15)) (hex_EncodeToString r))
  end.

(** The idiom used throughout the sources: hash a string, hex-encode. *)
Definition sha256_hex (s : string) : string :=
  hex_EncodeToString (sha256 (bytes_of_string s)).

(** ** HMAC-SHA256 ([crypto/hmac]) *)

Definition hmac_block_key (key : list Z) : list Z :=
  let k := if (64 <? Z.of_nat (length key)) then sha256 key else key in
  k ++ repeat 0 (64 - length k)%nat.

Definition hmac_sha256 (key msg : list Z) : list Z :=
  let k := hmac_block_key key in
  let ipad := map (fun b => Z.lxor b 0x36) k in
  let opad := map (fun b => Z.lxor b 0x5c) k in
  sha256 (opad ++ sha256 (ipad ++ msg)).

Global Arguments sha256 : simpl never.
Global Arguments sha256_hex : simpl never.
Global Arguments hmac_sha256 : simpl never.

(** ** Integers and their textual forms *)

(** Go's [int] on the 64-bit platforms the program targets. *)
Definition wrap_int (z : Z) : Z := (z + 2 ^ 63) mod 2 ^ 64 - 2 ^ 63.

(** [utf8.EncodeRune]: code points outside the Unicode range and surrogate
    halves are replaced by U+FFFD. *)
Definition utf8_EncodeRune (r : Z) : list Z :=
  if (r <? 0) || (0x10FFFF <? r) || ((0xD800 <=? r) && (r <=? 0xDFFF))
  then [0xEF; 0xBF; 0xBD]
  else if r <=? 0x7F then [r]
  else if r <=? 0x7FF then
    [Z.lor 0xC0 (Z.shiftr r 6); Z.lor 0x80 (Z.land r 0x3F)]
  else if r <=? 0xFFFF then
    [Z.lor 0xE0 (Z.shiftr r 12); Z.lor 0x80 (Z.land (Z.shiftr r 6) 0x3F);
     Z.lor 0x80 (Z.land r 0x3F)]
  else
    [Z.lor 0xF0 (Z.shiftr r 18); Z.lor 0x80 (Z.land (Z.shiftr r 12) 0x3F);
     Z.lor 0x80 (Z.land (Z.shiftr r 6) 0x3F); Z.lor 0x80 (Z.land r 0x3F)].

(** The conversion [string(i)] of an [int]: in Go this is the UTF-8 encoding
    of the code point [i], not its digits. *)
Definition go_string_of_int (i : Z) : string :=
  string_of_bytes (utf8_EncodeRune i).

(** [strconv.Itoa], also [fmt.Sprintf("%d", i)]: the decimal digits. *)
Definition Itoa (i : Z) : string := NilZero.string_of_int (Z.to_int i).

(** ** [core/block.go]: blocks *)

Record Block := mkBlock {
  Index : Z;
  Timestamp : string;
  Data : string;
  PrevHash : string;
  Hash : string }.

Definition calculateHash (block : Block) : string :=
  let record := (go_string_of_int (Index block) ++ Timestamp block
                 ++ Data block ++ PrevHash block)%string in
  sha256_hex record.

(** [time.Now().String()] is an input: [now]. *)
Definition GenerateBlock (prevBlock : Block) (data : string) (now : string) : Block :=
  let newBlock := mkBlock (wrap_int (Index prevBlock + 1)) now data (Hash prevBlock) "" in
  mkBlock (Index newBlock) (Timestamp newBlock) (Data newBlock) (PrevHash newBlock)
          (calculateHash newBlock).

Definition GenesisBlock (now : string) : Block :=
  let genesis := mkBlock 0 now "Genesis Block" "" "" in
  mkBlock (Index genesis) (Timestamp genesis) (Data genesis) (PrevHash genesis)
          (calculateHash genesis).

(** ** The chain *)

Record Blockchain := mkBlockchain { bc_Blocks : list Block }.

Definition NewBlockchain (now : string) : Blockchain :=
  mkBlockchain [GenesisBlock now].

(** [bc.Blocks[len(bc.Blocks)-1]] panics on an empty chain: [None]. *)
Definition Blockchain_AddBlock (bc : Blockchain) (data : string) (now : string)
  : option Blockchain :=
  match last (bc_Blocks bc) with
  | None => None
  | Some prevBlock =>
      let newBlock := GenerateBlock prevBlock data now in
      Some (mkBlockchain (bc_Blocks bc ++ [newBlock]))
  end.

(** ** [core/block.go]: the RSA accumulator *)

Record RSAAccumulator := mkAcc {
  acc_N : Z;
  acc_G : Z;
  acc_State : Z;
  acc_Elements : list string;
  acc_Proofs : gmap string Z }.

(** [new(big.Int).Exp(x, y, m)] for an exponent [y >= 0] and a modulus
    [m > 0], the only case the accumulator reaches: [hashToPrime] is at
    least 1 and the modulus is 251 * 239. *)
Definition big_Exp (x y m : Z) : Z := Zpow_mod x y m.

Definition NewRSAAccumulator : RSAAccumulator :=
  let p := 251 in
  let q := 239 in
  let n := p * q in
  let g := 3 in
  mkAcc n g g [] ∅.

Definition hashToPrime (data : string) : Z :=
  let hashInt := be_value (sha256 (bytes_of_string data)) in
  if Z.testbit hashInt 0 then hashInt else hashInt + 1.

Definition AddElement (acc : RSAAccumulator) (element : string) : RSAAccumulator :=
  let prime := hashToPrime element in
  let state := big_Exp (acc_State acc) prime (acc_N acc) in
  let elements := acc_Elements acc ++ [element] in
  let proof :=
    fold_left (fun proof e =>
                 if String.eqb e element then proof
                 else big_Exp proof (hashToPrime e) (acc_N acc))
              elements (acc_G acc) in
  mkAcc (acc_N acc) (acc_G acc) state elements (<[element := proof]> (acc_Proofs acc)).

Definition VerifyMembership (acc : RSAAccumulator) (element : string) (proof : Z) : bool :=
  let prime := hashToPrime element in
  let result := big_Exp proof prime (acc_N acc) in
  result =? acc_State acc.

Global Arguments Itoa : simpl never.
Global Arguments go_string_of_int : simpl never.
Global Arguments wrap_int : simpl never.
Global Arguments hashToPrime : simpl never.
Global Arguments big_Exp : simpl never.

(** ** [core/merkle_tree.go]: Merkle trees *)

Record MerkleTree := mkMerkleTree {
  mt_Root : string;
  mt_Leaves : list string }.

(** One level of parents: neighbours are hashed together, an unpaired last
    node is hashed alone. *)
Fixpoint merkle_parents (leaves : list string) : list string :=
  match leaves with
  | a :: b :: r => sha256_hex (a ++ b)%string :: merkle_parents r
  | [a] => [sha256_hex a]
  | [] => []
  end.

(** The recursion of [buildMerkleTree]; a level of [n >= 2] nodes has fewer
    than [n] parents, so [length leaves] rounds of fuel are enough. *)
Fixpoint buildMerkleTree_rec (fuel : nat) (leaves : list string) : string :=
  match leaves with
  | [] => sha256_hex ""
  | [x] => x
  | _ =>
      match fuel with
      | O => ""
      | S k => buildMerkleTree_rec k (merkle_parents leaves)
      end
  end.

Definition buildMerkleTree (leaves : list string) : string :=
  buildMerkleTree_rec (length leaves) leaves.

Definition NewMerkleTree (data : list string) : MerkleTree :=
  match data with
  | [] => mkMerkleTree (sha256_hex "") []
  | _ =>
      let leaves := map sha256_hex data in
      mkMerkleTree (buildMerkleTree leaves) leaves
  end.

Definition GetRootHash (mt : MerkleTree) : string := mt_Root mt.

(** ** Shards and the store they live in

    Shards are shared by pointer between the shard index, the caller and
    the transfer managers, and are mutated in place.  The store is a list of
    shards; a pointer is a position in it.  Go never holds a dangling
    pointer, so the default of [deref] is not reached by the program.
    Block slices are modelled by value here: a shard holds the list of its
    blocks.  Go's slices are windows on backing arrays that two shards can
    share; module [Slices] below keeps the arrays and says when the lists
    by value are what the code computes. *)

Definition MinBlocksPerShard : Z := 2.
Definition MaxBlocksPerShard : Z := 3.

Record Shard := mkShard {
  ID : Z;
  Blocks : list Block;
  Tree : option MerkleTree }.

Definition NewShard (id : Z) : Shard := mkShard id [] None.

Abbreviation ptr := nat (only parsing).
Abbreviation heap := (list Shard) (only parsing).

Definition deref (h : heap) (p : ptr) : Shard := default (NewShard 0) (h !! p).
Definition store (h : heap) (p : ptr) (s : Shard) : heap := <[p := s]> h.
Definition alloc (h : heap) (s : Shard) : ptr * heap := (length h, h ++ [s]).

Definition getDataStrings (blocks : list Block) : list string := map Data blocks.

Definition set_Blocks (s : Shard) (blocks : list Block) : Shard :=
  mkShard (ID s) blocks (Tree s).
Definition set_Tree (s : Shard) (t : MerkleTree) : Shard :=
  mkShard (ID s) (Blocks s) (Some t).

(** [s.AddBlock(block)] *)
Definition Shard_AddBlock (h : heap) (s : ptr) (block : Block) : heap :=
  let h1 := store h s (set_Blocks (deref h s) (Blocks (deref h s) ++ [block])) in
  let data := getDataStrings (Blocks (deref h1 s)) in
  store h1 s (set_Tree (deref h1 s) (NewMerkleTree data)).

Definition Shard_GetRoot (h : heap) (s : ptr) : string :=
  match Tree (deref h s) with
  | Some t => GetRootHash t
  | None => ""
  end.

(** ** The red-black shard index

    Nodes are an inductive tree; the sentinel [t.Nil] is [RBNil] and is
    black.  Parent pointers become the path from a node to the root: each
    frame records on which side of its parent the node hangs, the parent's
    colour and shard, and the sibling subtree. *)

Inductive Color := Red | Black.

Inductive RBNode :=
| RBNil
| RBN (color : Color) (left : RBNode) (shard : ptr) (right : RBNode).

Inductive Frame :=
| InLeft (pcolor : Color) (pshard : ptr) (sibling : RBNode)
| InRight (pcolor : Color) (sibling : RBNode) (pshard : ptr).

Abbreviation RBTree := RBNode (only parsing).
Definition NewRBTree : RBTree := RBNil.

Definition colorOf (n : RBNode) : Color :=
  match n with
  | RBNil => Black
  | RBN c _ _ _ => c
  end.

Definition frameColor (f : Frame) : Color :=
  match f with
  | InLeft c _ _ => c
  | InRight c _ _ => c
  end.

Definition isRed (c : Color) : bool :=
  match c with Red => true | Black => false end.

(** Rebuild the tree around [node] along its path to the root. *)
Fixpoint plug (node : RBNode) (path : list Frame) : RBNode :=
  match path with
  | [] => node
  | InLeft c s r :: up => plug (RBN c node s r) up
  | InRight c l s :: up => plug (RBN c l s node) up
  end.

(** [t.Root.Color = Black] *)
Definition blackenRoot (t : RBNode) : RBNode :=
  match t with
  | RBNil => RBNil
  | RBN _ l s r => RBN Black l s r
  end.

(** The descent of [Insert]: left when the new ID is smaller, right
    otherwise, until the sentinel. *)
Fixpoint descend (h : heap) (id : Z) (current : RBNode) (path : list Frame)
  : list Frame :=
  match current with
  | RBNil => path
  | RBN c l s r =>
      if id <? ID (deref h s)
      then descend h id l (InLeft c s r :: path)
      else descend h id r (InRight c l s :: path)
  end.

(** The loop of [fixInsert], by recursion on the path above the node
    [RBN xc xl xs xr].  With a red parent that has no parent of its own, the
    code reads a field of the sentinel's nil child and panics: [None]. *)
Fixpoint fixInsert_loop (xc : Color) (xl : RBNode) (xs : ptr) (xr : RBNode)
  (path : list Frame) : option RBNode :=
  let node := RBN xc xl xs xr in
  match path with
  | [] => Some node
  | f1 :: above =>
      if isRed (frameColor f1) then
        match above with
        | [] => None
        | InLeft gc gs uncle :: up =>
            (* node.Parent == node.Parent.Parent.Left *)
            match uncle with
            | RBN Red ul us ur =>
                let parent :=
                  match f1 with
                  | InLeft _ ps pr => RBN Black node ps pr
                  | InRight _ pl ps => RBN Black pl ps node
                  end in
                let uncle' := RBN Black ul us ur in
                match up with
                | [] => Some (RBN Red parent gs uncle')
                | _ => fixInsert_loop Red parent gs uncle' up
                end
            | _ =>
                match f1 with
                | InLeft _ ps pr =>
                    (* rightRotate(grandparent) *)
                    Some (plug (RBN Black node ps (RBN Red pr gs uncle)) up)
                | InRight pc pl ps =>
                    (* leftRotate(parent), then rightRotate(grandparent) *)
                    Some (plug (RBN Black (RBN pc pl ps xl) xs
                                    (RBN Red xr gs uncle)) up)
                end
            end
        | InRight gc uncle gs :: up =>
            match uncle with
            | RBN Red ul us ur =>
                let parent :=
                  match f1 with
                  | InLeft _ ps pr => RBN Black node ps pr
                  | InRight _ pl ps => RBN Black pl ps node
                  end in
                let uncle' := RBN Black ul us ur in
                match up with
                | [] => Some (RBN Red uncle' gs parent)
                | _ => fixInsert_loop Red uncle' gs parent up
                end
            | _ =>
                match f1 with
                | InRight _ pl ps =>
                    (* leftRotate(grandparent) *)
                    Some (plug (RBN Black (RBN Red uncle gs pl) ps node) up)
                | InLeft pc ps pr =>
                    (* rightRotate(parent), then leftRotate(grandparent) *)
                    Some (plug (RBN Black (RBN Red uncle gs xl) xs
                                    (RBN pc xr ps pr)) up)
                end
            end
        end
      else Some (plug node path)
  end.

Definition fixInsert (xs : ptr) (path : list Frame) : option RBNode :=
  blackenRoot <$> fixInsert_loop Red RBNil xs RBNil path.

(** [t.Insert(shard)] *)
Definition RBTree_Insert (h : heap) (t : RBTree) (shard : ptr) : option RBTree :=
  fixInsert shard (descend h (ID (deref h shard)) t []).

Fixpoint RBTree_FindShard (h : heap) (t : RBNode) (id : Z) : option ptr :=
  match t with
  | RBNil => None
  | RBN _ l s r =>
      if id =? ID (deref h s) then Some s
      else if id <? ID (deref h s) then RBTree_FindShard h l id
      else RBTree_FindShard h r id
  end.

Fixpoint inOrderTraversal (node : RBNode) : list ptr :=
  match node with
  | RBNil => []
  | RBN _ l s r => inOrderTraversal l ++ s :: inOrderTraversal r
  end.

Definition GetAllShards (t : RBTree) : list ptr := inOrderTraversal t.

(** The shards to the left and to the right of the position a path leads
    to, in enumeration order. *)
Fixpoint ctxL (path : list Frame) : list ptr :=
  match path with
  | [] => []
  | InLeft _ _ _ :: up => ctxL up
  | InRight _ l s :: up => ctxL up ++ inOrderTraversal l ++ [s]
  end.

Fixpoint ctxR (path : list Frame) : list ptr :=
  match path with
  | [] => []
  | InLeft _ s r :: up => s :: inOrderTraversal r ++ ctxR up
  | InRight _ _ _ :: up => ctxR up
  end.

(** The frame next to the root, when there is one, is black. *)
Definition topBlack (path : list Frame) : Prop :=
  match last path with
  | None => True
  | Some f => frameColor f = Black
  end.

Global Arguments RBTree_Insert : simpl never.
Global Arguments NewMerkleTree : simpl never.
Global Arguments Shard_AddBlock : simpl never.
Global Arguments deref : simpl never.
Global Arguments store : simpl never.

(** ** The shard manager *)

Record ShardManager := mkShardManager { Shards : RBTree }.

Definition NewShardManager (h : heap) : option (ShardManager * heap) :=
  let tree := NewRBTree in
  let '(shard, h1) := alloc h (NewShard 0) in
  tree1 ← RBTree_Insert h1 tree shard;
  Some (mkShardManager tree1, h1).

(** The body of the loop of [RebalanceShards]; the state is the store, the
    tree under construction and [shardIDCounter]. *)
Definition rebalance_step (st : heap * RBTree * Z) (shard : ptr)
  : option (heap * RBTree * Z) :=
  let '(h, newTree, shardIDCounter) := st in
  let blocks := Blocks (deref h shard) in
  if MaxBlocksPerShard <? Z.of_nat (length blocks) then
    let mid := (length blocks / 2)%nat in
    let leftBlocks := take mid blocks in
    let rightBlocks := drop mid blocks in
    let h1 := store h shard (set_Blocks (deref h shard) leftBlocks) in
    let h2 := store h1 shard
                (set_Tree (deref h1 shard) (NewMerkleTree (getDataStrings leftBlocks))) in
    tree1 ← RBTree_Insert h2 newTree shard;
    let '(newShard, h3) := alloc h2 (NewShard shardIDCounter) in
    let h4 := fold_left (fun hh b => Shard_AddBlock hh newShard b) rightBlocks h3 in
    tree2 ← RBTree_Insert h4 tree1 newShard;
    Some (h4, tree2, shardIDCounter + 1)
  else
    tree1 ← RBTree_Insert h newTree shard;
    Some (h, tree1, shardIDCounter).

Fixpoint rebalance_loop (st : heap * RBTree * Z) (shards : list ptr)
  : option (heap * RBTree * Z) :=
  match shards with
  | [] => Some st
  | shard :: rest => st1 ← rebalance_step st shard; rebalance_loop st1 rest
  end.

Definition RebalanceShards (sm : ShardManager) (h : heap)
  : option (ShardManager * heap) :=
  let currentShards := GetAllShards (Shards sm) in
  let newTree := NewRBTree in
  let shardIDCounter := Z.of_nat (length currentShards) in
  '(h1, tree1, _) ← rebalance_loop (h, newTree, shardIDCounter) currentShards;
  Some (mkShardManager tree1, h1).

(** [shards[len(shards)-1]] panics when the enumeration is empty: [None]. *)
Definition DistributeBlock (sm : ShardManager) (h : heap) (block : Block)
  : option (ShardManager * heap) :=
  let shards := GetAllShards (Shards sm) in
  lastShard ← last shards;
  let h1 := Shard_AddBlock h lastShard block in
  RebalanceShards sm h1.

(** The body of the loop of [MergeShards] at index [i]; [used] is the Go
    map [map[int]bool], read with [false] for an absent key. *)
Definition merge_step (threshold : Z) (currentShards : list ptr)
  (st : heap * RBTree * gmap nat bool) (i : nat)
  : option (heap * RBTree * gmap nat bool) :=
  let '(h, newTree, used) := st in
  if default false (used !! i) then Some st
  else
    current ← currentShards !! i;
    if (Z.of_nat (length (Blocks (deref h current))) <? threshold)
       && (Z.of_nat i + 1 <? Z.of_nat (length currentShards))
       && negb (default false (used !! S i))
    then
      next ← currentShards !! S i;
      let '(merged, h1) := alloc h (NewShard (ID (deref h current))) in
      let h2 := store h1 merged
                  (set_Blocks (deref h1 merged)
                     (Blocks (deref h1 current) ++ Blocks (deref h1 next))) in
      let data := getDataStrings (Blocks (deref h2 merged)) in
      let h3 := store h2 merged (set_Tree (deref h2 merged) (NewMerkleTree data)) in
      tree1 ← RBTree_Insert h3 newTree merged;
      Some (h3, tree1, <[S i := true]> (<[i := true]> used))
    else
      tree1 ← RBTree_Insert h newTree current;
      Some (h, tree1, <[i := true]> used).

Fixpoint merge_loop (threshold : Z) (currentShards : list ptr)
  (st : heap * RBTree * gmap nat bool) (indices : list nat)
  : option (heap * RBTree * gmap nat bool) :=
  match indices with
  | [] => Some st
  | i :: rest =>
      st1 ← merge_step threshold currentShards st i;
      merge_loop threshold currentShards st1 rest
  end.

Definition MergeShards (sm : ShardManager) (h : heap) (threshold : Z)
  : option (ShardManager * heap) :=
  let currentShards := GetAllShards (Shards sm) in
  let newTree := NewRBTree in
  '(h1, tree1, _) ← merge_loop threshold currentShards (h, newTree, ∅)
                               (seq 0 (length currentShards));
  Some (mkShardManager tree1, h1).

Definition ShardManager_FindShard (sm : ShardManager) (h : heap) (id : Z)
  : option ptr :=
  RBTree_FindShard h (Shards sm) id.

Definition ReconstructState (sm : ShardManager) (h : heap) (shardID : Z)
  : string * bool :=
  match ShardManager_FindShard sm h shardID with
  | None => ("", false)
  | Some shard => (Shard_GetRoot h shard, true)
  end.

(** Sequences of manager operations. *)
Inductive Op :=
| OpDistribute (block : Block)
| OpRebalance
| OpMerge (threshold : Z).

Definition run_op (st : ShardManager * heap) (op : Op)
  : option (ShardManager * heap) :=
  match op with
  | OpDistribute block => DistributeBlock (fst st) (snd st) block
  | OpRebalance => RebalanceShards (fst st) (snd st)
  | OpMerge threshold => MergeShards (fst st) (snd st) threshold
  end.

Fixpoint run_ops (st : ShardManager * heap) (ops : list Op)
  : option (ShardManager * heap) :=
  match ops with
  | [] => Some st
  | op :: rest => st1 ← run_op st op; run_ops st1 rest
  end.

(** The manager after [ops], starting from [NewShardManager] on an empty
    store. *)
Definition run_from_new (ops : list Op) : option (ShardManager * heap) :=
  st ← NewShardManager []; run_ops st ops.

(** What an enumeration shows: the shards behind the pointers. *)
Definition shard_view (st : ShardManager * heap) : list Shard :=
  map (deref (snd st)) (GetAllShards (Shards (fst st))).

Definition shard_ids (st : ShardManager * heap) : list Z :=
  map ID (shard_view st).

Global Arguments rebalance_step : simpl never.
Global Arguments merge_step : simpl never.

(** ** [core/homomorphic_auth.go]: the authenticator *)

Record HomomorphicCommitment := mkCommitment {
  hc_Value : string;
  hc_Commitment : string }.

Record HomomorphicAuthenticator := mkAuthenticator { ha_key : list Z }.

Definition NewHomomorphicAuthenticator (key : string) : HomomorphicAuthenticator :=
  mkAuthenticator (bytes_of_string key).

Definition AuthenticateData (ha : HomomorphicAuthenticator) (data : string) : string :=
  hex_EncodeToString (hmac_sha256 (ha_key ha) (bytes_of_string data)).

(** [hmac.Equal]: equal length and equal bytes. *)
Definition hmac_Equal (mac1 mac2 : list Z) : bool := bool_decide (mac1 = mac2).

Definition VerifyAuthentication (ha : HomomorphicAuthenticator)
  (data commitment : string) : bool :=
  let expected := AuthenticateData ha data in
  hmac_Equal (bytes_of_string commitment) (bytes_of_string expected).

Definition CombineCommitments (ha : HomomorphicAuthenticator)
  (commitments : list HomomorphicCommitment) : HomomorphicCommitment :=
  let '(combinedValue, combinedData) :=
    fold_left (fun acc c =>
                 ((fst acc ++ hc_Value c)%string, (snd acc ++ hc_Commitment c)%string))
              commitments ("", "") in
  let combinedCommitment := AuthenticateData ha combinedData in
  mkCommitment combinedValue combinedCommitment.

(** ** The basic sync manager *)

(** [source.Blocks[blockIndex]] for an index already checked to be in range. *)
Definition block_at (blocks : list Block) (i : Z) : Block :=
  nth (Z.to_nat i) blocks (mkBlock 0 "" "" "" "").

(** [SyncBlock] on the store with the block lists by value;
    [Slices.SyncBlock] is the same function on slices. *)
Definition SyncBlock (h : heap) (source destination : ptr) (blockIndex : Z)
  : bool * heap :=
  if (blockIndex <? 0) || (Z.of_nat (length (Blocks (deref h source))) <=? blockIndex)
  then (false, h)
  else
    let block := block_at (Blocks (deref h source)) blockIndex in
    let h1 := Shard_AddBlock h destination block in
    let i := Z.to_nat blockIndex in
    let h2 := store h1 source
                (set_Blocks (deref h1 source)
                   (take i (Blocks (deref h1 source))
                    ++ drop (S i) (Blocks (deref h1 source)))) in
    let sourceData := getDataStrings (Blocks (deref h2 source)) in
    let destData := getDataStrings (Blocks (deref h2 destination)) in
    let h3 := store h2 source (set_Tree (deref h2 source) (NewMerkleTree sourceData)) in
    let h4 := store h3 destination
                (set_Tree (deref h3 destination) (NewMerkleTree destData)) in
    (true, h4).

(** ** The two-phase transfer manager *)

Record TransferState := mkTransferState {
  SourceShard : ptr;
  DestShard : ptr;
  BlockIndex : Z;
  Commitment : string;
  Prepared : bool;
  SourceSnapshot : list Block;
  DestSnapshot : list Block }.

Record EnhancedSyncManager := mkESM {
  authenticator : HomomorphicAuthenticator;
  pendingTransfers : gmap string TransferState }.

Definition NewEnhancedSyncManager (key : string) : EnhancedSyncManager :=
  mkESM (NewHomomorphicAuthenticator key) ∅.

(** [fmt.Sprintf("%d-%d-%d", source.ID, destination.ID, blockIndex)] *)
Definition transferID (h : heap) (source destination : ptr) (blockIndex : Z) : string :=
  (Itoa (ID (deref h source)) ++ "-" ++ Itoa (ID (deref h destination)) ++ "-"
   ++ Itoa blockIndex)%string.

(** [fmt.Sprintf("%s:%s", block.Hash, block.Data)] *)
Definition partialState (block : Block) : string :=
  (Hash block ++ ":" ++ Data block)%string.

Definition set_Prepared (ts : TransferState) (b : bool) : TransferState :=
  mkTransferState (SourceShard ts) (DestShard ts) (BlockIndex ts) (Commitment ts) b
                  (SourceSnapshot ts) (DestSnapshot ts).

(** [prepareTransfer]: the verdict and the transfer state, marked prepared
    on success, of a call that returns.  The two shard mutexes it locks are
    left out here; [prepareTransfer_run] below has them, and says when the
    call returns. *)
Definition prepareTransfer (esm : EnhancedSyncManager) (h : heap) (state : TransferState)
  : bool * TransferState :=
  let block := block_at (Blocks (deref h (SourceShard state))) (BlockIndex state) in
  if negb (VerifyAuthentication (authenticator esm) (partialState block) (Commitment state))
  then (false, state)
  else (true, set_Prepared state true).

Definition set_pending (esm : EnhancedSyncManager) (m : gmap string TransferState)
  : EnhancedSyncManager :=
  mkESM (authenticator esm) m.

(** [CreateAuthenticatedTransfer], the value of a call that returns; the
    store is only read. *)
Definition CreateAuthenticatedTransfer (esm : EnhancedSyncManager) (h : heap)
  (source destination : ptr) (blockIndex : Z) : bool * EnhancedSyncManager :=
  if (blockIndex <? 0) || (Z.of_nat (length (Blocks (deref h source))) <=? blockIndex)
  then (false, esm)
  else
    let block := block_at (Blocks (deref h source)) blockIndex in
    let commitment := AuthenticateData (authenticator esm) (partialState block) in
    let id := transferID h source destination blockIndex in
    let transferState :=
      mkTransferState source destination blockIndex commitment false
                      (Blocks (deref h source)) (Blocks (deref h destination)) in
    let esm1 := set_pending esm (<[id := transferState]> (pendingTransfers esm)) in
    let '(ok, transferState1) := prepareTransfer esm1 h transferState in
    let esm2 := set_pending esm1 (<[id := transferState1]> (pendingTransfers esm1)) in
    if negb ok
    then (false, set_pending esm2 (delete id (pendingTransfers esm2)))
    else (true, esm2).

(** The rollback path of [VerifyAndApplyTransfer]. *)
Definition rollback (h : heap) (source destination : ptr) (ts : TransferState) : heap :=
  let h1 := store h source (set_Blocks (deref h source) (SourceSnapshot ts)) in
  let h2 := store h1 destination (set_Blocks (deref h1 destination) (DestSnapshot ts)) in
  let sourceData := getDataStrings (Blocks (deref h2 source)) in
  let destData := getDataStrings (Blocks (deref h2 destination)) in
  let h3 := store h2 source (set_Tree (deref h2 source) (NewMerkleTree sourceData)) in
  store h3 destination (set_Tree (deref h3 destination) (NewMerkleTree destData)).

Definition VerifyAndApplyTransfer (esm : EnhancedSyncManager) (h : heap)
  (source destination : ptr) (blockIndex : Z)
  : bool * EnhancedSyncManager * heap :=
  let id := transferID h source destination blockIndex in
  match pendingTransfers esm !! id with
  | None => (false, esm, h)
  | Some transferState =>
      if negb (Prepared transferState) then (false, esm, h)
      else if (blockIndex <? 0)
              || (Z.of_nat (length (Blocks (deref h source))) <=? blockIndex)
      then (false, esm, h)
      else
        let '(committed, h1) :=
          if VerifyAuthentication (authenticator esm)
               (partialState (block_at (Blocks (deref h source)) blockIndex))
               (Commitment transferState)
          then SyncBlock h source destination blockIndex
          else (false, h) in
        if committed
        then (true, set_pending esm (delete id (pendingTransfers esm)), h1)
        else (false, set_pending esm (delete id (pendingTransfers esm)),
              rollback h1 source destination transferState)
  end.

(** ** Shards on Go's slices

    [Shard.Blocks] is a slice: a window of [len] elements on a backing
    array, from an offset up to which the array may hold spare capacity.
    Two slices can share an array: [MergeShards] appends the blocks of the
    next shard into the spare capacity of the current one, so that the merged
    shard and the shard it replaces lie on one array.  The definitions of
    this module keep the arrays, to say when the by-value store above does
    what the code does.

    [append] grows a full slice into a new array; how much spare capacity
    the runtime gives it is an input, [spare]. *)

Module Slices.

Record Slice := mkSlice {
  sl_array : nat;
  sl_offset : nat;
  sl_len : nat }.

Record SliceShard := mkSliceShard {
  ss_ID : Z;
  ss_Blocks : Slice;
  ss_Tree : option MerkleTree }.

Record Memory := mkMemory {
  arrays : list (list Block);
  shards : list SliceShard }.

Definition array_at (arrs : list (list Block)) (s : Slice) : list Block :=
  default [] (arrs !! sl_array s).

(** [cap(s)] and the elements of [s]. *)
Definition cap (arrs : list (list Block)) (s : Slice) : nat :=
  (length (array_at arrs s) - sl_offset s)%nat.

Definition contents (arrs : list (list Block)) (s : Slice) : list Block :=
  take (sl_len s) (drop (sl_offset s) (array_at arrs s)).

(** [s[lo:hi]] *)
Definition reslice (s : Slice) (lo hi : nat) : Slice :=
  mkSlice (sl_array s) (sl_offset s + lo) (hi - lo).

Definition overwrite (arr : list Block) (pos : nat) (elems : list Block)
  : list Block :=
  take pos arr ++ elems ++ drop (pos + length elems) arr.

(** [append(s, elems...)]: in place when the capacity allows, else into a
    new array, zeroed beyond the elements.  The elements are read before
    anything is written. *)
Definition append (spare : nat -> nat) (arrs : list (list Block)) (s : Slice)
    (elems : list Block) : list (list Block) * Slice :=
  let n := (sl_len s + length elems)%nat in
  if (n <=? cap arrs s)%nat
  then (<[sl_array s := overwrite (array_at arrs s) (sl_offset s + sl_len s) elems]> arrs,
        mkSlice (sl_array s) (sl_offset s) n)
  else (arrs ++ [contents arrs s ++ elems ++ replicate (spare n) (mkBlock 0 "" "" "" "")],
        mkSlice (length arrs) 0 n).

Definition sderef (m : Memory) (p : ptr) : SliceShard :=
  default (mkSliceShard 0 (mkSlice 0 0 0) None) (shards m !! p).

Definition blocks (m : Memory) (p : ptr) : list Block :=
  contents (arrays m) (ss_Blocks (sderef m p)).

Definition set_Tree (m : Memory) (p : ptr) (t : MerkleTree) : Memory :=
  mkMemory (arrays m)
           (<[p := mkSliceShard (ss_ID (sderef m p)) (ss_Blocks (sderef m p)) (Some t)]>
              (shards m)).

(** [s.AddBlock(block)] *)
Definition Shard_AddBlock (spare : nat -> nat) (m : Memory) (s : ptr) (block : Block)
  : Memory :=
  let '(arrs, sl) := append spare (arrays m) (ss_Blocks (sderef m s)) [block] in
  let m1 := mkMemory arrs
              (<[s := mkSliceShard (ss_ID (sderef m s)) sl (ss_Tree (sderef m s))]>
                 (shards m)) in
  let data := getDataStrings (blocks m1 s) in
  set_Tree m1 s (NewMerkleTree data).

Definition SyncBlock (spare : nat -> nat) (m : Memory) (source destination : ptr)
    (blockIndex : Z) : bool * Memory :=
  if (blockIndex <? 0) || (Z.of_nat (sl_len (ss_Blocks (sderef m source))) <=? blockIndex)
  then (false, m)
  else
    let block := block_at (blocks m source) blockIndex in
    let m1 := Shard_AddBlock spare m destination block in
    let i := Z.to_nat blockIndex in
    let src := ss_Blocks (sderef m1 source) in
    let '(arrs, sl) :=
      append spare (arrays m1) (reslice src 0 i)
             (contents (arrays m1) (reslice src (S i) (sl_len src))) in
    let m2 := mkMemory arrs
                (<[source := mkSliceShard (ss_ID (sderef m1 source)) sl
                                          (ss_Tree (sderef m1 source))]>
                   (shards m1)) in
    let sourceData := getDataStrings (blocks m2 source) in
    let destData := getDataStrings (blocks m2 destination) in
    let m3 := set_Tree m2 source (NewMerkleTree sourceData) in
    let m4 := set_Tree m3 destination (NewMerkleTree destData) in
    (true, m4).

(** The store the memory stands for, block lists by value. *)
Definition abs (m : Memory) : heap :=
  map (fun s => mkShard (ss_ID s) (contents (arrays m) (ss_Blocks s)) (ss_Tree s))
      (shards m).

(** A slice within its array; a memory in which every slice is, and no two
    shards lie on one array. *)
Definition valid (arrs : list (list Block)) (s : Slice) : Prop :=
  (sl_array s < length arrs)%nat
  /\ (sl_offset s + sl_len s <= length (array_at arrs s))%nat.

Definition separate (m : Memory) : Prop :=
  Forall (fun s => valid (arrays m) (ss_Blocks s)) (shards m)
  /\ NoDup (map (fun s => sl_array (ss_Blocks s)) (shards m)).

End Slices.

(** The memory after [DistributeBlock] has given blocks [b0 .. b3] to a
    fresh manager and [MergeShards(3)] has run.  The fourth block made
    [RebalanceShards] split shard 0, which kept [Blocks[:2]] on its array of
    four; the merge then appended the two blocks of shard 1 into that spare
    capacity.  So the merged shard (at 1 here, with the ID of shard 0) and
    the shard 0 it replaces in the index (at 0, still held by whoever
    looked it up before) lie on one array. *)
Definition merged_memory (b0 b1 b2 b3 : Block) : Slices.Memory :=
  Slices.mkMemory
    [[b0; b1; b2; b3]]
    [Slices.mkSliceShard 0 (Slices.mkSlice 0 0 2)
       (Some (NewMerkleTree (getDataStrings [b0; b1])));
     Slices.mkSliceShard 0 (Slices.mkSlice 0 0 4)
       (Some (NewMerkleTree (getDataStrings [b0; b1; b2; b3])))].

(** Two shards on an array each: one block, and none with room for two. *)
Definition separate_memory (b0 : Block) : Slices.Memory :=
  Slices.mkMemory
    [[b0]; [mkBlock 0 "" "" "" ""; mkBlock 0 "" "" "" ""]]
    [Slices.mkSliceShard 0 (Slices.mkSlice 0 0 1) None;
     Slices.mkSliceShard 1 (Slices.mkSlice 1 0 0) None].
(** ** The shard mutexes taken by the transfer manager

    [prepareTransfer] locks the mutex of the source shard and then the mutex
    of the destination shard, and releases both when it returns.  A
    [sync.Mutex] is not reentrant: a goroutine that locks a mutex it holds
    blocks for ever.  Every method of the package releases what it has
    locked when it returns, so a call starts with no shard mutex held; a
    mutex is named by the shard it belongs to.  The mutex of the manager
    itself is taken once per call: it plays no part in a call that returns,
    and a call that blocks keeps it, with the entry it has just stored in
    the table, for ever. *)

Inductive Run (A : Type) : Type :=
  | Returns (a : A)
  | BlocksForever.

Arguments Returns {A} a.
Arguments BlocksForever {A}.

(** [m.Lock()] by a goroutine that holds the mutexes [held]. *)
Definition mutex_Lock (held : list ptr) (m : ptr) : Run (list ptr) :=
  if bool_decide (m ∈ held) then BlocksForever else Returns (m :: held).

(** [prepareTransfer] with its locks. *)
Definition prepareTransfer_run (esm : EnhancedSyncManager) (h : heap)
    (state : TransferState) : Run (bool * TransferState) :=
  let block := block_at (Blocks (deref h (SourceShard state))) (BlockIndex state) in
  if negb (VerifyAuthentication (authenticator esm) (partialState block) (Commitment state))
  then Returns (false, state)
  else
    match mutex_Lock [] (SourceShard state) with
    | BlocksForever => BlocksForever
    | Returns held =>
        match mutex_Lock held (DestShard state) with
        | BlocksForever => BlocksForever
        | Returns _ => Returns (true, set_Prepared state true)
        end
    end.

(** [CreateAuthenticatedTransfer] with the locks of [prepareTransfer]. *)
Definition CreateAuthenticatedTransfer_run (esm : EnhancedSyncManager) (h : heap)
    (source destination : ptr) (blockIndex : Z) : Run (bool * EnhancedSyncManager) :=
  if (blockIndex <? 0) || (Z.of_nat (length (Blocks (deref h source))) <=? blockIndex)
  then Returns (false, esm)
  else
    let block := block_at (Blocks (deref h source)) blockIndex in
    let commitment := AuthenticateData (authenticator esm) (partialState block) in
    let id := transferID h source destination blockIndex in
    let transferState :=
      mkTransferState source destination blockIndex commitment false
                      (Blocks (deref h source)) (Blocks (deref h destination)) in
    let esm1 := set_pending esm (<[id := transferState]> (pendingTransfers esm)) in
    match prepareTransfer_run esm1 h transferState with
    | BlocksForever => BlocksForever
    | Returns (ok, transferState1) =>
        let esm2 := set_pending esm1 (<[id := transferState1]> (pendingTransfers esm1)) in
        if negb ok
        then Returns (false, set_pending esm2 (delete id (pendingTransfers esm2)))
        else Returns (true, esm2)
    end.
(** ** The succinct trie

    [Children] is the Go map [map[byte]*TrieNode]; a byte is its value in
    [Z].  Nodes are owned by the trie, so in-place updates become rebuilt
    nodes. *)

#[warnings="-register-all"]
Inductive TrieNode := mkTrieNode {
  tn_Children : gmap Z TrieNode;
  tn_Value : string;
  tn_Hash : string }.

Record SuccinctTrie := mkTrie { st_Root : TrieNode }.

Definition emptyTrieNode : TrieNode := mkTrieNode ∅ "" "".

Definition NewSuccinctTrie : SuccinctTrie := mkTrie emptyTrieNode.

(** [computeNodeHash]: the value, then for each child its byte converted with
    [string(b)] and its digest.  Go leaves the iteration order of a map
    unspecified; the order here is that of [map_to_list]. *)
Definition computeNodeHash (node : TrieNode) : string :=
  let data :=
    fold_left (fun data bc =>
                 (data ++ go_string_of_int (fst bc) ++ tn_Hash (snd bc))%string)
              (map_to_list (tn_Children node)) (tn_Value node) in
  sha256_hex data.

(** [updateHashes]: children first, then the node itself. *)
Fixpoint updateHashes (node : TrieNode) : TrieNode :=
  let children := updateHashes <$> tn_Children node in
  let node1 := mkTrieNode children (tn_Value node) (tn_Hash node) in
  mkTrieNode children (tn_Value node) (computeNodeHash node1).

(** The walk of [Insert] below [current], creating missing children; at the
    end of the key the value is stored and the digest of that node
    recomputed. *)
Fixpoint insert_at (current : TrieNode) (keyBytes : list Z) (value : string) : TrieNode :=
  match keyBytes with
  | [] =>
      let node1 := mkTrieNode (tn_Children current) value (tn_Hash current) in
      mkTrieNode (tn_Children current) value (computeNodeHash node1)
  | b :: rest =>
      let child :=
        match tn_Children current !! b with
        | Some next => next
        | None => emptyTrieNode
        end in
      mkTrieNode (<[b := insert_at child rest value]> (tn_Children current))
                 (tn_Value current) (tn_Hash current)
  end.

Definition SuccinctTrie_Insert (st : SuccinctTrie) (key value : string) : SuccinctTrie :=
  mkTrie (updateHashes (insert_at (st_Root st) (bytes_of_string key) value)).

Fixpoint get_at (current : TrieNode) (keyBytes : list Z) : string * bool :=
  match keyBytes with
  | [] => if String.eqb (tn_Value current) "" then ("", false)
          else (tn_Value current, true)
  | b :: rest =>
      match tn_Children current !! b with
      | Some next => get_at next rest
      | None => ("", false)
      end
  end.

Definition SuccinctTrie_Get (st : SuccinctTrie) (key : string) : string * bool :=
  get_at (st_Root st) (bytes_of_string key).

Definition GetMerkleRoot (st : SuccinctTrie) : string := tn_Hash (st_Root st).

(** ** Nodes and the leader election

    [BFTManager.Nodes] is a slice of pointers: a node is named by its
    position in it, and the election returns such a position ([None] for the
    nil pointer).  [Reputation] is a [float64], kept as its 64 bits; the
    election does not read it.  [LastResponse] is a clock reading. *)

Record Node := mkNode {
  node_ID : Z;
  Reputation : Z;
  Byzantine : bool;
  LastResponse : string }.

Record BFTManager := mkBFTManager { Nodes : list Node }.

Record ConsensusManager := mkConsensusManager { BFT : BFTManager }.

(** [for i, x := range l]: the elements with their positions. *)
Fixpoint indexed_from {A : Type} (k : nat) (l : list A) : list (nat * A) :=
  match l with
  | [] => []
  | a :: rest => (k, a) :: indexed_from (S k) rest
  end.

Definition indexed {A : Type} (l : list A) : list (nat * A) := indexed_from 0 l.

(** Go's [<] on strings: the byte-wise lexicographic order. *)
Fixpoint string_ltb (a b : string) : bool :=
  match a, b with
  | EmptyString, EmptyString => false
  | EmptyString, String _ _ => true
  | String _ _, EmptyString => false
  | String x a', String y b' =>
      if (nat_of_ascii x <? nat_of_ascii y)%nat then true
      else if (nat_of_ascii y <? nat_of_ascii x)%nat then false
      else string_ltb a' b'
  end.

(** The score of a node: the digest of [fmt.Sprintf("%s-%d", nonce, node.ID)]. *)
Definition vrf_score (nonce : string) (node : Node) : string :=
  sha256_hex (nonce ++ "-" ++ Itoa (node_ID node)).

(** One round of the loop; the state is [(leader, highestScore)]. *)
Definition election_step (nonce : string) (st : option nat * string)
    (entry : nat * Node) : option nat * string :=
  let '(leader, highestScore) := st in
  let '(i, node) := entry in
  if Byzantine node then st
  else
    let score := vrf_score nonce node in
    if string_ltb highestScore score then (Some i, score) else st.

Definition simulateVRFLeaderElection (cm : ConsensusManager) (nonce : string)
  : option nat :=
  fst (fold_left (election_step nonce) (indexed (Nodes (BFT cm))) (None, "")).

(** ** [core/homomorphic_auth.go]: Shamir's secret sharing

    The modulus is the one [NewMPCProtocol] draws with [rand.Prime]: an input
    [prime], a positive number, which the definitions below take for granted.
    The random coefficients drawn by [rand.Int] are an input too: [random i]
    is the coefficient of degree [i]. *)

Record MPCProtocol := mkMPC {
  Participants : list Node;
  Threshold : Z;
  SecretShares : gmap Z Z;
  Prime : Z }.

Definition NewMPCProtocol (participants : list Node) (threshold : Z) (prime : Z)
  : MPCProtocol :=
  mkMPC participants threshold ∅ prime.

(** [make([]*big.Int, degree+1)] panics for a negative length, and
    [coefficients[0]] for the length zero: [None].  The limits of memory are
    not modelled. *)
Definition generatePolynomial (mpc : MPCProtocol) (secret : Z) (degree : Z)
    (random : nat -> Z) : option (list Z) :=
  if wrap_int (degree + 1) <=? 0 then None
  else Some (secret :: map random (seq 1 (Z.to_nat degree))).

Definition evaluate_step (mpc : MPCProtocol) (xBig : Z) (result : Z)
    (entry : nat * Z) : Z :=
  let '(i, coefficient) := entry in
  let term := big_Exp xBig (Z.of_nat i) (Prime mpc) in
  let term := term * coefficient in
  let term := term mod Prime mpc in
  let result := result + term in
  result mod Prime mpc.

Definition evaluatePolynomial (mpc : MPCProtocol) (coefficients : list Z) (x : Z)
  : Z :=
  fold_left (evaluate_step mpc x) (indexed coefficients) 0.

Definition share_step (mpc : MPCProtocol) (coeffs : list Z) (shares : gmap Z Z)
    (participant : Node) : gmap Z Z :=
  let share := evaluatePolynomial mpc coeffs (wrap_int (node_ID participant + 1)) in
  <[node_ID participant := share]> shares.

Definition ShareSecret (mpc : MPCProtocol) (secret : Z) (random : nat -> Z)
  : option MPCProtocol :=
  coeffs ← generatePolynomial mpc secret (wrap_int (Threshold mpc - 1)) random;
  Some (mkMPC (Participants mpc) (Threshold mpc)
              (fold_left (share_step mpc coeffs) (Participants mpc) ∅)
              (Prime mpc)).

(** [new(big.Int).ModInverse(g, n)] for [n > 0]: the inverse of [g] modulo
    [n] in the range [0 .. n-1], or nil ([None]) when [g] and [n] have a
    common factor. *)
Definition ModInverse (g n : Z) : option Z :=
  if Z.gcd g n =? 1 then Some (Z.invmod g n) else None.

(** The inner loop of the interpolation: the state is
    [(numerator, denominator)], [px] is the abscissa of the point [i]. *)
Definition basis_step (mpc : MPCProtocol) (i : nat) (px : Z) (st : Z * Z)
    (entry : nat * (Z * Z)) : Z * Z :=
  let '(numerator, denominator) := st in
  let '(j, p2) := entry in
  if (i =? j)%nat then st
  else
    let term := (- fst p2) mod Prime mpc in
    let numerator := (numerator * term) mod Prime mpc in
    let term := (px - fst p2) mod Prime mpc in
    let denominator := (denominator * term) mod Prime mpc in
    (numerator, denominator).

(** The outer loop.  [ModInverse] returns nil for a denominator without an
    inverse, and the multiplication that follows dereferences it: [None]. *)
Definition interpolate_step (mpc : MPCProtocol) (points : list (Z * Z))
    (acc : option Z) (entry : nat * (Z * Z)) : option Z :=
  secret ← acc;
  let '(i, p) := entry in
  let nd := fold_left (basis_step mpc i (fst p)) (indexed points) (1, 1) in
  inverseDenom ← ModInverse (snd nd) (Prime mpc);
  let basis := (fst nd * inverseDenom) mod Prime mpc in
  let term := (basis * snd p) mod Prime mpc in
  Some ((secret + term) mod Prime mpc).

Inductive Reconstructed :=
  | Secret (secret : Z)
  | NotEnoughShares
  | ReconstructPanics.

(** [range shares] visits the entries of the map in an order the runtime
    chooses: [order], a listing of [shares].  The loop keeps the first
    [Threshold] entries; [make] with a negative capacity panics. *)
Definition ReconstructSecret (mpc : MPCProtocol) (shares : gmap Z Z)
    (order : list (Z * Z)) : Reconstructed :=
  if Z.of_nat (size shares) <? Threshold mpc then NotEnoughShares
  else if Threshold mpc <? 0 then ReconstructPanics
  else
    let points :=
      map (fun entry => (wrap_int (fst entry + 1), snd entry))
          (take (Z.to_nat (Threshold mpc)) order) in
    match fold_left (interpolate_step mpc points) (indexed points) (Some 0) with
    | Some secret => Secret secret
    | None => ReconstructPanics
    end.

(** [big.Int.Bytes]: the absolute value in big-endian bytes, without leading
    zeros. *)
Definition big_Bytes (x : Z) : list Z :=
  let n := Z.abs x in
  if n =? 0 then []
  else map (fun i => Z.land (Z.shiftr n (8 * Z.of_nat i)) 255)
           (rev (seq 0 (S (Z.to_nat (Z.log2 n / 8))))).

(** The loop that collects the shares of honest participants, at most
    [Threshold + 1] of them; the state is [(collectedShares,
    participantCount)].  The loop runs right after [ShareSecret], which has
    stored a share for every participant, so the lookup does not miss; the
    branch [None] is never taken. *)
Definition collect_step (mpc : MPCProtocol) (st : gmap Z Z * Z) (node : Node)
  : gmap Z Z * Z :=
  let '(collectedShares, participantCount) := st in
  if negb (Byzantine node) && (participantCount <? wrap_int (Threshold mpc + 1))
  then
    match SecretShares mpc !! node_ID node with
    | Some share =>
        (<[node_ID node := share]> collectedShares, wrap_int (participantCount + 1))
    | None => st
    end
  else st.

Definition collectShares (mpc : MPCProtocol) : gmap Z Z :=
  fst (fold_left (collect_step mpc) (Participants mpc) (∅, 0)).

(** [secretKey] is the random key drawn below [2^128]; [order] is the order
    in which [ReconstructSecret] visits the collected shares.  The result is
    [None] for a panic and the empty string when the shares do not suffice. *)
Definition SimulateMPCSignature (mpc : MPCProtocol) (message : string)
    (secretKey : Z) (random : nat -> Z) (order : list (Z * Z))
  : option (MPCProtocol * string) :=
  mpc' ← ShareSecret mpc secretKey random;
  match ReconstructSecret mpc' (collectShares mpc') order with
  | NotEnoughShares => Some (mpc', "")
  | ReconstructPanics => None
  | Secret reconstructed =>
      Some (mpc', hex_EncodeToString
                    (sha256 (bytes_of_string message ++ big_Bytes reconstructed)))
  end.
(** ** [core/merkle_tree.go]: the state pruner *)

Record PruningPolicy := mkPolicy {
  MaxHeight : Z;
  RetentionCount : Z;
  UseCheckpoints : bool }.

(** [Timestamp] is the reading of the clock, an input. *)
Record IntegrityProof := mkProof {
  RootHash : string;
  PrunedCount : Z;
  ip_Timestamp : string;
  Signature : string }.

Record StatePruner := mkPruner {
  policy : PruningPolicy;
  integrityProofs : list IntegrityProof;
  merkleRoot : string;
  secretKey : string }.

Definition NewStatePruner (maxHeight retention : Z) (useCheckpoints : bool) : StatePruner :=
  mkPruner (mkPolicy maxHeight retention useCheckpoints) [] "" "pruning-integrity-key".

(** A hash fed by successive [h.Write] calls digests the concatenation. *)
Definition createIntegrityProof (sp : StatePruner) (rootHash : string) (count : Z)
  (now : string) : IntegrityProof :=
  let signature := sha256_hex (rootHash ++ Itoa count ++ secretKey sp)%string in
  mkProof rootHash count now signature.

(** Go's [%] on [int]: the remainder of the truncated division. *)
Definition go_rem (a b : Z) : Z := Z.rem a b.

(** [PruneBlockchain] returns the pruner, the chain and the count.  A zero
    [MaxHeight] with checkpoints is a division by zero, and a drop count
    above the length of the chain indexes it out of range: both panic,
    [None]. *)
Definition PruneBlockchain (sp : StatePruner) (bc : Blockchain) (now : string)
  : option (StatePruner * Blockchain * Z) :=
  let len := Z.of_nat (length (bc_Blocks bc)) in
  if len <=? RetentionCount (policy sp) then Some (sp, bc, 0)
  else
    let prunableCount0 := wrap_int (len - RetentionCount (policy sp)) in
    prunableCount ←
      (if UseCheckpoints (policy sp) then
         if MaxHeight (policy sp) =? 0 then None
         else Some (wrap_int (prunableCount0
                              - go_rem prunableCount0 (MaxHeight (policy sp))))
       else Some prunableCount0);
    if prunableCount <=? 0 then Some (sp, bc, 0)
    else if len <? prunableCount then None
    else
      let dropped := take (Z.to_nat prunableCount) (bc_Blocks bc) in
      let rootHash := sha256_hex (concat_strings (map Hash dropped)) in
      let proof := createIntegrityProof sp rootHash prunableCount now in
      let sp1 := mkPruner (policy sp) (integrityProofs sp ++ [proof]) rootHash
                          (secretKey sp) in
      let bc1 := mkBlockchain (drop (Z.to_nat prunableCount) (bc_Blocks bc)) in
      Some (sp1, bc1, prunableCount).

Definition VerifyIntegrity (sp : StatePruner) (proof : IntegrityProof) : bool :=
  let expectedSig :=
    sha256_hex (RootHash proof ++ Itoa (PrunedCount proof) ++ secretKey sp)%string in
  String.eqb expectedSig (Signature proof).

Definition GetLatestProof (sp : StatePruner) : option IntegrityProof :=
  last (integrityProofs sp).

(** ** [core/adaptive_cap.go]: the state manager

    Active blocks are kept in a window of [MaxActiveCount] blocks; a block
    pushed out of the window is archived.  Both tries are owned by the
    manager. *)

Record ArchivedBlock := mkArchivedBlock {
  ab_Index : Z;
  ab_Data : string;
  ab_Hash : string }.

Record StateManager := mkStateManager {
  PrunedBlocks : list ArchivedBlock;
  ActiveBlocks : list Block;
  ActiveTrie : SuccinctTrie;
  ArchiveTrie : SuccinctTrie;
  MaxActiveCount : Z }.

Definition NewStateManager (maxActive : Z) : StateManager :=
  mkStateManager [] [] NewSuccinctTrie NewSuccinctTrie maxActive.

(** [sm.AddBlock(block)].  [sm.ActiveBlocks[0]] is read after the append, so
    the slice is not empty there. *)
Definition StateManager_AddBlock (sm : StateManager) (block : Block) : StateManager :=
  let active := ActiveBlocks sm ++ [block] in
  let activeTrie := SuccinctTrie_Insert (ActiveTrie sm) (Hash block) (Data block) in
  if MaxActiveCount sm <? Z.of_nat (length active) then
    let archived := hd block active in
    mkStateManager
      (PrunedBlocks sm
       ++ [mkArchivedBlock (Index archived) (Data archived) (Hash archived)])
      (tl active)
      activeTrie
      (SuccinctTrie_Insert (ArchiveTrie sm) (Hash archived) (Data archived))
      (MaxActiveCount sm)
  else
    mkStateManager (PrunedBlocks sm) active activeTrie (ArchiveTrie sm)
                   (MaxActiveCount sm).

Definition UpdateArchiveRoot (sm : StateManager) : StateManager :=
  mkStateManager (PrunedBlocks sm) (ActiveBlocks sm) (ActiveTrie sm)
                 (mkTrie (updateHashes (st_Root (ArchiveTrie sm))))
                 (MaxActiveCount sm).

Definition GetActiveRoot (sm : StateManager) : string := GetMerkleRoot (ActiveTrie sm).
Definition GetArchiveRoot (sm : StateManager) : string := GetMerkleRoot (ArchiveTrie sm).
(** ** [core/adaptive_cap.go]: vector clocks

    The clock is the Go map [map[string]uint64]; a missing node reads as 0.
    The counters are [N] with the 64-bit wrap-around written out. *)

Record VectorClock := mkVectorClock { vc_clock : gmap string N }.

Definition NewVectorClock : VectorClock := mkVectorClock ∅.

(** [clock[nodeID]] *)
Definition clock_at (clock : gmap string N) (nodeID : string) : N :=
  default 0%N (clock !! nodeID).

Definition wrap_uint64 (n : N) : N := (n mod 2 ^ 64)%N.

(** [vc.Update(nodeID)]: [vc.clock[nodeID]++] *)
Definition VectorClock_Update (vc : VectorClock) (nodeID : string) : VectorClock :=
  mkVectorClock
    (<[nodeID := wrap_uint64 (clock_at (vc_clock vc) nodeID + 1)]> (vc_clock vc)).

(** The body of the loop of [Merge] for one entry of the other clock. *)
Definition merge_entry (clock : gmap string N) (entry : string * N) : gmap string N :=
  if (clock_at clock (fst entry) <? snd entry)%N
  then <[fst entry := snd entry]> clock
  else clock.

(** [vc.Merge(other)], visiting the entries of [other] in the order
    [order]; Go leaves the order of a [range] over a map unspecified. *)
Definition Merge_in_order (vc : VectorClock) (order : list (string * N)) : VectorClock :=
  mkVectorClock (fold_left merge_entry order (vc_clock vc)).

Definition VectorClock_Merge (vc other : VectorClock) : VectorClock :=
  Merge_in_order vc (map_to_list (vc_clock other)).

(** [vc.Clone()] *)
Definition VectorClock_Clone (vc : VectorClock) : VectorClock :=
  mkVectorClock
    (fold_left (fun clone entry => <[fst entry := snd entry]> clone)
               (map_to_list (vc_clock vc)) (vc_clock NewVectorClock)).

Definition VectorClock_Get (vc : VectorClock) (nodeID : string) : N :=
  clock_at (vc_clock vc) nodeID.
(** ** [core/adaptive_cap.go]: the default capacity policy

    A [float64] is an IEEE 754 binary64 number: a [spec_float] of precision
    53 with exponents below 1024.  Every operation rounds to the nearest
    value, ties to even, on its own: the product and the difference are not
    fused, as on amd64. *)

Abbreviation float64 := spec_float (only parsing).

Definition f64_mul (x y : float64) : float64 := SFmul 53 1024 x y.
Definition f64_div (x y : float64) : float64 := SFdiv 53 1024 x y.
Definition f64_sub (x y : float64) : float64 := SFsub 53 1024 x y.

(** [x < y] on [float64]: false as soon as one side is not a number. *)
Definition f64_ltb (x y : float64) : bool := SFltb x y.
Definition f64_leb (x y : float64) : bool := SFleb x y.

(** The conversion [float64(i)] of an [int64]. *)
Definition float64_of_int (i : Z) : float64 := binary_normalize 53 1024 i 0 false.

Definition f64_NaN : float64 := S754_nan.

(** [Latency] is a [time.Duration]: a number of nanoseconds in an [int64].
    [Timestamp] is a clock reading and [VectorClock] a pointer that may be
    nil. *)
Record NetworkMetrics := mkNetworkMetrics {
  Latency : Z;
  Throughput : float64;
  ErrorRate : float64;
  nm_NodeID : string;
  nm_Timestamp : string;
  nm_VectorClock : option VectorClock }.

(** [Duration.Milliseconds]: the integer division of the nanoseconds by
    [1e6], truncated towards zero. *)
Definition Milliseconds (d : Z) : Z := Z.quot d 1000000.

Record DefaultAdaptivePolicy := mkDefaultAdaptivePolicy {
  baseCapacity : float64;
  maxCapacity : float64;
  latencyFactor : float64;
  errorFactor : float64 }.

Definition NewDefaultAdaptivePolicy : DefaultAdaptivePolicy :=
  mkDefaultAdaptivePolicy
    (float64_of_int 100)
    (float64_of_int 1000)
    (binary_normalize 53 1024 1 (-1) false)
    (float64_of_int 2).

Definition AdjustCapacity (p : DefaultAdaptivePolicy) (metrics : NetworkMetrics)
  : float64 :=
  let capacity := baseCapacity p in
  let latencyMs := float64_of_int (Milliseconds (Latency metrics)) in
  let latencyAdjustment :=
    f64_div (f64_mul (latencyFactor p) latencyMs) (float64_of_int 100) in
  let capacity := f64_sub capacity latencyAdjustment in
  let errorAdjustment :=
    f64_mul (f64_mul (errorFactor p) (ErrorRate metrics)) (baseCapacity p) in
  let capacity := f64_sub capacity errorAdjustment in
  let capacity := if f64_ltb capacity (float64_of_int 0) then float64_of_int 0
                  else capacity in
  let capacity := if f64_ltb (maxCapacity p) capacity then maxCapacity p
                  else capacity in
  capacity.

(** The metrics of a node with the given latency in milliseconds and error
    rate, the other fields left at their zero values. *)
Definition metrics_of (latency_ms : Z) (errorRate : float64) : NetworkMetrics :=
  mkNetworkMetrics (latency_ms * 1000000) (float64_of_int 0) errorRate "" "" None.
(** ** [core/probabilistic_verification.go] *)

Record ProofCompressingMerkleTree := mkPCMT { pcmt_tree : MerkleTree }.

Definition NewProofCompressingMerkleTree (data : list string)
  : ProofCompressingMerkleTree :=
  mkPCMT (NewMerkleTree data).

Definition PCMT_GetRootHash (pcmt : ProofCompressingMerkleTree) : string :=
  GetRootHash (pcmt_tree pcmt).

(** The loop over the leaves returns at the first leaf equal to the digest. *)
Fixpoint leaf_scan (hashStr : string) (leaves : list string) : bool :=
  match leaves with
  | [] => false
  | leaf :: rest => if String.eqb leaf hashStr then true else leaf_scan hashStr rest
  end.

Definition VerifyDataProbabilistic (pcmt : ProofCompressingMerkleTree) (data : string)
  : bool :=
  let hashStr := sha256_hex data in
  leaf_scan hashStr (mt_Leaves (pcmt_tree pcmt)).

(** The Bloom filter.  [size] and [hashFuncs] are [uint]; positions in
    [bits] are counted in [nat]. *)
Record BloomFilter := mkBloomFilter {
  bf_bits : list bool;
  bf_size : N;
  bf_hashFuncs : N }.

Definition NewBloomFilter (size hashFuncs : N) : BloomFilter :=
  mkBloomFilter (replicate (N.to_nat size) false) size hashFuncs.

(** [simpleHash]: the first eight bytes of the digest of the item followed
    by [string(seed)], the seed converted as a code point, read as a
    big-endian [uint64]. *)
Definition simpleHash (data : string) (seed : N) : N :=
  let hash := sha256 (bytes_of_string (data ++ go_string_of_int (Z.of_N seed))%string) in
  fold_left (fun result b => N.lor (N.shiftl result 8 mod 2 ^ 64) (Z.to_N b))
            (take 8 hash) 0%N.

(** [hash % uint64(bf.size)]: a zero size is a division by zero, a panic. *)
Definition bloom_index (bf : BloomFilter) (item : string) (i : N) : option nat :=
  if (bf_size bf =? 0)%N then None
  else Some (N.to_nat (simpleHash item i mod bf_size bf)).

(** The seeds of the loops [for i := uint(0); i < bf.hashFuncs; i++]. *)
Definition bloom_seeds (bf : BloomFilter) : list N :=
  map N.of_nat (seq 0 (N.to_nat (bf_hashFuncs bf))).

(** [bf.Add(item)]; an index outside [bits] panics. *)
Definition Add_step (bf : BloomFilter) (item : string) (i : N) : option BloomFilter :=
  index ← bloom_index bf item i;
  if decide (index < length (bf_bits bf))%nat
  then Some (mkBloomFilter (<[index := true]> (bf_bits bf)) (bf_size bf) (bf_hashFuncs bf))
  else None.

Fixpoint Add_loop (bf : BloomFilter) (item : string) (seeds : list N)
  : option BloomFilter :=
  match seeds with
  | [] => Some bf
  | i :: rest => bf1 ← Add_step bf item i; Add_loop bf1 item rest
  end.

Definition BloomFilter_Add (bf : BloomFilter) (item : string) : option BloomFilter :=
  Add_loop bf item (bloom_seeds bf).

(** [bf.Test(item)] returns false at the first bit that is not set. *)
Fixpoint Test_loop (bf : BloomFilter) (item : string) (seeds : list N) : option bool :=
  match seeds with
  | [] => Some true
  | i :: rest =>
      index ← bloom_index bf item i;
      bit ← bf_bits bf !! index;
      if negb bit then Some false else Test_loop bf item rest
  end.

Definition BloomFilter_Test (bf : BloomFilter) (item : string) : option bool :=
  Test_loop bf item (bloom_seeds bf).
(** ** The statements of the specification, and the demonstration run

    The formula of the specification for a block's digest, with the index
    written in decimal. *)
Definition spec_block_hash (b : Block) : string :=
  sha256_hex (Itoa (Index b) ++ Timestamp b ++ Data b ++ PrevHash b)%string.

(** The chain of [cmd/main.go]: the genesis block and eight appended blocks.
    The readings of the clock are fixed. *)
Definition demo_clock (i : Z) : string :=
  ("2025-05-11 10:00:0" ++ Itoa i ++ ".000000000 +0000 UTC m=+0.00" ++ Itoa i)%string.

Definition demo_payloads : list string :=
  [ "First Block after Genesis"; "Second Block"; "Third Block"; "Fourth Block";
    "Fifth Block"; "Sixth Block"; "Seventh Block"; "Eighth Block" ].

Fixpoint add_blocks (bc : Blockchain) (i : Z) (payloads : list string)
  : option Blockchain :=
  match payloads with
  | [] => Some bc
  | d :: rest => bc1 ← Blockchain_AddBlock bc d (demo_clock i); add_blocks bc1 (i + 1) rest
  end.

Definition demo_chain : list Block :=
  match add_blocks (NewBlockchain (demo_clock 0)) 1 demo_payloads with
  | Some bc => bc_Blocks bc
  | None => []
  end.

(** The accumulator of [TestAccumulator] after its first two elements. *)
Definition demo_accumulator : RSAAccumulator :=
  AddElement (AddElement NewRSAAccumulator "block_hash_1") "block_hash_2".

(** The commitments of the demonstration, and a third one. *)
Definition demo_auth : HomomorphicAuthenticator :=
  NewHomomorphicAuthenticator "secret-commitment-key".

Definition demo_commitment (s : string) : HomomorphicCommitment :=
  mkCommitment s (AuthenticateData demo_auth s).

(** A sequence of [Insert] calls, as (key, value) pairs in call order, and
    the trie it builds from a fresh one. *)
Definition trie_after (ops : list (string * string)) : SuccinctTrie :=
  fold_left (fun st kv => SuccinctTrie_Insert st (fst kv) (snd kv)) ops NewSuccinctTrie.

(** The value of the last [Insert] with key [k], if there is one. *)
Fixpoint last_inserted (ops : list (string * string)) (k : string) : option string :=
  match ops with
  | [] => None
  | (k', v) :: rest =>
      match last_inserted rest k with
      | Some v' => Some v'
      | None => if String.eqb k' k then Some v else None
      end
  end.

(** What [Get] answers at a node that holds [v]. *)
Definition get_result (v : string) : string * bool :=
  if String.eqb v "" then ("", false) else (v, true).

(** The lookup property as the specification states it. *)
Definition spec_trie_lookup (ops : list (string * string)) (k : string) : Prop :=
  (forall v, last_inserted ops k = Some v ->
             SuccinctTrie_Get (trie_after ops) k = (v, true))
  /\ (last_inserted ops k = None -> SuccinctTrie_Get (trie_after ops) k = ("", false)).

(** The range of Go's [int]. *)
Definition int_range (z : Z) : Prop := - 2 ^ 63 <= z < 2 ^ 63.

(** The drop count as the specification gives it: the length of the chain
    less the retention count, rounded down to a multiple of [MaxHeight] when
    checkpoints are used. *)
Definition spec_dropCount (p : PruningPolicy) (len : Z) : Z :=
  let d := len - RetentionCount p in
  if UseCheckpoints p then d - d mod MaxHeight p else d.

(** The chain of the pruning demonstration: the genesis block and twenty
    appended blocks. *)
Definition demo_prunable_chain : Blockchain :=
  let payloads :=
    map (fun i => ("Block " ++ Itoa i ++ " for pruning demo")%string)
        (map Z.of_nat (seq 0 20)) in
  match add_blocks (NewBlockchain (demo_clock 0)) 1 payloads with
  | Some bc => bc
  | None => mkBlockchain []
  end.

Definition demo_pruner : StatePruner := NewStatePruner 5 10 true.

Definition demo_pruned : StatePruner * Blockchain * Z :=
  match PruneBlockchain demo_pruner demo_prunable_chain (demo_clock 9) with
  | Some r => r
  | None => (demo_pruner, demo_prunable_chain, 0)
  end.

(** The demonstration of [cmd/main.go]: the nine blocks of the chain are
    distributed to a fresh manager, then block 0 of the first shard is moved
    to the second shard by a manager keyed with "secret-key-123". *)
Definition demo_state : ShardManager * heap :=
  match run_from_new (map OpDistribute demo_chain) with
  | Some st => st
  | None => (mkShardManager NewRBTree, [])
  end.

Definition demo_shards : list ptr := GetAllShards (Shards (fst demo_state)).
Definition demo_shard0 : ptr := nth 0 demo_shards 0%nat.
Definition demo_shard1 : ptr := nth 1 demo_shards 0%nat.

Definition demo_prepare : bool * EnhancedSyncManager :=
  CreateAuthenticatedTransfer (NewEnhancedSyncManager "secret-key-123")
    (snd demo_state) demo_shard0 demo_shard1 0.

Definition demo_commit : bool * EnhancedSyncManager * heap :=
  VerifyAndApplyTransfer (snd demo_prepare) (snd demo_state) demo_shard0 demo_shard1 0.

Definition demo_after_transfer : heap := snd demo_commit.

(** The second transfer of the demonstration, by a manager keyed with
    "wrong-key", on the shards as the first transfer left them. *)
Definition demo_faulty_prepare : bool * EnhancedSyncManager :=
  CreateAuthenticatedTransfer (NewEnhancedSyncManager "wrong-key")
    demo_after_transfer demo_shard0 demo_shard1 0.

Definition demo_faulty_commit : bool * EnhancedSyncManager * heap :=
  VerifyAndApplyTransfer (snd demo_faulty_prepare) demo_after_transfer
    demo_shard0 demo_shard1 0.

(** A store with a source shard of one block and an empty destination, a
    transfer prepared on it, and the store after the block has left the
    source by a plain [SyncBlock]. *)
Definition stale_heap0 : heap :=
  [mkShard 0 [GenesisBlock (demo_clock 0)] None; mkShard 1 [] None].

Definition stale_prepared : bool * EnhancedSyncManager :=
  CreateAuthenticatedTransfer (NewEnhancedSyncManager "secret-key-123")
    stale_heap0 0%nat 1%nat 0.

Definition stale_heap1 : heap := snd (SyncBlock stale_heap0 0%nat 1%nat 0).












(** A well-formed manager state: the root of the index is black, the
    enumerated pointers are pairwise distinct and point into the store. *)
Definition wf_state (st : ShardManager * heap) : Prop :=
  colorOf (Shards (fst st)) = Black
  /\ NoDup (GetAllShards (Shards (fst st)))
  /\ Forall (fun p => (p < length (snd st))%nat) (GetAllShards (Shards (fst st))).

(** ** Polynomials, for the properties of the secret sharing

    A polynomial is the list of its coefficients, the constant term first. *)

Fixpoint peval (c : list Z) (x : Z) : Z :=
  match c with
  | [] => 0
  | a :: rest => a + x * peval rest x
  end.

Fixpoint padd (a b : list Z) : list Z :=
  match a, b with
  | [], _ => b
  | _, [] => a
  | x :: a', y :: b' => (x + y) :: padd a' b'
  end.

Definition pscale (k : Z) (c : list Z) : list Z := map (Z.mul k) c.

(** The product of [c] by [X - r]. *)
Definition pmul_linear (r : Z) (c : list Z) : list Z :=
  padd (0 :: c) (pscale (- r) c).

(** The quotient of [c] by [X - r] (Horner's scheme). *)
Fixpoint pquotient (r : Z) (c : list Z) : list Z :=
  match c with
  | [] => []
  | _ :: rest =>
      match rest with
      | [] => []
      | _ => peval rest r :: pquotient r rest
      end
  end.

(** The product of the [X - r] for [r] in [roots]. *)
Fixpoint pvanishing (roots : list Z) : list Z :=
  match roots with
  | [] => [1]
  | r :: rest => pmul_linear r (pvanishing rest)
  end.

Definition psum (l : list (list Z)) : list Z := fold_right padd [] l.

Definition zsum (l : list Z) : Z := fold_right Z.add 0 l.

(** The Lagrange basis of the abscissas [xs]: the numerator polynomial of the
    point [i], and the inverse of its value at that point. *)
Definition basis_numerator (xs : list Z) (i : nat) : list Z :=
  pvanishing (delete i xs).

Definition basis_inverse (p : Z) (xs : list Z) (i : nat) : Z :=
  Z.invmod (peval (basis_numerator xs i) (default 0 (xs !! i))) p.

Definition lagrange_term (p : Z) (points : list (Z * Z)) (entry : nat * (Z * Z))
  : list Z :=
  pscale (snd (snd entry) * basis_inverse p (map fst points) (fst entry))
         (basis_numerator (map fst points) (fst entry)).

Definition lagrange (p : Z) (points : list (Z * Z)) : list Z :=
  psum (map (lagrange_term p points) (indexed points)).

(** What the election loop has established after the nodes [seen]. *)
Definition election_inv (nonce : string) (seen : list Node)
    (st : option nat * string) : Prop :=
  match fst st with
  | None => snd st = "" /\ Forall (fun n => Byzantine n = true) seen
  | Some i =>
      exists n, seen !! i = Some n /\ Byzantine n = false /\
        snd st = vrf_score nonce n /\
        forall j m, seen !! j = Some m -> Byzantine m = false ->
          string_ltb (snd st) (vrf_score nonce m) = false /\
          (vrf_score nonce m = snd st -> (i <= j)%nat)
  end.

(** A run of the sharing: five nodes, the third of them faulty, threshold 3,
    modulus 7, secret 5. *)
Definition sharing_nodes : list Node :=
  map (fun i => mkNode i 0 (i =? 2) "") [0; 1; 2; 3; 4].

Definition sharing_mpc : MPCProtocol := NewMPCProtocol sharing_nodes 3 7.

Definition sharing_random (i : nat) : Z := Z.of_nat i + 4.

Definition sharing_shared : MPCProtocol :=
  default sharing_mpc (ShareSecret sharing_mpc 5 sharing_random).
(** ** Runs and invariants used by the properties below *)

(** A sequence of [AddBlock] calls, each with its payload and the reading of
    the clock at the call. *)
Fixpoint AddBlocks (bc : Blockchain) (calls : list (string * string))
  : option Blockchain :=
  match calls with
  | [] => Some bc
  | (data, now) :: rest => bc1 ← Blockchain_AddBlock bc data now; AddBlocks bc1 rest
  end.

(** A lower-case hexadecimal digit. *)
Definition is_hex_digit (c : ascii) : bool :=
  let n := byte_of_ascii c in
  ((48 <=? n) && (n <=? 57)) || ((97 <=? n) && (n <=? 102)).

Fixpoint all_chars (p : ascii -> bool) (s : string) : bool :=
  match s with
  | EmptyString => true
  | String c r => p c && all_chars p r
  end.

(** The printed form of a SHA-256 digest: sixty-four hexadecimal digits. *)
Definition is_digest (s : string) : Prop :=
  String.length s = 64%nat /\ all_chars is_hex_digit s = true.

(** The store of [stale_heap0] after the block of its source shard has been
    replaced, between prepare and commit, by a block with another payload. *)
Definition tampered_heap : heap :=
  [mkShard 0 [mkBlock 0 (demo_clock 0) "Tampered payload" ""
                (Hash (GenesisBlock (demo_clock 0)))] None;
   mkShard 1 [] None].

Definition tampered_commit : bool * EnhancedSyncManager * heap :=
  VerifyAndApplyTransfer (snd stale_prepared) tampered_heap 0%nat 1%nat 0.

Definition stale_commit : bool * EnhancedSyncManager * heap :=
  VerifyAndApplyTransfer (snd stale_prepared) stale_heap0 0%nat 1%nat 0.

(** One pruner used on a sequence of chains, each call with the reading of
    the clock. *)
Fixpoint PruneAll (sp : StatePruner) (calls : list (Blockchain * string))
  : option StatePruner :=
  match calls with
  | [] => Some sp
  | (bc, now) :: rest =>
      r ← PruneBlockchain sp bc now; PruneAll (fst (fst r)) rest
  end.

(** The product of the numbers [hashToPrime] gives for the elements. *)
Definition prime_product (elements : list string) : Z :=
  fold_right Z.mul 1 (map hashToPrime elements).

(** What the state manager archives of a block. *)
Definition archive_of (b : Block) : ArchivedBlock :=
  mkArchivedBlock (Index b) (Data b) (Hash b).

(** The key and the value under which a block is stored in a trie. *)
Definition trie_entry (b : Block) : string * string := (Hash b, Data b).

(** A sequence of [Add] calls on a Bloom filter. *)
Fixpoint AddAll (bf : BloomFilter) (items : list string) : option BloomFilter :=
  match items with
  | [] => Some bf
  | item :: rest => bf1 ← BloomFilter_Add bf item; AddAll bf1 rest
  end.

(** How often a node occurs in a list of [Update] calls. *)
Definition updates_of (nodeID : string) (calls : list string) : nat :=
  count_occ String.string_dec calls nodeID.

(** A Bloom filter as [NewBloomFilter] makes it, with a positive size: one
    bit per position. *)
Definition bloom_wf (bf : BloomFilter) : Prop :=
  length (bf_bits bf) = N.to_nat (bf_size bf) /\ (0 < bf_size bf)%N.

(** A bit that is set stays set. *)
Definition bits_kept (bf bf' : BloomFilter) : Prop :=
  forall j, bf_bits bf !! j = Some true -> bf_bits bf' !! j = Some true.

(** ** The red-black properties of the shard index *)

(** No red node has a red child. *)
Fixpoint noRedRed (t : RBNode) : bool :=
  match t with
  | RBNil => true
  | RBN c l _ r =>
      (negb (isRed c) || (negb (isRed (colorOf l)) && negb (isRed (colorOf r))))
      && noRedRed l && noRedRed r
  end.

(** The number of black nodes down the left spine. *)
Fixpoint blackHeight (t : RBNode) : nat :=
  match t with
  | RBNil => 0
  | RBN c l _ _ => (if isRed c then 0 else 1) + blackHeight l
  end.

(** At every node both subtrees have the same black height: every path from
    a node down to the sentinel crosses the same number of black nodes. *)
Fixpoint balanced (t : RBNode) : bool :=
  match t with
  | RBNil => true
  | RBN _ l _ r => (blackHeight l =? blackHeight r)%nat && balanced l && balanced r
  end.

Definition is_red_black (t : RBNode) : Prop :=
  colorOf t = Black /\ noRedRed t = true /\ balanced t = true.

(** The longest path from the root down to the sentinel, in nodes. *)
Fixpoint height (t : RBNode) : nat :=
  match t with
  | RBNil => 0
  | RBN _ l _ r => S (Nat.max (height l) (height r))
  end.

(** The number of nodes the loop of [FindShard] visits. *)
Fixpoint FindShard_steps (h : heap) (t : RBNode) (id : Z) : nat :=
  match t with
  | RBNil => 0
  | RBN _ l s r =>
      if id =? ID (deref h s) then 1
      else if id <? ID (deref h s) then S (FindShard_steps h l id)
      else S (FindShard_steps h r id)
  end.

Definition frameSibling (f : Frame) : RBNode :=
  match f with
  | InLeft _ _ r => r
  | InRight _ l _ => l
  end.

(** A path above a hole of black height [k] in a red-black tree: every
    sibling is a red-black subtree of the black height of its level, a red
    frame has a black sibling and a black frame above it. *)
Fixpoint path_rb (path : list Frame) (k : nat) : Prop :=
  match path with
  | [] => True
  | f :: up =>
      noRedRed (frameSibling f) = true
      /\ balanced (frameSibling f) = true
      /\ blackHeight (frameSibling f) = k
      /\ (frameColor f = Red ->
          colorOf (frameSibling f) = Black
          /\ match up with [] => False | g :: _ => frameColor g = Black end)
      /\ path_rb up (if isRed (frameColor f) then k else S k)
  end.

(** The hole of a path may hold a node of colour [c]. *)
Definition hole_accepts (path : list Frame) (c : Color) : Prop :=
  match path with
  | [] => True
  | f :: _ => frameColor f = Red -> c = Black
  end.

(** ** The enumeration of the shard index *)

Definition ids_of (h : heap) (ps : list ptr) : list Z :=
  map (fun p => ID (deref h p)) ps.

(** The IDs behind a list of pointers never decrease. *)
Definition ids_sorted (h : heap) (ps : list ptr) : Prop :=
  StronglySorted Z.le (ids_of h ps).

(** The Merkle tree of a shard is the tree of its payloads; a shard that was
    never written has no tree and no block. *)
Definition shard_tree_ok (s : Shard) : Prop :=
  match Tree s with
  | None => Blocks s = []
  | Some t => t = NewMerkleTree (getDataStrings (Blocks s))
  end.

(** The blocks of the shards behind a list of pointers, in order. *)
Definition all_blocks (h : heap) (ps : list ptr) : list Block :=
  concat (map (fun p => Blocks (deref h p)) ps).

(** The blocks a sequence of operations hands to [DistributeBlock]. *)
Fixpoint distributed_blocks (ops : list Op) : list Block :=
  match ops with
  | [] => []
  | OpDistribute block :: rest => block :: distributed_blocks rest
  | _ :: rest => distributed_blocks rest
  end.

(** The state of the rebalance loop: the index built so far and the shards
    still to visit. *)
Definition rebalance_inv (h : heap) (t : RBTree) (l : list ptr) : Prop :=
  colorOf t = Black
  /\ NoDup (GetAllShards t ++ l)
  /\ Forall (fun p => (p < length h)%nat) (GetAllShards t ++ l)
  /\ ids_sorted h (GetAllShards t)
  /\ Forall (fun p => shard_tree_ok (deref h p)) (GetAllShards t ++ l).

(** The state of the merge loop before index [k]: [h0] is the store and [cs]
    the enumeration at the start; the index built so far holds the blocks of
    the first [m] shards of [cs], [m] being [k], or [k + 1] when the shard at
    [k] has been merged into its predecessor. *)
Definition merge_inv (h0 : heap) (cs : list ptr) (k : nat)
  (st : heap * RBTree * gmap nat bool) : Prop :=
  let '(h, t, used) := st in
  colorOf t = Black
  /\ Forall (fun p => (p < length h)%nat) (GetAllShards t)
  /\ (length h0 <= length h)%nat
  /\ (forall q, (q < length h0)%nat -> deref h q = deref h0 q)
  /\ ids_sorted h (GetAllShards t)
  /\ Forall (fun p => shard_tree_ok (deref h p)) (GetAllShards t)
  /\ exists m,
       (m = k \/ m = S k)
       /\ (forall j, default false (used !! j) = true <-> (j < m)%nat)
       /\ all_blocks h (GetAllShards t) ≡ₚ all_blocks h0 (take m cs).

(** The invariant of the manager: a well-formed state whose index is ordered
    by ID and whose shards carry the Merkle tree of their payloads. *)
Definition manager_inv (st : ShardManager * heap) : Prop :=
  wf_state st
  /\ ids_sorted (snd st) (GetAllShards (Shards (fst st)))
  /\ Forall (fun p => shard_tree_ok (deref (snd st) p)) (GetAllShards (Shards (fst st))).

Definition blocks_of (st : ShardManager * heap) : list Block :=
  all_blocks (snd st) (GetAllShards (Shards (fst st))).
(** * Properties

    ** Test vectors of the primitives *)

Example sha256_constants :
  nth 0 sha256_K 0 = 0x428a2f98 /\ nth 63 sha256_K 0 = 0xc67178f2
  /\ nth 0 sha256_H0 0 = 0x6a09e667 /\ nth 7 sha256_H0 0 = 0x5be0cd19.
Proof. repeat split. Qed.

Example sha256_empty :
  sha256_hex "" = "e3b0c44298fc1c149afbf4c8996fb92427ae41e4649b934ca495991b7852b855".
Proof. vm_compute. reflexivity. Qed.

Example sha256_abc :
  sha256_hex "abc" = "ba7816bf8f01cfea414140de5dae2223b00361a396177a9cb410ff61f20015ad".
Proof. vm_compute. reflexivity. Qed.

Example sha256_two_blocks :
  sha256_hex "abcdbcdecdefdefgefghfghighijhijkijkljklmklmnlmnomnopnopq"
  = "248d6a61d20638b8e5c026930c3e6039a33ce45964ff2167f6ecedd419db06c1".
Proof. vm_compute. reflexivity. Qed.

Example hmac_rfc4231_case2 :
  hex_EncodeToString
    (hmac_sha256 (bytes_of_string "Jefe")
                 (bytes_of_string "what do ya want for nothing?"))
  = "5bdcc146bf60754e6a042426089575c75a003f089d2739839dec58b964ec3843".
Proof. vm_compute. reflexivity. Qed.

Example Itoa_samples :
  (Itoa 0, Itoa 7, Itoa 10, Itoa 1234567890, Itoa (-42))
  = ("0", "7", "10", "1234567890", "-42").
Proof. reflexivity. Qed.

(** ** Strings and bytes *)

Lemma append_cons (a : ascii) (s t : string) :
  (String a s ++ t)%string = String a (s ++ t)%string.
Proof. reflexivity. Qed.

Lemma append_nil_l (s : string) : ("" ++ s)%string = s.
Proof. reflexivity. Qed.

Lemma append_nil_r (s : string) : (s ++ "")%string = s.
Proof. induction s as [|a s IH]; [reflexivity|]. rewrite append_cons, IH. reflexivity. Qed.

Lemma append_assoc (s t u : string) : ((s ++ t) ++ u)%string = (s ++ t ++ u)%string.
Proof.
  induction s as [|a s IH]; [reflexivity|].
  rewrite !append_cons, IH. reflexivity.
Qed.

Lemma concat_strings_app (l1 l2 : list string) :
  concat_strings (l1 ++ l2) = (concat_strings l1 ++ concat_strings l2)%string.
Proof.
  induction l1 as [|s l1 IH]; [reflexivity|].
  simpl. rewrite IH, append_assoc. reflexivity.
Qed.

Lemma byte_of_ascii_inj (a b : ascii) : byte_of_ascii a = byte_of_ascii b -> a = b.
Proof.
  unfold byte_of_ascii. intros H. apply N2Z.inj in H.
  rewrite <- (ascii_N_embedding a), <- (ascii_N_embedding b). congruence.
Qed.

Lemma bytes_of_string_inj (s t : string) :
  bytes_of_string s = bytes_of_string t -> s = t.
Proof.
  revert t. induction s as [|a s IH]; intros [|b t]; simpl; try discriminate.
  - reflexivity.
  - intros [= Hab Hst]. f_equal; [apply byte_of_ascii_inj; exact Hab | apply IH; exact Hst].
Qed.

(** ** The store *)

Lemma deref_store_same (h : heap) (p : ptr) (s : Shard) :
  (p < length h)%nat -> deref (store h p s) p = s.
Proof.
  intros Hp. unfold deref, store. rewrite list_lookup_insert_eq by exact Hp. reflexivity.
Qed.

Lemma deref_store_other (h : heap) (p q : ptr) (s : Shard) :
  p <> q -> deref (store h p s) q = deref h q.
Proof.
  intros Hpq. unfold deref, store. rewrite list_lookup_insert_ne by exact Hpq. reflexivity.
Qed.

Lemma length_store (h : heap) (p : ptr) (s : Shard) : length (store h p s) = length h.
Proof. apply length_insert. Qed.

Lemma deref_app_l (h h' : heap) (p : ptr) :
  (p < length h)%nat -> deref (h ++ h') p = deref h p.
Proof. intros Hp. unfold deref. rewrite lookup_app_l by exact Hp. reflexivity. Qed.

Lemma deref_alloc_new (h : heap) (s : Shard) : deref (h ++ [s]) (length h) = s.
Proof.
  unfold deref. rewrite lookup_app_r by lia. rewrite Nat.sub_diag. reflexivity.
Qed.

Lemma Shard_AddBlock_same (h : heap) (p : ptr) (b : Block) :
  (p < length h)%nat ->
  deref (Shard_AddBlock h p b) p
  = mkShard (ID (deref h p)) (Blocks (deref h p) ++ [b])
            (Some (NewMerkleTree (getDataStrings (Blocks (deref h p) ++ [b])))).
Proof.
  intros Hp. unfold Shard_AddBlock.
  rewrite !deref_store_same by (rewrite ?length_store; exact Hp). reflexivity.
Qed.

Lemma Shard_AddBlock_other (h : heap) (p q : ptr) (b : Block) :
  p <> q -> deref (Shard_AddBlock h p b) q = deref h q.
Proof.
  intros Hpq. unfold Shard_AddBlock. rewrite !deref_store_other by exact Hpq. reflexivity.
Qed.

Lemma length_Shard_AddBlock (h : heap) (p : ptr) (b : Block) :
  length (Shard_AddBlock h p b) = length h.
Proof. unfold Shard_AddBlock. rewrite !length_store. reflexivity. Qed.

Ltac heap_simpl :=
  repeat first
    [ rewrite deref_store_same
        by (rewrite ?length_store, ?length_Shard_AddBlock; lia)
    | rewrite deref_store_other by congruence
    | rewrite Shard_AddBlock_same by (rewrite ?length_store, ?length_Shard_AddBlock; lia)
    | rewrite Shard_AddBlock_other by congruence
    | progress simpl ].

(** ** The shard index: enumeration after an insertion *)

Lemma inorder_plug (path : list Frame) (node : RBNode) :
  inOrderTraversal (plug node path)
  = ctxL path ++ inOrderTraversal node ++ ctxR path.
Proof.
  revert node. induction path as [|[c s r|c l s] up IH]; intros node; simpl.
  - rewrite app_nil_r. reflexivity.
  - rewrite IH. simpl. rewrite <- !app_assoc. reflexivity.
  - rewrite IH. simpl. rewrite <- !app_assoc. reflexivity.
Qed.

Lemma inorder_plug_congr (path : list Frame) (x y : RBNode) :
  inOrderTraversal x = inOrderTraversal y ->
  inOrderTraversal (plug x path) = inOrderTraversal (plug y path).
Proof. intros H. rewrite !inorder_plug, H. reflexivity. Qed.

Lemma inorder_blackenRoot (t : RBNode) :
  inOrderTraversal (blackenRoot t) = inOrderTraversal t.
Proof. destruct t; reflexivity. Qed.

Lemma colorOf_blackenRoot (t : RBNode) : colorOf (blackenRoot t) = Black.
Proof. destruct t; reflexivity. Qed.

Ltac inorder_eq :=
  simpl; rewrite <- ?app_assoc; simpl; rewrite <- ?app_assoc; reflexivity.

(** Recolouring and rotations keep the enumeration. *)
Lemma fixInsert_loop_inorder (n : nat) :
  forall path xc xl xs xr t,
    (length path <= n)%nat ->
    fixInsert_loop xc xl xs xr path = Some t ->
    inOrderTraversal t = inOrderTraversal (plug (RBN xc xl xs xr) path).
Proof.
  induction n as [|n IH]; intros path xc xl xs xr t Hlen Hrun.
  - destruct path; [|simpl in Hlen; lia]. simpl in Hrun. injection Hrun as <-. reflexivity.
  - destruct path as [|f1 above]; [simpl in Hrun; injection Hrun as <-; reflexivity|].
    simpl in Hrun. destruct (isRed (frameColor f1)) eqn:Hred;
      [|injection Hrun as <-; reflexivity].
    destruct above as [|f2 up]; [discriminate Hrun|].
    assert (Hup : (length up <= n)%nat) by (simpl in Hlen; lia).
    destruct f2 as [gc gs uncle|gc uncle gs].
    + destruct uncle as [|[|] ul us ur].
      * destruct f1; injection Hrun as <-; simpl; apply inorder_plug_congr; inorder_eq.
      * destruct up as [|f3 up'].
        -- injection Hrun as <-. destruct f1; inorder_eq.
        -- remember (f3 :: up') as up2 eqn:Hup2 in *.
           apply IH in Hrun; [|exact Hup]. rewrite Hrun.
           destruct f1; simpl; apply inorder_plug_congr; inorder_eq.
      * destruct f1; injection Hrun as <-; simpl; apply inorder_plug_congr; inorder_eq.
    + destruct uncle as [|[|] ul us ur].
      * destruct f1; injection Hrun as <-; simpl; apply inorder_plug_congr; inorder_eq.
      * destruct up as [|f3 up'].
        -- injection Hrun as <-. destruct f1; inorder_eq.
        -- remember (f3 :: up') as up2 eqn:Hup2 in *.
           apply IH in Hrun; [|exact Hup]. rewrite Hrun.
           destruct f1; simpl; apply inorder_plug_congr; inorder_eq.
      * destruct f1; injection Hrun as <-; simpl; apply inorder_plug_congr; inorder_eq.
Qed.

Lemma topBlack_tail2 (f1 f2 f3 : Frame) (up : list Frame) :
  topBlack (f1 :: f2 :: f3 :: up) -> topBlack (f3 :: up).
Proof. unfold topBlack. simpl. tauto. Qed.

(** With a black node next to the root the loop never reads the sentinel's
    children. *)
Lemma fixInsert_loop_total (n : nat) :
  forall path xc xl xs xr,
    (length path <= n)%nat -> topBlack path ->
    is_Some (fixInsert_loop xc xl xs xr path).
Proof.
  induction n as [|n IH]; intros path xc xl xs xr Hlen Htop.
  - destruct path; [|simpl in Hlen; lia]. simpl. eauto.
  - destruct path as [|f1 above]; [simpl; eauto|].
    simpl. destruct (isRed (frameColor f1)) eqn:Hred; [|eauto].
    destruct above as [|f2 up].
    + unfold topBlack in Htop. simpl in Htop. rewrite Htop in Hred. discriminate.
    + assert (Hup : (length up <= n)%nat) by (simpl in Hlen; lia).
      destruct f2 as [gc gs uncle|gc uncle gs];
        (destruct uncle as [|[|] ul us ur];
         [ destruct f1; eauto
         | destruct up as [|f3 up'];
           [ eauto | apply IH; [exact Hup | eapply topBlack_tail2; exact Htop] ]
         | destruct f1; eauto ]).
Qed.

Lemma plug_descend (h : heap) (id : Z) (t : RBNode) (path : list Frame) :
  plug RBNil (descend h id t path) = plug t path.
Proof.
  revert path. induction t as [|c l IHl s r IHr]; intros path; simpl; [reflexivity|].
  destruct (id <? ID (deref h s)); [rewrite IHl|rewrite IHr]; reflexivity.
Qed.

Lemma last_descend (h : heap) (id : Z) (t : RBNode) (path : list Frame) :
  path <> [] -> last (descend h id t path) = last path.
Proof.
  revert path. induction t as [|c l IHl s r IHr]; intros path Hne; simpl; [reflexivity|].
  destruct (id <? ID (deref h s)); [rewrite IHl|rewrite IHr]; try discriminate;
    destruct path; [contradiction|reflexivity|contradiction|reflexivity].
Qed.

Lemma topBlack_descend (h : heap) (id : Z) (t : RBNode) :
  colorOf t = Black -> topBlack (descend h id t []).
Proof.
  intros Hc. unfold topBlack. destruct t as [|c l s r]; simpl; [exact I|].
  simpl in Hc. subst c.
  destruct (id <? ID (deref h s)); rewrite last_descend by discriminate; reflexivity.
Qed.


(** [Insert] on a tree with a black root returns; the new shard takes one
    position of the enumeration and the others keep their order. *)
Lemma RBTree_Insert_spec (h : heap) (t : RBTree) (s : ptr) :
  colorOf t = Black ->
  exists t', RBTree_Insert h t s = Some t'
    /\ colorOf t' = Black
    /\ exists L R, GetAllShards t = L ++ R /\ GetAllShards t' = L ++ s :: R.
Proof.
  intros Hc. unfold RBTree_Insert, fixInsert.
  set (path := descend h (ID (deref h s)) t []).
  destruct (fixInsert_loop_total (length path) path Red RBNil s RBNil (le_n _)
              (topBlack_descend h _ t Hc)) as [t1 Ht1].
  rewrite Ht1. simpl. eexists. split; [reflexivity|].
  split; [apply colorOf_blackenRoot|].
  exists (ctxL path), (ctxR path). unfold GetAllShards. split.
  - transitivity (inOrderTraversal (plug RBNil path)).
    + f_equal. symmetry. apply (plug_descend h (ID (deref h s)) t []).
    + rewrite inorder_plug. reflexivity.
  - rewrite inorder_blackenRoot.
    rewrite (fixInsert_loop_inorder _ _ _ _ _ _ _ (le_n _) Ht1).
    rewrite inorder_plug. reflexivity.
Qed.


Lemma RBTree_Insert_length (h : heap) (t t' : RBTree) (s : ptr) :
  colorOf t = Black -> RBTree_Insert h t s = Some t' ->
  colorOf t' = Black /\ length (GetAllShards t') = S (length (GetAllShards t)).
Proof.
  intros Hc Hrun.
  destruct (RBTree_Insert_spec h t s Hc) as (t1 & Ht1 & Hb & L & R & HLR & HLR').
  rewrite Hrun in Ht1. injection Ht1 as <-. split; [exact Hb|].
  rewrite HLR, HLR', !length_app. simpl. lia.
Qed.

(** ** Fuel: the bounded recursions always reach their end *)

Lemma merkle_parents_length_bounded (n : nat) :
  forall l : list string,
    (length l <= n)%nat ->
    (length (merkle_parents l) <= length l)%nat
    /\ ((2 <= length l)%nat -> (length (merkle_parents l) < length l)%nat).
Proof.
  induction n as [|n IH]; intros l Hn.
  - destruct l; simpl in *; lia.
  - destruct l as [|a [|b r]]; simpl; try lia.
    destruct (IH r) as [Hle _]; simpl in *; lia.
Qed.

Lemma merkle_parents_length (l : list string) :
  (length (merkle_parents l) <= length l)%nat
  /\ ((2 <= length l)%nat -> (length (merkle_parents l) < length l)%nat).
Proof. apply (merkle_parents_length_bounded (length l)). lia. Qed.

(** Any fuel of at least the number of leaves gives the same root: the
    recursion of [buildMerkleTree] stops on a single hash before the fuel
    runs out. *)
Lemma buildMerkleTree_rec_fuel (fuel1 : nat) :
  forall (fuel2 : nat) (leaves : list string),
    (length leaves <= fuel1)%nat -> (length leaves <= fuel2)%nat ->
    buildMerkleTree_rec fuel1 leaves = buildMerkleTree_rec fuel2 leaves.
Proof.
  induction fuel1 as [|k IH]; intros fuel2 leaves H1 H2.
  - destruct leaves; [|simpl in H1; lia]. destruct fuel2; reflexivity.
  - destruct leaves as [|a [|b r]]; [destruct fuel2; reflexivity..|].
    destruct fuel2 as [|k2]; [simpl in H2; lia|].
    change (buildMerkleTree_rec k (merkle_parents (a :: b :: r))
            = buildMerkleTree_rec k2 (merkle_parents (a :: b :: r))).
    destruct (merkle_parents_length (a :: b :: r)) as [_ Hlt].
    specialize (Hlt ltac:(simpl; lia)).
    apply IH; lia.
Qed.

Lemma buildMerkleTree_step (a b : string) (r : list string) :
  buildMerkleTree (a :: b :: r) = buildMerkleTree (merkle_parents (a :: b :: r)).
Proof.
  unfold buildMerkleTree.
  change (buildMerkleTree_rec (length (a :: b :: r)) (a :: b :: r))
    with (buildMerkleTree_rec (length (b :: r)) (merkle_parents (a :: b :: r))).
  destruct (merkle_parents_length (a :: b :: r)) as [_ Hlt].
  specialize (Hlt ltac:(simpl; lia)).
  apply buildMerkleTree_rec_fuel; simpl in *; lia.
Qed.

Lemma sha256_pad_length (msg : list Z) :
  (length (sha256_pad msg) <= 64 * S (length msg))%nat.
Proof.
  unfold sha256_pad. rewrite length_app. simpl. rewrite length_app, repeat_length. simpl.
  pose proof (Z.mod_pos_bound (55 - Z.of_nat (length msg)) 64 ltac:(lia)) as Hm.
  destruct (length msg) as [|n] eqn:Hn.
  - simpl. lia.
  - lia.
Qed.

(** The compression loop of [sha256] consumes every block of the padded
    message: with sixty-four bytes per unit of fuel, more fuel changes
    nothing. *)
Lemma sha256_blocks_fuel (fuel1 : nat) :
  forall (fuel2 : nat) (h bs : list Z),
    (length bs <= 64 * fuel1)%nat -> (length bs <= 64 * fuel2)%nat ->
    sha256_blocks fuel1 h bs = sha256_blocks fuel2 h bs.
Proof.
  induction fuel1 as [|k IH]; intros fuel2 h bs H1 H2.
  - destruct bs; [|simpl in H1; lia]. destruct fuel2; reflexivity.
  - destruct bs as [|b bs']; [destruct fuel2; reflexivity|].
    destruct fuel2 as [|k2]; [simpl in H2; lia|].
    change (sha256_blocks k (sha256_compress h (firstn 64 (b :: bs'))) (skipn 64 (b :: bs'))
            = sha256_blocks k2 (sha256_compress h (firstn 64 (b :: bs')))
                (skipn 64 (b :: bs'))).
    apply IH; rewrite length_skipn; lia.
Qed.

(** ** The chain: linkage and the digest of a block *)

Lemma GenerateBlock_fields prev data now :
  let b := GenerateBlock prev data now in
  Index b = wrap_int (Index prev + 1) /\ Timestamp b = now /\ Data b = data
  /\ PrevHash b = Hash prev
  /\ Hash b = sha256_hex (go_string_of_int (Index b) ++ Timestamp b ++ Data b
                          ++ PrevHash b)%string.
Proof. cbv zeta. unfold GenerateBlock, calculateHash. simpl. tauto. Qed.

(** Every block appended by [AddBlock] is linked to the block that was last,
    and its digest covers the index as a code point. *)
Lemma Blockchain_AddBlock_spec bc data now bc' :
  Blockchain_AddBlock bc data now = Some bc' ->
  exists prev b,
    last (bc_Blocks bc) = Some prev
    /\ bc_Blocks bc' = bc_Blocks bc ++ [b]
    /\ PrevHash b = Hash prev
    /\ Hash b = calculateHash b.
Proof.
  unfold Blockchain_AddBlock. destruct (last (bc_Blocks bc)) as [prev|] eqn:E; [|discriminate].
  intros [= <-]. exists prev, (GenerateBlock prev data now). simpl.
  repeat split; reflexivity.
Qed.

(** A chain that starts with [NewBlockchain] is never empty, so [AddBlock]
    always returns. *)
Lemma Blockchain_AddBlock_total bc data now :
  bc_Blocks bc <> [] -> exists bc', Blockchain_AddBlock bc data now = Some bc'
                                    /\ bc_Blocks bc' <> [].
Proof.
  intros Hne. unfold Blockchain_AddBlock.
  destruct (last (bc_Blocks bc)) as [prev|] eqn:E.
  - eexists; split; [reflexivity|]. simpl. destruct (bc_Blocks bc); discriminate.
  - apply last_None in E. contradiction.
Qed.

(** C4.  The first block appended to a fresh chain is linked to the genesis
    block, and its digest is the SHA-256 of the index converted as a code
    point (the byte 1) followed by the three other fields: it is not the
    digest of the text that starts with the decimal index, which the
    specification gives. *)
Theorem C4_hash_uses_code_point_not_decimal :
  exists genesis b,
    bc_Blocks (NewBlockchain (demo_clock 0)) = [genesis]
    /\ (bc_Blocks <$> Blockchain_AddBlock (NewBlockchain (demo_clock 0))
                        "First Block after Genesis" (demo_clock 1))
       = Some [genesis; b]
    /\ Index b = 1
    /\ PrevHash b = Hash genesis
    /\ Hash b = sha256_hex (String (ascii_of_byte 1) ""
                            ++ Timestamp b ++ Data b ++ PrevHash b)%string
    /\ Hash b <> spec_block_hash b.
Proof.
  eexists; eexists. split; [reflexivity|]. split; [reflexivity|].
  split; [reflexivity|]. split; [reflexivity|]. split; [reflexivity|].
  vm_compute. discriminate.
Qed.

(** ** The accumulator *)

(** [big_Exp] is modular exponentiation. *)
Lemma big_Exp_spec (x y m : Z) : m <> 0 -> big_Exp x y m = (x ^ y) mod m.
Proof. intros Hm. unfold big_Exp. apply Zpow_mod_correct. exact Hm. Qed.

(** The accumulator after adding the elements of [es] in order. *)
Lemma accumulator_params (es : list string) :
  let acc := fold_left AddElement es NewRSAAccumulator in
  acc_N acc = 251 * 239 /\ acc_G acc = 3 /\ acc_Elements acc = es
  /\ acc_State acc
     = fold_left (fun s e => big_Exp s (hashToPrime e) (251 * 239)) es 3.
Proof.
  induction es as [|e es IH] using rev_ind; [simpl; tauto|].
  cbv zeta in *. rewrite !fold_left_app. simpl.
  destruct IH as (HN & HG & HE & HS). rewrite HN, HG, HE, HS. tauto.
Qed.

Lemma skip_fold_fresh (e : string) (n : Z) (es : list string) (g : Z) :
  ~ In e es ->
  fold_left (fun proof e' => if String.eqb e' e then proof
                             else big_Exp proof (hashToPrime e') n) es g
  = fold_left (fun s e' => big_Exp s (hashToPrime e') n) es g.
Proof.
  revert g. induction es as [|x es IH]; intros g Hin; [reflexivity|].
  simpl. destruct (String.eqb_spec x e) as [->|Hne].
  - exfalso. apply Hin. left. reflexivity.
  - apply IH. intros H. apply Hin. right. exact H.
Qed.

(** What the code does establish: the witness computed for an element that
    was not in the set verifies right after its insertion. *)
Lemma AddElement_fresh_witness_verifies (es : list string) (e : string) :
  ~ In e es ->
  let acc := AddElement (fold_left AddElement es NewRSAAccumulator) e in
  exists w, acc_Proofs acc !! e = Some w /\ VerifyMembership acc e w = true.
Proof.
  intros Hin. cbv zeta.
  destruct (accumulator_params es) as (HN & HG & HE & HS).
  unfold AddElement at 1. simpl. eexists. split; [apply lookup_insert_eq|].
  unfold VerifyMembership. simpl. rewrite HN, HG, HE, HS.
  rewrite fold_left_app. simpl. rewrite String.eqb_refl.
  rewrite skip_fold_fresh by exact Hin. apply Z.eqb_refl.
Qed.

(** C2.  After [AddElement "block_hash_1"] and [AddElement "block_hash_2"] on
    a fresh accumulator, the first element is in the elements list, its
    stored witness is still the generator 3, and [VerifyMembership] rejects
    it: witnesses of earlier elements are not refreshed by
    [AddElement]. *)
Theorem C2_earlier_witness_is_stale :
  In "block_hash_1" (acc_Elements demo_accumulator)
  /\ acc_Proofs demo_accumulator !! "block_hash_1" = Some 3
  /\ acc_State demo_accumulator = 22278
  /\ big_Exp 3 (hashToPrime "block_hash_1") (acc_N demo_accumulator) = 3875
  /\ VerifyMembership demo_accumulator "block_hash_1" 3 = false.
Proof.
  split; [left; reflexivity|].
  split; [vm_compute; reflexivity|].
  split; [vm_compute; reflexivity|].
  split; vm_compute; reflexivity.
Qed.

(** ** The authenticator *)

Lemma hmac_Equal_refl (m : list Z) : hmac_Equal m m = true.
Proof. unfold hmac_Equal. apply bool_decide_eq_true. reflexivity. Qed.

(** A commitment made by an authenticator is accepted by the same
    authenticator, whatever its key. *)
Lemma VerifyAuthentication_own (ha : HomomorphicAuthenticator) (data : string) :
  VerifyAuthentication ha data (AuthenticateData ha data) = true.
Proof. unfold VerifyAuthentication. apply hmac_Equal_refl. Qed.

Lemma combine_fold (l : list HomomorphicCommitment) (v d : string) :
  fold_left (fun acc c =>
               ((fst acc ++ hc_Value c)%string, (snd acc ++ hc_Commitment c)%string))
            l (v, d)
  = ((v ++ concat_strings (map hc_Value l))%string,
     (d ++ concat_strings (map hc_Commitment l))%string).
Proof.
  revert v d. induction l as [|c l IH]; intros v d; simpl.
  - rewrite !append_nil_r. reflexivity.
  - rewrite IH, !append_assoc. reflexivity.
Qed.

Lemma CombineCommitments_spec (ha : HomomorphicAuthenticator)
  (l : list HomomorphicCommitment) :
  CombineCommitments ha l
  = mkCommitment (concat_strings (map hc_Value l))
                 (AuthenticateData ha (concat_strings (map hc_Commitment l))).
Proof. unfold CombineCommitments. rewrite combine_fold. reflexivity. Qed.

(** C5, as stated, fails: with the key and the payloads of the
    demonstration, combining [[Combine [a; b]; c]] and [[a; Combine [b; c]]]
    gives two different commitment strings. *)
Lemma C5_regrouping_changes_the_mac :
  let a := demo_commitment "Data piece 1" in
  let b := demo_commitment "Data piece 2" in
  let c := demo_commitment "Data piece 3" in
  CombineCommitments demo_auth [CombineCommitments demo_auth [a; b]; c]
  <> CombineCommitments demo_auth [a; CombineCommitments demo_auth [b; c]].
Proof. vm_compute. discriminate. Qed.

(** C5, amended.  The combined payload is the concatenation of the member
    payloads and the combined MAC is the HMAC, under the authenticator's
    key, of the concatenation of the member MACs; the result depends on the
    key and the list only.  Regrouping keeps the payload; the MAC of a
    regrouped list is the HMAC of a different text: the inner MAC stands
    where the inner members' MACs stood. *)
Theorem C5_combine_is_concatenation (ha : HomomorphicAuthenticator) :
  (forall l,
      hc_Value (CombineCommitments ha l) = concat_strings (map hc_Value l)
      /\ hc_Commitment (CombineCommitments ha l)
         = AuthenticateData ha (concat_strings (map hc_Commitment l)))
  /\ (forall a b c,
         hc_Value (CombineCommitments ha [CombineCommitments ha [a; b]; c])
         = (hc_Value a ++ hc_Value b ++ hc_Value c)%string
         /\ hc_Value (CombineCommitments ha [a; CombineCommitments ha [b; c]])
            = (hc_Value a ++ hc_Value b ++ hc_Value c)%string)
  /\ (forall a b c,
         hc_Commitment (CombineCommitments ha [CombineCommitments ha [a; b]; c])
         = AuthenticateData ha
             (AuthenticateData ha (hc_Commitment a ++ hc_Commitment b)
              ++ hc_Commitment c)%string
         /\ hc_Commitment (CombineCommitments ha [a; CombineCommitments ha [b; c]])
            = AuthenticateData ha
                (hc_Commitment a
                 ++ AuthenticateData ha (hc_Commitment b ++ hc_Commitment c))%string).
Proof.
  split; [|split].
  - intros l. rewrite CombineCommitments_spec. split; reflexivity.
  - intros a b c. rewrite !CombineCommitments_spec. simpl.
    rewrite !append_nil_r, ?append_assoc. split; reflexivity.
  - intros a b c. rewrite !CombineCommitments_spec. simpl.
    rewrite !append_nil_r. split; reflexivity.
Qed.

(** ** The succinct trie *)

Lemma get_at_empty (k : list Z) : get_at emptyTrieNode k = ("", false).
Proof. destruct k as [|b k]; reflexivity. Qed.

Lemma updateHashes_fields (n : TrieNode) :
  tn_Children (updateHashes n) = updateHashes <$> tn_Children n
  /\ tn_Value (updateHashes n) = tn_Value n.
Proof. destruct n; split; reflexivity. Qed.

(** Re-hashing changes digests only. *)
Lemma get_at_updateHashes (k : list Z) (n : TrieNode) :
  get_at (updateHashes n) k = get_at n k.
Proof.
  revert n. induction k as [|b k IH]; intros n;
    destruct (updateHashes_fields n) as [Hc Hv]; simpl.
  - rewrite Hv. reflexivity.
  - rewrite Hc, lookup_fmap. destruct (tn_Children n !! b) as [next|]; simpl; [apply IH|reflexivity].
Qed.

Lemma get_at_insert_same (k : list Z) (v : string) (n : TrieNode) :
  get_at (insert_at n k v) k = get_result v.
Proof.
  revert n. induction k as [|b k IH]; intros n; simpl.
  - reflexivity.
  - rewrite lookup_insert_eq. apply IH.
Qed.

Lemma get_at_insert_other (k k' : list Z) (v : string) (n : TrieNode) :
  k <> k' -> get_at (insert_at n k v) k' = get_at n k'.
Proof.
  revert n k'. induction k as [|b k IH]; intros n [|b' k'] Hne; simpl.
  - contradiction.
  - reflexivity.
  - reflexivity.
  - destruct (decide (b = b')) as [->|Hb].
    + rewrite lookup_insert_eq. rewrite IH by congruence.
      destruct (tn_Children n !! b'); [reflexivity|apply get_at_empty].
    + rewrite lookup_insert_ne by exact Hb. reflexivity.
Qed.

Lemma Get_Insert (st : SuccinctTrie) (k v k' : string) :
  SuccinctTrie_Get (SuccinctTrie_Insert st k v) k'
  = if String.eqb k k' then get_result v else SuccinctTrie_Get st k'.
Proof.
  unfold SuccinctTrie_Get, SuccinctTrie_Insert. simpl. rewrite get_at_updateHashes.
  destruct (String.eqb_spec k k') as [->|Hne].
  - apply get_at_insert_same.
  - apply get_at_insert_other. intros H. apply Hne, bytes_of_string_inj, H.
Qed.

Lemma Get_after_inserts (ops : list (string * string)) (st : SuccinctTrie) (k : string) :
  SuccinctTrie_Get
    (fold_left (fun st kv => SuccinctTrie_Insert st (fst kv) (snd kv)) ops st) k
  = match last_inserted ops k with
    | Some v => get_result v
    | None => SuccinctTrie_Get st k
    end.
Proof.
  revert st. induction ops as [|[k' v] ops IH]; intros st; simpl; [reflexivity|].
  rewrite IH. destruct (last_inserted ops k); [reflexivity|].
  rewrite Get_Insert. simpl. destruct (String.eqb k' k); reflexivity.
Qed.

(** C6, as stated, fails: after [Insert("a", "")] on a fresh trie the key was
    inserted, with the empty string as its last value, and [Get("a")] answers
    [("", false)], not [("", true)]. *)
Lemma C6_empty_value_is_reported_absent :
  last_inserted [("a", "")] "a" = Some ""
  /\ SuccinctTrie_Get (trie_after [("a", "")]) "a" = ("", false)
  /\ ~ spec_trie_lookup [("a", "")] "a".
Proof.
  split; [reflexivity|]. split; [reflexivity|].
  intros [H _]. specialize (H "" eq_refl). discriminate H.
Qed.

(** C6, amended.  After any sequence of [Insert] calls on a fresh trie,
    [Get(k)] returns [(v, true)] when the last [Insert] with key [k] stored a
    non-empty value [v]; it returns [("", false)] when [k] was never inserted
    and also when the last value stored under [k] is the empty string. *)
Theorem C6_get_returns_last_nonempty_value (ops : list (string * string)) (k : string) :
  SuccinctTrie_Get (trie_after ops) k
  = match last_inserted ops k with
    | Some v => if String.eqb v "" then ("", false) else (v, true)
    | None => ("", false)
    end.
Proof.
  unfold trie_after. rewrite Get_after_inserts.
  destruct (last_inserted ops k); [reflexivity|].
  unfold SuccinctTrie_Get, NewSuccinctTrie. simpl. apply get_at_empty.
Qed.

(** ** The state pruner *)

Lemma wrap_int_small (z : Z) : int_range z -> wrap_int z = z.
Proof.
  unfold int_range, wrap_int. intros H.
  rewrite Z.mod_small by lia. lia.
Qed.

Lemma wrap_int_high (z : Z) : 2 ^ 63 <= z < 2 ^ 64 -> wrap_int z = z - 2 ^ 64.
Proof.
  unfold wrap_int. intros H.
  replace (z + 2 ^ 63) with ((z - 2 ^ 63) + 1 * 2 ^ 64) by lia.
  rewrite Z.mod_add by lia. rewrite Z.mod_small by lia. lia.
Qed.

Lemma rem_bounds_nonneg (a b : Z) : 0 <= a -> b <> 0 -> 0 <= Z.rem a b <= a.
Proof.
  intros Ha Hb. destruct (Z.lt_total b 0) as [Hlt|[Heq|Hgt]]; [|contradiction|].
  - rewrite <- (Z.opp_involutive b), Z.rem_opp_r by lia.
    split; [apply Z.rem_nonneg; lia | apply Z.rem_le; lia].
  - split; [apply Z.rem_nonneg; lia | apply Z.rem_le; lia].
Qed.

Lemma rem_bounds_nonpos (a b : Z) : a <= 0 -> b <> 0 -> a <= Z.rem a b <= 0.
Proof.
  intros Ha Hb. rewrite <- (Z.opp_involutive a), Z.rem_opp_l by lia.
  pose proof (rem_bounds_nonneg (- a) b ltac:(lia) Hb). lia.
Qed.

Lemma VerifyIntegrity_created (sp sp' : StatePruner) (rootHash now : string) (count : Z) :
  secretKey sp' = secretKey sp ->
  VerifyIntegrity sp' (createIntegrityProof sp rootHash count now) = true.
Proof.
  intros Hk. unfold VerifyIntegrity, createIntegrityProof. simpl.
  rewrite Hk. apply String.eqb_refl.
Qed.

(** C7.  Whenever [PruneBlockchain] returns a positive count, it has appended
    exactly one proof, [GetLatestProof] returns that proof,
    [VerifyIntegrity] accepts it, and the count is the length of the chain
    less the retention count, reduced by its remainder modulo [MaxHeight]
    when checkpoints are used; the chain has lost that many blocks from its
    front. *)
Theorem C7_prune_then_verify (sp sp' : StatePruner) (bc bc' : Blockchain)
  (now : string) (n : Z) :
  Z.of_nat (length (bc_Blocks bc)) < 2 ^ 63 ->
  int_range (RetentionCount (policy sp)) ->
  PruneBlockchain sp bc now = Some (sp', bc', n) ->
  0 < n ->
  exists proof,
    integrityProofs sp' = integrityProofs sp ++ [proof]
    /\ GetLatestProof sp' = Some proof
    /\ VerifyIntegrity sp' proof = true
    /\ PrunedCount proof = n
    /\ (let d := Z.of_nat (length (bc_Blocks bc)) - RetentionCount (policy sp) in
        n = if UseCheckpoints (policy sp)
            then d - go_rem d (MaxHeight (policy sp)) else d)
    /\ (0 < MaxHeight (policy sp) ->
        n = spec_dropCount (policy sp) (Z.of_nat (length (bc_Blocks bc))))
    /\ bc_Blocks bc' = drop (Z.to_nat n) (bc_Blocks bc).
Proof.
  intros Hlen HR Hrun Hn. unfold PruneBlockchain in Hrun.
  set (len := Z.of_nat (length (bc_Blocks bc))) in *.
  set (R := RetentionCount (policy sp)) in *.
  set (M := MaxHeight (policy sp)) in *.
  assert (Hlen0 : 0 <= len) by (unfold len; lia).
  destruct (Z.leb_spec len R) as [Hle|Hgt].
  { injection Hrun as _ _ <-. lia. }
  unfold int_range in HR.
  (* the count before the final tests *)
  assert (Hcount : exists c,
             (if UseCheckpoints (policy sp)
              then if M =? 0 then None
                   else Some (wrap_int (wrap_int (len - R)
                                        - go_rem (wrap_int (len - R)) M))
              else Some (wrap_int (len - R))) = Some c
             /\ (0 < c ->
                 c = (if UseCheckpoints (policy sp)
                      then (len - R) - go_rem (len - R) M else len - R)
                 /\ (0 < M -> c = spec_dropCount (policy sp) len))).
  { unfold spec_dropCount. fold R M.
    destruct (UseCheckpoints (policy sp)) eqn:Hcp.
    - destruct (Z.eqb_spec M 0) as [HM|HM]; [discriminate Hrun|].
      eexists; split; [reflexivity|]. intros Hc.
      destruct (Z.lt_ge_cases (len - R) (2 ^ 63)) as [Hsmall|Hbig].
      + rewrite (wrap_int_small (len - R)) in * by (unfold int_range; lia).
        pose proof (rem_bounds_nonneg (len - R) M ltac:(lia) HM) as Hrem.
        unfold go_rem in *.
        rewrite wrap_int_small in * by (unfold int_range; lia).
        split; [reflexivity|]. intros HMpos.
        rewrite Z.rem_mod_nonneg by lia. reflexivity.
      + exfalso. rewrite (wrap_int_high (len - R)) in Hc by lia.
        pose proof (rem_bounds_nonpos (len - R - 2 ^ 64) M ltac:(lia) HM) as Hrem.
        unfold go_rem in Hc.
        rewrite wrap_int_small in Hc by (unfold int_range; lia). lia.
    - eexists; split; [reflexivity|]. intros Hc.
      destruct (Z.lt_ge_cases (len - R) (2 ^ 63)) as [Hsmall|Hbig].
      + rewrite wrap_int_small by (unfold int_range; lia). split; [reflexivity|]. reflexivity.
      + exfalso. rewrite wrap_int_high in Hc by lia. lia. }
  destruct Hcount as (c & Hc & Hcpos). rewrite Hc in Hrun. simpl in Hrun.
  destruct (Z.leb_spec c 0) as [Hc0|Hc0].
  { injection Hrun as _ _ <-. lia. }
  destruct (Z.ltb_spec len c) as [Hover|Hin]; [discriminate Hrun|].
  injection Hrun as <- <- <-.
  destruct (Hcpos Hc0) as [Hform Hspec].
  eexists. split; [reflexivity|]. simpl.
  split; [apply last_snoc|].
  split; [apply VerifyIntegrity_created; reflexivity|].
  split; [reflexivity|].
  split; [exact Hform|]. split; [exact Hspec|reflexivity].
Qed.

(** The pruning demonstration: twenty-one blocks, checkpoints of five, ten
    blocks kept; ten blocks are dropped. *)
Lemma C7_prune_then_verify_witness :
  snd demo_pruned = 10
  /\ exists proof,
      integrityProofs (fst (fst demo_pruned)) = integrityProofs demo_pruner ++ [proof]
      /\ GetLatestProof (fst (fst demo_pruned)) = Some proof
      /\ VerifyIntegrity (fst (fst demo_pruned)) proof = true
      /\ PrunedCount proof = snd demo_pruned.
Proof.
  split; [vm_compute; reflexivity|].
  destruct (C7_prune_then_verify demo_pruner (fst (fst demo_pruned))
              demo_prunable_chain (snd (fst demo_pruned)) (demo_clock 9)
              (snd demo_pruned))
    as (proof & H1 & H2 & H3 & H4 & _).
  - vm_compute. reflexivity.
  - split; vm_compute; [discriminate|reflexivity].
  - vm_compute. reflexivity.
  - vm_compute. reflexivity.
  - exists proof. repeat split; assumption.
Defined.

(** ** The two-phase transfer *)

(** A plain move between two distinct shards of the store. *)
Lemma SyncBlock_moves (h : heap) (source destination : ptr) (i : Z) :
  source <> destination ->
  (source < length h)%nat -> (destination < length h)%nat ->
  0 <= i < Z.of_nat (length (Blocks (deref h source))) ->
  let r := SyncBlock h source destination i in
  fst r = true
  /\ Blocks (deref (snd r) source)
     = take (Z.to_nat i) (Blocks (deref h source))
       ++ drop (S (Z.to_nat i)) (Blocks (deref h source))
  /\ Blocks (deref (snd r) destination)
     = Blocks (deref h destination) ++ [block_at (Blocks (deref h source)) i].
Proof.
  intros Hne Hs Hd Hi. cbv zeta. unfold SyncBlock.
  destruct (Z.ltb_spec i 0) as [?|_]; [lia|].
  destruct (Z.leb_spec (Z.of_nat (length (Blocks (deref h source)))) i) as [?|_]; [lia|].
  simpl. split; [reflexivity|].
  split; heap_simpl; reflexivity.
Qed.

(** After a successful prepare the table holds the transfer, marked
    prepared, under its identifier. *)
Lemma CreateAuthenticatedTransfer_true (esm esm1 : EnhancedSyncManager) (h : heap)
  (source destination : ptr) (i : Z) :
  CreateAuthenticatedTransfer esm h source destination i = (true, esm1) ->
  0 <= i < Z.of_nat (length (Blocks (deref h source)))
  /\ authenticator esm1 = authenticator esm
  /\ pendingTransfers esm1 !! transferID h source destination i
     = Some (mkTransferState source destination i
               (AuthenticateData (authenticator esm)
                  (partialState (block_at (Blocks (deref h source)) i)))
               true (Blocks (deref h source)) (Blocks (deref h destination))).
Proof.
  unfold CreateAuthenticatedTransfer.
  destruct (Z.ltb_spec i 0) as [?|Hi0]; [discriminate|].
  destruct (Z.leb_spec (Z.of_nat (length (Blocks (deref h source)))) i) as [?|Hi1];
    [discriminate|].
  simpl. unfold prepareTransfer. simpl.
  rewrite VerifyAuthentication_own. simpl.
  intros [= <-]. simpl. split; [lia|]. split; [reflexivity|].
  rewrite lookup_insert_eq. reflexivity.
Qed.

(** Prepare succeeds on every index in range, whatever the key. *)
Lemma CreateAuthenticatedTransfer_in_range (esm : EnhancedSyncManager) (h : heap)
  (source destination : ptr) (i : Z) :
  0 <= i < Z.of_nat (length (Blocks (deref h source))) ->
  fst (CreateAuthenticatedTransfer esm h source destination i) = true.
Proof.
  intros Hi. unfold CreateAuthenticatedTransfer.
  destruct (Z.ltb_spec i 0) as [?|_]; [lia|].
  destruct (Z.leb_spec (Z.of_nat (length (Blocks (deref h source)))) i) as [?|_]; [lia|].
  simpl. unfold prepareTransfer. simpl.
  rewrite VerifyAuthentication_own. reflexivity.
Qed.

(** A manager that prepared a transfer accepts its own commitment at commit
    time: with the store unchanged in between, the commit applies the move
    and returns true, for every key. *)
Lemma prepare_then_commit_succeeds (esm esm1 : EnhancedSyncManager) (h : heap)
  (source destination : ptr) (i : Z) :
  CreateAuthenticatedTransfer esm h source destination i = (true, esm1) ->
  VerifyAndApplyTransfer esm1 h source destination i
  = (true,
     set_pending esm1 (delete (transferID h source destination i) (pendingTransfers esm1)),
     snd (SyncBlock h source destination i)).
Proof.
  intros Hc. destruct (CreateAuthenticatedTransfer_true _ _ _ _ _ _ Hc) as (Hi & Ha & Hp).
  unfold VerifyAndApplyTransfer. rewrite Hp. simpl.
  destruct (Z.ltb_spec i 0) as [?|_]; [lia|].
  destruct (Z.leb_spec (Z.of_nat (length (Blocks (deref h source)))) i) as [?|_]; [lia|].
  simpl. rewrite Ha, VerifyAuthentication_own.
  unfold SyncBlock.
  destruct (Z.ltb_spec i 0) as [?|_]; [lia|].
  destruct (Z.leb_spec (Z.of_nat (length (Blocks (deref h source)))) i) as [?|_]; [lia|].
  reflexivity.
Qed.

(** C1.  In the demonstration run, the manager keyed with "wrong-key"
    prepares the transfer of block 0 from the first shard to the second and
    then commits it: the commit returns true, the first shard, which held
    one block before the prepare, is left empty, and the second shard has
    gained that block.  The specification and the log message of
    [cmd/main.go] expect false and both shards back in their pre-prepare
    state. *)
Theorem C1_wrong_key_transfer_commits :
  let before := demo_after_transfer in
  let after := snd demo_faulty_commit in
  fst demo_faulty_prepare = true
  /\ fst (fst demo_faulty_commit) = true
  /\ length (Blocks (deref before demo_shard0)) = 1%nat
  /\ Blocks (deref after demo_shard0) = []
  /\ Blocks (deref after demo_shard0) <> Blocks (deref before demo_shard0)
  /\ Blocks (deref after demo_shard1)
     = Blocks (deref before demo_shard1) ++ Blocks (deref before demo_shard0).
Proof.
  cbv zeta.
  split; [vm_compute; reflexivity|].
  split; [vm_compute; reflexivity|].
  split; [vm_compute; reflexivity|].
  split; [vm_compute; reflexivity|].
  split; [vm_compute; discriminate|].
  vm_compute; reflexivity.
Qed.

(** A commit on an index that is out of range for the source returns false
    and changes neither the store nor the table. *)
Lemma VerifyAndApplyTransfer_invalid_index (esm : EnhancedSyncManager) (h : heap)
  (source destination : ptr) (i : Z) (ts : TransferState) :
  pendingTransfers esm !! transferID h source destination i = Some ts ->
  Prepared ts = true ->
  i < 0 \/ Z.of_nat (length (Blocks (deref h source))) <= i ->
  VerifyAndApplyTransfer esm h source destination i = (false, esm, h).
Proof.
  intros Hp Hprep Hi. unfold VerifyAndApplyTransfer. rewrite Hp, Hprep. simpl.
  destruct (Z.ltb_spec i 0) as [?|?]; [reflexivity|].
  destruct (Z.leb_spec (Z.of_nat (length (Blocks (deref h source)))) i) as [?|?];
    [reflexivity|lia].
Qed.

(** C10.  A transfer is prepared on the store [h0]; later, on a store [h]
    where the two shards keep their IDs and the source holds no block at the
    stored index any more, the commit returns false, leaves the store as it
    is (no snapshot is restored, no Merkle tree rebuilt) and leaves the
    table as it is: the prepared entry is still there under the same
    identifier. *)
Theorem C10_invalid_index_commit_keeps_entry (esm esm1 : EnhancedSyncManager)
  (h0 h : heap) (source destination : ptr) (i : Z) :
  CreateAuthenticatedTransfer esm h0 source destination i = (true, esm1) ->
  ID (deref h source) = ID (deref h0 source) ->
  ID (deref h destination) = ID (deref h0 destination) ->
  Z.of_nat (length (Blocks (deref h source))) <= i ->
  VerifyAndApplyTransfer esm1 h source destination i = (false, esm1, h)
  /\ exists ts,
      pendingTransfers esm1 !! transferID h source destination i = Some ts
      /\ Prepared ts = true
      /\ SourceSnapshot ts = Blocks (deref h0 source)
      /\ DestSnapshot ts = Blocks (deref h0 destination).
Proof.
  intros Hc Hs Hd Hi.
  destruct (CreateAuthenticatedTransfer_true _ _ _ _ _ _ Hc) as (_ & _ & Hp).
  assert (Hid : transferID h source destination i = transferID h0 source destination i).
  { unfold transferID. rewrite Hs, Hd. reflexivity. }
  rewrite Hid. split.
  - eapply VerifyAndApplyTransfer_invalid_index.
    + rewrite Hid. exact Hp.
    + reflexivity.
    + right. exact Hi.
  - eexists. split; [exact Hp|]. repeat split; reflexivity.
Qed.

(** A block is prepared for transfer, leaves the source by another route,
    and the commit is then attempted. *)
Lemma C10_invalid_index_commit_keeps_entry_witness :
  VerifyAndApplyTransfer (snd stale_prepared) stale_heap1 0%nat 1%nat 0
  = (false, snd stale_prepared, stale_heap1)
  /\ exists ts,
      pendingTransfers (snd stale_prepared) !! transferID stale_heap1 0%nat 1%nat 0
      = Some ts
      /\ Prepared ts = true
      /\ SourceSnapshot ts = Blocks (deref stale_heap0 0%nat)
      /\ DestSnapshot ts = Blocks (deref stale_heap0 1%nat).
Proof.
  apply (C10_invalid_index_commit_keeps_entry
           (NewEnhancedSyncManager "secret-key-123") (snd stale_prepared)
           stale_heap0 stale_heap1 0%nat 1%nat 0).
  - vm_compute. reflexivity.
  - vm_compute. reflexivity.
  - vm_compute. reflexivity.
  - vm_compute. discriminate.
Defined.

(** ** The shard manager: the index is never empty *)

Lemma NewShardManager_spec (h : heap) :
  exists t, NewShardManager h = Some (mkShardManager t, h ++ [NewShard 0])
    /\ colorOf t = Black /\ GetAllShards t = [length h].
Proof.
  unfold NewShardManager. simpl. eexists. repeat split.
Qed.

Lemma rebalance_loop_cons (st : heap * RBTree * Z) (s : ptr) (l : list ptr) :
  rebalance_loop st (s :: l) = rebalance_step st s ≫= fun st1 => rebalance_loop st1 l.
Proof. reflexivity. Qed.

Lemma merge_loop_cons (threshold : Z) (cs : list ptr)
  (st : heap * RBTree * gmap nat bool) (i : nat) (l : list nat) :
  merge_loop threshold cs st (i :: l)
  = merge_step threshold cs st i ≫= fun st1 => merge_loop threshold cs st1 l.
Proof. reflexivity. Qed.

Lemma rebalance_step_total (h : heap) (t : RBTree) (c : Z) (shard : ptr) :
  colorOf t = Black ->
  exists h' t' c', rebalance_step (h, t, c) shard = Some (h', t', c')
    /\ colorOf t' = Black
    /\ (length (GetAllShards t) < length (GetAllShards t'))%nat.
Proof.
  intros Hc. unfold rebalance_step.
  destruct (MaxBlocksPerShard <? Z.of_nat (length (Blocks (deref h shard)))).
  - match goal with |- context [RBTree_Insert ?hh t shard] =>
      destruct (RBTree_Insert_spec hh t shard Hc) as (t1 & E1 & Hb1 & _);
      pose proof (RBTree_Insert_length _ _ _ _ Hc E1) as [_ Hl1]
    end.
    rewrite E1. simpl.
    match goal with |- context [RBTree_Insert ?hh t1 ?p] =>
      destruct (RBTree_Insert_spec hh t1 p Hb1) as (t2 & E2 & Hb2 & _);
      pose proof (RBTree_Insert_length _ _ _ _ Hb1 E2) as [_ Hl2]
    end.
    rewrite E2. simpl. do 3 eexists. split; [reflexivity|]. split; [exact Hb2|]. lia.
  - destruct (RBTree_Insert_spec h t shard Hc) as (t1 & E1 & Hb1 & _).
    pose proof (RBTree_Insert_length _ _ _ _ Hc E1) as [_ Hl1].
    rewrite E1. simpl. do 3 eexists. split; [reflexivity|]. split; [exact Hb1|]. lia.
Qed.

Lemma rebalance_loop_total (shards : list ptr) :
  forall h t c,
    colorOf t = Black ->
    exists h' t' c', rebalance_loop (h, t, c) shards = Some (h', t', c')
      /\ colorOf t' = Black
      /\ (length (GetAllShards t) + length shards <= length (GetAllShards t'))%nat.
Proof.
  induction shards as [|s shards IH]; intros h t c Hc.
  - simpl. do 3 eexists. split; [reflexivity|]. split; [exact Hc|]. lia.
  - destruct (rebalance_step_total h t c s Hc) as (h1 & t1 & c1 & E1 & Hb1 & Hl1).
    rewrite rebalance_loop_cons, E1. simpl.
    destruct (IH h1 t1 c1 Hb1) as (h2 & t2 & c2 & E2 & Hb2 & Hl2).
    rewrite E2. do 3 eexists. split; [reflexivity|]. split; [exact Hb2|]. lia.
Qed.

Lemma RebalanceShards_total (sm : ShardManager) (h : heap) :
  colorOf (Shards sm) = Black ->
  exists sm' h', RebalanceShards sm h = Some (sm', h')
    /\ colorOf (Shards sm') = Black
    /\ (length (GetAllShards (Shards sm)) <= length (GetAllShards (Shards sm')))%nat.
Proof.
  intros Hc. unfold RebalanceShards.
  destruct (rebalance_loop_total (GetAllShards (Shards sm)) h NewRBTree
              (Z.of_nat (length (GetAllShards (Shards sm)))) eq_refl)
    as (h1 & t1 & c1 & E1 & Hb1 & Hl1).
  rewrite E1. simpl. do 2 eexists. split; [reflexivity|]. split; [exact Hb1|].
  simpl in *. lia.
Qed.

Lemma merge_step_total (threshold : Z) (cs : list ptr) (h : heap) (t : RBTree)
  (used : gmap nat bool) (i : nat) :
  (i < length cs)%nat -> colorOf t = Black ->
  exists h' t' used', merge_step threshold cs (h, t, used) i = Some (h', t', used')
    /\ colorOf t' = Black
    /\ (length (GetAllShards t) <= length (GetAllShards t'))%nat
    /\ (default false (used !! i) = false ->
        (length (GetAllShards t) < length (GetAllShards t'))%nat).
Proof.
  intros Hi Hc. unfold merge_step.
  destruct (default false (used !! i)) eqn:Hused.
  { do 3 eexists. split; [reflexivity|]. split; [exact Hc|]. split; [lia|discriminate]. }
  destruct (lookup_lt_is_Some_2 cs i Hi) as [current Hcur]. rewrite Hcur. simpl.
  match goal with |- context [if ?b then _ else _] => destruct b eqn:Hcond end.
  - apply andb_prop in Hcond as [Hcond _]. apply andb_prop in Hcond as [_ Hnext].
    apply Z.ltb_lt in Hnext.
    destruct (lookup_lt_is_Some_2 cs (S i) ltac:(lia)) as [next Hnx]. rewrite Hnx. simpl.
    match goal with |- context [RBTree_Insert ?hh t ?p] =>
      destruct (RBTree_Insert_spec hh t p Hc) as (t1 & E1 & Hb1 & _);
      pose proof (RBTree_Insert_length _ _ _ _ Hc E1) as [_ Hl1]
    end.
    rewrite E1. simpl. do 3 eexists. split; [reflexivity|]. split; [exact Hb1|].
    split; [lia|intros _; lia].
  - destruct (RBTree_Insert_spec h t current Hc) as (t1 & E1 & Hb1 & _).
    pose proof (RBTree_Insert_length _ _ _ _ Hc E1) as [_ Hl1].
    rewrite E1. simpl. do 3 eexists. split; [reflexivity|]. split; [exact Hb1|].
    split; [lia|intros _; lia].
Qed.

Lemma merge_loop_total (threshold : Z) (cs : list ptr) (indices : list nat) :
  forall h t used,
    Forall (fun i => (i < length cs)%nat) indices -> colorOf t = Black ->
    exists h' t' used', merge_loop threshold cs (h, t, used) indices = Some (h', t', used')
      /\ colorOf t' = Black
      /\ (length (GetAllShards t) <= length (GetAllShards t'))%nat.
Proof.
  induction indices as [|i indices IH]; intros h t used Hall Hc.
  - simpl. do 3 eexists. split; [reflexivity|]. split; [exact Hc|]. lia.
  - apply Forall_cons in Hall as [Hi Hall].
    destruct (merge_step_total threshold cs h t used i Hi Hc)
      as (h1 & t1 & u1 & E1 & Hb1 & Hl1 & _).
    rewrite merge_loop_cons, E1. simpl.
    destruct (IH h1 t1 u1 Hall Hb1) as (h2 & t2 & u2 & E2 & Hb2 & Hl2).
    rewrite E2. do 3 eexists. split; [reflexivity|]. split; [exact Hb2|]. lia.
Qed.

Lemma MergeShards_total (sm : ShardManager) (h : heap) (threshold : Z) :
  colorOf (Shards sm) = Black -> GetAllShards (Shards sm) <> [] ->
  exists sm' h', MergeShards sm h threshold = Some (sm', h')
    /\ colorOf (Shards sm') = Black
    /\ GetAllShards (Shards sm') <> [].
Proof.
  intros Hc Hne. unfold MergeShards.
  set (cs := GetAllShards (Shards sm)) in *.
  destruct cs as [|c0 cs'] eqn:Hcs; [contradiction|].
  change (seq 0 (length (c0 :: cs'))) with (0%nat :: seq 1 (length cs')).
  rewrite merge_loop_cons.
  destruct (merge_step_total threshold (c0 :: cs') h NewRBTree ∅ 0%nat
              ltac:(simpl; lia) eq_refl)
    as (h1 & t1 & u1 & E1 & Hb1 & _ & Hl1).
  rewrite E1. simpl.
  destruct (merge_loop_total threshold (c0 :: cs') (seq 1 (length cs')) h1 t1 u1)
    as (h2 & t2 & u2 & E2 & Hb2 & Hl2).
  { apply Forall_forall. intros i Hi. apply elem_of_seq in Hi. simpl. lia. }
  { exact Hb1. }
  rewrite E2. simpl. do 2 eexists. split; [reflexivity|]. split; [exact Hb2|].
  specialize (Hl1 eq_refl). simpl in *.
  intros Hnil. rewrite Hnil in Hl2. simpl in Hl2. lia.
Qed.

Lemma run_op_total (st : ShardManager * heap) (op : Op) :
  colorOf (Shards (fst st)) = Black -> GetAllShards (Shards (fst st)) <> [] ->
  exists st', run_op st op = Some st'
    /\ colorOf (Shards (fst st')) = Black
    /\ GetAllShards (Shards (fst st')) <> [].
Proof.
  destruct st as [sm h]. simpl. intros Hc Hne.
  assert (Hreb : forall h0, exists st',
             RebalanceShards sm h0 = Some st'
             /\ colorOf (Shards (fst st')) = Black
             /\ GetAllShards (Shards (fst st')) <> []).
  { intros h0. destruct (RebalanceShards_total sm h0 Hc) as (sm' & h' & E & Hb & Hl).
    exists (sm', h'). split; [exact E|]. split; [exact Hb|]. simpl.
    intros Hnil. rewrite Hnil in Hl. destruct (GetAllShards (Shards sm));
      [contradiction|simpl in Hl; lia]. }
  destruct op as [block| |threshold]; simpl.
  - unfold DistributeBlock.
    destruct (last (GetAllShards (Shards sm))) as [lastShard|] eqn:Hlast;
      [|apply last_None in Hlast; contradiction].
    simpl. apply Hreb.
  - apply Hreb.
  - destruct (MergeShards_total sm h threshold Hc Hne) as (sm' & h' & E & Hb & Hn).
    exists (sm', h'). auto.
Qed.

Lemma run_ops_total (ops : list Op) :
  forall st,
    colorOf (Shards (fst st)) = Black -> GetAllShards (Shards (fst st)) <> [] ->
    exists st', run_ops st ops = Some st'
      /\ colorOf (Shards (fst st')) = Black
      /\ GetAllShards (Shards (fst st')) <> [].
Proof.
  induction ops as [|op ops IH]; intros st Hc Hne; simpl.
  - exists st. auto.
  - destruct (run_op_total st op Hc Hne) as (st1 & E1 & Hc1 & Hne1).
    rewrite E1. simpl. apply IH; assumption.
Qed.

(** C9.  Every sequence of [DistributeBlock], [RebalanceShards] and
    [MergeShards] calls on the manager made by [NewShardManager] runs to its
    end (no call panics: [DistributeBlock] always finds a last shard, and
    the index is never read through the sentinel) and leaves at least
    one shard in the enumeration. *)
Theorem C9_shard_index_never_empty (ops : list Op) :
  exists st,
    run_from_new ops = Some st
    /\ GetAllShards (Shards (fst st)) <> []
    /\ is_Some (last (GetAllShards (Shards (fst st)))).
Proof.
  unfold run_from_new.
  destruct (NewShardManager_spec []) as (t & E & Hb & Hl).
  rewrite E. simpl.
  destruct (run_ops_total ops (mkShardManager t, [] ++ [NewShard 0])) as (st & Es & _ & Hne).
  - exact Hb.
  - simpl. rewrite Hl. discriminate.
  - exists st. split; [exact Es|]. split; [exact Hne|].
    destruct (last (GetAllShards (Shards (fst st)))) eqn:Hlast; [eauto|].
    apply last_None in Hlast. contradiction.
Qed.

(** ** The shard manager without merges: sizes and IDs *)


Lemma fold_AddBlock_spec (bs : list Block) :
  forall (h : heap) (p : ptr),
    (p < length h)%nat ->
    let h' := fold_left (fun hh b => Shard_AddBlock hh p b) bs h in
    length h' = length h
    /\ ID (deref h' p) = ID (deref h p)
    /\ Blocks (deref h' p) = Blocks (deref h p) ++ bs
    /\ forall q, q <> p -> deref h' q = deref h q.
Proof.
  induction bs as [|b bs IH]; intros h p Hp; simpl.
  - rewrite app_nil_r. repeat split; reflexivity.
  - destruct (IH (Shard_AddBlock h p b) p) as (Hl & Hi & Hb & Ho).
    { rewrite length_Shard_AddBlock. exact Hp. }
    rewrite Hl, Hi, Hb, length_Shard_AddBlock, Shard_AddBlock_same by exact Hp. simpl.
    rewrite <- app_assoc. repeat split; try reflexivity.
    intros q Hq. rewrite Ho by exact Hq. apply Shard_AddBlock_other. congruence.
Qed.












(** ** The shard manager in general: well-formed states and the effect of a
    rebalance on sizes *)

Lemma RBTree_Insert_perm (h : heap) (t t' : RBTree) (s : ptr) :
  colorOf t = Black -> RBTree_Insert h t s = Some t' ->
  colorOf t' = Black /\ GetAllShards t' ≡ₚ s :: GetAllShards t.
Proof.
  intros Hc Hrun.
  destruct (RBTree_Insert_spec h t s Hc) as (t1 & Ht1 & Hb & L & R & HLR & HLR').
  rewrite Hrun in Ht1. injection Ht1 as <-. split; [exact Hb|].
  rewrite HLR, HLR'. symmetry. apply Permutation_middle.
Qed.





Lemma lookup_not_in_take (cs : list ptr) (i : nat) (x : ptr) :
  NoDup cs -> cs !! i = Some x -> (x ∉ take i cs) /\ (x ∈ take (S i) cs).
Proof.
  intros Hnd Hi. pose proof (take_S_r cs i x Hi) as HS.
  assert (Hnd' : NoDup (take (S i) cs)).
  { rewrite <- (take_drop (S i) cs) in Hnd. apply NoDup_app in Hnd as [H _]. exact H. }
  rewrite HS in Hnd' |- *. apply NoDup_app in Hnd' as (_ & Hdis & _). split.
  - intros Hin. apply (Hdis x Hin). left.
  - apply elem_of_app. right. left.
Qed.

(** One step of the merge loop: the pointers inserted so far are distinct,
    point into the store, and are shards at indices already visited or
    shards made by a merge. *)
Lemma merge_step_inv (threshold : Z) (cs : list ptr) (n0 : nat)
  (h h' : heap) (t t' : RBTree) (used used' : gmap nat bool) (i : nat) :
  NoDup cs -> Forall (fun p => (p < n0)%nat) cs ->
  colorOf t = Black ->
  NoDup (GetAllShards t) ->
  Forall (fun p => (p < length h)%nat) (GetAllShards t) ->
  Forall (fun p => p ∈ take i cs \/ (n0 <= p)%nat) (GetAllShards t) ->
  (n0 <= length h)%nat ->
  merge_step threshold cs (h, t, used) i = Some (h', t', used') ->
  colorOf t' = Black
  /\ NoDup (GetAllShards t')
  /\ Forall (fun p => (p < length h')%nat) (GetAllShards t')
  /\ Forall (fun p => p ∈ take (S i) cs \/ (n0 <= p)%nat) (GetAllShards t')
  /\ (n0 <= length h')%nat.
Proof.
  intros Hndcs Hvalcs Hc Hnd Hval Horig Hn0 Hrun. unfold merge_step in Hrun.
  assert (Hmono : Forall (fun p => p ∈ take (S i) cs \/ (n0 <= p)%nat) (GetAllShards t)).
  { eapply Forall_impl; [exact Horig|]. simpl. intros p [Hp|Hp]; [left|right; exact Hp].
    apply elem_of_take in Hp as (j & Hj & Hlt). apply elem_of_take. exists j. split; [exact Hj|lia]. }
  destruct (default false (used !! i)).
  { injection Hrun as <- <- <-. repeat split; assumption. }
  destruct (cs !! i) as [current|] eqn:Hcur; [|discriminate Hrun]. simpl in Hrun.
  match type of Hrun with context [if ?b then _ else _] => destruct b end.
  - destruct (cs !! S i) as [next|] eqn:Hnx; [|discriminate Hrun]. simpl in Hrun.
    unfold alloc in Hrun.
    match type of Hrun with context [RBTree_Insert ?hh t ?p] =>
      destruct (RBTree_Insert hh t p) as [t1|] eqn:E1; [|discriminate Hrun];
      assert (Hlen3 : length hh = S (length h))
        by (rewrite !length_store, length_app; simpl; lia)
    end.
    destruct (RBTree_Insert_perm _ _ _ _ Hc E1) as [Hb1 Hp1].
    simpl in Hrun. injection Hrun as <- <- <-.
    split; [exact Hb1|]. rewrite Hp1, Hlen3.
    split.
    { apply NoDup_cons. split; [|exact Hnd].
      intros Hin. rewrite Forall_forall in Hval. specialize (Hval _ Hin). lia. }
    split.
    { apply Forall_cons. split; [lia|]. eapply Forall_impl; [exact Hval|]. simpl. intros; lia. }
    split; [|lia].
    apply Forall_cons. split; [right; lia|exact Hmono].
  - destruct (RBTree_Insert h t current) as [t1|] eqn:E1; [|discriminate Hrun].
    destruct (RBTree_Insert_perm _ _ _ _ Hc E1) as [Hb1 Hp1].
    simpl in Hrun. injection Hrun as <- <- <-.
    destruct (lookup_not_in_take cs i current Hndcs Hcur) as [Hnot Hin].
    assert (Hcn0 : (current < n0)%nat).
    { rewrite Forall_forall in Hvalcs. apply Hvalcs. eapply list_elem_of_lookup_2. exact Hcur. }
    split; [exact Hb1|]. rewrite Hp1.
    split.
    { apply NoDup_cons. split; [|exact Hnd].
      intros Hin'. rewrite Forall_forall in Horig.
      destruct (Horig _ Hin') as [H1|H1]; [contradiction|lia]. }
    split; [apply Forall_cons; split; [lia|exact Hval]|].
    split; [|exact Hn0].
    apply Forall_cons. split; [left; exact Hin|exact Hmono].
Qed.

Lemma merge_loop_inv (threshold : Z) (cs : list ptr) (n0 : nat) (m : nat) :
  forall (k : nat) (h h' : heap) (t t' : RBTree) (used used' : gmap nat bool),
    NoDup cs -> Forall (fun p => (p < n0)%nat) cs ->
    colorOf t = Black ->
    NoDup (GetAllShards t) ->
    Forall (fun p => (p < length h)%nat) (GetAllShards t) ->
    Forall (fun p => p ∈ take k cs \/ (n0 <= p)%nat) (GetAllShards t) ->
    (n0 <= length h)%nat ->
    merge_loop threshold cs (h, t, used) (seq k m) = Some (h', t', used') ->
    colorOf t' = Black
    /\ NoDup (GetAllShards t')
    /\ Forall (fun p => (p < length h')%nat) (GetAllShards t').
Proof.
  induction m as [|m IH]; intros k h h' t t' used used' Hndcs Hvalcs Hc Hnd Hval Horig Hn0 Hrun.
  - simpl in Hrun. injection Hrun as <- <- <-. auto.
  - change (seq k (S m)) with (k :: seq (S k) m) in Hrun.
    rewrite merge_loop_cons in Hrun.
    destruct (merge_step threshold cs (h, t, used) k) as [[[h1 t1] u1]|] eqn:E1;
      [|discriminate Hrun].
    simpl in Hrun.
    destruct (merge_step_inv _ _ _ _ _ _ _ _ _ _ Hndcs Hvalcs Hc Hnd Hval Horig Hn0 E1)
      as (Hb1 & Hnd1 & Hval1 & Horig1 & Hn1).
    exact (IH _ _ _ _ _ _ _ Hndcs Hvalcs Hb1 Hnd1 Hval1 Horig1 Hn1 Hrun).
Qed.

Lemma MergeShards_wf (st st' : ShardManager * heap) (threshold : Z) :
  wf_state st ->
  MergeShards (fst st) (snd st) threshold = Some st' ->
  wf_state st'.
Proof.
  intros (Hc & Hnd & Hval) Hrun. unfold MergeShards in Hrun.
  destruct (merge_loop _ _ _ _) as [[[h1 t1] u1]|] eqn:E; [|discriminate Hrun].
  simpl in Hrun. injection Hrun as <-.
  destruct (merge_loop_inv threshold (GetAllShards (Shards (fst st))) (length (snd st))
              (length (GetAllShards (Shards (fst st)))) 0 (snd st) h1 NewRBTree t1 ∅ u1
              Hnd Hval eq_refl) as (Hb & Hnd' & Hval'); try exact E.
  - constructor.
  - constructor.
  - constructor.
  - lia.
  - repeat split; assumption.
Qed.







(** ** The capacity policy: the clamp and the value that escapes it *)

(** The example of the specification: 300 ms and an error rate of 0.10 give
    78.5. *)
Lemma AdjustCapacity_example :
  AdjustCapacity NewDefaultAdaptivePolicy
    (metrics_of 300 (f64_div (float64_of_int 1) (float64_of_int 10)))
  = binary_normalize 53 1024 157 (-1) false.
Proof. vm_compute. reflexivity. Qed.


Lemma float64_of_int_1000 :
  float64_of_int 1000 = S754_finite false 8796093022208000 (-43).
Proof. vm_compute. reflexivity. Qed.

(** On positive numbers, [y < x] false gives [x <= y]. *)
Lemma f64_not_ltb_leb (m1 m2 : positive) (e1 e2 : Z) :
  f64_ltb (S754_finite false m1 e1) (S754_finite false m2 e2) = false ->
  f64_leb (S754_finite false m2 e2) (S754_finite false m1 e1) = true.
Proof.
  unfold f64_ltb, f64_leb, SFltb, SFleb, SFcompare.
  rewrite (Z.compare_antisym e1 e2).
  replace (Pos.compare_cont Eq m2 m1) with (CompOpp (Pos.compare_cont Eq m1 m2))
    by apply (Pos.compare_cont_antisym m1 m2 Eq).
  destruct (e1 ?= e2); cbn [CompOpp].
  - destruct (Pos.compare_cont Eq m1 m2); cbn [CompOpp]; intros H;
      [reflexivity|discriminate H|reflexivity].
  - intros H. discriminate H.
  - intros _. reflexivity.
Qed.

Lemma f64_leb_refl_pos (m : positive) (e : Z) :
  f64_leb (S754_finite false m e) (S754_finite false m e) = true.
Proof.
  unfold f64_leb, SFleb, SFcompare.
  rewrite Z.compare_refl, Pos.compare_cont_refl. reflexivity.
Qed.

(** The two tests that end [AdjustCapacity], on any value. *)
Lemma clamp_in_bounds_or_nan (c : spec_float) :
  let c1 := if f64_ltb c (float64_of_int 0) then float64_of_int 0 else c in
  let r := if f64_ltb (float64_of_int 1000) c1 then float64_of_int 1000 else c1 in
  (c = S754_nan /\ r = S754_nan)
  \/ (f64_leb (float64_of_int 0) r = true /\ f64_leb r (float64_of_int 1000) = true).
Proof.
  cbv zeta. rewrite float64_of_int_1000.
  change (float64_of_int 0) with (S754_zero false).
  generalize 8796093022208000%positive (-43). intros m0 e0.
  destruct c as [s|s| |s m e].
  - right. destruct s; split; reflexivity.
  - right. destruct s; (split; [reflexivity|]);
      [reflexivity|apply f64_leb_refl_pos].
  - left. split; reflexivity.
  - right. destruct s; [split; reflexivity|].
    change (f64_ltb (S754_finite false m e) (S754_zero false)) with false.
    cbv iota.
    pose proof (f64_not_ltb_leb m0 m e0 e) as Hc.
    destruct (f64_ltb (S754_finite false m0 e0) (S754_finite false m e)).
    + split; [reflexivity|apply f64_leb_refl_pos].
    + split; [reflexivity|exact (Hc eq_refl)].
Qed.

(** For every input the result is a value between 0 and 1000, or it is not a
    number. *)
Lemma AdjustCapacity_in_bounds_or_nan (metrics : NetworkMetrics) :
  let r := AdjustCapacity NewDefaultAdaptivePolicy metrics in
  r = S754_nan
  \/ (f64_leb (float64_of_int 0) r = true /\ f64_leb r (float64_of_int 1000) = true).
Proof.
  cbv zeta. unfold AdjustCapacity.
  change (maxCapacity NewDefaultAdaptivePolicy) with (float64_of_int 1000).
  lazymatch goal with
  | |- context [f64_ltb ?c (float64_of_int 0)] =>
      destruct (clamp_in_bounds_or_nan c) as [[_ H]|H]
  end; [left; exact H|right; exact H].
Qed.


(** The run of the specification's example with an error rate of 0/0. *)
Lemma C8_nan_example :
  AdjustCapacity NewDefaultAdaptivePolicy
    (metrics_of 300 (f64_div (float64_of_int 0) (float64_of_int 0)))
  = f64_NaN.
Proof. vm_compute. reflexivity. Qed.
(** ** Digests: thirty-two bytes, sixty-four hexadecimal digits *)

Lemma sha256_compress_length (h block : list Z) :
  length h = 8%nat -> length (sha256_compress h block) = 8%nat.
Proof.
  intros Hh. unfold sha256_compress. rewrite length_map, length_combine, Hh. reflexivity.
Qed.

Lemma sha256_blocks_length (fuel : nat) :
  forall h bs, length h = 8%nat -> length (sha256_blocks fuel h bs) = 8%nat.
Proof.
  induction fuel as [|k IH]; intros h bs Hh; [exact Hh|].
  destruct bs as [|b bs']; [exact Hh|].
  change (length (sha256_blocks k (sha256_compress h (firstn 64 (b :: bs')))
                    (skipn 64 (b :: bs'))) = 8%nat).
  apply IH, sha256_compress_length, Hh.
Qed.

Lemma be_bytes_range (n : nat) (x : Z) : Forall (fun b => 0 <= b < 256) (be_bytes n x).
Proof.
  induction n as [|k IH]; simpl; constructor; [|exact IH].
  change 255 with (Z.ones 8). rewrite Z.land_ones by lia.
  apply Z.mod_pos_bound. lia.
Qed.

Lemma length_be_bytes (n : nat) (x : Z) : length (be_bytes n x) = n.
Proof. induction n as [|k IH]; simpl; [reflexivity|rewrite IH; reflexivity]. Qed.

Lemma length_flat_map_be_bytes (ws : list Z) :
  length (flat_map (be_bytes 4) ws) = (4 * length ws)%nat.
Proof.
  induction ws as [|w ws IH]; [reflexivity|].
  change (flat_map (be_bytes 4) (w :: ws)) with (be_bytes 4 w ++ flat_map (be_bytes 4) ws).
  rewrite length_app, length_be_bytes, IH. simpl. lia.
Qed.

Lemma sha256_length (msg : list Z) : length (sha256 msg) = 32%nat.
Proof.
  unfold sha256. rewrite length_flat_map_be_bytes, sha256_blocks_length; reflexivity.
Qed.

Lemma sha256_range (msg : list Z) : Forall (fun b => 0 <= b < 256) (sha256 msg).
Proof.
  unfold sha256. generalize (sha256_blocks (S (length msg)) sha256_H0 (sha256_pad msg)).
  intros ws. induction ws as [|w ws IH]; [constructor|].
  change (flat_map (be_bytes 4) (w :: ws)) with (be_bytes 4 w ++ flat_map (be_bytes 4) ws).
  apply Forall_app. split; [apply be_bytes_range|exact IH].
Qed.

Lemma hex_digit_is_hex (n : Z) : 0 <= n < 16 -> is_hex_digit (hex_digit n) = true.
Proof.
  intros Hn. replace n with (Z.of_nat (Z.to_nat n)) by lia.
  assert (Hk : (Z.to_nat n < 16)%nat) by lia.
  revert Hk. generalize (Z.to_nat n). intros k Hk.
  do 16 (destruct k as [|k]; [reflexivity|]). lia.
Qed.

Lemma hex_EncodeToString_digits (bs : list Z) :
  Forall (fun b => 0 <= b < 256) bs ->
  String.length (hex_EncodeToString bs) = (2 * length bs)%nat
  /\ all_chars is_hex_digit (hex_EncodeToString bs) = true.
Proof.
  induction 1 as [|b bs Hb Hbs [IHl IHc]]; [split; reflexivity|].
  simpl hex_EncodeToString. split.
  - simpl String.length. rewrite IHl. simpl. lia.
  - simpl all_chars. rewrite IHc.
    rewrite !hex_digit_is_hex; [reflexivity| |].
    + change 15 with (Z.ones 4). rewrite Z.land_ones by lia. apply Z.mod_pos_bound. lia.
    + rewrite Z.shiftr_div_pow2 by lia. change (2 ^ 4) with 16.
      split; [apply Z.div_pos; lia|apply Z.div_lt_upper_bound; lia].
Qed.

Lemma sha256_hex_is_digest (s : string) : is_digest (sha256_hex s).
Proof.
  unfold is_digest, sha256_hex.
  destruct (hex_EncodeToString_digits _ (sha256_range (bytes_of_string s))) as [Hl Hc].
  rewrite Hl, sha256_length. split; [reflexivity|exact Hc].
Qed.

Lemma be_value_nonneg_from (bs : list Z) (a : Z) :
  0 <= a -> Forall (fun b => 0 <= b < 256) bs ->
  0 <= fold_left (fun acc b => acc * 256 + b) bs a.
Proof.
  intros Ha Hbs. revert a Ha. induction Hbs as [|b bs Hb _ IH]; intros a Ha; simpl; [exact Ha|].
  apply IH. lia.
Qed.

Lemma hashToPrime_pos (data : string) : 0 < hashToPrime data.
Proof.
  unfold hashToPrime.
  pose proof (be_value_nonneg_from _ 0 ltac:(lia) (sha256_range (bytes_of_string data))) as Hv.
  fold (be_value (sha256 (bytes_of_string data))) in Hv.
  destruct (Z.testbit _ 0) eqn:Hbit; [|lia].
  destruct (Z.eq_dec (be_value (sha256 (bytes_of_string data))) 0) as [E|E]; [|lia].
  rewrite E in Hbit. discriminate Hbit.
Qed.
(** ** The chain after any number of appended blocks *)

Lemma calculateHash_ignores_Hash (i : Z) (ts d ph h1 h2 : string) :
  calculateHash (mkBlock i ts d ph h1) = calculateHash (mkBlock i ts d ph h2).
Proof. reflexivity. Qed.

Lemma GenerateBlock_hash (prev : Block) (data now : string) :
  Hash (GenerateBlock prev data now) = calculateHash (GenerateBlock prev data now).
Proof. reflexivity. Qed.

Lemma AddBlocks_app (calls1 calls2 : list (string * string)) :
  forall bc,
    AddBlocks bc (calls1 ++ calls2) = (bc1 ← AddBlocks bc calls1; AddBlocks bc1 calls2).
Proof.
  induction calls1 as [|[d n] calls1 IH]; intros bc; simpl; [reflexivity|].
  destruct (Blockchain_AddBlock bc d n) as [bc1|]; simpl; [apply IH|reflexivity].
Qed.

(** The shape of the chain after a run of [AddBlock] calls. *)
Lemma AddBlocks_shape (now0 : string) (calls : list (string * string)) :
  exists blocks,
    AddBlocks (NewBlockchain now0) calls = Some (mkBlockchain blocks)
    /\ length blocks = S (length calls)
    /\ blocks !! 0%nat = Some (GenesisBlock now0)
    /\ (forall i a b, blocks !! i = Some a -> blocks !! S i = Some b ->
          calls !! i = Some (Data b, Timestamp b)
          /\ PrevHash b = Hash a
          /\ Index b = wrap_int (Index a + 1))
    /\ Forall (fun b => Hash b = calculateHash b) blocks.
Proof.
  induction calls as [|[d n] calls IH] using rev_ind.
  - exists [GenesisBlock now0]. simpl.
    split; [reflexivity|]. split; [reflexivity|]. split; [reflexivity|]. split.
    + intros i a b _ Hb. destruct i; discriminate Hb.
    + repeat constructor.
  - destruct IH as (blocks & Hrun & Hlen & Hgen & Hlink & Hhash).
    rewrite AddBlocks_app, Hrun. simpl. unfold Blockchain_AddBlock. simpl.
    destruct (last blocks) as [prev|] eqn:Hlast.
    2:{ apply last_None in Hlast. subst blocks. discriminate Hlen. }
    simpl. eexists. split; [reflexivity|].
    split; [rewrite !length_app, Hlen; simpl; lia|].
    split; [rewrite lookup_app_l by lia; exact Hgen|].
    split.
    + intros i a b Ha Hb.
      destruct (decide (S i < length blocks)%nat) as [Hlt|Hge].
      * rewrite lookup_app_l in Ha by lia. rewrite lookup_app_l in Hb by lia.
        destruct (Hlink i a b Ha Hb) as (Hc & Hp & Hidx).
        split; [rewrite lookup_app_l by lia; exact Hc|]. split; assumption.
      * assert (Hi : S i = length blocks).
        { apply lookup_lt_Some in Hb. rewrite length_app in Hb. simpl in Hb. lia. }
        rewrite lookup_app_l in Ha by lia.
        rewrite lookup_app_r in Hb by lia.
        replace (S i - length blocks)%nat with 0%nat in Hb by lia.
        simpl in Hb. injection Hb as <-.
        rewrite last_lookup in Hlast.
        replace (Nat.pred (length blocks)) with i in Hlast by lia.
        rewrite Ha in Hlast. injection Hlast as ->.
        split; [|split; reflexivity].
        rewrite lookup_app_r by lia.
        replace (i - length calls)%nat with 0%nat by lia. reflexivity.
    + apply Forall_app. split; [exact Hhash|]. repeat constructor.
Qed.

(** X1.  A chain made by [NewBlockchain] and extended by any number of
    [AddBlock] calls: every call returns; the chain holds the genesis block,
    which has index 0 and an empty previous-hash, followed by one block per
    call, in call order, with the payload and the clock reading of its call;
    each block after the first carries the hash of the block before it and
    that block's index plus one, so the index of a block is its position (as
    long as the position is below 2^63); the hash of every block is
    [calculateHash] of the block, a string of sixty-four lower-case
    hexadecimal digits. *)
Theorem chain_is_linked (now0 : string) (calls : list (string * string)) :
  exists blocks,
    AddBlocks (NewBlockchain now0) calls = Some (mkBlockchain blocks)
    /\ length blocks = S (length calls)
    /\ (exists genesis, blocks !! 0%nat = Some genesis
          /\ Index genesis = 0 /\ PrevHash genesis = ""
          /\ Data genesis = "Genesis Block" /\ Timestamp genesis = now0)
    /\ (forall i a b, blocks !! i = Some a -> blocks !! S i = Some b ->
          calls !! i = Some (Data b, Timestamp b)
          /\ PrevHash b = Hash a
          /\ Index b = wrap_int (Index a + 1))
    /\ (forall i b, blocks !! i = Some b -> Z.of_nat i < 2 ^ 63 -> Index b = Z.of_nat i)
    /\ Forall (fun b => Hash b = calculateHash b /\ is_digest (Hash b)) blocks.
Proof.
  destruct (AddBlocks_shape now0 calls) as (blocks & Hrun & Hlen & Hgen & Hlink & Hhash).
  exists blocks. split; [exact Hrun|]. split; [exact Hlen|].
  split; [exists (GenesisBlock now0); repeat split; exact Hgen|].
  split; [exact Hlink|]. split.
  - intros i. induction i as [|i IH]; intros b Hb Hi.
    + rewrite Hgen in Hb. injection Hb as <-. reflexivity.
    + destruct (blocks !! i) as [a|] eqn:Ha.
      2:{ apply lookup_ge_None in Ha. apply lookup_lt_Some in Hb. lia. }
      destruct (Hlink i a b Ha Hb) as (_ & _ & Hidx).
      rewrite Hidx, (IH a eq_refl) by lia.
      rewrite wrap_int_small by (unfold int_range; lia). lia.
  - eapply Forall_impl; [exact Hhash|]. simpl. intros b Hb. split; [exact Hb|].
    rewrite Hb. apply sha256_hex_is_digest.
Qed.
(** ** Merkle trees: the shape of the root *)

Lemma merkle_parents_digests (leaves : list string) :
  Forall is_digest (merkle_parents leaves).
Proof.
  assert (H : forall n l, (length l <= n)%nat -> Forall is_digest (merkle_parents l)).
  { induction n as [|n IH]; intros l Hl.
    - destruct l; [constructor|simpl in Hl; lia].
    - destruct l as [|a [|b r]]; simpl.
      + constructor.
      + repeat constructor; apply sha256_hex_is_digest.
      + constructor; [apply sha256_hex_is_digest|]. apply IH. simpl in Hl. lia. }
  apply (H (length leaves)). lia.
Qed.

Lemma buildMerkleTree_rec_digest (fuel : nat) :
  forall leaves,
    (length leaves <= fuel)%nat -> Forall is_digest leaves ->
    is_digest (buildMerkleTree_rec fuel leaves).
Proof.
  induction fuel as [|k IH]; intros leaves Hlen Hd.
  - destruct leaves; [apply sha256_hex_is_digest|simpl in Hlen; lia].
  - destruct leaves as [|a [|b r]].
    + apply sha256_hex_is_digest.
    + apply Forall_cons in Hd as [Ha _]. exact Ha.
    + change (is_digest (buildMerkleTree_rec k (merkle_parents (a :: b :: r)))).
      destruct (merkle_parents_length (a :: b :: r)) as [_ Hlt].
      specialize (Hlt ltac:(simpl; lia)).
      apply IH; [simpl in *; lia|apply merkle_parents_digests].
Qed.

Lemma NewMerkleTree_fields (data : list string) :
  mt_Leaves (NewMerkleTree data) = map sha256_hex data
  /\ mt_Root (NewMerkleTree data) = buildMerkleTree (map sha256_hex data).
Proof. destruct data; split; reflexivity. Qed.

(** X2.  [NewMerkleTree] on any list of data: the leaves are the digests of
    the data, one per datum and in order, and the root is a string of
    sixty-four lower-case hexadecimal digits; the recursion of
    [buildMerkleTree] always reaches a single node. *)
Theorem merkle_tree_is_well_formed (data : list string) :
  mt_Leaves (NewMerkleTree data) = map sha256_hex data
  /\ length (mt_Leaves (NewMerkleTree data)) = length data
  /\ Forall is_digest (mt_Leaves (NewMerkleTree data))
  /\ is_digest (GetRootHash (NewMerkleTree data)).
Proof.
  destruct (NewMerkleTree_fields data) as [Hl Hr].
  unfold GetRootHash. rewrite Hl, Hr, length_map.
  assert (Hd : Forall is_digest (map sha256_hex data)).
  { apply List.Forall_map. apply Forall_forall. intros d _. apply sha256_hex_is_digest. }
  split; [reflexivity|]. split; [reflexivity|]. split; [exact Hd|].
  apply buildMerkleTree_rec_digest; [lia|exact Hd].
Qed.

(** The root, level by level: no datum gives the digest of the empty
    string; one datum gives its own digest, not hashed again; with two nodes
    or more at a level the root is the root of the level above, whose nodes
    are the digests of the concatenated neighbours, a last node without a
    neighbour being hashed alone.  So three data give
    H(H(H d1 ++ H d2) ++ H(H d3)). *)
Theorem merkle_root_by_levels :
  GetRootHash (NewMerkleTree []) = sha256_hex ""
  /\ (forall d, GetRootHash (NewMerkleTree [d]) = sha256_hex d)
  /\ (forall a b r,
         buildMerkleTree (a :: b :: r) = buildMerkleTree (merkle_parents (a :: b :: r)))
  /\ (forall a b r,
         merkle_parents (a :: b :: r) = sha256_hex (a ++ b)%string :: merkle_parents r)
  /\ (forall a, merkle_parents [a] = [sha256_hex a])
  /\ (forall d1 d2 d3,
         GetRootHash (NewMerkleTree [d1; d2; d3])
         = sha256_hex (sha256_hex (sha256_hex d1 ++ sha256_hex d2)
                       ++ sha256_hex (sha256_hex d3))%string).
Proof.
  split; [reflexivity|]. split; [reflexivity|].
  split; [apply buildMerkleTree_step|].
  split; [reflexivity|]. split; [reflexivity|].
  intros d1 d2 d3. reflexivity.
Qed.

(** X3.  Leaves and inner nodes are hashed in the same way, so the root does
    not determine the data: the tree of two data [d1; d2] and the tree of the
    single datum H d1 ++ H d2 have the same root, and different leaves. *)
Theorem merkle_root_is_shared (d1 d2 : string) :
  let single := (sha256_hex d1 ++ sha256_hex d2)%string in
  GetRootHash (NewMerkleTree [d1; d2]) = GetRootHash (NewMerkleTree [single])
  /\ mt_Leaves (NewMerkleTree [d1; d2]) <> mt_Leaves (NewMerkleTree [single]).
Proof.
  cbv zeta. split; [reflexivity|].
  destruct (NewMerkleTree_fields [d1; d2]) as [-> _].
  destruct (NewMerkleTree_fields [(sha256_hex d1 ++ sha256_hex d2)%string]) as [-> _].
  simpl. discriminate.
Qed.
(** ** The authenticator and the transfers: what is accepted, what is left
    behind *)

Lemma VerifyAuthentication_spec (ha : HomomorphicAuthenticator) (data c : string) :
  VerifyAuthentication ha data c = true <-> c = AuthenticateData ha data.
Proof.
  unfold VerifyAuthentication, hmac_Equal. rewrite bool_decide_eq_true. split.
  - apply bytes_of_string_inj.
  - intros ->. reflexivity.
Qed.

(** [VerifyAuthentication] accepts a commitment for a payload exactly
    when the commitment is the string [AuthenticateData] returns for that
    payload under the authenticator's key; that string is sixty-four
    characters long. *)
Theorem VerifyAuthentication_iff (ha : HomomorphicAuthenticator) (data c : string) :
  (VerifyAuthentication ha data c = true <-> c = AuthenticateData ha data)
  /\ String.length (AuthenticateData ha data) = 64%nat.
Proof.
  split; [apply VerifyAuthentication_spec|].
  unfold AuthenticateData, hmac_sha256.
  destruct (hex_EncodeToString_digits _ (sha256_range
    (map (fun b => Z.lxor b 92) (hmac_block_key (ha_key ha))
     ++ sha256 (map (fun b => Z.lxor b 54) (hmac_block_key (ha_key ha))
                ++ bytes_of_string data)))) as [Hl _].
  rewrite Hl, sha256_length. reflexivity.
Qed.

Lemma ID_store_same_ID (h : heap) (p q : ptr) (s : Shard) :
  ID s = ID (deref h p) -> ID (deref (store h p s) q) = ID (deref h q).
Proof.
  intros Hs. unfold deref, store.
  destruct (decide (p = q)) as [->|Hne].
  - destruct (decide (q < length h)%nat) as [Hlt|Hge].
    + rewrite list_lookup_insert_eq by exact Hlt. simpl. exact Hs.
    + rewrite list_insert_ge by lia. reflexivity.
  - rewrite list_lookup_insert_ne by exact Hne. reflexivity.
Qed.

Lemma ID_Shard_AddBlock (h : heap) (p q : ptr) (b : Block) :
  ID (deref (Shard_AddBlock h p b) q) = ID (deref h q).
Proof.
  unfold Shard_AddBlock. rewrite !ID_store_same_ID; reflexivity.
Qed.

(** [SyncBlock] never changes the ID of a shard, so the identifier of a
    transfer is the same before and after it. *)
Lemma ID_SyncBlock (h : heap) (s d : ptr) (i : Z) (q : ptr) :
  ID (deref (snd (SyncBlock h s d i)) q) = ID (deref h q).
Proof.
  unfold SyncBlock.
  destruct ((i <? 0) || (Z.of_nat (length (Blocks (deref h s))) <=? i)); [reflexivity|].
  simpl. rewrite !ID_store_same_ID; [apply ID_Shard_AddBlock|reflexivity..].
Qed.

Lemma in_range_test (i len : Z) :
  (i <? 0) || (len <=? i) = false <-> 0 <= i < len.
Proof.
  rewrite orb_false_iff, Z.ltb_ge, Z.leb_gt. lia.
Qed.

(** X4.  [SyncBlock] returns true exactly when the index is in range for the
    source shard, and a refused call leaves the store as it was.  When source
    and destination are the same shard, an accepted call moves the block to
    the end of that shard. *)
Theorem SyncBlock_outcome (h : heap) (source destination : ptr) (i : Z) :
  (fst (SyncBlock h source destination i) = true
   <-> 0 <= i < Z.of_nat (length (Blocks (deref h source))))
  /\ (fst (SyncBlock h source destination i) = false
      -> snd (SyncBlock h source destination i) = h)
  /\ (source = destination -> (source < length h)%nat ->
      fst (SyncBlock h source destination i) = true ->
      Blocks (deref (snd (SyncBlock h source destination i)) source)
      = take (Z.to_nat i) (Blocks (deref h source))
        ++ drop (S (Z.to_nat i)) (Blocks (deref h source))
        ++ [block_at (Blocks (deref h source)) i]).
Proof.
  unfold SyncBlock.
  destruct ((i <? 0) || (Z.of_nat (length (Blocks (deref h source))) <=? i)) eqn:E.
  - simpl. split; [|split; [reflexivity|discriminate]].
    split; [discriminate|]. intros Hi. apply in_range_test in Hi. congruence.
  - apply in_range_test in E. simpl. split; [tauto|]. split; [discriminate|].
    intros <- Hs _. heap_simpl.
    assert (Hi : (Z.to_nat i < length (Blocks (deref h source)))%nat) by lia.
    rewrite take_app_le by lia.
    rewrite drop_app_le by lia. reflexivity.
Qed.

(** [SyncBlock] on the store that holds the block lists by value, between
    two distinct shards and at an index in range: the source loses the block
    at that index and keeps the others in order, the destination gains it at
    its end, both Merkle trees are rebuilt from the new contents, no ID
    changes and no shard is added.  What this says of the code, whose block
    lists are slices, is the matter of [Slices.SyncBlock] below. *)
Lemma SyncBlock_by_value_moves_one_block (h : heap) (source destination : ptr) (i : Z) :
  source <> destination ->
  (source < length h)%nat -> (destination < length h)%nat ->
  0 <= i < Z.of_nat (length (Blocks (deref h source))) ->
  let h' := snd (SyncBlock h source destination i) in
  let moved := block_at (Blocks (deref h source)) i in
  Blocks (deref h source)
  = take (Z.to_nat i) (Blocks (deref h source)) ++ moved
      :: drop (S (Z.to_nat i)) (Blocks (deref h source))
  /\ Blocks (deref h' source)
     = take (Z.to_nat i) (Blocks (deref h source))
       ++ drop (S (Z.to_nat i)) (Blocks (deref h source))
  /\ Blocks (deref h' destination) = Blocks (deref h destination) ++ [moved]
  /\ Tree (deref h' source)
     = Some (NewMerkleTree (getDataStrings (Blocks (deref h' source))))
  /\ Tree (deref h' destination)
     = Some (NewMerkleTree (getDataStrings (Blocks (deref h' destination))))
  /\ length h' = length h
  /\ (forall q, ID (deref h' q) = ID (deref h q)).
Proof.
  intros Hne Hs Hd Hi. cbv zeta.
  split.
  { unfold block_at. set (n := Z.to_nat i).
    assert (Hn : (n < length (Blocks (deref h source)))%nat) by lia.
    destruct (lookup_lt_is_Some_2 _ _ Hn) as [b Hb].
    rewrite (nth_lookup_Some _ _ _ _ Hb).
    rewrite <- (take_drop_middle _ _ _ Hb) at 1. reflexivity. }
  split; [|split; [|split; [|split; [|split]]]].
  6:{ intros q. apply ID_SyncBlock. }
  all: unfold SyncBlock;
    destruct (Z.ltb_spec i 0) as [?|_]; [lia|];
    destruct (Z.leb_spec (Z.of_nat (length (Blocks (deref h source)))) i) as [?|_]; [lia|];
    simpl; heap_simpl; try reflexivity.
  rewrite !length_store, length_Shard_AddBlock. reflexivity.
Qed.

(** The value of [CreateAuthenticatedTransfer], the shard mutexes left out:
    it is true exactly when the index is in range for the source shard,
    whatever the key; a refused call leaves the table of pending transfers
    as it was; an accepted call stores under the transfer's identifier an
    entry marked prepared that holds copies of the blocks of both shards and
    the commitment for the block, replacing an earlier entry with that
    identifier and no other.  Whether the call returns at all is the matter
    of [CreateAuthenticatedTransfer_run]. *)
Lemma prepare_value (esm : EnhancedSyncManager) (h : heap)
  (source destination : ptr) (i : Z) :
  let r := CreateAuthenticatedTransfer esm h source destination i in
  (fst r = true <-> 0 <= i < Z.of_nat (length (Blocks (deref h source))))
  /\ (fst r = false -> snd r = esm)
  /\ (fst r = true ->
      authenticator (snd r) = authenticator esm
      /\ pendingTransfers (snd r)
         = <[transferID h source destination i :=
               mkTransferState source destination i
                 (AuthenticateData (authenticator esm)
                    (partialState (block_at (Blocks (deref h source)) i)))
                 true (Blocks (deref h source)) (Blocks (deref h destination))]>
             (pendingTransfers esm)).
Proof.
  cbv zeta. unfold CreateAuthenticatedTransfer.
  destruct ((i <? 0) || (Z.of_nat (length (Blocks (deref h source))) <=? i)) eqn:E.
  - simpl. split; [|split; [reflexivity|discriminate]].
    split; [discriminate|]. intros Hi. apply in_range_test in Hi. congruence.
  - apply in_range_test in E. unfold prepareTransfer. simpl.
    rewrite VerifyAuthentication_own. simpl.
    split; [tauto|]. split; [discriminate|]. intros _.
    split; [reflexivity|]. apply insert_insert_eq.
Qed.

(** The unfolding of [VerifyAndApplyTransfer] on a prepared entry and an
    index in range. *)
Lemma VerifyAndApplyTransfer_prepared (esm : EnhancedSyncManager) (h : heap)
  (source destination : ptr) (i : Z) (ts : TransferState) :
  pendingTransfers esm !! transferID h source destination i = Some ts ->
  Prepared ts = true ->
  0 <= i < Z.of_nat (length (Blocks (deref h source))) ->
  VerifyAndApplyTransfer esm h source destination i
  = if VerifyAuthentication (authenticator esm)
         (partialState (block_at (Blocks (deref h source)) i)) (Commitment ts)
    then (true,
          set_pending esm (delete (transferID h source destination i)
                             (pendingTransfers esm)),
          snd (SyncBlock h source destination i))
    else (false,
          set_pending esm (delete (transferID h source destination i)
                             (pendingTransfers esm)),
          rollback h source destination ts).
Proof.
  intros Hp Hprep Hi. unfold VerifyAndApplyTransfer. rewrite Hp, Hprep. simpl.
  apply in_range_test in Hi. rewrite Hi.
  destruct (VerifyAuthentication _ _ _); [|reflexivity].
  unfold SyncBlock. rewrite Hi. reflexivity.
Qed.

Lemma commit_true_spec (esm : EnhancedSyncManager) (h : heap)
  (source destination : ptr) (i : Z) :
  fst (fst (VerifyAndApplyTransfer esm h source destination i)) = true
  <-> exists ts,
        pendingTransfers esm !! transferID h source destination i = Some ts
        /\ Prepared ts = true
        /\ 0 <= i < Z.of_nat (length (Blocks (deref h source)))
        /\ Commitment ts
           = AuthenticateData (authenticator esm)
               (partialState (block_at (Blocks (deref h source)) i)).
Proof.
  split.
  - unfold VerifyAndApplyTransfer.
    destruct (pendingTransfers esm !! _) as [ts|] eqn:Hp; [|discriminate].
    destruct (Prepared ts) eqn:Hprep; [|discriminate]. simpl.
    destruct ((i <? 0) || _) eqn:E; [discriminate|].
    apply in_range_test in E.
    destruct (VerifyAuthentication _ _ _) eqn:Hv.
    + intros _. exists ts. split; [reflexivity|]. split; [exact Hprep|].
      split; [exact E|]. apply VerifyAuthentication_spec, Hv.
    + simpl. discriminate.
  - intros (ts & Hp & Hprep & Hi & Hc).
    rewrite (VerifyAndApplyTransfer_prepared _ _ _ _ _ ts Hp Hprep Hi).
    rewrite Hc, VerifyAuthentication_own. reflexivity.
Qed.

(** X7.  [VerifyAndApplyTransfer] returns true exactly when the table holds
    a prepared entry under the transfer's identifier, the index is in range
    for the source shard and the stored commitment is the authenticator's
    commitment for the block now at that index.  Without an entry under the
    identifier it returns false and changes neither the table nor the
    store. *)
Theorem commit_succeeds_iff (esm : EnhancedSyncManager) (h : heap)
  (source destination : ptr) (i : Z) :
  (fst (fst (VerifyAndApplyTransfer esm h source destination i)) = true
   <-> exists ts,
         pendingTransfers esm !! transferID h source destination i = Some ts
         /\ Prepared ts = true
         /\ 0 <= i < Z.of_nat (length (Blocks (deref h source)))
         /\ Commitment ts
            = AuthenticateData (authenticator esm)
                (partialState (block_at (Blocks (deref h source)) i)))
  /\ (pendingTransfers esm !! transferID h source destination i = None ->
      VerifyAndApplyTransfer esm h source destination i = (false, esm, h)).
Proof.
  split; [apply commit_true_spec|].
  intros Hp. unfold VerifyAndApplyTransfer. rewrite Hp. reflexivity.
Qed.

(** X8.  A commit that returned true has applied [SyncBlock] and has
    removed the entry from the table: a second commit of the same transfer
    on the resulting store returns false and changes nothing. *)
Theorem commit_consumes_the_entry (esm esm' : EnhancedSyncManager) (h h' : heap)
  (source destination : ptr) (i : Z) :
  VerifyAndApplyTransfer esm h source destination i = (true, esm', h') ->
  h' = snd (SyncBlock h source destination i)
  /\ pendingTransfers esm'
     = delete (transferID h source destination i) (pendingTransfers esm)
  /\ VerifyAndApplyTransfer esm' h' source destination i = (false, esm', h').
Proof.
  intros Hrun.
  assert (Hok : fst (fst (VerifyAndApplyTransfer esm h source destination i)) = true)
    by (rewrite Hrun; reflexivity).
  apply commit_true_spec in Hok as (ts & Hp & Hprep & Hi & Hc).
  rewrite (VerifyAndApplyTransfer_prepared _ _ _ _ _ ts Hp Hprep Hi) in Hrun.
  rewrite Hc, VerifyAuthentication_own in Hrun. injection Hrun as <- <-.
  split; [reflexivity|]. split; [reflexivity|].
  unfold VerifyAndApplyTransfer at 1.
  assert (Hid : transferID (snd (SyncBlock h source destination i)) source destination i
                = transferID h source destination i).
  { unfold transferID. rewrite !ID_SyncBlock. reflexivity. }
  rewrite Hid. simpl. rewrite lookup_delete_eq. reflexivity.
Qed.

(** A prepared transfer of the single block of a shard, committed twice. *)
Lemma commit_consumes_the_entry_witness :
  snd stale_commit = snd (SyncBlock stale_heap0 0%nat 1%nat 0)
  /\ pendingTransfers (snd (fst stale_commit))
     = delete (transferID stale_heap0 0%nat 1%nat 0)
         (pendingTransfers (snd stale_prepared))
  /\ VerifyAndApplyTransfer (snd (fst stale_commit)) (snd stale_commit) 0%nat 1%nat 0
     = (false, snd (fst stale_commit), snd stale_commit).
Proof.
  apply (commit_consumes_the_entry (snd stale_prepared)).
  vm_compute. reflexivity.
Defined.

(** X9.  When the block at the index no longer matches the stored
    commitment, the commit returns false, removes the entry, and puts back
    the blocks copied at prepare time: the destination holds its snapshot,
    the source (when it is another shard) holds its own, and the Merkle
    trees of both are rebuilt from the restored blocks. *)
Theorem failed_commit_rolls_back (esm : EnhancedSyncManager) (h : heap)
  (source destination : ptr) (i : Z) (ts : TransferState) :
  pendingTransfers esm !! transferID h source destination i = Some ts ->
  Prepared ts = true ->
  0 <= i < Z.of_nat (length (Blocks (deref h source))) ->
  Commitment ts <> AuthenticateData (authenticator esm)
                     (partialState (block_at (Blocks (deref h source)) i)) ->
  (source < length h)%nat -> (destination < length h)%nat ->
  let r := VerifyAndApplyTransfer esm h source destination i in
  fst (fst r) = false
  /\ pendingTransfers (snd (fst r))
     = delete (transferID h source destination i) (pendingTransfers esm)
  /\ Blocks (deref (snd r) destination) = DestSnapshot ts
  /\ Tree (deref (snd r) destination)
     = Some (NewMerkleTree (getDataStrings (DestSnapshot ts)))
  /\ (source <> destination ->
      Blocks (deref (snd r) source) = SourceSnapshot ts
      /\ Tree (deref (snd r) source)
         = Some (NewMerkleTree (getDataStrings (SourceSnapshot ts))))
  /\ length (snd r) = length h.
Proof.
  intros Hp Hprep Hi Hc Hs Hd. cbv zeta.
  rewrite (VerifyAndApplyTransfer_prepared _ _ _ _ _ ts Hp Hprep Hi).
  destruct (VerifyAuthentication _ _ _) eqn:Hv.
  { apply VerifyAuthentication_spec in Hv. contradiction. }
  simpl. split; [reflexivity|]. split; [reflexivity|].
  unfold rollback.
  split; [destruct (decide (source = destination)) as [->|Hne]; heap_simpl; reflexivity|].
  split; [destruct (decide (source = destination)) as [->|Hne]; heap_simpl; reflexivity|].
  split; [|rewrite !length_store; reflexivity].
  intros Hne. split; heap_simpl; reflexivity.
Qed.

(** The payload of the block is altered between prepare and commit: the
    commit fails and the source shard gets back the block it had at prepare
    time. *)
Lemma failed_commit_rolls_back_witness :
  fst (fst tampered_commit) = false
  /\ Blocks (deref tampered_heap 0%nat) <> [GenesisBlock (demo_clock 0)]
  /\ Blocks (deref (snd tampered_commit) 0%nat) = [GenesisBlock (demo_clock 0)]
  /\ Blocks (deref (snd tampered_commit) 1%nat) = [].
Proof.
  destruct (failed_commit_rolls_back (snd stale_prepared) tampered_heap 0%nat 1%nat 0
              (mkTransferState 0%nat 1%nat 0
                 (AuthenticateData (NewHomomorphicAuthenticator "secret-key-123")
                    (partialState (GenesisBlock (demo_clock 0))))
                 true [GenesisBlock (demo_clock 0)] []))
    as (Hf & _ & Hd & _ & Hsrc & _).
  - vm_compute. reflexivity.
  - reflexivity.
  - simpl. lia.
  - vm_compute. discriminate.
  - simpl. lia.
  - simpl. lia.
  - destruct (Hsrc ltac:(discriminate)) as [Hs _].
    split; [exact Hf|]. split; [vm_compute; discriminate|]. split; [exact Hs|exact Hd].
Defined.
Lemma prepareTransfer_run_spec (esm : EnhancedSyncManager) (h : heap)
    (state : TransferState) :
  prepareTransfer_run esm h state
  = if (fst (prepareTransfer esm h state))
       && bool_decide (SourceShard state = DestShard state)
    then BlocksForever
    else Returns (prepareTransfer esm h state).
Proof.
  unfold prepareTransfer_run, prepareTransfer, mutex_Lock.
  destruct (negb (VerifyAuthentication _ _ _)); [reflexivity|].
  rewrite bool_decide_eq_false_2 by (intros H; inversion H). simpl.
  destruct (decide (SourceShard state = DestShard state)) as [E|E].
  - rewrite (bool_decide_eq_true_2 _ E).
    rewrite bool_decide_eq_true_2; [reflexivity|]. rewrite E. left.
  - rewrite (bool_decide_eq_false_2 _ E).
    rewrite bool_decide_eq_false_2; [reflexivity|].
    intros [H|H]%elem_of_cons; [congruence|inversion H].
Qed.

(** X6.  [CreateAuthenticatedTransfer] never returns when the index is in
    range and source and destination are the same shard: [prepareTransfer]
    locks the mutex of that shard twice.  In every other case it returns;
    it returns true exactly when the index is in range for the source
    shard, whatever the key; a refused call leaves the table of pending
    transfers as it was; an accepted call stores under the transfer's
    identifier an entry marked prepared that holds copies of the blocks of
    both shards and the commitment for the block, replacing an earlier entry
    with that identifier and no other. *)
Theorem transfer_prepare_outcome (esm : EnhancedSyncManager) (h : heap)
  (source destination : ptr) (i : Z) :
  let run := CreateAuthenticatedTransfer_run esm h source destination i in
  (run = BlocksForever
   <-> 0 <= i < Z.of_nat (length (Blocks (deref h source))) /\ source = destination)
  /\ (forall ok esm', run = Returns (ok, esm') ->
      (ok, esm') = CreateAuthenticatedTransfer esm h source destination i
      /\ (ok = true <-> 0 <= i < Z.of_nat (length (Blocks (deref h source))))
      /\ (ok = false -> esm' = esm)
      /\ (ok = true ->
          source <> destination
          /\ authenticator esm' = authenticator esm
          /\ pendingTransfers esm'
             = <[transferID h source destination i :=
                   mkTransferState source destination i
                     (AuthenticateData (authenticator esm)
                        (partialState (block_at (Blocks (deref h source)) i)))
                     true (Blocks (deref h source)) (Blocks (deref h destination))]>
                 (pendingTransfers esm))).
Proof.
  cbv zeta.
  pose proof (prepare_value esm h source destination i) as Hval. cbv zeta in Hval.
  unfold CreateAuthenticatedTransfer_run.
  unfold CreateAuthenticatedTransfer in Hval |- *.
  destruct ((i <? 0) || (Z.of_nat (length (Blocks (deref h source))) <=? i)) eqn:E.
  - split.
    + split; [discriminate|]. intros [Hi _]. apply in_range_test in Hi. congruence.
    + intros ok esm' [= <- <-]. simpl in Hval.
      destruct Hval as (H1 & H2 & H3).
      split; [reflexivity|]. split; [exact H1|]. split; [exact H2|]. discriminate.
  - pose proof E as Hi. apply in_range_test in Hi.
    rewrite prepareTransfer_run_spec.
    unfold prepareTransfer in Hval |- *. simpl in Hval |- *.
    rewrite VerifyAuthentication_own in Hval |- *. simpl in Hval |- *.
    destruct Hval as (H1 & H2 & H3).
    destruct (decide (source = destination)) as [Heq|Hne].
    + rewrite (bool_decide_eq_true_2 _ Heq). split; [tauto|]. discriminate.
    + rewrite (bool_decide_eq_false_2 _ Hne). split.
      * split; [discriminate|]. intros [_ Heq]. contradiction.
      * intros ok esm' [= <- <-].
        split; [reflexivity|]. split; [tauto|]. split; [discriminate|].
        intros _. split; [exact Hne|]. exact (H3 eq_refl).
Qed.
(** ** [SyncBlock] on slices: when the by-value store is what the code does *)

Lemma length_overwrite (arr : list Block) (pos : nat) (elems : list Block) :
  (pos + length elems <= length arr)%nat ->
  length (Slices.overwrite arr pos elems) = length arr.
Proof.
  intros H. unfold Slices.overwrite.
  rewrite !length_app, length_take, length_drop. lia.
Qed.

Lemma contents_overwrite (arr : list Block) (off len : nat) (elems : list Block) :
  (off + len <= length arr)%nat ->
  take (len + length elems)
       (drop off (Slices.overwrite arr (off + len) elems))
  = take len (drop off arr) ++ elems.
Proof.
  intros H. unfold Slices.overwrite.
  rewrite drop_app_le by (rewrite length_take; lia).
  rewrite <- take_drop_commute.
  assert (Hl : length (take len (drop off arr)) = len)
    by (rewrite length_take, length_drop; lia).
  rewrite take_app_ge by lia. rewrite Hl.
  replace (len + length elems - len)%nat with (length elems) by lia.
  rewrite take_app_le by lia. rewrite firstn_all. reflexivity.
Qed.

Lemma append_spec (spare : nat -> nat) (arrs : list (list Block))
    (s : Slices.Slice) (elems : list Block) :
  Slices.valid arrs s ->
  let arrs' := fst (Slices.append spare arrs s elems) in
  let s' := snd (Slices.append spare arrs s elems) in
  Slices.contents arrs' s' = Slices.contents arrs s ++ elems
  /\ Slices.valid arrs' s'
  /\ (length arrs <= length arrs')%nat
  /\ (forall a, a <> Slices.sl_array s -> (a < length arrs)%nat ->
        arrs' !! a = arrs !! a)
  /\ (Slices.sl_array s' = Slices.sl_array s \/ Slices.sl_array s' = length arrs).
Proof.
  intros [Ha Hb]. cbv zeta. unfold Slices.append, Slices.cap.
  destruct (Nat.leb_spec (Slices.sl_len s + length elems)
              (length (Slices.array_at arrs s) - Slices.sl_offset s)) as [Hfit|Hfull];
    simpl.
  - assert (Harr : Slices.array_at
                     (<[Slices.sl_array s :=
                          Slices.overwrite (Slices.array_at arrs s)
                            (Slices.sl_offset s + Slices.sl_len s) elems]> arrs)
                     (Slices.mkSlice (Slices.sl_array s) (Slices.sl_offset s)
                        (Slices.sl_len s + length elems))
                   = Slices.overwrite (Slices.array_at arrs s)
                       (Slices.sl_offset s + Slices.sl_len s) elems).
    { unfold Slices.array_at at 1. simpl.
      rewrite list_lookup_insert_eq by exact Ha. reflexivity. }
    split; [|split; [|split; [|split]]].
    + unfold Slices.contents at 1. rewrite Harr. simpl.
      apply contents_overwrite. exact Hb.
    + split; simpl.
      * rewrite length_insert. exact Ha.
      * rewrite Harr, length_overwrite by lia. lia.
    + rewrite length_insert. lia.
    + intros a Hne _. apply list_lookup_insert_ne. congruence.
    + left. reflexivity.
  - assert (Harr : forall n : nat,
              Slices.array_at
                (arrs ++ [Slices.contents arrs s ++ elems
                          ++ replicate (spare (Slices.sl_len s + length elems)%nat)
                               (mkBlock 0 "" "" "" "")])
                (Slices.mkSlice (length arrs) 0 n)
              = Slices.contents arrs s ++ elems
                ++ replicate (spare (Slices.sl_len s + length elems)%nat)
                     (mkBlock 0 "" "" "" "")).
    { intros n. unfold Slices.array_at. simpl.
      rewrite list_lookup_middle by reflexivity. reflexivity. }
    assert (Hl : length (Slices.contents arrs s) = Slices.sl_len s).
    { unfold Slices.contents. rewrite length_take, length_drop. lia. }
    split; [|split; [|split; [|split]]].
    + unfold Slices.contents at 1. rewrite Harr. simpl. rewrite drop_0.
      rewrite app_assoc. rewrite take_app_le by (rewrite length_app; lia).
      rewrite firstn_all2 by (rewrite length_app; lia). reflexivity.
    + split; simpl.
      * rewrite length_app. simpl. lia.
      * rewrite Harr, !length_app. lia.
    + rewrite length_app. lia.
    + intros a _ Hlt. apply lookup_app_l. exact Hlt.
    + right. reflexivity.
Qed.

(** A slice on another array does not see the change. *)
Lemma contents_other (arrs arrs' : list (list Block)) (t : Slices.Slice) (a0 : nat) :
  (forall a, a <> a0 -> (a < length arrs)%nat -> arrs' !! a = arrs !! a) ->
  (length arrs <= length arrs')%nat ->
  Slices.valid arrs t -> Slices.sl_array t <> a0 ->
  Slices.contents arrs' t = Slices.contents arrs t /\ Slices.valid arrs' t.
Proof.
  intros Hsame Hlen [Ha Hb] Hne.
  assert (E : Slices.array_at arrs' t = Slices.array_at arrs t).
  { unfold Slices.array_at. rewrite (Hsame _ Hne Ha). reflexivity. }
  split.
  - unfold Slices.contents. rewrite E. reflexivity.
  - split; [lia|]. rewrite E. exact Hb.
Qed.

Lemma NoDup_insert_fresh (l : list nat) (p : nat) (y : nat) :
  NoDup l -> (l !! p = Some y \/ y ∉ l) -> NoDup (<[p := y]> l).
Proof.
  intros Hnd [Hsame|Hfresh].
  - rewrite list_insert_id by exact Hsame. exact Hnd.
  - apply NoDup_alt. intros i j x Hi Hj.
    destruct (decide (i = p)) as [->|Hip], (decide (j = p)) as [->|Hjp];
      [reflexivity| | |].
    + apply list_lookup_insert_Some in Hi as [(_ & <- & _)|[? _]]; [|congruence].
      rewrite list_lookup_insert_ne in Hj by congruence.
      exfalso. apply Hfresh. apply list_elem_of_lookup. eauto.
    + apply list_lookup_insert_Some in Hj as [(_ & <- & _)|[? _]]; [|congruence].
      rewrite list_lookup_insert_ne in Hi by congruence.
      exfalso. apply Hfresh. apply list_elem_of_lookup. eauto.
    + rewrite list_lookup_insert_ne in Hi, Hj by congruence.
      exact (NoDup_lookup _ _ _ _ Hnd Hi Hj).
Qed.

Lemma sderef_lookup (m : Slices.Memory) (p : ptr) :
  (p < length (Slices.shards m))%nat ->
  Slices.shards m !! p = Some (Slices.sderef m p).
Proof.
  intros Hp. unfold Slices.sderef.
  destruct (lookup_lt_is_Some_2 _ _ Hp) as [s ->]. reflexivity.
Qed.

Lemma deref_abs (m : Slices.Memory) (p : ptr) :
  deref (Slices.abs m) p
  = mkShard (Slices.ss_ID (Slices.sderef m p)) (Slices.blocks m p)
            (Slices.ss_Tree (Slices.sderef m p)).
Proof.
  unfold deref, Slices.abs, Slices.blocks, Slices.sderef.
  change (map ?f ?l) with (f <$> l). rewrite list_lookup_fmap.
  destruct (Slices.shards m !! p); reflexivity.
Qed.

(** The step shared by [AddBlock] and by the removal: the slice of one shard
    is replaced by the result of an [append] on its own array. *)
Lemma replace_slice (m : Slices.Memory) (p : ptr) (arrs' : list (list Block))
    (sl' : Slices.Slice) (tree' : option MerkleTree) :
  Slices.separate m ->
  (p < length (Slices.shards m))%nat ->
  (forall a, a <> Slices.sl_array (Slices.ss_Blocks (Slices.sderef m p)) ->
     (a < length (Slices.arrays m))%nat -> arrs' !! a = Slices.arrays m !! a) ->
  (length (Slices.arrays m) <= length arrs')%nat ->
  Slices.valid arrs' sl' ->
  (Slices.sl_array sl' = Slices.sl_array (Slices.ss_Blocks (Slices.sderef m p))
   \/ Slices.sl_array sl' = length (Slices.arrays m)) ->
  let m' := Slices.mkMemory arrs'
              (<[p := Slices.mkSliceShard (Slices.ss_ID (Slices.sderef m p)) sl' tree']>
                 (Slices.shards m)) in
  Slices.separate m'
  /\ Slices.abs m'
     = <[p := mkShard (Slices.ss_ID (Slices.sderef m p)) (Slices.contents arrs' sl')
                      tree']> (Slices.abs m).
Proof.
  intros [Hvalid Hnd] Hp Hsame Hlen Hv' Hid. cbv zeta.
  pose proof (sderef_lookup m p Hp) as Hsp.
  set (a0 := Slices.sl_array (Slices.ss_Blocks (Slices.sderef m p))) in *.
  assert (Hother : forall q t, q <> p -> Slices.shards m !! q = Some t ->
            Slices.contents arrs' (Slices.ss_Blocks t)
            = Slices.contents (Slices.arrays m) (Slices.ss_Blocks t)
            /\ Slices.valid arrs' (Slices.ss_Blocks t)
            /\ (Slices.sl_array (Slices.ss_Blocks t) < length (Slices.arrays m))%nat
            /\ Slices.sl_array (Slices.ss_Blocks t) <> a0).
  { intros q t Hq Ht.
    assert (Hvt : Slices.valid (Slices.arrays m) (Slices.ss_Blocks t)).
    { rewrite Forall_lookup in Hvalid. exact (Hvalid q t Ht). }
    assert (Hne : Slices.sl_array (Slices.ss_Blocks t) <> a0).
    { intros E. apply Hq.
      apply (NoDup_lookup _ _ _ a0 Hnd).
      - change (map ?f ?l) with (f <$> l). rewrite list_lookup_fmap, Ht. simpl.
        congruence.
      - change (map ?f ?l) with (f <$> l). rewrite list_lookup_fmap, Hsp.
        reflexivity. }
    destruct (contents_other _ _ _ a0 Hsame Hlen Hvt Hne) as [Hc Hv].
    split; [exact Hc|]. split; [exact Hv|]. split; [exact (proj1 Hvt)|exact Hne]. }
  split; [split|]; simpl.
  - apply Forall_lookup. intros q t Ht.
    destruct (decide (q = p)) as [->|Hq].
    + rewrite list_lookup_insert_eq in Ht by exact Hp. injection Ht as <-. exact Hv'.
    + rewrite list_lookup_insert_ne in Ht by congruence.
      exact (proj1 (proj2 (Hother q t Hq Ht))).
  - change (map ?f ?l) with (f <$> l). rewrite list_fmap_insert. simpl.
    apply NoDup_insert_fresh; [exact Hnd|].
    destruct Hid as [Hid|Hid].
    + left. change (map ?f ?l) with (f <$> l).
      rewrite list_lookup_fmap, Hsp. simpl. f_equal. symmetry. exact Hid.
    + right. intros Hin. change (map ?f ?l) with (f <$> l) in Hin.
      apply list_elem_of_fmap in Hin as [t [Ht Hin]].
      apply list_elem_of_lookup in Hin as [q Hq].
      rewrite Forall_lookup in Hvalid. destruct (Hvalid q t Hq) as [Hlt _]. lia.
  - unfold Slices.abs. simpl. change (map ?f ?l) with (f <$> l).
    apply list_eq. intros q.
    destruct (decide (q = p)) as [->|Hq].
    + rewrite list_lookup_fmap, !list_lookup_insert_eq
        by (rewrite ?length_fmap; exact Hp).
      reflexivity.
    + rewrite list_lookup_fmap, !list_lookup_insert_ne by congruence.
      rewrite list_lookup_fmap.
      destruct (Slices.shards m !! q) as [t|] eqn:Ht; [|reflexivity].
      simpl. rewrite (proj1 (Hother q t Hq Ht)). reflexivity.
Qed.

Lemma separate_valid (m : Slices.Memory) (p : ptr) :
  Slices.separate m -> (p < length (Slices.shards m))%nat ->
  Slices.valid (Slices.arrays m) (Slices.ss_Blocks (Slices.sderef m p)).
Proof.
  intros [Hvalid _] Hp. rewrite Forall_lookup in Hvalid.
  exact (Hvalid p _ (sderef_lookup m p Hp)).
Qed.

Lemma length_blocks (m : Slices.Memory) (p : ptr) :
  Slices.separate m -> (p < length (Slices.shards m))%nat ->
  length (Slices.blocks m p) = Slices.sl_len (Slices.ss_Blocks (Slices.sderef m p)).
Proof.
  intros Hsep Hp. destruct (separate_valid m p Hsep Hp) as [_ Hb].
  unfold Slices.blocks, Slices.contents. rewrite length_take, length_drop. lia.
Qed.

Lemma abs_set_Tree (m : Slices.Memory) (p : ptr) (t : MerkleTree) :
  Slices.separate m -> (p < length (Slices.shards m))%nat ->
  Slices.separate (Slices.set_Tree m p t)
  /\ Slices.abs (Slices.set_Tree m p t)
     = store (Slices.abs m) p (set_Tree (deref (Slices.abs m) p) t)
  /\ length (Slices.shards (Slices.set_Tree m p t)) = length (Slices.shards m).
Proof.
  intros Hsep Hp. unfold Slices.set_Tree.
  destruct (replace_slice m p (Slices.arrays m)
              (Slices.ss_Blocks (Slices.sderef m p)) (Some t) Hsep Hp)
    as [Hsep' Habs].
  - reflexivity.
  - lia.
  - exact (separate_valid m p Hsep Hp).
  - left. reflexivity.
  - split; [exact Hsep'|]. split; [|simpl; apply length_insert].
    rewrite Habs, deref_abs. reflexivity.
Qed.

Lemma abs_Shard_AddBlock (spare : nat -> nat) (m : Slices.Memory) (p : ptr)
    (b : Block) :
  Slices.separate m -> (p < length (Slices.shards m))%nat ->
  Slices.separate (Slices.Shard_AddBlock spare m p b)
  /\ Slices.abs (Slices.Shard_AddBlock spare m p b) = Shard_AddBlock (Slices.abs m) p b
  /\ length (Slices.shards (Slices.Shard_AddBlock spare m p b))
     = length (Slices.shards m).
Proof.
  intros Hsep Hp. unfold Slices.Shard_AddBlock.
  pose proof (append_spec spare (Slices.arrays m)
                (Slices.ss_Blocks (Slices.sderef m p)) [b]
                (separate_valid m p Hsep Hp)) as Happ.
  cbv zeta in Happ.
  destruct (Slices.append spare (Slices.arrays m)
              (Slices.ss_Blocks (Slices.sderef m p)) [b]) as [arrs sl].
  simpl in Happ. destruct Happ as (Hc & Hv & Hlen & Hsame & Hid).
  destruct (replace_slice m p arrs sl (Slices.ss_Tree (Slices.sderef m p))
              Hsep Hp Hsame Hlen Hv Hid) as [Hsep1 Habs1].
  set (m1 := Slices.mkMemory arrs
               (<[p := Slices.mkSliceShard (Slices.ss_ID (Slices.sderef m p)) sl
                         (Slices.ss_Tree (Slices.sderef m p))]> (Slices.shards m))) in *.
  assert (Hp1 : (p < length (Slices.shards m1))%nat)
    by (simpl; rewrite length_insert; exact Hp).
  destruct (abs_set_Tree m1 p
              (NewMerkleTree (getDataStrings (Slices.blocks m1 p))) Hsep1 Hp1)
    as (Hsep2 & Habs2 & Hlen2).
  split; [exact Hsep2|]. split.
  - rewrite Habs2. unfold Shard_AddBlock.
    assert (E : Slices.abs m1
                = store (Slices.abs m) p
                    (set_Blocks (deref (Slices.abs m) p)
                       (Blocks (deref (Slices.abs m) p) ++ [b]))).
    { rewrite Habs1, Hc, deref_abs. reflexivity. }
    rewrite <- E. rewrite (deref_abs m1 p). reflexivity.
  - rewrite Hlen2. simpl. apply length_insert.
Qed.

Lemma contents_reslice (arrs : list (list Block)) (s : Slices.Slice) (lo hi : nat) :
  (hi <= Slices.sl_len s)%nat ->
  Slices.contents arrs (Slices.reslice s lo hi)
  = take (hi - lo) (drop lo (Slices.contents arrs s)).
Proof.
  intros H. unfold Slices.contents, Slices.reslice, Slices.array_at. simpl.
  rewrite skipn_firstn_comm, take_take, drop_drop.
  f_equal. lia.
Qed.

(** The removal [append(s[:i], s[i+1:]...)] on the slice of a shard. *)
Lemma abs_remove (spare : nat -> nat) (m : Slices.Memory) (p : ptr) (i : nat) :
  Slices.separate m -> (p < length (Slices.shards m))%nat ->
  (i < Slices.sl_len (Slices.ss_Blocks (Slices.sderef m p)))%nat ->
  let src := Slices.ss_Blocks (Slices.sderef m p) in
  let r := Slices.append spare (Slices.arrays m) (Slices.reslice src 0 i)
             (Slices.contents (Slices.arrays m)
                (Slices.reslice src (S i) (Slices.sl_len src))) in
  let m' := Slices.mkMemory (fst r)
              (<[p := Slices.mkSliceShard (Slices.ss_ID (Slices.sderef m p)) (snd r)
                        (Slices.ss_Tree (Slices.sderef m p))]> (Slices.shards m)) in
  Slices.separate m'
  /\ Slices.abs m'
     = store (Slices.abs m) p
         (set_Blocks (deref (Slices.abs m) p)
            (take i (Blocks (deref (Slices.abs m) p))
             ++ drop (S i) (Blocks (deref (Slices.abs m) p))))
  /\ length (Slices.shards m') = length (Slices.shards m).
Proof.
  intros Hsep Hp Hi. cbv zeta.
  destruct (separate_valid m p Hsep Hp) as [Ha Hb].
  pose proof (length_blocks m p Hsep Hp) as Hlb.
  set (src := Slices.ss_Blocks (Slices.sderef m p)) in *.
  set (r := Slices.append spare (Slices.arrays m) (Slices.reslice src 0 i)
              (Slices.contents (Slices.arrays m)
                 (Slices.reslice src (S i) (Slices.sl_len src)))).
  set (m' := Slices.mkMemory (fst r) _).
  assert (Hhead : Slices.valid (Slices.arrays m) (Slices.reslice src 0 i)).
  { split; [exact Ha|]. unfold Slices.reslice, Slices.array_at in *. simpl. lia. }
  pose proof (append_spec spare (Slices.arrays m) (Slices.reslice src 0 i)
                (Slices.contents (Slices.arrays m)
                   (Slices.reslice src (S i) (Slices.sl_len src))) Hhead) as Happ.
  cbv zeta in Happ. fold r in Happ.
  destruct Happ as (Hc & Hv & Hlen & Hsame & Hid).
  destruct (replace_slice m p (fst r) (snd r) (Slices.ss_Tree (Slices.sderef m p))
              Hsep Hp Hsame Hlen Hv Hid) as [Hsep1 Habs1].
  fold m' in Hsep1, Habs1.
  split; [exact Hsep1|]. split; [|subst m'; simpl; apply length_insert].
  rewrite Habs1, Hc, deref_abs. simpl.
  rewrite !contents_reslice by lia.
  change (Slices.contents (Slices.arrays m) src) with (Slices.blocks m p).
  rewrite drop_0, Nat.sub_0_r.
  rewrite (firstn_all2 (drop (S i) (Slices.blocks m p)))
    by (rewrite length_drop, Hlb; lia).
  reflexivity.
Qed.

Lemma Blocks_deref_abs (m : Slices.Memory) (p : ptr) :
  Blocks (deref (Slices.abs m) p) = Slices.blocks m p.
Proof. rewrite deref_abs. reflexivity. Qed.

Lemma length_abs (m : Slices.Memory) : length (Slices.abs m) = length (Slices.shards m).
Proof. unfold Slices.abs. apply length_map. Qed.

(** On a memory where no two shards share an array, [SyncBlock] on slices
    is [SyncBlock] on the store it stands for. *)
Lemma SyncBlock_refines (spare : nat -> nat) (m : Slices.Memory)
    (source destination : ptr) (i : Z) :
  Slices.separate m ->
  (source < length (Slices.shards m))%nat ->
  (destination < length (Slices.shards m))%nat ->
  0 <= i < Z.of_nat (Slices.sl_len (Slices.ss_Blocks (Slices.sderef m source))) ->
  fst (Slices.SyncBlock spare m source destination i) = true
  /\ Slices.separate (snd (Slices.SyncBlock spare m source destination i))
  /\ Slices.abs (snd (Slices.SyncBlock spare m source destination i))
     = snd (SyncBlock (Slices.abs m) source destination i).
Proof.
  intros Hsep Hs Hd Hi.
  pose proof (length_blocks m source Hsep Hs) as Hlen.
  unfold Slices.SyncBlock, SyncBlock.
  rewrite (Blocks_deref_abs m source), Hlen.
  rewrite (proj2 (in_range_test i _) Hi).
  set (block := block_at (Slices.blocks m source) i).
  destruct (abs_Shard_AddBlock spare m destination block Hsep Hd)
    as (Hsep1 & Habs1 & Hlen1).
  set (m1 := Slices.Shard_AddBlock spare m destination block) in *.
  assert (Hs1 : (source < length (Slices.shards m1))%nat) by lia.
  assert (Hd1 : (destination < length (Slices.shards m1))%nat) by lia.
  assert (Hi1 : (Z.to_nat i
                 < Slices.sl_len (Slices.ss_Blocks (Slices.sderef m1 source)))%nat).
  { rewrite <- (length_blocks m1 source Hsep1 Hs1), <- Blocks_deref_abs, Habs1.
    destruct (decide (destination = source)) as [->|Hne].
    - rewrite Shard_AddBlock_same by (rewrite length_abs; exact Hs).
      simpl. rewrite length_app, Blocks_deref_abs, Hlen. simpl. lia.
    - rewrite Shard_AddBlock_other by exact Hne.
      rewrite Blocks_deref_abs, Hlen. lia. }
  pose proof (abs_remove spare m1 source (Z.to_nat i) Hsep1 Hs1 Hi1) as Hrem.
  cbv zeta in Hrem.
  destruct (Slices.append spare (Slices.arrays m1)
              (Slices.reslice (Slices.ss_Blocks (Slices.sderef m1 source)) 0 (Z.to_nat i))
              (Slices.contents (Slices.arrays m1)
                 (Slices.reslice (Slices.ss_Blocks (Slices.sderef m1 source))
                    (S (Z.to_nat i))
                    (Slices.sl_len (Slices.ss_Blocks (Slices.sderef m1 source))))))
    as [arrs sl].
  cbn [fst snd] in Hrem. destruct Hrem as (Hsep2 & Habs2 & Hlen2).
  set (m2 := Slices.mkMemory arrs _) in *.
  assert (Hs2 : (source < length (Slices.shards m2))%nat) by lia.
  destruct (abs_set_Tree m2 source
              (NewMerkleTree (getDataStrings (Slices.blocks m2 source))) Hsep2 Hs2)
    as (Hsep3 & Habs3 & Hlen3).
  set (m3 := Slices.set_Tree m2 source _) in *.
  assert (Hd3 : (destination < length (Slices.shards m3))%nat) by lia.
  destruct (abs_set_Tree m3 destination
              (NewMerkleTree (getDataStrings (Slices.blocks m2 destination))) Hsep3 Hd3)
    as (Hsep4 & Habs4 & _).
  cbn [fst snd]. split; [reflexivity|]. split; [exact Hsep4|].
  rewrite Habs4, Habs3.
  rewrite <- (Blocks_deref_abs m2 source), <- (Blocks_deref_abs m2 destination).
  rewrite Habs2, Habs1. reflexivity.
Qed.

Lemma SyncBlock_other (h : heap) (source destination : ptr) (i : Z) (q : ptr) :
  q <> source -> q <> destination ->
  deref (snd (SyncBlock h source destination i)) q = deref h q.
Proof.
  intros Hs Hd. unfold SyncBlock.
  destruct ((i <? 0) || (Z.of_nat (length (Blocks (deref h source))) <=? i));
    [reflexivity|].
  simpl. rewrite !deref_store_other by congruence.
  apply Shard_AddBlock_other. congruence.
Qed.

(** X5.  [SyncBlock] on slices, in a memory where every slice lies within
    its array and no two shards share an array, at an index in range: the
    call returns true, it leaves a memory of the same kind, and it does what
    [SyncBlock] does on the store with the block lists taken by value.  So
    between two distinct shards the source loses the block at the index and
    keeps the others in order, the destination gains it at its end, both
    Merkle trees are rebuilt from the new contents, the blocks of every
    other shard and all IDs are as before. *)
Theorem SyncBlock_on_separate_arrays (spare : nat -> nat) (m : Slices.Memory)
    (source destination : ptr) (i : Z) :
  Slices.separate m ->
  (source < length (Slices.shards m))%nat ->
  (destination < length (Slices.shards m))%nat ->
  0 <= i < Z.of_nat (Slices.sl_len (Slices.ss_Blocks (Slices.sderef m source))) ->
  let m' := snd (Slices.SyncBlock spare m source destination i) in
  let moved := block_at (Slices.blocks m source) i in
  fst (Slices.SyncBlock spare m source destination i) = true
  /\ Slices.separate m'
  /\ Slices.abs m' = snd (SyncBlock (Slices.abs m) source destination i)
  /\ (forall q, Slices.ss_ID (Slices.sderef m' q) = Slices.ss_ID (Slices.sderef m q))
  /\ (source <> destination ->
      Slices.blocks m' source
      = take (Z.to_nat i) (Slices.blocks m source)
        ++ drop (S (Z.to_nat i)) (Slices.blocks m source)
      /\ Slices.blocks m' destination = Slices.blocks m destination ++ [moved]
      /\ Slices.ss_Tree (Slices.sderef m' source)
         = Some (NewMerkleTree (getDataStrings (Slices.blocks m' source)))
      /\ Slices.ss_Tree (Slices.sderef m' destination)
         = Some (NewMerkleTree (getDataStrings (Slices.blocks m' destination)))
      /\ (forall q, q <> source -> q <> destination ->
            Slices.blocks m' q = Slices.blocks m q)).
Proof.
  intros Hsep Hs Hd Hi. cbv zeta.
  destruct (SyncBlock_refines spare m source destination i Hsep Hs Hd Hi)
    as (Hok & Hsep' & Habs).
  set (m' := snd (Slices.SyncBlock spare m source destination i)) in *.
  assert (Hfield : forall q,
            deref (Slices.abs m') q
            = deref (snd (SyncBlock (Slices.abs m) source destination i)) q)
    by (intros q; rewrite Habs; reflexivity).
  split; [exact Hok|]. split; [exact Hsep'|]. split; [exact Habs|]. split.
  - intros q. pose proof (f_equal ID (Hfield q)) as E.
    rewrite ID_SyncBlock, !deref_abs in E. exact E.
  - intros Hne.
    destruct (SyncBlock_by_value_moves_one_block (Slices.abs m) source destination i Hne)
      as (_ & Hsrc & Hdst & Hts & Htd & _).
    { rewrite length_abs. exact Hs. }
    { rewrite length_abs. exact Hd. }
    { rewrite Blocks_deref_abs, (length_blocks m source Hsep Hs). exact Hi. }
    rewrite <- Habs in Hsrc, Hdst, Hts, Htd.
    rewrite (Blocks_deref_abs m' source), (Blocks_deref_abs m source) in Hsrc.
    rewrite (Blocks_deref_abs m' destination), (Blocks_deref_abs m destination),
      (Blocks_deref_abs m source) in Hdst.
    rewrite (Blocks_deref_abs m' source), deref_abs in Hts.
    rewrite (Blocks_deref_abs m' destination), deref_abs in Htd.
    simpl in Hts, Htd.
    split; [exact Hsrc|]. split; [exact Hdst|]. split; [exact Hts|].
    split; [exact Htd|].
    intros q Hqs Hqd.
    rewrite <- (Blocks_deref_abs m' q), <- (Blocks_deref_abs m q), Hfield.
    rewrite SyncBlock_other by assumption. reflexivity.
Qed.

(** A shard of one block and an empty shard, each on its own array. *)
Lemma SyncBlock_on_separate_arrays_witness :
  let m' := snd (Slices.SyncBlock (fun n => n)
                   (separate_memory (GenesisBlock (demo_clock 0))) 0%nat 1%nat 0) in
  Slices.blocks m' 0%nat = []
  /\ Slices.blocks m' 1%nat = [GenesisBlock (demo_clock 0)].
Proof.
  cbv zeta.
  destruct (SyncBlock_on_separate_arrays (fun n => n)
              (separate_memory (GenesisBlock (demo_clock 0))) 0%nat 1%nat 0)
    as (_ & _ & _ & _ & Hmove).
  - split.
    + repeat constructor; simpl; lia.
    + apply (bool_decide_unpack _). vm_compute. exact I.
  - simpl. lia.
  - simpl. lia.
  - simpl. lia.
  - destruct (Hmove ltac:(discriminate)) as (Hs & Hd & _).
    split; [exact Hs|exact Hd].
Defined.

(** Without that hypothesis the by-value store is not what the code does.
    After [MergeShards] the merged shard and the shard it replaces lie on
    one array: moving the first block of the merged shard to the old shard
    writes it over [b2], which is lost, and both shards end with the same
    three blocks, where the lists taken by value would hold [b1; b2; b3] and
    [b0; b1; b0]. *)
Lemma SyncBlock_on_a_shared_array (spare : nat -> nat) (b0 b1 b2 b3 : Block) :
  let m := merged_memory b0 b1 b2 b3 in
  let m' := snd (Slices.SyncBlock spare m 1%nat 0%nat 0) in
  let h' := snd (SyncBlock (Slices.abs m) 1%nat 0%nat 0) in
  Slices.blocks m 1%nat = [b0; b1; b2; b3]
  /\ Slices.blocks m 0%nat = [b0; b1]
  /\ Slices.blocks m' 1%nat = [b1; b0; b3]
  /\ Slices.blocks m' 0%nat = [b1; b0; b3]
  /\ Blocks (deref h' 1%nat) = [b1; b2; b3]
  /\ Blocks (deref h' 0%nat) = [b0; b1; b0].
Proof. cbv zeta. repeat split; reflexivity. Qed.
(** ** The pruner: what is kept, when it panics, what its proofs are worth *)

(** The drop count before the final tests, when it is positive. *)
Lemma prunable_count_bounds (len R M : Z) (cp : bool) (c : Z) :
  0 <= len < 2 ^ 63 -> int_range R -> R < len ->
  (if cp then
     if M =? 0 then None
     else Some (wrap_int (wrap_int (len - R) - go_rem (wrap_int (len - R)) M))
   else Some (wrap_int (len - R))) = Some c ->
  0 < c ->
  c <= len - R /\ (cp = true -> (M | c)).
Proof.
  intros Hlen HR Hgt Hc Hpos. unfold int_range in HR.
  destruct (Z.lt_ge_cases (len - R) (2 ^ 63)) as [Hsmall|Hbig].
  - rewrite (wrap_int_small (len - R)) in Hc by (unfold int_range; lia).
    destruct cp.
    + destruct (Z.eqb_spec M 0) as [HM|HM]; [discriminate Hc|].
      pose proof (rem_bounds_nonneg (len - R) M ltac:(lia) HM) as Hrem.
      unfold go_rem in Hc. rewrite wrap_int_small in Hc by (unfold int_range; lia).
      injection Hc as <-. split; [lia|]. intros _.
      exists (Z.quot (len - R) M). pose proof (Z.quot_rem' (len - R) M). lia.
    + injection Hc as <-. split; [lia|discriminate].
  - exfalso. rewrite (wrap_int_high (len - R)) in Hc by lia.
    destruct cp.
    + destruct (Z.eqb_spec M 0) as [HM|HM]; [discriminate Hc|].
      pose proof (rem_bounds_nonpos (len - R - 2 ^ 64) M ltac:(lia) HM) as Hrem.
      unfold go_rem in Hc. rewrite wrap_int_small in Hc by (unfold int_range; lia).
      injection Hc as <-. lia.
    + injection Hc as <-. lia.
Qed.

(** X10.  A [PruneBlockchain] call that returns: the chain it leaves is the
    old chain without its first [n] blocks, [n] being the count returned;
    when [n] is 0 neither the pruner nor the chain has changed; when [n] is
    positive the chain left still has at least [RetentionCount] blocks, the
    newest ones, and with checkpoints [n] is a multiple of [MaxHeight]; the
    policy and the key of the pruner never change. *)
Theorem prune_keeps_the_newest (sp sp' : StatePruner) (bc bc' : Blockchain)
  (now : string) (n : Z) :
  Z.of_nat (length (bc_Blocks bc)) < 2 ^ 63 ->
  int_range (RetentionCount (policy sp)) ->
  PruneBlockchain sp bc now = Some (sp', bc', n) ->
  0 <= n <= Z.of_nat (length (bc_Blocks bc))
  /\ bc_Blocks bc = take (Z.to_nat n) (bc_Blocks bc) ++ bc_Blocks bc'
  /\ (n = 0 -> sp' = sp /\ bc' = bc)
  /\ (0 < n ->
      RetentionCount (policy sp) <= Z.of_nat (length (bc_Blocks bc'))
      /\ (UseCheckpoints (policy sp) = true -> (MaxHeight (policy sp) | n)))
  /\ policy sp' = policy sp
  /\ secretKey sp' = secretKey sp.
Proof.
  intros Hlen HR Hrun. unfold PruneBlockchain in Hrun.
  set (len := Z.of_nat (length (bc_Blocks bc))) in *.
  assert (Hlen0 : 0 <= len) by (unfold len; lia).
  assert (Hsame : 0 <= 0 <= len
                  /\ bc_Blocks bc = take (Z.to_nat 0) (bc_Blocks bc) ++ bc_Blocks bc
                  /\ (0 = 0 -> sp = sp /\ bc = bc)
                  /\ (0 < 0 ->
                      RetentionCount (policy sp) <= Z.of_nat (length (bc_Blocks bc))
                      /\ (UseCheckpoints (policy sp) = true
                          -> (MaxHeight (policy sp) | 0)))
                  /\ policy sp = policy sp /\ secretKey sp = secretKey sp).
  { split; [lia|]. split; [reflexivity|]. split; [tauto|]. split; [lia|]. tauto. }
  destruct (Z.leb_spec len (RetentionCount (policy sp))) as [Hle|Hgt].
  { injection Hrun as <- <- <-. exact Hsame. }
  match type of Hrun with
  | context [mbind _ ?m] => destruct m as [c|] eqn:Hc; [|discriminate Hrun]
  end.
  simpl in Hrun.
  destruct (Z.leb_spec c 0) as [Hc0|Hc0].
  { injection Hrun as <- <- <-. exact Hsame. }
  destruct (Z.ltb_spec len c) as [Hover|Hin]; [discriminate Hrun|].
  injection Hrun as <- <- <-. simpl.
  destruct (prunable_count_bounds len _ _ _ c ltac:(lia) HR Hgt Hc Hc0) as [Hle Hdiv].
  split; [lia|]. split; [symmetry; apply take_drop|]. split; [lia|].
  split; [|split; reflexivity].
  intros _. split; [|exact Hdiv]. rewrite length_drop. fold len. lia.
Qed.

(** The pruning demonstration: ten of twenty-one blocks are dropped, with
    checkpoints every five blocks. *)
Lemma prune_keeps_the_newest_witness :
  bc_Blocks demo_prunable_chain
  = take 10 (bc_Blocks demo_prunable_chain) ++ bc_Blocks (snd (fst demo_pruned))
  /\ 10 <= Z.of_nat (length (bc_Blocks (snd (fst demo_pruned))))
  /\ (5 | 10).
Proof.
  destruct (prune_keeps_the_newest demo_pruner (fst (fst demo_pruned)) demo_prunable_chain
              (snd (fst demo_pruned)) (demo_clock 9) 10)
    as (_ & Hsplit & _ & Hkeep & _).
  - vm_compute. reflexivity.
  - vm_compute. split; [discriminate|reflexivity].
  - vm_compute. reflexivity.
  - destruct (Hkeep ltac:(lia)) as [Hret Hdiv].
    split; [exact Hsplit|]. split; [exact Hret|]. exact (Hdiv eq_refl).
Defined.

(** X11.  With a retention count that is not negative and, when checkpoints
    are used, a checkpoint distance other than 0, [PruneBlockchain] returns
    on every chain. *)
Theorem prune_returns_for_sane_policy (sp : StatePruner) (bc : Blockchain) (now : string) :
  Z.of_nat (length (bc_Blocks bc)) < 2 ^ 63 ->
  0 <= RetentionCount (policy sp) < 2 ^ 63 ->
  (UseCheckpoints (policy sp) = true -> MaxHeight (policy sp) <> 0) ->
  exists sp' bc' n, PruneBlockchain sp bc now = Some (sp', bc', n).
Proof.
  intros Hlen HR HM. unfold PruneBlockchain.
  set (len := Z.of_nat (length (bc_Blocks bc))) in *.
  assert (Hlen0 : 0 <= len) by (unfold len; lia).
  destruct (Z.leb_spec len (RetentionCount (policy sp))) as [Hle|Hgt]; [eauto|].
  rewrite (wrap_int_small (len - _)) by (unfold int_range; lia).
  destruct (UseCheckpoints (policy sp)).
  - destruct (Z.eqb_spec (MaxHeight (policy sp)) 0) as [E|E]; [elim (HM eq_refl E)|].
    pose proof (rem_bounds_nonneg (len - RetentionCount (policy sp)) _ ltac:(lia) E) as Hrem.
    unfold go_rem. rewrite wrap_int_small by (unfold int_range; lia). simpl.
    match goal with |- context [?a <=? 0] => destruct (Z.leb_spec a 0) end; [eauto|].
    match goal with |- context [len <? ?a] => destruct (Z.ltb_spec len a) end; [lia|eauto].
  - simpl.
    match goal with |- context [?a <=? 0] => destruct (Z.leb_spec a 0) end; [eauto|].
    match goal with |- context [len <? ?a] => destruct (Z.ltb_spec len a) end; [lia|eauto].
Qed.

(** The policy of the pruning demonstration. *)
Lemma prune_returns_for_sane_policy_witness :
  exists sp' bc' n,
    PruneBlockchain demo_pruner demo_prunable_chain (demo_clock 9) = Some (sp', bc', n).
Proof.
  apply prune_returns_for_sane_policy.
  - vm_compute. reflexivity.
  - vm_compute. split; [discriminate|reflexivity].
  - intros _. vm_compute. discriminate.
Defined.

(** X12.  [PruneBlockchain] panics exactly in these cases, on a chain longer
    than the retention count: with checkpoints and a checkpoint distance of
    0 (a division by zero); or with a negative retention count, when the
    number of blocks to drop, the length less the retention count, fits the
    64-bit [int] and, with checkpoints, is still longer than the chain once
    rounded towards zero to a multiple of the checkpoint distance (the loop
    over the dropped blocks then runs past the end of the chain).  In every
    other case the call returns; in particular a difference that wraps
    around is negative and nothing is pruned. *)
Theorem prune_panics_iff (sp : StatePruner) (bc : Blockchain) (now : string) :
  Z.of_nat (length (bc_Blocks bc)) < 2 ^ 63 ->
  int_range (RetentionCount (policy sp)) ->
  PruneBlockchain sp bc now = None
  <-> RetentionCount (policy sp) < Z.of_nat (length (bc_Blocks bc))
      /\ ((UseCheckpoints (policy sp) = true /\ MaxHeight (policy sp) = 0)
          \/ (RetentionCount (policy sp) < 0
              /\ Z.of_nat (length (bc_Blocks bc)) - RetentionCount (policy sp) < 2 ^ 63
              /\ (UseCheckpoints (policy sp) = true ->
                  Z.of_nat (length (bc_Blocks bc))
                  < Z.of_nat (length (bc_Blocks bc)) - RetentionCount (policy sp)
                    - Z.rem (Z.of_nat (length (bc_Blocks bc))
                             - RetentionCount (policy sp))
                            (MaxHeight (policy sp))))).
Proof.
  intros Hlen HR. unfold PruneBlockchain, go_rem.
  set (len := Z.of_nat (length (bc_Blocks bc))) in *.
  set (R := RetentionCount (policy sp)) in *.
  set (M := MaxHeight (policy sp)) in *.
  assert (Hlen0 : 0 <= len) by (unfold len; lia).
  unfold int_range in HR.
  destruct (Z.leb_spec len R) as [Hle|Hgt].
  { split; [discriminate|]. intros [? _]. lia. }
  destruct (Z.lt_ge_cases (len - R) (2 ^ 63)) as [Hsmall|Hbig].
  - rewrite (wrap_int_small (len - R)) by (unfold int_range; lia).
    destruct (UseCheckpoints (policy sp)).
    + destruct (Z.eqb_spec M 0) as [HM|HM].
      { simpl. split; [intros _; split; [lia|left; split; [reflexivity|exact HM]]|reflexivity]. }
      pose proof (rem_bounds_nonneg (len - R) M ltac:(lia) HM) as Hrem.
      rewrite wrap_int_small by (unfold int_range; lia). simpl.
      destruct (Z.leb_spec (len - R - Z.rem (len - R) M) 0) as [Hc0|Hc0].
      { split; [discriminate|]. intros [_ [[_ E]|(_ & _ & Hq)]]; [contradiction|].
        specialize (Hq eq_refl). lia. }
      destruct (Z.ltb_spec len (len - R - Z.rem (len - R) M)) as [Hover|Hin].
      * split; [|reflexivity]. intros _. split; [lia|]. right.
        split; [lia|]. split; [lia|]. intros _. exact Hover.
      * split; [discriminate|]. intros [_ [[_ E]|(_ & _ & Hq)]]; [contradiction|].
        specialize (Hq eq_refl). lia.
    + simpl.
      destruct (Z.leb_spec (len - R) 0) as [Hc0|Hc0]; [lia|].
      destruct (Z.ltb_spec len (len - R)) as [Hover|Hin].
      * split; [|reflexivity]. intros _. split; [lia|]. right.
        split; [lia|]. split; [lia|]. discriminate.
      * split; [discriminate|]. intros [_ [[E _]|(HRneg & _)]]; [discriminate|lia].
  - rewrite (wrap_int_high (len - R)) by lia.
    destruct (UseCheckpoints (policy sp)).
    + destruct (Z.eqb_spec M 0) as [HM|HM].
      { simpl. split; [intros _; split; [lia|left; split; [reflexivity|exact HM]]|reflexivity]. }
      pose proof (rem_bounds_nonpos (len - R - 2 ^ 64) M ltac:(lia) HM) as Hrem.
      rewrite wrap_int_small by (unfold int_range; lia). simpl.
      destruct (Z.leb_spec (len - R - 2 ^ 64 - Z.rem (len - R - 2 ^ 64) M) 0) as [Hc0|Hc0];
        [|lia].
      split; [discriminate|]. intros [_ [[_ E]|(_ & Hw & _)]]; [contradiction|lia].
    + simpl.
      destruct (Z.leb_spec (len - R - 2 ^ 64) 0) as [Hc0|Hc0]; [|lia].
      split; [discriminate|]. intros [_ [[E _]|(_ & Hw & _)]]; [discriminate|lia].
Qed.

(** Checkpoints every block and a retention count of -1 on a fresh chain:
    the two blocks to drop are more than the chain holds. *)
Lemma prune_panics_iff_witness :
  PruneBlockchain (NewStatePruner 1 (-1) true) (NewBlockchain (demo_clock 0))
    (demo_clock 9) = None.
Proof.
  apply (prune_panics_iff (NewStatePruner 1 (-1) true) (NewBlockchain (demo_clock 0))
           (demo_clock 9)).
  - vm_compute. reflexivity.
  - vm_compute. split; [discriminate|reflexivity].
  - simpl. split; [lia|]. right. split; [lia|]. split; [lia|]. intros _.
    vm_compute. reflexivity.
Defined.

(** What one call keeps of the pruner. *)
Lemma PruneBlockchain_proofs (sp sp' : StatePruner) (bc bc' : Blockchain)
  (now : string) (n : Z) :
  PruneBlockchain sp bc now = Some (sp', bc', n) ->
  policy sp' = policy sp /\ secretKey sp' = secretKey sp
  /\ (sp' = sp
      \/ exists proof,
           integrityProofs sp' = integrityProofs sp ++ [proof]
           /\ merkleRoot sp' = RootHash proof
           /\ Signature proof
              = sha256_hex (RootHash proof ++ Itoa (PrunedCount proof)
                            ++ secretKey sp)%string
           /\ 0 < PrunedCount proof
           /\ ip_Timestamp proof = now).
Proof.
  intros Hrun. unfold PruneBlockchain in Hrun.
  destruct (Z.leb_spec (Z.of_nat (length (bc_Blocks bc))) (RetentionCount (policy sp))).
  { injection Hrun as <- <- <-. auto. }
  match type of Hrun with
  | context [mbind _ ?m] => destruct m as [c|] eqn:Hc; [|discriminate Hrun]
  end.
  simpl in Hrun.
  destruct (Z.leb_spec c 0) as [Hc0|Hc0].
  { injection Hrun as <- <- <-. auto. }
  destruct (Z.ltb_spec (Z.of_nat (length (bc_Blocks bc))) c); [discriminate Hrun|].
  injection Hrun as <- <- <-. simpl. split; [reflexivity|]. split; [reflexivity|].
  right. eexists. split; [reflexivity|]. simpl. auto.
Qed.

Lemma PruneAll_invariant (calls : list (Blockchain * string)) :
  forall sp sp',
    Forall (fun p => VerifyIntegrity sp p = true /\ 0 < PrunedCount p)
           (integrityProofs sp) ->
    merkleRoot sp = match GetLatestProof sp with Some p => RootHash p | None => "" end ->
    PruneAll sp calls = Some sp' ->
    Forall (fun p => VerifyIntegrity sp' p = true /\ 0 < PrunedCount p)
           (integrityProofs sp')
    /\ merkleRoot sp' = match GetLatestProof sp' with Some p => RootHash p | None => "" end
    /\ policy sp' = policy sp /\ secretKey sp' = secretKey sp
    /\ (length (integrityProofs sp') <= length (integrityProofs sp) + length calls)%nat
    /\ integrityProofs sp `prefix_of` integrityProofs sp'.
Proof.
  induction calls as [|[bc now] calls IH]; intros sp sp' Hall Hroot Hrun; simpl in Hrun.
  - injection Hrun as <-. repeat split; try assumption; [simpl; lia|reflexivity].
  - destruct (PruneBlockchain sp bc now) as [[[sp1 bc1] n1]|] eqn:E; [|discriminate Hrun].
    simpl in Hrun.
    destruct (PruneBlockchain_proofs _ _ _ _ _ _ E) as (Hpol & Hkey & Hcase).
    assert (H1 : Forall (fun p => VerifyIntegrity sp1 p = true /\ 0 < PrunedCount p)
                   (integrityProofs sp1)
                 /\ merkleRoot sp1 = match GetLatestProof sp1 with
                                     | Some p => RootHash p | None => "" end
                 /\ (length (integrityProofs sp1) <= S (length (integrityProofs sp)))%nat
                 /\ integrityProofs sp `prefix_of` integrityProofs sp1).
    { destruct Hcase as [->|(proof & Hps & Hmr & Hsig & Hpos & _)].
      - split; [exact Hall|]. split; [exact Hroot|]. split; [lia|reflexivity].
      - unfold GetLatestProof. rewrite Hps, last_snoc.
        split; [|split; [exact Hmr|split; [rewrite length_app; simpl; lia
                                          |apply prefix_app_r; reflexivity]]].
        apply Forall_app. split.
        + eapply Forall_impl; [exact Hall|]. simpl. intros p [Hv Hp]. split; [|exact Hp].
          unfold VerifyIntegrity in *. rewrite Hkey. exact Hv.
        + apply Forall_singleton. split; [|exact Hpos].
          unfold VerifyIntegrity. rewrite Hkey, <- Hsig. apply String.eqb_refl. }
    destruct H1 as (Hall1 & Hroot1 & Hlen1 & Hpre1).
    destruct (IH sp1 sp' Hall1 Hroot1 Hrun) as (Hall' & Hroot' & Hpol' & Hkey' & Hlen' & Hpre').
    split; [exact Hall'|]. split; [exact Hroot'|].
    split; [congruence|]. split; [congruence|].
    split; [simpl; lia|]. etransitivity; eassumption.
Qed.

(** X13.  A pruner made by [NewStatePruner] and used any number of times:
    every proof it holds is accepted by [VerifyIntegrity] and records a
    positive count, there is at most one proof per call, [merkleRoot] is the
    root of the latest proof (the empty string while there is none), and the
    policy and the key are the ones it was made with. *)
Theorem pruner_proofs_all_verify (maxHeight retention : Z) (useCheckpoints : bool)
  (calls : list (Blockchain * string)) (sp' : StatePruner) :
  PruneAll (NewStatePruner maxHeight retention useCheckpoints) calls = Some sp' ->
  Forall (fun p => VerifyIntegrity sp' p = true /\ 0 < PrunedCount p)
         (integrityProofs sp')
  /\ (length (integrityProofs sp') <= length calls)%nat
  /\ merkleRoot sp' = match GetLatestProof sp' with Some p => RootHash p | None => "" end
  /\ policy sp' = mkPolicy maxHeight retention useCheckpoints
  /\ secretKey sp' = "pruning-integrity-key".
Proof.
  intros Hrun.
  destruct (PruneAll_invariant calls (NewStatePruner maxHeight retention useCheckpoints) sp'
              (List.Forall_nil _) eq_refl Hrun)
    as (Hall & Hroot & Hpol & Hkey & Hlen & _).
  split; [exact Hall|]. split; [exact Hlen|]. split; [exact Hroot|].
  split; [exact Hpol|exact Hkey].
Qed.

(** The pruner of the demonstration after its one call. *)
Lemma pruner_proofs_all_verify_witness :
  Forall (fun p => VerifyIntegrity (fst (fst demo_pruned)) p = true /\ 0 < PrunedCount p)
         (integrityProofs (fst (fst demo_pruned)))
  /\ (length (integrityProofs (fst (fst demo_pruned))) <= 1)%nat.
Proof.
  destruct (pruner_proofs_all_verify 5 10 true [(demo_prunable_chain, demo_clock 9)]
              (fst (fst demo_pruned))) as (Hall & Hlen & _).
  - vm_compute. reflexivity.
  - split; [exact Hall|exact Hlen].
Defined.
(** ** The accumulator: its state is a power of the generator *)

Lemma prime_product_pos (es : list string) : 0 < prime_product es.
Proof.
  unfold prime_product. induction es as [|e es IH]; simpl; [lia|].
  pose proof (hashToPrime_pos e). lia.
Qed.

Lemma prime_product_app (es1 es2 : list string) :
  prime_product (es1 ++ es2) = prime_product es1 * prime_product es2.
Proof.
  unfold prime_product. induction es1 as [|e es1 IH]; simpl.
  - destruct (fold_right Z.mul 1 (map hashToPrime es2)); reflexivity.
  - rewrite IH. lia.
Qed.

Lemma prime_product_perm (es1 es2 : list string) :
  Permutation es1 es2 -> prime_product es1 = prime_product es2.
Proof.
  unfold prime_product. induction 1 as [|x l l' _ IH|x y l|l l' l'' _ IH1 _ IH2]; simpl.
  - reflexivity.
  - rewrite IH. reflexivity.
  - lia.
  - congruence.
Qed.

Lemma fold_big_Exp (es : list string) (n x : Z) :
  0 < n ->
  fold_left (fun s e => big_Exp s (hashToPrime e) n) es (x mod n)
  = (x ^ prime_product es) mod n.
Proof.
  intros Hn. induction es as [|e es IH] using rev_ind.
  - simpl. rewrite Z.pow_1_r. reflexivity.
  - rewrite fold_left_app, IH. simpl.
    rewrite big_Exp_spec by lia.
    rewrite <- Zpower_mod by lia.
    rewrite <- Z.pow_mul_r.
    + rewrite prime_product_app. unfold prime_product at 3. simpl.
      rewrite Z.mul_1_r. reflexivity.
    + pose proof (prime_product_pos es). lia.
    + pose proof (hashToPrime_pos e). lia.
Qed.

Lemma accumulator_state (es : list string) :
  acc_State (fold_left AddElement es NewRSAAccumulator)
  = (3 ^ prime_product es) mod (251 * 239).
Proof.
  destruct (accumulator_params es) as (_ & _ & _ & HS). rewrite HS.
  change 3 with (3 mod (251 * 239)) at 1. apply fold_big_Exp. lia.
Qed.

(** X14.  After any sequence of [AddElement] calls on a fresh accumulator
    the state is the generator 3 raised, modulo N = 251 * 239, to the product
    of the numbers [hashToPrime] gives for the elements added, each of which
    is positive; the list of elements records the calls in order. *)
Theorem accumulator_state_is_a_power (es : list string) :
  let acc := fold_left AddElement es NewRSAAccumulator in
  acc_State acc = (3 ^ prime_product es) mod (251 * 239)
  /\ acc_Elements acc = es
  /\ acc_N acc = 251 * 239
  /\ Forall (fun e => 0 < hashToPrime e) es.
Proof.
  cbv zeta. destruct (accumulator_params es) as (HN & _ & HE & _).
  split; [apply accumulator_state|]. split; [exact HE|]. split; [exact HN|].
  apply Forall_forall. intros e _. apply hashToPrime_pos.
Qed.

(** X15.  The state does not depend on the order of the calls: two sequences
    of [AddElement] calls that add the same elements the same number of
    times end in the same state. *)
Theorem accumulator_state_ignores_order (es1 es2 : list string) :
  Permutation es1 es2 ->
  acc_State (fold_left AddElement es1 NewRSAAccumulator)
  = acc_State (fold_left AddElement es2 NewRSAAccumulator).
Proof.
  intros Hp. rewrite !accumulator_state, (prime_product_perm _ _ Hp). reflexivity.
Qed.

(** The two elements of the demonstration, added in either order. *)
Lemma accumulator_state_ignores_order_witness :
  acc_State (fold_left AddElement ["block_hash_1"; "block_hash_2"] NewRSAAccumulator)
  = acc_State (fold_left AddElement ["block_hash_2"; "block_hash_1"] NewRSAAccumulator).
Proof.
  apply accumulator_state_ignores_order. apply perm_swap.
Defined.

(** X16.  The witness [AddElement] stores for an element that was not in the
    set is the state before the call, and [VerifyMembership] accepts it
    against the state after the call. *)
Theorem fresh_witness_is_previous_state (es : list string) (e : string) :
  ~ In e es ->
  let before := fold_left AddElement es NewRSAAccumulator in
  let after := AddElement before e in
  acc_Proofs after !! e = Some (acc_State before)
  /\ VerifyMembership after e (acc_State before) = true
  /\ acc_State after = big_Exp (acc_State before) (hashToPrime e) (acc_N before).
Proof.
  intros Hin. cbv zeta.
  destruct (accumulator_params es) as (HN & HG & HE & HS).
  assert (Hw : acc_Proofs (AddElement (fold_left AddElement es NewRSAAccumulator) e) !! e
               = Some (acc_State (fold_left AddElement es NewRSAAccumulator))).
  { unfold AddElement at 1. simpl. rewrite lookup_insert_eq. f_equal.
    rewrite HN, HG, HE, HS, fold_left_app. simpl. rewrite String.eqb_refl.
    apply skip_fold_fresh. exact Hin. }
  split; [exact Hw|]. split; [|reflexivity].
  unfold VerifyMembership, AddElement. simpl. apply Z.eqb_refl.
Qed.

(** The second element of the demonstration. *)
Lemma fresh_witness_is_previous_state_witness :
  acc_Proofs demo_accumulator !! "block_hash_2"
  = Some (acc_State (AddElement NewRSAAccumulator "block_hash_1"))
  /\ VerifyMembership demo_accumulator "block_hash_2"
       (acc_State (AddElement NewRSAAccumulator "block_hash_1")) = true.
Proof.
  destruct (fresh_witness_is_previous_state ["block_hash_1"] "block_hash_2")
    as (Hw & Hv & _).
  - intros [H|[]]. discriminate H.
  - split; [exact Hw|exact Hv].
Defined.
(** ** The state manager: the window of active blocks and the archive *)

Lemma trie_after_snoc (ops : list (string * string)) (k v : string) :
  trie_after (ops ++ [(k, v)]) = SuccinctTrie_Insert (trie_after ops) k v.
Proof. unfold trie_after. rewrite fold_left_app. reflexivity. Qed.

Lemma trie_after_entries_snoc (blocks : list Block) (b : Block) :
  trie_after (map trie_entry (blocks ++ [b]))
  = SuccinctTrie_Insert (trie_after (map trie_entry blocks)) (Hash b) (Data b).
Proof. rewrite map_app. apply trie_after_snoc. Qed.

(** The manager after the blocks [blocks]: the first [k] are archived, the
    others are active. *)
Lemma StateManager_run (maxActive : Z) (blocks : list Block) :
  let sm := fold_left StateManager_AddBlock blocks (NewStateManager maxActive) in
  exists k : nat,
    (k <= length blocks)%nat
    /\ PrunedBlocks sm = map archive_of (take k blocks)
    /\ ActiveBlocks sm = drop k blocks
    /\ Z.of_nat (length blocks - k) = Z.min (Z.of_nat (length blocks)) (Z.max 0 maxActive)
    /\ ActiveTrie sm = trie_after (map trie_entry blocks)
    /\ ArchiveTrie sm = trie_after (map trie_entry (take k blocks))
    /\ MaxActiveCount sm = maxActive.
Proof.
  cbv zeta. induction blocks as [|b blocks IH] using rev_ind.
  - exists 0%nat. simpl. repeat split; lia.
  - destruct IH as (k & Hk & Hpr & Hact & Hlen & Hat & Hrt & Hmax).
    rewrite fold_left_app. simpl.
    set (sm := fold_left StateManager_AddBlock blocks (NewStateManager maxActive)) in *.
    unfold StateManager_AddBlock. cbv zeta. rewrite Hact, Hmax, Hat, Hrt, Hpr.
    rewrite !length_app, length_drop. simpl length.
    rewrite !trie_after_entries_snoc.
    destruct (Z.ltb_spec maxActive (Z.of_nat (length blocks - k + 1))) as [Hover|Hfit].
    + (* the oldest active block is archived *)
      exists (S k). simpl.
      assert (Hhd : exists a, (blocks ++ [b]) !! k = Some a).
      { apply lookup_lt_is_Some_2. rewrite length_app. simpl. lia. }
      destruct Hhd as [a Ha].
      assert (Hdrop : drop k blocks ++ [b] = a :: drop (S k) (blocks ++ [b])).
      { rewrite <- drop_app_le by lia. apply drop_S. exact Ha. }
      rewrite Hdrop. simpl.
      rewrite (take_S_r _ _ _ Ha), map_app, trie_after_entries_snoc.
      rewrite take_app_le by lia.
      split; [lia|]. split; [reflexivity|]. split; [reflexivity|].
      split; [lia|]. split; [reflexivity|]. split; reflexivity.
    + exists k. simpl.
      rewrite take_app_le by lia. rewrite drop_app_le by lia.
      split; [lia|]. split; [reflexivity|]. split; [reflexivity|].
      split; [lia|]. split; [reflexivity|]. split; reflexivity.
Qed.

(** X17.  After any sequence of [AddBlock] calls on a manager made by
    [NewStateManager(maxActive)]: the archive followed by the active blocks
    is the sequence of blocks added, in order, with nothing lost and nothing
    repeated; the number of active blocks is the smaller of the number of
    blocks added and [maxActive] (0 when [maxActive] is negative), so the
    active blocks are the most recent ones. *)
Theorem state_manager_window (maxActive : Z) (blocks : list Block) :
  let sm := fold_left StateManager_AddBlock blocks (NewStateManager maxActive) in
  PrunedBlocks sm ++ map archive_of (ActiveBlocks sm) = map archive_of blocks
  /\ Z.of_nat (length (ActiveBlocks sm))
     = Z.min (Z.of_nat (length blocks)) (Z.max 0 maxActive)
  /\ ActiveBlocks sm = drop (length (PrunedBlocks sm)) blocks
  /\ MaxActiveCount sm = maxActive.
Proof.
  cbv zeta.
  destruct (StateManager_run maxActive blocks) as (k & Hk & Hpr & Hact & Hlen & _ & _ & Hmax).
  rewrite Hpr, Hact, <- map_app, take_drop, length_map, length_take, length_drop.
  split; [reflexivity|]. split; [exact Hlen|].
  split; [f_equal; lia|exact Hmax].
Qed.

(** X18.  The tries of the state manager.  A lookup by hash in the active
    trie answers for every block ever added, archived ones included: it
    returns the payload of the last block added with that hash; the archive
    trie answers in the same way for the archived blocks alone.  As for every
    lookup in the trie, an empty payload is reported as absent.
    [UpdateArchiveRoot] changes no answer. *)
Theorem state_manager_lookups (maxActive : Z) (blocks : list Block) (key : string) :
  let sm := fold_left StateManager_AddBlock blocks (NewStateManager maxActive) in
  let archived := take (length (PrunedBlocks sm)) blocks in
  let answer (ops : list (string * string)) :=
    match last_inserted ops key with
    | Some v => if String.eqb v "" then ("", false) else (v, true)
    | None => ("", false)
    end in
  SuccinctTrie_Get (ActiveTrie sm) key = answer (map trie_entry blocks)
  /\ SuccinctTrie_Get (ArchiveTrie sm) key = answer (map trie_entry archived)
  /\ SuccinctTrie_Get (ArchiveTrie (UpdateArchiveRoot sm)) key
     = SuccinctTrie_Get (ArchiveTrie sm) key.
Proof.
  cbv zeta.
  destruct (StateManager_run maxActive blocks) as (k & Hk & Hpr & _ & _ & Hat & Hrt & _).
  assert (Hupd : forall sm, SuccinctTrie_Get (ArchiveTrie (UpdateArchiveRoot sm)) key
                            = SuccinctTrie_Get (ArchiveTrie sm) key).
  { intros sm. unfold UpdateArchiveRoot, SuccinctTrie_Get. simpl. apply get_at_updateHashes. }
  rewrite Hupd, Hpr, Hat, Hrt, length_map, length_take.
  replace (k `min` length blocks)%nat with k by lia.
  assert (Hget : forall ops,
             SuccinctTrie_Get (trie_after ops) key
             = match last_inserted ops key with
               | Some v => if String.eqb v "" then ("", false) else (v, true)
               | None => ("", false)
               end).
  { intros ops. unfold trie_after. rewrite Get_after_inserts.
    destruct (last_inserted ops key); [reflexivity|].
    unfold SuccinctTrie_Get, NewSuccinctTrie. simpl. apply get_at_empty. }
  split; [apply Hget|]. split; [apply Hget|reflexivity].
Qed.
(** ** Vector clocks *)

Lemma clock_at_insert (clock : gmap string N) (k' k : string) (t : N) :
  clock_at (<[k' := t]> clock) k = if String.eqb k' k then t else clock_at clock k.
Proof.
  unfold clock_at. destruct (String.eqb_spec k' k) as [->|Hne].
  - rewrite lookup_insert_eq. reflexivity.
  - rewrite lookup_insert_ne by exact Hne. reflexivity.
Qed.

Lemma clock_at_merge_entry (clock : gmap string N) (entry : string * N) (k : string) :
  clock_at (merge_entry clock entry) k
  = if String.eqb (fst entry) k then N.max (clock_at clock k) (snd entry)
    else clock_at clock k.
Proof.
  unfold merge_entry, clock_at. destruct entry as [k' t]. simpl.
  destruct (String.eqb_spec k' k) as [->|Hne].
  - destruct (default 0%N (clock !! k) <? t)%N eqn:E.
    + apply N.ltb_lt in E. rewrite lookup_insert_eq. simpl. lia.
    + apply N.ltb_ge in E. lia.
  - destruct (default 0%N (clock !! k') <? t)%N; [|reflexivity].
    rewrite lookup_insert_ne by exact Hne. reflexivity.
Qed.

Lemma clock_at_fold_merge (order : list (string * N)) :
  forall (clock : gmap string N) (k : string),
    NoDup order.*1 ->
    clock_at (fold_left merge_entry order clock) k
    = N.max (clock_at clock k)
            (clock_at (list_to_map order) k).
Proof.
  induction order as [|[k' t] order IH]; intros clock k Hnd.
  - simpl. unfold clock_at at 3. rewrite lookup_empty. simpl. lia.
  - apply NoDup_cons in Hnd as [Hnin Hnd].
    change (fold_left merge_entry ((k', t) :: order) clock)
      with (fold_left merge_entry order (merge_entry clock (k', t))).
    change (list_to_map ((k', t) :: order) : gmap string N)
      with (<[k' := t]> (list_to_map order : gmap string N)).
    rewrite IH by exact Hnd. rewrite clock_at_merge_entry, clock_at_insert. simpl.
    destruct (String.eqb_spec k' k) as [->|Hne]; [|reflexivity].
    unfold clock_at at 2.
    rewrite (not_elem_of_list_to_map_1 _ _ Hnin). simpl. lia.
Qed.

Lemma Merge_in_order_get (vc other : VectorClock) (order : list (string * N)) (k : string) :
  order ≡ₚ map_to_list (vc_clock other) ->
  VectorClock_Get (Merge_in_order vc order) k
  = N.max (VectorClock_Get vc k) (VectorClock_Get other k).
Proof.
  intros Hperm. unfold VectorClock_Get, Merge_in_order. simpl.
  assert (Hnd : NoDup order.*1).
  { rewrite Hperm. apply NoDup_fst_map_to_list. }
  rewrite clock_at_fold_merge by exact Hnd.
  rewrite (list_to_map_proper _ _ Hnd Hperm), list_to_map_to_list. reflexivity.
Qed.

Lemma Merge_get (vc other : VectorClock) (k : string) :
  VectorClock_Get (VectorClock_Merge vc other) k
  = N.max (VectorClock_Get vc k) (VectorClock_Get other k).
Proof. apply Merge_in_order_get. reflexivity. Qed.

(** X19.  [Merge] sets every component to the larger of the two readings, a
    node missing from a clock reading as 0, in whatever order the entries of
    the other clock are visited. *)
Theorem merge_takes_the_maximum (vc other : VectorClock) (order : list (string * N))
  (nodeID : string) :
  order ≡ₚ map_to_list (vc_clock other) ->
  VectorClock_Get (Merge_in_order vc order) nodeID
  = N.max (VectorClock_Get vc nodeID) (VectorClock_Get other nodeID)
  /\ VectorClock_Get (Merge_in_order vc order) nodeID
     = VectorClock_Get (VectorClock_Merge vc other) nodeID.
Proof.
  intros Hperm. rewrite (Merge_in_order_get vc other order nodeID Hperm), Merge_get.
  split; reflexivity.
Qed.

(** Two clocks over three nodes. *)
Lemma merge_takes_the_maximum_witness :
  let vc := mkVectorClock {[ "node-1" := 3%N; "node-2" := 1%N ]} in
  let other := mkVectorClock {[ "node-1" := 2%N; "node-3" := 5%N ]} in
  VectorClock_Get (Merge_in_order vc [("node-3", 5%N); ("node-1", 2%N)]) "node-3"
  = N.max (VectorClock_Get vc "node-3") (VectorClock_Get other "node-3")
  /\ VectorClock_Get (Merge_in_order vc [("node-3", 5%N); ("node-1", 2%N)]) "node-3"
     = VectorClock_Get (VectorClock_Merge vc other) "node-3".
Proof.
  cbv zeta. apply merge_takes_the_maximum.
  vm_compute. first [reflexivity | apply perm_swap].
Defined.

Lemma Clone_eq (vc : VectorClock) : VectorClock_Clone vc = vc.
Proof.
  destruct vc as [m]. unfold VectorClock_Clone. simpl. f_equal.
  transitivity (list_to_map (rev (map_to_list m)) : gmap string N).
  - unfold list_to_map. rewrite fold_left_rev_right. reflexivity.
  - rewrite <- (list_to_map_to_list m) at 2.
    apply list_to_map_proper.
    + rewrite <- (Permutation_rev (map_to_list m)). apply NoDup_fst_map_to_list.
    + symmetry. apply Permutation_rev.
Qed.

(** [Merge] is a least upper bound on readings: no component ever
    decreases, the result reads the same whichever clock is merged into the
    other and however three clocks are grouped, and merging a clock with a
    copy of itself changes no reading.  [Clone] returns a clock with the same
    entries. *)
Theorem merge_is_a_join (a b c : VectorClock) (nodeID : string) :
  (VectorClock_Get a nodeID <= VectorClock_Get (VectorClock_Merge a b) nodeID)%N
  /\ (VectorClock_Get b nodeID <= VectorClock_Get (VectorClock_Merge a b) nodeID)%N
  /\ VectorClock_Get (VectorClock_Merge a b) nodeID
     = VectorClock_Get (VectorClock_Merge b a) nodeID
  /\ VectorClock_Get (VectorClock_Merge (VectorClock_Merge a b) c) nodeID
     = VectorClock_Get (VectorClock_Merge a (VectorClock_Merge b c)) nodeID
  /\ VectorClock_Get (VectorClock_Merge a (VectorClock_Clone a)) nodeID
     = VectorClock_Get a nodeID
  /\ VectorClock_Clone a = a.
Proof.
  rewrite Clone_eq, !Merge_get. repeat split; lia.
Qed.

Lemma Update_get (vc : VectorClock) (n k : string) :
  VectorClock_Get (VectorClock_Update vc n) k
  = if String.eqb n k then wrap_uint64 (VectorClock_Get vc k + 1)
    else VectorClock_Get vc k.
Proof.
  unfold VectorClock_Get, VectorClock_Update. simpl. rewrite clock_at_insert.
  destruct (String.eqb_spec n k) as [->|_]; reflexivity.
Qed.

(** After any sequence of [Update] calls on a fresh clock, the reading
    for a node is the number of calls made for that node, modulo 2^64; a node
    never updated reads 0. *)
Theorem update_counts_calls (calls : list string) (nodeID : string) :
  VectorClock_Get (fold_left VectorClock_Update calls NewVectorClock) nodeID
  = (N.of_nat (updates_of nodeID calls) mod 2 ^ 64)%N.
Proof.
  unfold updates_of. induction calls as [|n calls IH] using rev_ind.
  - reflexivity.
  - rewrite fold_left_app. simpl. rewrite Update_get, IH, count_occ_app. simpl.
    destruct (String.eqb_spec n nodeID) as [->|Hne].
    + destruct (string_dec nodeID nodeID) as [_|Hc]; [|contradiction].
      unfold wrap_uint64. rewrite N.Div0.add_mod_idemp_l. f_equal. lia.
    + destruct (string_dec n nodeID) as [Hc|_]; [contradiction|]. f_equal. f_equal. lia.
Qed.

(** X20.  The readings of a vector clock.  After any sequence of [Update]
    calls on a fresh clock the reading for a node is the number of calls made
    for it, modulo 2^64.  [Merge] is a least upper bound on readings: no
    component decreases, the result reads the same whichever clock is merged
    into the other and however three clocks are grouped, and merging a clock
    with a copy of itself changes no reading.  [Clone] returns a clock with
    the same entries. *)
Theorem vector_clock_laws (a b c : VectorClock) (calls : list string)
    (nodeID : string) :
  VectorClock_Get (fold_left VectorClock_Update calls NewVectorClock) nodeID
  = (N.of_nat (updates_of nodeID calls) mod 2 ^ 64)%N
  /\ (VectorClock_Get a nodeID <= VectorClock_Get (VectorClock_Merge a b) nodeID)%N
  /\ (VectorClock_Get b nodeID <= VectorClock_Get (VectorClock_Merge a b) nodeID)%N
  /\ VectorClock_Get (VectorClock_Merge a b) nodeID
     = VectorClock_Get (VectorClock_Merge b a) nodeID
  /\ VectorClock_Get (VectorClock_Merge (VectorClock_Merge a b) c) nodeID
     = VectorClock_Get (VectorClock_Merge a (VectorClock_Merge b c)) nodeID
  /\ VectorClock_Get (VectorClock_Merge a (VectorClock_Clone a)) nodeID
     = VectorClock_Get a nodeID
  /\ VectorClock_Clone a = a.
Proof.
  split; [apply update_counts_calls | apply merge_is_a_join].
Qed.
(** ** Probabilistic verification: no false negatives *)

Lemma leaf_scan_In (hashStr : string) (leaves : list string) :
  leaf_scan hashStr leaves = true <-> In hashStr leaves.
Proof.
  induction leaves as [|leaf rest IH]; simpl.
  - split; [discriminate|contradiction].
  - destruct (String.eqb_spec leaf hashStr) as [->|Hne].
    + split; [left; reflexivity|reflexivity].
    + rewrite IH. split; [right; assumption|]. intros [H|H]; [contradiction|exact H].
Qed.

(** X21.  [VerifyDataProbabilistic] answers true exactly when the digest of
    the datum is the digest of one of the data the tree was built from: it
    accepts every datum of the tree, and on a tree built from no data it
    rejects everything. *)
Theorem VerifyDataProbabilistic_iff (data : list string) (d : string) :
  let pcmt := NewProofCompressingMerkleTree data in
  (VerifyDataProbabilistic pcmt d = true
   <-> exists d', In d' data /\ sha256_hex d' = sha256_hex d)
  /\ (In d data -> VerifyDataProbabilistic pcmt d = true)
  /\ VerifyDataProbabilistic (NewProofCompressingMerkleTree []) d = false
  /\ PCMT_GetRootHash pcmt = GetRootHash (NewMerkleTree data).
Proof.
  cbv zeta.
  assert (Hiff : VerifyDataProbabilistic (NewProofCompressingMerkleTree data) d = true
                 <-> exists d', In d' data /\ sha256_hex d' = sha256_hex d).
  { unfold VerifyDataProbabilistic, NewProofCompressingMerkleTree. simpl.
    destruct (NewMerkleTree_fields data) as [-> _].
    rewrite leaf_scan_In, in_map_iff. split; intros (d' & H1 & H2); exists d'; tauto. }
  split; [exact Hiff|]. split; [|split; reflexivity].
  intros Hin. apply Hiff. exists d. split; [exact Hin|reflexivity].
Qed.

(** *** The Bloom filter *)

Lemma bloom_index_wf (bf : BloomFilter) (item : string) (i : N) :
  bloom_wf bf ->
  exists index, bloom_index bf item i = Some index
                /\ (index < length (bf_bits bf))%nat.
Proof.
  intros [Hlen Hpos]. unfold bloom_index.
  destruct (N.eqb_spec (bf_size bf) 0) as [E|_]; [lia|].
  eexists. split; [reflexivity|]. rewrite Hlen.
  pose proof (N.mod_lt (simpleHash item i) (bf_size bf) ltac:(lia)). lia.
Qed.

Lemma Add_step_wf (bf : BloomFilter) (item : string) (i : N) :
  bloom_wf bf ->
  exists bf' index,
    Add_step bf item i = Some bf'
    /\ bloom_index bf item i = Some index
    /\ bf_bits bf' = <[index := true]> (bf_bits bf)
    /\ (index < length (bf_bits bf))%nat
    /\ bf_size bf' = bf_size bf /\ bf_hashFuncs bf' = bf_hashFuncs bf
    /\ bloom_wf bf'.
Proof.
  intros Hwf. destruct (bloom_index_wf bf item i Hwf) as (index & Hidx & Hlt).
  unfold Add_step. rewrite Hidx. simpl.
  destruct (decide (index < length (bf_bits bf))%nat) as [_|Hn]; [|contradiction].
  eexists _, index. split; [reflexivity|]. simpl.
  split; [reflexivity|]. split; [reflexivity|]. split; [exact Hlt|].
  split; [reflexivity|]. split; [reflexivity|].
  destruct Hwf as [Hlen Hpos]. split; [|exact Hpos]. simpl.
  rewrite length_insert. exact Hlen.
Qed.

Lemma bloom_index_same (bf bf' : BloomFilter) (item : string) (i : N) :
  bf_size bf' = bf_size bf -> bloom_index bf' item i = bloom_index bf item i.
Proof. intros H. unfold bloom_index. rewrite H. reflexivity. Qed.

Lemma Add_loop_wf (item : string) (seeds : list N) :
  forall bf,
    bloom_wf bf ->
    exists bf',
      Add_loop bf item seeds = Some bf'
      /\ bloom_wf bf'
      /\ bf_size bf' = bf_size bf /\ bf_hashFuncs bf' = bf_hashFuncs bf
      /\ bits_kept bf bf'
      /\ Forall (fun i => exists index, bloom_index bf item i = Some index
                                        /\ bf_bits bf' !! index = Some true) seeds.
Proof.
  induction seeds as [|i seeds IH]; intros bf Hwf; simpl.
  - exists bf. repeat split; try apply Hwf; try constructor. intros j Hj. exact Hj.
  - destruct (Add_step_wf bf item i Hwf)
      as (bf1 & index & Hstep & Hidx & Hbits & Hlt & Hsz & Hk & Hwf1).
    rewrite Hstep. simpl.
    destruct (IH bf1 Hwf1) as (bf' & Hrun & Hwf' & Hsz' & Hk' & Hkept & Hall).
    exists bf'. split; [exact Hrun|]. split; [exact Hwf'|].
    split; [congruence|]. split; [congruence|].
    assert (Hkept1 : bits_kept bf bf1).
    { intros j Hj. rewrite Hbits. destruct (decide (index = j)) as [->|Hne].
      - apply list_lookup_insert_eq. exact Hlt.
      - rewrite list_lookup_insert_ne by exact Hne. exact Hj. }
    split; [intros j Hj; apply Hkept, Hkept1, Hj|].
    constructor.
    + exists index. split; [exact Hidx|]. apply Hkept. rewrite Hbits.
      apply list_lookup_insert_eq. exact Hlt.
    + eapply Forall_impl; [exact Hall|]. simpl. intros i' (index' & Hi' & Hset).
      exists index'. split; [|exact Hset].
      rewrite <- Hi'. symmetry. apply bloom_index_same. exact Hsz.
Qed.

Lemma Test_loop_set (bf : BloomFilter) (item : string) (seeds : list N) :
  Forall (fun i => exists index, bloom_index bf item i = Some index
                                 /\ bf_bits bf !! index = Some true) seeds ->
  Test_loop bf item seeds = Some true.
Proof.
  induction 1 as [|i seeds (index & Hidx & Hset) _ IH]; simpl; [reflexivity|].
  rewrite Hidx. simpl. rewrite Hset. simpl. exact IH.
Qed.

Lemma AddAll_wf (items : list string) :
  forall bf,
    bloom_wf bf ->
    exists bf',
      AddAll bf items = Some bf'
      /\ bloom_wf bf'
      /\ bf_size bf' = bf_size bf /\ bf_hashFuncs bf' = bf_hashFuncs bf
      /\ bits_kept bf bf'
      /\ Forall (fun item => BloomFilter_Test bf' item = Some true) items.
Proof.
  induction items as [|item items IH]; intros bf Hwf; simpl.
  - exists bf. repeat split; try apply Hwf; try constructor. intros j Hj. exact Hj.
  - unfold BloomFilter_Add.
    destruct (Add_loop_wf item (bloom_seeds bf) bf Hwf)
      as (bf1 & Hrun1 & Hwf1 & Hsz1 & Hk1 & Hkept1 & Hall1).
    rewrite Hrun1. simpl.
    destruct (IH bf1 Hwf1) as (bf' & Hrun & Hwf' & Hsz' & Hk' & Hkept & Hall).
    exists bf'. split; [exact Hrun|]. split; [exact Hwf'|].
    split; [congruence|]. split; [congruence|].
    split; [intros j Hj; apply Hkept, Hkept1, Hj|].
    constructor; [|exact Hall].
    unfold BloomFilter_Test. apply Test_loop_set.
    assert (Hseeds : bloom_seeds bf' = bloom_seeds bf).
    { unfold bloom_seeds. rewrite Hk', Hk1. reflexivity. }
    rewrite Hseeds.
    eapply Forall_impl; [exact Hall1|]. simpl. intros i (index & Hi & Hset).
    exists index. split; [|apply Hkept, Hset].
    rewrite <- Hi. apply bloom_index_same. congruence.
Qed.

Lemma NewBloomFilter_wf (size hashFuncs : N) :
  (0 < size)%N -> bloom_wf (NewBloomFilter size hashFuncs).
Proof.
  intros Hpos. split; [|exact Hpos]. simpl. apply length_replicate.
Qed.

(** X22.  A Bloom filter of positive size has no false negatives: every
    [Add] returns, and after any sequence of [Add] calls [Test] answers true
    for every item that was added, whatever was added after it; [Add] only
    sets bits. *)
Theorem bloom_has_no_false_negatives (size hashFuncs : N) (items : list string) :
  (0 < size)%N ->
  exists bf,
    AddAll (NewBloomFilter size hashFuncs) items = Some bf
    /\ Forall (fun item => BloomFilter_Test bf item = Some true) items
    /\ length (bf_bits bf) = N.to_nat size
    /\ bf_size bf = size /\ bf_hashFuncs bf = hashFuncs.
Proof.
  intros Hpos.
  destruct (AddAll_wf items _ (NewBloomFilter_wf size hashFuncs Hpos))
    as (bf & Hrun & [Hlen _] & Hsz & Hk & _ & Hall).
  exists bf. split; [exact Hrun|]. split; [exact Hall|].
  simpl in Hsz, Hk. rewrite Hlen, Hsz. auto.
Qed.

(** A filter of sixty-four bits and three hash functions. *)
Lemma bloom_has_no_false_negatives_witness :
  exists bf,
    AddAll (NewBloomFilter 64 3) ["block-1"; "block-2"] = Some bf
    /\ Forall (fun item => BloomFilter_Test bf item = Some true) ["block-1"; "block-2"]
    /\ length (bf_bits bf) = N.to_nat 64
    /\ bf_size bf = 64%N /\ bf_hashFuncs bf = 3%N.
Proof.
  apply bloom_has_no_false_negatives. reflexivity.
Defined.

(** X23.  The edges of the Bloom filter.  A fresh filter of positive size
    with at least one hash function answers false for every item.  A filter
    with no hash function answers true for every item, added or not.  A
    filter of size 0 with at least one hash function panics on every [Add]
    and every [Test]: the index is a remainder modulo 0. *)
Theorem bloom_edge_cases (size hashFuncs : N) (item : string) :
  BloomFilter_Test (NewBloomFilter (N.succ size) (N.succ hashFuncs)) item = Some false
  /\ BloomFilter_Test (NewBloomFilter size 0) item = Some true
  /\ BloomFilter_Add (NewBloomFilter size 0) item = Some (NewBloomFilter size 0)
  /\ BloomFilter_Add (NewBloomFilter 0 (N.succ hashFuncs)) item = None
  /\ BloomFilter_Test (NewBloomFilter 0 (N.succ hashFuncs)) item = None.
Proof.
  assert (Hseeds : forall sz, exists rest,
             bloom_seeds (NewBloomFilter sz (N.succ hashFuncs)) = 0%N :: rest).
  { intros sz. unfold bloom_seeds. simpl bf_hashFuncs.
    rewrite N2Nat.inj_succ. simpl. eauto. }
  split; [|split; [reflexivity|split; [reflexivity|split]]].
  - unfold BloomFilter_Test. destruct (Hseeds (N.succ size)) as [rest ->]. simpl.
    destruct (bloom_index_wf (NewBloomFilter (N.succ size) (N.succ hashFuncs)) item 0)
      as (index & Hidx & Hlt).
    { apply NewBloomFilter_wf. lia. }
    rewrite Hidx. simpl. simpl in Hlt.
    rewrite lookup_replicate_2 by (rewrite length_replicate in Hlt; exact Hlt).
    reflexivity.
  - unfold BloomFilter_Add. destruct (Hseeds 0%N) as [rest ->]. reflexivity.
  - unfold BloomFilter_Test. destruct (Hseeds 0%N) as [rest ->]. reflexivity.
Qed.
(** ** The shard index is a red-black tree *)

Lemma noRedRed_RBN (c : Color) (l : RBNode) (s : ptr) (r : RBNode) :
  noRedRed (RBN c l s r) = true
  <-> (c = Red -> colorOf l = Black /\ colorOf r = Black)
      /\ noRedRed l = true /\ noRedRed r = true.
Proof.
  change (noRedRed (RBN c l s r))
    with ((negb (isRed c) || (negb (isRed (colorOf l)) && negb (isRed (colorOf r))))
          && noRedRed l && noRedRed r).
  rewrite !andb_true_iff, orb_true_iff, andb_true_iff.
  destruct c, (colorOf l), (colorOf r); simpl; intuition congruence.
Qed.

Lemma balanced_RBN (c : Color) (l : RBNode) (s : ptr) (r : RBNode) :
  balanced (RBN c l s r) = true
  <-> blackHeight l = blackHeight r /\ balanced l = true /\ balanced r = true.
Proof.
  change (balanced (RBN c l s r))
    with ((blackHeight l =? blackHeight r)%nat && balanced l && balanced r).
  rewrite !andb_true_iff, Nat.eqb_eq. tauto.
Qed.

Lemma color_cases (c : Color) : c = Red \/ c = Black.
Proof. destruct c; auto. Qed.

Lemma not_red_black (c : Color) : c <> Red -> c = Black.
Proof. destruct c; congruence. Qed.

Global Arguments noRedRed : simpl never.
Global Arguments balanced : simpl never.

Ltac rb_split :=
  repeat match goal with
         | H : _ /\ _ |- _ => destruct H
         | H : noRedRed (RBN _ _ _ _) = true |- _ => apply noRedRed_RBN in H
         | H : balanced (RBN _ _ _ _) = true |- _ => apply balanced_RBN in H
         | H : Red = Red -> _ |- _ => specialize (H eq_refl)
         | H : Black = Red -> _ |- _ => clear H
         end.

Ltac rb_solve :=
  rb_split; subst; simpl in *;
  repeat match goal with
         | |- _ /\ _ => split
         | |- noRedRed (RBN _ _ _ _) = true => apply noRedRed_RBN
         | |- balanced (RBN _ _ _ _) = true => apply balanced_RBN
         | |- _ -> _ => intro
         end;
  rb_split; simpl in *; try solve [assumption | reflexivity | congruence | lia | tauto].

(** Plugging a red-black subtree into a path that accepts its colour gives a
    red-black tree. *)
Lemma plug_rb (path : list Frame) :
  forall (n : RBNode) (k : nat),
    path_rb path k ->
    noRedRed n = true -> balanced n = true -> blackHeight n = k ->
    hole_accepts path (colorOf n) ->
    noRedRed (plug n path) = true /\ balanced (plug n path) = true.
Proof.
  induction path as [|f up IH]; intros n k Hp Hn Hb Hk Hacc; [simpl; auto|].
  simpl in Hp. destruct Hp as (Hsn & Hsb & Hsk & Hred & Hup).
  destruct f as [c s r|c l s]; simpl in *.
  - apply (IH (RBN c n s r) (if isRed c then k else S k)); try assumption.
    + apply noRedRed_RBN.
      split; [intros Hc; split; [apply Hacc, Hc|apply Hred, Hc]|split; assumption].
    + apply balanced_RBN. split; [congruence|split; assumption].
    + simpl. rewrite Hk. destruct c; reflexivity.
    + destruct up as [|g up']; simpl; [exact I|]. intros Hg.
      destruct (color_cases c) as [Hc|Hc]; [|exact Hc].
      destruct (Hred Hc) as [_ Hgb]. congruence.
  - apply (IH (RBN c l s n) (if isRed c then k else S k)); try assumption.
    + apply noRedRed_RBN.
      split; [intros Hc; split; [apply Hred, Hc|apply Hacc, Hc]|split; assumption].
    + apply balanced_RBN. split; [congruence|split; assumption].
    + simpl. rewrite Hsk. destruct c; reflexivity.
    + destruct up as [|g up']; simpl; [exact I|]. intros Hg.
      destruct (color_cases c) as [Hc|Hc]; [|exact Hc].
      destruct (Hred Hc) as [_ Hgb]. congruence.
Qed.

(** The descent of [Insert] in a red-black tree ends on a path of that
    kind, above a hole of black height 0. *)
Lemma descend_rb (h : heap) (id : Z) (t : RBNode) :
  forall (path : list Frame) (k : nat),
    noRedRed t = true -> balanced t = true -> blackHeight t = k ->
    path_rb path k ->
    match path with
    | [] => colorOf t = Black
    | f :: _ => frameColor f = Red -> colorOf t = Black
    end ->
    path_rb (descend h id t path) 0.
Proof.
  induction t as [|c l IHl s r IHr]; intros path k Hn Hb Hk Hp Hacc; simpl.
  - simpl in Hk. subst k. exact Hp.
  - apply noRedRed_RBN in Hn as (Hcr & Hnl & Hnr).
    apply balanced_RBN in Hb as (Hbh & Hbl & Hbr).
    simpl in Hk, Hacc.
    assert (Hup : c = Red ->
                  match path with [] => False | g :: _ => frameColor g = Black end).
    { intros Hc. destruct path as [|g up]; [congruence|].
      apply not_red_black. intros Hg. specialize (Hacc Hg). congruence. }
    assert (Hk' : (if isRed c then blackHeight l else S (blackHeight l)) = k).
    { rewrite <- Hk. destruct c; reflexivity. }
    destruct (id <? ID (deref h s)).
    + apply (IHl _ (blackHeight l)); try assumption; [reflexivity| |].
      * simpl. split; [exact Hnr|]. split; [exact Hbr|]. split; [congruence|].
        split; [|rewrite Hk'; exact Hp].
        intros Hc. split; [apply Hcr, Hc|apply Hup, Hc].
      * simpl. intros Hc. apply Hcr, Hc.
    + apply (IHr _ (blackHeight r)); try assumption; [reflexivity| |].
      * simpl. split; [exact Hnl|]. split; [exact Hbl|]. split; [congruence|].
        split; [|rewrite <- Hbh, Hk'; exact Hp].
        intros Hc. split; [apply Hcr, Hc|apply Hup, Hc].
      * simpl. intros Hc. apply Hcr, Hc.
Qed.

Lemma path_rb_cons (f : Frame) (up : list Frame) (k : nat) :
  path_rb (f :: up) k
  <-> noRedRed (frameSibling f) = true
      /\ balanced (frameSibling f) = true
      /\ blackHeight (frameSibling f) = k
      /\ (frameColor f = Red ->
          colorOf (frameSibling f) = Black
          /\ match up with [] => False | g :: _ => frameColor g = Black end)
      /\ path_rb up (if isRed (frameColor f) then k else S k).
Proof. reflexivity. Qed.

Lemma isRed_true (c : Color) : isRed c = true -> c = Red.
Proof. destruct c; [reflexivity|discriminate]. Qed.

Lemma colorOf_not_red_node (t : RBNode) :
  match t with RBN Red _ _ _ => False | _ => True end -> colorOf t = Black.
Proof. destruct t as [|[|] ? ? ?]; simpl; tauto. Qed.

(** The loop of [fixInsert], started on a red node with black children in a
    red-black context, leaves a tree without red-red edges and with equal
    black heights; its root may be red. *)
Lemma fixInsert_loop_rb (n : nat) :
  forall path xl xs xr k t,
    (length path <= n)%nat ->
    path_rb path k ->
    noRedRed xl = true -> noRedRed xr = true ->
    balanced xl = true -> balanced xr = true ->
    blackHeight xl = k -> blackHeight xr = k ->
    colorOf xl = Black -> colorOf xr = Black ->
    fixInsert_loop Red xl xs xr path = Some t ->
    noRedRed t = true /\ balanced t = true.
Proof.
  induction n as [|n IH];
    intros path xl xs xr k t Hlen Hp Hnl Hnr Hbl Hbr Hkl Hkr Hcl Hcr Hrun.
  - destruct path; [|simpl in Hlen; lia]. simpl in Hrun. injection Hrun as <-.
    split; [apply noRedRed_RBN|apply balanced_RBN]; repeat split; congruence.
  - destruct path as [|f1 above].
    { simpl in Hrun. injection Hrun as <-.
      split; [apply noRedRed_RBN|apply balanced_RBN]; repeat split; congruence. }
    assert (Hnode : noRedRed (RBN Red xl xs xr) = true /\ balanced (RBN Red xl xs xr) = true
                    /\ blackHeight (RBN Red xl xs xr) = k).
    { split; [apply noRedRed_RBN|split; [apply balanced_RBN|simpl; exact Hkl]];
        repeat split; congruence. }
    destruct Hnode as (Hnn & Hnb & Hnk).
    simpl in Hrun. destruct (isRed (frameColor f1)) eqn:Hred.
    2:{ injection Hrun as <-. apply (plug_rb (f1 :: above) _ k); try assumption.
        simpl. intros Hc. rewrite Hc in Hred. discriminate. }
    apply isRed_true in Hred.
    apply path_rb_cons in Hp as (Hs1n & Hs1b & Hs1k & Hf1 & Hp).
    destruct (Hf1 Hred) as [Hs1c Habove]. rewrite Hred in Hp. simpl in Hp.
    destruct above as [|f2 up]; [contradiction|].
    apply path_rb_cons in Hp as (Hun & Hub & Huk & _ & Hp).
    rewrite Habove in Hp. simpl in Hp.
    assert (Hup : (length up <= n)%nat) by (simpl in Hlen; lia).
    assert (Hacc : hole_accepts up Black) by (destruct up; simpl; auto).
    destruct f2 as [gc gs uncle|gc uncle gs]; simpl in Hun, Hub, Huk.
    + destruct uncle as [|[|] ul us ur].
      * destruct f1 as [pc ps pr|pc pl ps]; simpl in *; injection Hrun as <-;
          apply (plug_rb up _ (S k)); try assumption; rb_solve.
      * apply noRedRed_RBN in Hun as (Hur & Hunl & Hunr). specialize (Hur eq_refl).
        apply balanced_RBN in Hub as (Hubh & Hubl & Hubr). simpl in Huk.
        destruct up as [|f3 up'].
        -- injection Hrun as <-. destruct f1 as [pc ps pr|pc pl ps]; simpl in *; rb_solve.
        -- remember (f3 :: up') as up2 eqn:Hup2 in *.
           destruct f1 as [pc ps pr|pc pl ps]; simpl in *;
             apply (IH up2 _ _ _ (S k)) in Hrun; try assumption; try reflexivity;
             rb_solve.
      * destruct f1 as [pc ps pr|pc pl ps]; simpl in *; injection Hrun as <-;
          apply (plug_rb up _ (S k)); try assumption; rb_solve.
    + destruct uncle as [|[|] ul us ur].
      * destruct f1 as [pc ps pr|pc pl ps]; simpl in *; injection Hrun as <-;
          apply (plug_rb up _ (S k)); try assumption; rb_solve.
      * apply noRedRed_RBN in Hun as (Hur & Hunl & Hunr). specialize (Hur eq_refl).
        apply balanced_RBN in Hub as (Hubh & Hubl & Hubr). simpl in Huk.
        destruct up as [|f3 up'].
        -- injection Hrun as <-. destruct f1 as [pc ps pr|pc pl ps]; simpl in *; rb_solve.
        -- remember (f3 :: up') as up2 eqn:Hup2 in *.
           destruct f1 as [pc ps pr|pc pl ps]; simpl in *;
             apply (IH up2 _ _ _ (S k)) in Hrun; try assumption; try reflexivity;
             rb_solve.
      * destruct f1 as [pc ps pr|pc pl ps]; simpl in *; injection Hrun as <-;
          apply (plug_rb up _ (S k)); try assumption; rb_solve.
Qed.

Lemma blackenRoot_rb (t : RBNode) :
  noRedRed t = true -> balanced t = true -> is_red_black (blackenRoot t).
Proof.
  intros Hn Hb. destruct t as [|c l s r]; [repeat split|].
  apply noRedRed_RBN in Hn as (_ & Hl & Hr). apply balanced_RBN in Hb.
  split; [reflexivity|]. split; [apply noRedRed_RBN|apply balanced_RBN; exact Hb].
  split; [discriminate|split; assumption].
Qed.

(** [Insert] keeps the red-black properties. *)
Lemma RBTree_Insert_rb (h : heap) (t t' : RBTree) (s : ptr) :
  is_red_black t -> RBTree_Insert h t s = Some t' -> is_red_black t'.
Proof.
  intros (Hc & Hn & Hb) Hrun. unfold RBTree_Insert, fixInsert in Hrun.
  set (path := descend h (ID (deref h s)) t []) in *.
  destruct (fixInsert_loop Red RBNil s RBNil path) as [t1|] eqn:E; [|discriminate Hrun].
  simpl in Hrun. injection Hrun as <-.
  assert (Hp : path_rb path 0).
  { apply (descend_rb h _ t [] (blackHeight t)); try assumption; [reflexivity|exact I]. }
  destruct (fixInsert_loop_rb (length path) path RBNil s RBNil 0%nat t1 (le_n _) Hp)
    as [Hn1 Hb1]; try reflexivity; [exact E|].
  apply blackenRoot_rb; assumption.
Qed.

Lemma is_red_black_nil : is_red_black NewRBTree.
Proof. repeat split. Qed.

Lemma rebalance_step_rb (h h' : heap) (t t' : RBTree) (c c' : Z) (s : ptr) :
  is_red_black t -> rebalance_step (h, t, c) s = Some (h', t', c') -> is_red_black t'.
Proof.
  intros Hrb Hrun. unfold rebalance_step in Hrun.
  destruct (MaxBlocksPerShard <? Z.of_nat (length (Blocks (deref h s)))).
  - match type of Hrun with context [RBTree_Insert ?hh t s] =>
      destruct (RBTree_Insert hh t s) as [t1|] eqn:E1; [|discriminate Hrun]
    end.
    simpl in Hrun. unfold alloc in Hrun.
    match type of Hrun with context [RBTree_Insert ?hh t1 ?p] =>
      destruct (RBTree_Insert hh t1 p) as [t2|] eqn:E2; [|discriminate Hrun]
    end.
    simpl in Hrun. injection Hrun as <- <- <-.
    eapply RBTree_Insert_rb; [|exact E2]. eapply RBTree_Insert_rb; [|exact E1]. exact Hrb.
  - destruct (RBTree_Insert h t s) as [t1|] eqn:E1; [|discriminate Hrun].
    simpl in Hrun. injection Hrun as <- <- <-.
    eapply RBTree_Insert_rb; [|exact E1]. exact Hrb.
Qed.

Lemma rebalance_loop_rb (l : list ptr) :
  forall (h h' : heap) (t t' : RBTree) (c c' : Z),
    is_red_black t -> rebalance_loop (h, t, c) l = Some (h', t', c') -> is_red_black t'.
Proof.
  induction l as [|s l IH]; intros h h' t t' c c' Hrb Hrun.
  - simpl in Hrun. injection Hrun as <- <- <-. exact Hrb.
  - rewrite rebalance_loop_cons in Hrun.
    destruct (rebalance_step (h, t, c) s) as [[[h1 t1] c1]|] eqn:E1; [|discriminate Hrun].
    simpl in Hrun. eapply IH; [|exact Hrun]. eapply rebalance_step_rb; eassumption.
Qed.

Lemma merge_step_rb (threshold : Z) (cs : list ptr) (h h' : heap) (t t' : RBTree)
  (used used' : gmap nat bool) (i : nat) :
  is_red_black t ->
  merge_step threshold cs (h, t, used) i = Some (h', t', used') -> is_red_black t'.
Proof.
  intros Hrb Hrun. unfold merge_step in Hrun.
  destruct (default false (used !! i)).
  { injection Hrun as <- <- <-. exact Hrb. }
  destruct (cs !! i) as [current|]; [|discriminate Hrun]. simpl in Hrun.
  match type of Hrun with context [if ?b then _ else _] => destruct b end.
  - destruct (cs !! S i) as [next|]; [|discriminate Hrun]. simpl in Hrun.
    unfold alloc in Hrun.
    match type of Hrun with context [RBTree_Insert ?hh t ?p] =>
      destruct (RBTree_Insert hh t p) as [t1|] eqn:E1; [|discriminate Hrun]
    end.
    simpl in Hrun. injection Hrun as <- <- <-.
    eapply RBTree_Insert_rb; [|exact E1]. exact Hrb.
  - destruct (RBTree_Insert h t current) as [t1|] eqn:E1; [|discriminate Hrun].
    simpl in Hrun. injection Hrun as <- <- <-.
    eapply RBTree_Insert_rb; [|exact E1]. exact Hrb.
Qed.

Lemma merge_loop_rb (threshold : Z) (cs : list ptr) (indices : list nat) :
  forall (h h' : heap) (t t' : RBTree) (used used' : gmap nat bool),
    is_red_black t ->
    merge_loop threshold cs (h, t, used) indices = Some (h', t', used') ->
    is_red_black t'.
Proof.
  induction indices as [|i l IH]; intros h h' t t' used used' Hrb Hrun.
  - simpl in Hrun. injection Hrun as <- <- <-. exact Hrb.
  - rewrite merge_loop_cons in Hrun.
    destruct (merge_step threshold cs (h, t, used) i) as [[[h1 t1] u1]|] eqn:E1;
      [|discriminate Hrun].
    simpl in Hrun. eapply IH; [|exact Hrun]. eapply merge_step_rb; eassumption.
Qed.

Lemma run_op_rb (st st' : ShardManager * heap) (op : Op) :
  run_op st op = Some st' -> is_red_black (Shards (fst st')).
Proof.
  destruct st as [sm h]. destruct op as [block| |threshold]; simpl; intros Hrun.
  - unfold DistributeBlock in Hrun.
    destruct (last (GetAllShards (Shards sm))) as [lastShard|]; [|discriminate Hrun].
    simpl in Hrun. unfold RebalanceShards in Hrun.
    destruct (rebalance_loop _ _) as [[[h1 t1] c1]|] eqn:E; [|discriminate Hrun].
    simpl in Hrun. injection Hrun as <-. simpl.
    eapply rebalance_loop_rb; [|exact E]. apply is_red_black_nil.
  - unfold RebalanceShards in Hrun.
    destruct (rebalance_loop _ _) as [[[h1 t1] c1]|] eqn:E; [|discriminate Hrun].
    simpl in Hrun. injection Hrun as <-. simpl.
    eapply rebalance_loop_rb; [|exact E]. apply is_red_black_nil.
  - unfold MergeShards in Hrun.
    destruct (merge_loop _ _ _ _) as [[[h1 t1] u1]|] eqn:E; [|discriminate Hrun].
    simpl in Hrun. injection Hrun as <-. simpl.
    eapply merge_loop_rb; [|exact E]. apply is_red_black_nil.
Qed.

Lemma reachable_rb (ops : list Op) (st : ShardManager * heap) :
  run_from_new ops = Some st -> is_red_black (Shards (fst st)).
Proof.
  unfold run_from_new.
  assert (E0 : NewShardManager []
               = Some (mkShardManager (RBN Black RBNil 0%nat RBNil), [NewShard 0]))
    by reflexivity.
  rewrite E0. simpl.
  assert (H0 : is_red_black (Shards (fst (mkShardManager (RBN Black RBNil 0%nat RBNil),
                                          [NewShard 0]))))
    by (repeat split).
  revert H0. generalize (mkShardManager (RBN Black RBNil 0%nat RBNil), [NewShard 0]).
  intros st0 H0. revert st0 H0 st.
  induction ops as [|op ops IH]; intros st0 H0 st Hrun; simpl in Hrun.
  - injection Hrun as <-. exact H0.
  - destruct (run_op st0 op) as [st1|] eqn:E1; [|discriminate Hrun]. simpl in Hrun.
    eapply IH; [|exact Hrun]. eapply run_op_rb. exact E1.
Qed.

Lemma rb_height_bound (t : RBNode) :
  noRedRed t = true -> balanced t = true ->
  (height t <= 2 * blackHeight t + (if isRed (colorOf t) then 1 else 0))%nat
  /\ (2 ^ blackHeight t <= S (length (inOrderTraversal t)))%nat.
Proof.
  induction t as [|c l IHl s r IHr]; intros Hn Hb; [simpl; lia|].
  apply noRedRed_RBN in Hn as (Hc & Hnl & Hnr).
  apply balanced_RBN in Hb as (Hbh & Hbl & Hbr).
  destruct (IHl Hnl Hbl) as [Hhl Hsl]. destruct (IHr Hnr Hbr) as [Hhr Hsr].
  rewrite <- Hbh in Hhr, Hsr.
  simpl. rewrite length_app. simpl.
  destruct c; simpl.
  - destruct (Hc eq_refl) as [Hcl Hcr]. rewrite Hcl in Hhl. rewrite Hcr in Hhr.
    simpl in *. lia.
  - destruct (isRed (colorOf l)), (isRed (colorOf r)); lia.
Qed.

Lemma FindShard_steps_height (h : heap) (t : RBNode) (id : Z) :
  (FindShard_steps h t id <= height t)%nat.
Proof.
  induction t as [|c l IHl s r IHr]; simpl; [lia|].
  destruct (id =? ID (deref h s)); [lia|].
  destruct (id <? ID (deref h s)); lia.
Qed.

(** X24.  In every state the manager reaches the shard index is a red-black
    tree: its root is black, no red node has a red child, and at every node
    both subtrees have the same black height.  Hence its height [H] is
    logarithmic in the number [n] of shards, 2^H <= (n + 1)^2, and no
    [FindShard] visits more than [H] nodes. *)
Theorem shard_index_is_red_black (ops : list Op) :
  exists st,
    run_from_new ops = Some st
    /\ is_red_black (Shards (fst st))
    /\ (2 ^ height (Shards (fst st))
        <= (length (GetAllShards (Shards (fst st))) + 1) ^ 2)%nat
    /\ forall id,
         (FindShard_steps (snd st) (Shards (fst st)) id <= height (Shards (fst st)))%nat.
Proof.
  unfold run_from_new. destruct (NewShardManager_spec []) as (t0 & E0 & Hb0 & Hl0).
  destruct (run_ops_total ops (mkShardManager t0, [] ++ [NewShard 0]) Hb0)
    as (st & Hrun & _ & _).
  { simpl. rewrite Hl0. discriminate. }
  exists st. rewrite E0. simpl. split; [exact Hrun|].
  assert (Hrb : is_red_black (Shards (fst st))).
  { apply (reachable_rb ops). unfold run_from_new. rewrite E0. exact Hrun. }
  split; [exact Hrb|]. split; [|intros id; apply FindShard_steps_height].
  destruct Hrb as (Hc & Hn & Hb).
  destruct (rb_height_bound _ Hn Hb) as [Hh Hs]. rewrite Hc in Hh. simpl in Hh.
  unfold GetAllShards.
  set (bh := blackHeight (Shards (fst st))) in *.
  set (n := length (inOrderTraversal (Shards (fst st)))) in *.
  transitivity (2 ^ (bh + bh))%nat; [apply Nat.pow_le_mono_r; lia|].
  rewrite Nat.pow_add_r. nia.
Qed.
(** ** The shard index is ordered by ID, and lookups agree with it *)

Lemma ids_of_app (h : heap) (l1 l2 : list ptr) :
  ids_of h (l1 ++ l2) = ids_of h l1 ++ ids_of h l2.
Proof. apply map_app. Qed.

Lemma ids_of_ext (h h' : heap) (ps : list ptr) :
  Forall (fun p => ID (deref h' p) = ID (deref h p)) ps -> ids_of h' ps = ids_of h ps.
Proof.
  induction 1 as [|p ps Hp _ IH]; [reflexivity|].
  unfold ids_of in *. simpl. rewrite Hp, IH. reflexivity.
Qed.

Lemma ids_sorted_ext (h h' : heap) (ps : list ptr) :
  Forall (fun p => ID (deref h' p) = ID (deref h p)) ps ->
  ids_sorted h ps -> ids_sorted h' ps.
Proof. intros Hext. unfold ids_sorted. rewrite (ids_of_ext h h' ps Hext). tauto. Qed.

Lemma elem_of_ids_of (h : heap) (ps : list ptr) (z : Z) :
  z ∈ ids_of h ps <-> exists p, p ∈ ps /\ ID (deref h p) = z.
Proof.
  unfold ids_of. rewrite list_elem_of_In, in_map_iff. split.
  - intros (p & Hp & Hin). exists p. rewrite list_elem_of_In. auto.
  - intros (p & Hin & Hp). exists p. rewrite <- list_elem_of_In. auto.
Qed.

(** Where the descent of [Insert] ends in an ordered tree: everything to the
    left has an ID that is not larger, everything to the right a larger
    one. *)
Lemma descend_bounds (h : heap) (id : Z) (t : RBNode) :
  forall path : list Frame,
    ids_sorted h (inOrderTraversal t) ->
    Forall (fun q => ID (deref h q) <= id) (ctxL path) ->
    Forall (fun q => id < ID (deref h q)) (ctxR path) ->
    Forall (fun q => ID (deref h q) <= id) (ctxL (descend h id t path))
    /\ Forall (fun q => id < ID (deref h q)) (ctxR (descend h id t path)).
Proof.
  induction t as [|c l IHl s r IHr]; intros path Hs HL HR; simpl; [auto|].
  unfold ids_sorted in Hs. simpl in Hs. rewrite ids_of_app in Hs.
  change (ids_of h (s :: inOrderTraversal r))
    with (ID (deref h s) :: ids_of h (inOrderTraversal r)) in Hs.
  apply StronglySorted_app in Hs as (Hlr & Hsl & Hsr).
  apply StronglySorted_cons in Hsr as (Hsr1 & Hsr).
  destruct (Z.ltb_spec id (ID (deref h s))) as [Hlt|Hge].
  - apply IHl; [exact Hsl|exact HL|]. simpl.
    constructor; [exact Hlt|]. apply Forall_app. split; [|exact HR].
    apply Forall_forall. intros q Hq. rewrite Forall_forall in Hsr1.
    specialize (Hsr1 (ID (deref h q))). 
    assert (ID (deref h s) <= ID (deref h q)); [|lia].
    apply Hsr1. apply elem_of_ids_of. eauto.
  - apply IHr; [exact Hsr| |exact HR]. simpl.
    apply Forall_app. split; [exact HL|]. apply Forall_app. split.
    + apply Forall_forall. intros q Hq.
      assert (ID (deref h q) <= ID (deref h s)); [|lia].
      apply Hlr; [apply elem_of_ids_of; eauto|left].
    + constructor; [lia|constructor].
Qed.

Lemma ids_sorted_insert (h : heap) (L R : list ptr) (s : ptr) :
  ids_sorted h (L ++ R) ->
  Forall (fun q => ID (deref h q) <= ID (deref h s)) L ->
  Forall (fun q => ID (deref h s) < ID (deref h q)) R ->
  ids_sorted h (L ++ s :: R).
Proof.
  unfold ids_sorted. rewrite !ids_of_app. intros Hs HL HR.
  change (ids_of h (s :: R)) with (ID (deref h s) :: ids_of h R).
  apply StronglySorted_app in Hs as (Hlr & Hsl & Hsr).
  apply StronglySorted_app. split; [|split; [exact Hsl|]].
  - intros x1 x2 H1 H2. apply elem_of_cons in H2 as [->|H2].
    + apply elem_of_ids_of in H1 as (q & Hq & <-).
      rewrite Forall_forall in HL. apply HL, Hq.
    + apply Hlr; assumption.
  - apply StronglySorted_cons. split; [|exact Hsr].
    apply Forall_forall. intros x Hx. apply elem_of_ids_of in Hx as (q & Hq & <-).
    rewrite Forall_forall in HR. specialize (HR q Hq). lia.
Qed.

(** [Insert] keeps the enumeration ordered by ID. *)
Lemma RBTree_Insert_sorted (h : heap) (t t' : RBTree) (s : ptr) :
  colorOf t = Black ->
  ids_sorted h (GetAllShards t) ->
  RBTree_Insert h t s = Some t' ->
  ids_sorted h (GetAllShards t').
Proof.
  intros Hc Hs Hrun. unfold RBTree_Insert, fixInsert in Hrun.
  set (path := descend h (ID (deref h s)) t []) in *.
  destruct (fixInsert_loop Red RBNil s RBNil path) as [t1|] eqn:E; [|discriminate Hrun].
  simpl in Hrun. injection Hrun as <-.
  unfold GetAllShards in *. rewrite inorder_blackenRoot.
  rewrite (fixInsert_loop_inorder _ _ _ _ _ _ _ (le_n _) E), inorder_plug. simpl.
  destruct (descend_bounds h (ID (deref h s)) t [] Hs) as [HL HR]; [constructor..|].
  fold path in HL, HR.
  apply ids_sorted_insert; [|exact HL|exact HR].
  assert (Heq : inOrderTraversal t = ctxL path ++ ctxR path).
  { transitivity (inOrderTraversal (plug RBNil path)).
    - f_equal. symmetry. apply (plug_descend h (ID (deref h s)) t []).
    - rewrite inorder_plug. reflexivity. }
  rewrite <- Heq. exact Hs.
Qed.

Lemma FindShard_sound (h : heap) (t : RBNode) (id : Z) (p : ptr) :
  RBTree_FindShard h t id = Some p ->
  p ∈ inOrderTraversal t /\ ID (deref h p) = id.
Proof.
  induction t as [|c l IHl s r IHr]; simpl; [discriminate|].
  destruct (Z.eqb_spec id (ID (deref h s))) as [->|Hne].
  - intros [= <-]. split; [|reflexivity]. apply elem_of_app. right. left.
  - destruct (id <? ID (deref h s)); intros Hf.
    + destruct (IHl Hf) as [Hin Hid]. split; [|exact Hid]. apply elem_of_app. left. exact Hin.
    + destruct (IHr Hf) as [Hin Hid]. split; [|exact Hid].
      apply elem_of_app. right. right. exact Hin.
Qed.

Lemma FindShard_complete (h : heap) (t : RBNode) (id : Z) :
  ids_sorted h (inOrderTraversal t) ->
  RBTree_FindShard h t id = None ->
  id ∉ ids_of h (inOrderTraversal t).
Proof.
  induction t as [|c l IHl s r IHr]; intros Hs Hf; simpl.
  - apply not_elem_of_nil.
  - simpl in Hf. unfold ids_sorted in Hs. simpl in Hs. rewrite ids_of_app in *.
    change (ids_of h (s :: inOrderTraversal r))
      with (ID (deref h s) :: ids_of h (inOrderTraversal r)) in *.
    apply StronglySorted_app in Hs as (Hlr & Hsl & Hsr).
    apply StronglySorted_cons in Hsr as (Hsr1 & Hsr).
    rewrite Forall_forall in Hsr1.
    destruct (Z.eqb_spec id (ID (deref h s))) as [?|Hne]; [discriminate Hf|].
    intros Hin. apply elem_of_app in Hin as [Hin|Hin].
    + destruct (Z.ltb_spec id (ID (deref h s))) as [Hlt|Hge].
      * exact (IHl Hsl Hf Hin).
      * specialize (Hlr id (ID (deref h s)) Hin ltac:(left)). lia.
    + apply elem_of_cons in Hin as [Heq|Hin]; [contradiction|].
      destruct (Z.ltb_spec id (ID (deref h s))) as [Hlt|Hge].
      * specialize (Hsr1 id Hin). lia.
      * exact (IHr Hsr Hf Hin).
Qed.
(** ** The shard manager: what every operation keeps *)

Lemma fold_AddBlock_tree (bs : list Block) (h : heap) (p : ptr) :
  (p < length h)%nat -> bs <> [] ->
  Tree (deref (fold_left (fun hh b => Shard_AddBlock hh p b) bs h) p)
  = Some (NewMerkleTree (getDataStrings (Blocks (deref h p) ++ bs))).
Proof.
  intros Hp Hne. destruct bs as [|b bs _] using rev_ind; [contradiction|].
  rewrite fold_left_app. simpl.
  destruct (fold_AddBlock_spec bs h p Hp) as (Hl & _ & Hb & _).
  rewrite Shard_AddBlock_same by (rewrite Hl; exact Hp). simpl.
  rewrite Hb, <- app_assoc. reflexivity.
Qed.

Lemma all_blocks_app (h : heap) (l1 l2 : list ptr) :
  all_blocks h (l1 ++ l2) = all_blocks h l1 ++ all_blocks h l2.
Proof. unfold all_blocks. rewrite map_app, concat_app. reflexivity. Qed.

Lemma all_blocks_cons (h : heap) (p : ptr) (l : list ptr) :
  all_blocks h (p :: l) = Blocks (deref h p) ++ all_blocks h l.
Proof. reflexivity. Qed.

Lemma all_blocks_single (h : heap) (p : ptr) : all_blocks h [p] = Blocks (deref h p).
Proof. unfold all_blocks. simpl. apply app_nil_r. Qed.

Lemma all_blocks_ext (h h' : heap) (ps : list ptr) :
  Forall (fun p => Blocks (deref h' p) = Blocks (deref h p)) ps ->
  all_blocks h' ps = all_blocks h ps.
Proof.
  induction 1 as [|p ps Hp _ IH]; [reflexivity|].
  rewrite !all_blocks_cons, Hp, IH. reflexivity.
Qed.

Lemma all_blocks_perm (h : heap) (l1 l2 : list ptr) :
  l1 ≡ₚ l2 -> all_blocks h l1 ≡ₚ all_blocks h l2.
Proof.
  induction 1 as [|x l l' _ IH|x y l|l l' l'' _ IH1 _ IH2].
  - reflexivity.
  - rewrite !all_blocks_cons, IH. reflexivity.
  - rewrite !all_blocks_cons, !app_assoc.
    apply Permutation_app_tail, Permutation_app_comm.
  - etransitivity; eassumption.
Qed.

(** What one step of the rebalance loop does to the store and to the index
    under construction. *)
Lemma rebalance_step_effect (h h' : heap) (t t' : RBTree) (c c' : Z) (s : ptr) :
  (s < length h)%nat ->
  rebalance_step (h, t, c) s = Some (h', t', c') ->
  (length h <= length h')%nat
  /\ (forall q, (q < length h)%nat -> q <> s -> deref h' q = deref h q)
  /\ ID (deref h' s) = ID (deref h s)
  /\ ((h' = h /\ RBTree_Insert h t s = Some t')
      \/ exists h2 t1,
           let blocks := Blocks (deref h s) in
           let mid := (length blocks / 2)%nat in
           MaxBlocksPerShard < Z.of_nat (length blocks)
           /\ length h' = S (length h)
           /\ (forall q, ID (deref h2 q) = ID (deref h q))
           /\ RBTree_Insert h2 t s = Some t1
           /\ RBTree_Insert h' t1 (length h) = Some t'
           /\ Blocks (deref h' s) = take mid blocks
           /\ Tree (deref h' s) = Some (NewMerkleTree (getDataStrings (take mid blocks)))
           /\ Blocks (deref h' (length h)) = drop mid blocks
           /\ Tree (deref h' (length h))
              = Some (NewMerkleTree (getDataStrings (drop mid blocks)))).
Proof.
  intros Hs Hrun. unfold rebalance_step in Hrun.
  destruct (Z.ltb_spec MaxBlocksPerShard (Z.of_nat (length (Blocks (deref h s)))))
    as [Hover|Hfit].
  - set (blocks := Blocks (deref h s)) in *.
    set (mid := (length blocks / 2)%nat) in *.
    set (h2 := store _ s (set_Tree _ _)) in Hrun.
    assert (Hlen2 : length h2 = length h) by (unfold h2; rewrite !length_store; reflexivity).
    assert (Hs2 : deref h2 s
                  = mkShard (ID (deref h s)) (take mid blocks)
                            (Some (NewMerkleTree (getDataStrings (take mid blocks))))).
    { unfold h2. heap_simpl. reflexivity. }
    assert (Ho2 : forall q, q <> s -> deref h2 q = deref h q).
    { intros q Hq. unfold h2. heap_simpl. reflexivity. }
    assert (Hid2 : forall q, ID (deref h2 q) = ID (deref h q)).
    { intros q. destruct (decide (q = s)) as [->|Hq]; [rewrite Hs2; reflexivity|].
      rewrite Ho2 by exact Hq. reflexivity. }
    destruct (RBTree_Insert h2 t s) as [t1|] eqn:E1; [|discriminate Hrun].
    simpl in Hrun. unfold alloc in Hrun. rewrite Hlen2 in Hrun.
    set (n := length h) in *.
    set (h3 := h2 ++ [NewShard c]) in Hrun.
    assert (Hn3 : (n < length h3)%nat).
    { unfold h3. rewrite length_app, Hlen2. simpl. lia. }
    destruct (fold_AddBlock_spec (drop mid blocks) h3 n Hn3) as (Hl4 & Hi4 & Hb4 & Ho4).
    assert (Hne : drop mid blocks <> []).
    { intros Hnil. apply (f_equal length) in Hnil. rewrite length_drop in Hnil.
      simpl in Hnil. unfold MaxBlocksPerShard in Hover.
      pose proof (Nat.div_mod_eq (length blocks) 2).
      pose proof (Nat.mod_upper_bound (length blocks) 2 ltac:(lia)). lia. }
    pose proof (fold_AddBlock_tree (drop mid blocks) h3 n Hn3 Hne) as Ht4.
    set (h4 := fold_left _ (drop mid blocks) h3) in *.
    assert (Hnew3 : deref h3 n = NewShard c).
    { unfold h3. rewrite <- Hlen2. apply deref_alloc_new. }
    assert (Hold3 : forall q, (q < n)%nat -> deref h3 q = deref h2 q).
    { intros q Hq. unfold h3. apply deref_app_l. lia. }
    destruct (RBTree_Insert h4 t1 n) as [t2|] eqn:E2; [|discriminate Hrun].
    simpl in Hrun. injection Hrun as <- <- <-.
    assert (Hlen4 : length h4 = S n).
    { rewrite Hl4. unfold h3. rewrite length_app, Hlen2. simpl. lia. }
    assert (Hs4 : deref h4 s = deref h2 s).
    { rewrite Ho4 by lia. apply Hold3. exact Hs. }
    split; [lia|]. split.
    { intros q Hq Hqs. rewrite Ho4 by lia. rewrite Hold3 by exact Hq. apply Ho2, Hqs. }
    split; [rewrite Hs4, Hs2; reflexivity|].
    right. exists h2, t1. cbv zeta. fold blocks mid.
    split; [exact Hover|]. split; [exact Hlen4|]. split; [exact Hid2|].
    split; [exact E1|]. split; [exact E2|].
    rewrite Hs4, Hs2. simpl. split; [reflexivity|]. split; [reflexivity|].
    rewrite Hb4, Ht4, Hnew3. simpl. split; reflexivity.
  - destruct (RBTree_Insert h t s) as [t1|] eqn:E1; [|discriminate Hrun].
    simpl in Hrun. injection Hrun as <- <- <-.
    split; [lia|]. split; [reflexivity|]. split; [reflexivity|]. left. auto.
Qed.

Lemma rebalance_step_keeps (h h' : heap) (t t' : RBTree) (c c' : Z) (s : ptr)
  (l : list ptr) :
  rebalance_inv h t (s :: l) ->
  rebalance_step (h, t, c) s = Some (h', t', c') ->
  rebalance_inv h' t' l
  /\ all_blocks h' (GetAllShards t' ++ l) ≡ₚ all_blocks h (GetAllShards t ++ s :: l).
Proof.
  intros (Hc & Hnd & Hval & Hsort & Hok) Hrun.
  assert (Hs : (s < length h)%nat).
  { apply Forall_app in Hval as [_ Hval]. apply Forall_cons in Hval as [Hs _]. exact Hs. }
  assert (HsT : s ∉ GetAllShards t).
  { apply NoDup_app in Hnd as (_ & Hdis & _). intros Hin. apply (Hdis s Hin). left. }
  assert (Hsl : s ∉ l).
  { apply NoDup_app in Hnd as (_ & _ & Hnd'). apply NoDup_cons in Hnd' as [Hnin _]. exact Hnin. }
  assert (HvalT : Forall (fun p => (p < length h)%nat) (GetAllShards t)).
  { apply Forall_app in Hval as [H _]. exact H. }
  assert (Hvall : Forall (fun p => (p < length h)%nat) l).
  { apply Forall_app in Hval as [_ H]. apply Forall_cons in H as [_ H]. exact H. }
  destruct (rebalance_step_effect _ _ _ _ _ _ _ Hs Hrun) as (Hlen & Hframe & Hids & Hcase).
  assert (Hsame : forall q, q ∈ GetAllShards t ++ l -> deref h' q = deref h q).
  { intros q Hq. apply Hframe.
    - rewrite Forall_forall in Hval. apply Hval.
      apply elem_of_app in Hq as [Hq|Hq]; apply elem_of_app; [left|right; right]; exact Hq.
    - intros ->. apply elem_of_app in Hq as [Hq|Hq]; contradiction. }
  destruct Hcase as [[-> E1]|(h2 & t1 & Hcase)].
  - (* the shard is re-inserted as it is *)
    destruct (RBTree_Insert_perm _ _ _ _ Hc E1) as [Hb1 Hp1].
    assert (Hperm : GetAllShards t' ++ l ≡ₚ GetAllShards t ++ s :: l).
    { rewrite Hp1. simpl. apply Permutation_middle. }
    split.
    + split; [exact Hb1|]. split; [rewrite Hperm; exact Hnd|].
      split; [rewrite Hperm; exact Hval|].
      split; [exact (RBTree_Insert_sorted _ _ _ _ Hc Hsort E1)|].
      rewrite Hperm. exact Hok.
    + apply all_blocks_perm, Hperm.
  - (* the shard is split *)
    cbv zeta in Hcase.
    destruct Hcase as (Hover & Hlen' & Hid2 & E1 & E2 & Hbs & Hts & Hbn & Htn).
    destruct (RBTree_Insert_perm _ _ _ _ Hc E1) as [Hb1 Hp1].
    destruct (RBTree_Insert_perm _ _ _ _ Hb1 E2) as [Hb2 Hp2].
    set (n := length h) in *.
    assert (Hfresh : n ∉ GetAllShards t ++ s :: l).
    { intros Hin. rewrite Forall_forall in Hval. specialize (Hval n Hin). lia. }
    assert (Hperm : GetAllShards t' ++ l ≡ₚ n :: s :: (GetAllShards t ++ l)).
    { rewrite Hp2, Hp1. reflexivity. }
    assert (Hperm0 : GetAllShards t ++ s :: l ≡ₚ s :: (GetAllShards t ++ l)).
    { symmetry. apply Permutation_middle. }
    assert (Hsort1 : ids_sorted h' (GetAllShards t1)).
    { apply (ids_sorted_ext h2).
      - rewrite Hp1. apply Forall_cons. split; [rewrite Hid2; exact Hids|].
        apply Forall_forall. intros q Hq. rewrite Hid2, Hsame; [reflexivity|].
        apply elem_of_app. left. exact Hq.
      - eapply RBTree_Insert_sorted; [exact Hc| |exact E1].
        apply (ids_sorted_ext h); [|exact Hsort].
        apply Forall_forall. intros q _. apply Hid2. }
    split.
    + split; [exact Hb2|].
      split.
      { rewrite Hperm. apply NoDup_cons. split.
        - intros Hin. apply Hfresh. rewrite Hperm0. exact Hin.
        - rewrite <- Hperm0. exact Hnd. }
      split.
      { rewrite Hperm, Hlen'. apply Forall_cons. split; [lia|].
        rewrite <- Hperm0. eapply Forall_impl; [exact Hval|]. simpl. intros; lia. }
      split; [exact (RBTree_Insert_sorted _ _ _ _ Hb1 Hsort1 E2)|].
      rewrite Hperm. apply Forall_cons. split; [|apply Forall_cons; split].
      * unfold shard_tree_ok. rewrite Htn, Hbn. reflexivity.
      * unfold shard_tree_ok. rewrite Hts, Hbs. reflexivity.
      * apply Forall_forall. intros q Hq. rewrite Hsame by exact Hq.
        rewrite Forall_forall in Hok. apply Hok. rewrite Hperm0. right. exact Hq.
    + rewrite (all_blocks_perm h' _ _ Hperm), (all_blocks_perm h _ _ Hperm0).
      rewrite !all_blocks_cons, Hbn, Hbs.
      rewrite (all_blocks_ext h h' (GetAllShards t ++ l)).
      * rewrite app_assoc. apply Permutation_app_tail.
        rewrite Permutation_app_comm, take_drop. reflexivity.
      * apply Forall_forall. intros q Hq. rewrite Hsame by exact Hq. reflexivity.
Qed.

Lemma rebalance_loop_keeps_all (l : list ptr) :
  forall (h h' : heap) (t t' : RBTree) (c c' : Z),
    rebalance_inv h t l ->
    rebalance_loop (h, t, c) l = Some (h', t', c') ->
    rebalance_inv h' t' []
    /\ all_blocks h' (GetAllShards t') ≡ₚ all_blocks h (GetAllShards t ++ l).
Proof.
  induction l as [|s l IH]; intros h h' t t' c c' Hinv Hrun.
  - simpl in Hrun. injection Hrun as <- <- <-. split; [exact Hinv|].
    rewrite app_nil_r. reflexivity.
  - rewrite rebalance_loop_cons in Hrun.
    destruct (rebalance_step (h, t, c) s) as [[[h1 t1] c1]|] eqn:E1; [|discriminate Hrun].
    simpl in Hrun.
    destruct (rebalance_step_keeps _ _ _ _ _ _ _ _ Hinv E1) as [Hinv1 Hb1].
    destruct (IH _ _ _ _ _ _ Hinv1 Hrun) as [Hinv' Hb'].
    split; [exact Hinv'|]. rewrite Hb'. exact Hb1.
Qed.

Lemma store_alloc_new (h : heap) (s s' : Shard) :
  store (h ++ [s]) (length h) s' = h ++ [s'].
Proof.
  unfold store. rewrite insert_app_r_alt by lia. rewrite Nat.sub_diag. reflexivity.
Qed.

(** What one step of the merge loop does. *)
Lemma merge_step_effect (threshold : Z) (cs : list ptr) (h h' : heap) (t t' : RBTree)
  (used used' : gmap nat bool) (i : nat) :
  Forall (fun p => (p < length h)%nat) cs ->
  merge_step threshold cs (h, t, used) i = Some (h', t', used') ->
  (default false (used !! i) = true /\ h' = h /\ t' = t /\ used' = used)
  \/ (default false (used !! i) = false
      /\ exists current,
           cs !! i = Some current
           /\ ((h' = h /\ RBTree_Insert h t current = Some t'
                /\ used' = <[i := true]> used)
               \/ exists next,
                    cs !! S i = Some next
                    /\ h' = h ++ [mkShard (ID (deref h current))
                                    (Blocks (deref h current) ++ Blocks (deref h next))
                                    (Some (NewMerkleTree
                                             (getDataStrings
                                                (Blocks (deref h current)
                                                 ++ Blocks (deref h next)))))]
                    /\ RBTree_Insert h' t (length h) = Some t'
                    /\ used' = <[S i := true]> (<[i := true]> used))).
Proof.
  intros Hval Hrun. unfold merge_step in Hrun.
  destruct (default false (used !! i)) eqn:Hused.
  { injection Hrun as <- <- <-. left. auto. }
  right. split; [reflexivity|].
  destruct (cs !! i) as [current|] eqn:Hcur; [|discriminate Hrun]. simpl in Hrun.
  exists current. split; [reflexivity|].
  assert (Hc : (current < length h)%nat).
  { rewrite Forall_forall in Hval. apply Hval. eapply list_elem_of_lookup_2. exact Hcur. }
  match type of Hrun with context [if ?b then _ else _] => destruct b end.
  - destruct (cs !! S i) as [next|] eqn:Hnx; [|discriminate Hrun]. simpl in Hrun.
    assert (Hn : (next < length h)%nat).
    { rewrite Forall_forall in Hval. apply Hval. eapply list_elem_of_lookup_2. exact Hnx. }
    unfold alloc in Hrun. right. exists next. split; [reflexivity|].
    rewrite !store_alloc_new in Hrun.
    rewrite !deref_alloc_new in Hrun.
    rewrite (deref_app_l h _ current Hc), (deref_app_l h _ next Hn) in Hrun.
    unfold set_Tree, set_Blocks in Hrun. simpl in Hrun.
    match type of Hrun with context [RBTree_Insert ?hh t ?p] =>
      destruct (RBTree_Insert hh t p) as [t1|] eqn:E1; [|discriminate Hrun]
    end.
    simpl in Hrun. injection Hrun as <- <- <-. auto.
  - destruct (RBTree_Insert h t current) as [t1|] eqn:E1; [|discriminate Hrun].
    simpl in Hrun. injection Hrun as <- <- <-. left. auto.
Qed.

Lemma used_insert (used : gmap nat bool) (i j : nat) :
  default false (<[i := true]> used !! j) = true
  <-> j = i \/ default false (used !! j) = true.
Proof.
  destruct (decide (i = j)) as [->|Hne].
  - rewrite lookup_insert_eq. simpl. tauto.
  - rewrite lookup_insert_ne by exact Hne. split; [tauto|]. intros [->|H]; [contradiction|exact H].
Qed.

Lemma merge_step_keeps (threshold : Z) (h0 : heap) (cs : list ptr) (k : nat)
  (st st' : heap * RBTree * gmap nat bool) :
  Forall (fun p => (p < length h0)%nat) cs ->
  Forall (fun p => shard_tree_ok (deref h0 p)) cs ->
  (k < length cs)%nat ->
  merge_inv h0 cs k st ->
  merge_step threshold cs st k = Some st' ->
  merge_inv h0 cs (S k) st'.
Proof.
  destruct st as [[h t] used]. destruct st' as [[h' t'] used'].
  intros Hvalcs Hokcs Hk (Hc & Hval & Hn0 & Hold & Hsort & Hok & m & Hm & Hused & Hblocks) Hrun.
  assert (Hvalcs' : Forall (fun p => (p < length h)%nat) cs).
  { eapply Forall_impl; [exact Hvalcs|]. simpl. intros; lia. }
  destruct (merge_step_effect _ _ _ _ _ _ _ _ _ Hvalcs' Hrun)
    as [(Hu & -> & -> & ->)|(Hu & current & Hcur & Hcase)].
  - (* the shard was merged into its predecessor *)
    assert (m = S k) as ->.
    { apply Hused in Hu. lia. }
    repeat (split; [assumption|]). exists (S k). split; [left; reflexivity|].
    split; assumption.
  - assert (m = k) as ->.
    { destruct Hm as [->| ->]; [reflexivity|].
      assert (Ht : default false (used !! k) = true) by (apply Hused; lia). congruence. }
    assert (Hcn0 : (current < length h0)%nat).
    { rewrite Forall_forall in Hvalcs. apply Hvalcs. eapply list_elem_of_lookup_2. exact Hcur. }
    assert (Hcok : shard_tree_ok (deref h0 current)).
    { rewrite Forall_forall in Hokcs. apply Hokcs. eapply list_elem_of_lookup_2. exact Hcur. }
    destruct Hcase as [(-> & E1 & ->)|(next & Hnx & -> & E1 & ->)].
    + (* the shard is kept *)
      destruct (RBTree_Insert_perm _ _ _ _ Hc E1) as [Hb1 Hp1].
      split; [exact Hb1|]. split; [rewrite Hp1; apply Forall_cons; split; [lia|exact Hval]|].
      split; [exact Hn0|]. split; [exact Hold|].
      split; [exact (RBTree_Insert_sorted _ _ _ _ Hc Hsort E1)|].
      split.
      { rewrite Hp1. apply Forall_cons. split; [|exact Hok].
        rewrite Hold by exact Hcn0. exact Hcok. }
      exists (S k). split; [left; reflexivity|]. split.
      * intros j. rewrite used_insert, Hused. lia.
      * rewrite (all_blocks_perm h _ _ Hp1), all_blocks_cons, Hblocks.
        rewrite (take_S_r _ _ _ Hcur), all_blocks_app, all_blocks_single.
        rewrite Hold by exact Hcn0. apply Permutation_app_comm.
    + (* the shard and its successor are merged into a new shard *)
      assert (Hnn0 : (next < length h0)%nat).
      { rewrite Forall_forall in Hvalcs. apply Hvalcs. eapply list_elem_of_lookup_2. exact Hnx. }
      destruct (RBTree_Insert_perm _ _ _ _ Hc E1) as [Hb1 Hp1].
      set (merged := mkShard _ _ _) in *.
      assert (Hsame : forall q, (q < length h)%nat -> deref (h ++ [merged]) q = deref h q).
      { intros q Hq. apply deref_app_l. exact Hq. }
      assert (HsameT : Forall (fun p => deref (h ++ [merged]) p = deref h p) (GetAllShards t)).
      { eapply Forall_impl; [exact Hval|]. simpl. intros q Hq. apply Hsame, Hq. }
      split; [exact Hb1|].
      split.
      { rewrite Hp1, length_app. simpl. apply Forall_cons. split; [lia|].
        eapply Forall_impl; [exact Hval|]. simpl. intros; lia. }
      split; [rewrite length_app; lia|].
      split; [intros q Hq; rewrite Hsame by lia; apply Hold, Hq|].
      split.
      { apply (RBTree_Insert_sorted (h ++ [merged]) t t' (length h) Hc); [|exact E1].
        apply (ids_sorted_ext h); [|exact Hsort].
        eapply Forall_impl; [exact HsameT|]. simpl. intros q ->. reflexivity. }
      split.
      { rewrite Hp1. apply Forall_cons. split.
        - rewrite deref_alloc_new. reflexivity.
        - rewrite Forall_forall in Hok, HsameT |- *. intros q Hq.
          rewrite HsameT by exact Hq. apply Hok, Hq. }
      exists (S (S k)). split; [right; reflexivity|]. split.
      * intros j. rewrite !used_insert, Hused. lia.
      * rewrite (all_blocks_perm _ _ _ Hp1), all_blocks_cons, deref_alloc_new.
        rewrite (all_blocks_ext h (h ++ [merged]) (GetAllShards t)).
        2:{ eapply Forall_impl; [exact HsameT|]. simpl. intros q ->. reflexivity. }
        rewrite Hblocks, (take_S_r _ _ _ Hnx), (take_S_r _ _ _ Hcur), !all_blocks_app.
        rewrite !all_blocks_single. unfold merged. simpl.
        rewrite !Hold by assumption.
        etransitivity; [apply Permutation_app_comm|]. rewrite <- !app_assoc. reflexivity.
Qed.

Lemma merge_loop_keeps (threshold : Z) (h0 : heap) (cs : list ptr) (n : nat) :
  forall (k : nat) (st st' : heap * RBTree * gmap nat bool),
    Forall (fun p => (p < length h0)%nat) cs ->
    Forall (fun p => shard_tree_ok (deref h0 p)) cs ->
    (k + n = length cs)%nat ->
    merge_inv h0 cs k st ->
    merge_loop threshold cs st (seq k n) = Some st' ->
    merge_inv h0 cs (length cs) st'.
Proof.
  induction n as [|n IH]; intros k st st' Hvalcs Hokcs Hkn Hinv Hrun.
  - simpl in Hrun. injection Hrun as <-. replace (length cs) with k by lia. exact Hinv.
  - change (seq k (S n)) with (k :: seq (S k) n) in Hrun.
    rewrite merge_loop_cons in Hrun.
    destruct (merge_step threshold cs st k) as [st1|] eqn:E1; [|discriminate Hrun].
    simpl in Hrun.
    apply (IH (S k) st1 st' Hvalcs Hokcs ltac:(lia)); [|exact Hrun].
    eapply merge_step_keeps; try eassumption. lia.
Qed.

Lemma ids_sorted_nil (h : heap) : ids_sorted h [].
Proof. constructor. Qed.

Lemma RebalanceShards_keeps_all (st st' : ShardManager * heap) :
  manager_inv st ->
  RebalanceShards (fst st) (snd st) = Some st' ->
  manager_inv st' /\ blocks_of st' ≡ₚ blocks_of st.
Proof.
  intros ((Hc & Hnd & Hval) & Hsort & Hok) Hrun. unfold RebalanceShards in Hrun.
  destruct (rebalance_loop _ _) as [[[h1 t1] c1]|] eqn:E; [|discriminate Hrun].
  simpl in Hrun. injection Hrun as <-.
  assert (H0 : rebalance_inv (snd st) NewRBTree (GetAllShards (Shards (fst st)))).
  { split; [reflexivity|]. split; [exact Hnd|]. split; [exact Hval|].
    split; [apply ids_sorted_nil|exact Hok]. }
  destruct (rebalance_loop_keeps_all _ _ _ _ _ _ _ H0 E)
    as ((Hb & Hnd' & Hval' & Hsort' & Hok') & Hblocks).
  rewrite app_nil_r in Hnd', Hval', Hok'.
  split; [|exact Hblocks].
  split; [split; [exact Hb|split; assumption]|]. split; assumption.
Qed.

Lemma MergeShards_keeps_all (st st' : ShardManager * heap) (threshold : Z) :
  manager_inv st ->
  MergeShards (fst st) (snd st) threshold = Some st' ->
  manager_inv st' /\ blocks_of st' ≡ₚ blocks_of st.
Proof.
  intros (Hwf & Hsort & Hok) Hrun.
  pose proof (MergeShards_wf st st' threshold Hwf Hrun) as Hwf'.
  destruct Hwf as (Hc & Hnd & Hval).
  unfold MergeShards in Hrun.
  set (cs := GetAllShards (Shards (fst st))) in *.
  destruct (merge_loop _ _ _ _) as [[[h1 t1] u1]|] eqn:E; [|discriminate Hrun].
  simpl in Hrun. injection Hrun as <-.
  assert (H0 : merge_inv (snd st) cs 0 (snd st, NewRBTree, ∅)).
  { split; [reflexivity|]. split; [constructor|]. split; [lia|]. split; [reflexivity|].
    split; [apply ids_sorted_nil|]. split; [constructor|].
    exists 0%nat. split; [left; reflexivity|]. split; [|reflexivity].
    intros j. rewrite lookup_empty. simpl. split; [discriminate|lia]. }
  pose proof (merge_loop_keeps threshold (snd st) cs (length cs) 0 _ _ Hval Hok
                ltac:(lia) H0 E) as Hinv.
  destruct Hinv as (_ & _ & _ & _ & Hsort' & Hok' & m & Hm & _ & Hblocks).
  split; [split; [exact Hwf'|split; assumption]|].
  unfold blocks_of. simpl. rewrite Hblocks.
  rewrite take_ge by (destruct Hm; lia). reflexivity.
Qed.

Lemma DistributeBlock_keeps_all (st st' : ShardManager * heap) (block : Block) :
  manager_inv st ->
  DistributeBlock (fst st) (snd st) block = Some st' ->
  manager_inv st' /\ blocks_of st' ≡ₚ block :: blocks_of st.
Proof.
  intros ((Hc & Hnd & Hval) & Hsort & Hok) Hrun. unfold DistributeBlock in Hrun.
  set (cs := GetAllShards (Shards (fst st))) in *.
  destruct (last cs) as [lastShard|] eqn:Hlast; [|discriminate Hrun]. simpl in Hrun.
  set (h1 := Shard_AddBlock (snd st) lastShard block) in *.
  assert (Hcs : exists cs', cs = cs' ++ [lastShard]).
  { destruct cs as [|c0 cs0] using rev_ind; [discriminate Hlast|].
    rewrite last_snoc in Hlast. injection Hlast as ->. eauto. }
  destruct Hcs as [cs' Hcs].
  assert (Hl : (lastShard < length (snd st))%nat).
  { rewrite Forall_forall in Hval. apply Hval. rewrite Hcs. apply elem_of_app. right. left. }
  assert (Hnot : lastShard ∉ cs').
  { rewrite Hcs in Hnd. apply NoDup_app in Hnd as (_ & Hdis & _).
    intros Hin. apply (Hdis _ Hin). left. }
  assert (Hinv1 : manager_inv (fst st, h1)).
  { split; [|split]; simpl.
    - split; [exact Hc|]. split; [exact Hnd|]. simpl. unfold h1.
      rewrite length_Shard_AddBlock. exact Hval.
    - apply (ids_sorted_ext (snd st)); [|exact Hsort].
      apply Forall_forall. intros q _. apply ID_Shard_AddBlock.
    - apply Forall_forall. intros q Hq. unfold h1.
      destruct (decide (q = lastShard)) as [->|Hne].
      + rewrite Shard_AddBlock_same by exact Hl. reflexivity.
      + rewrite Shard_AddBlock_other by congruence.
        rewrite Forall_forall in Hok. apply Hok, Hq. }
  destruct (RebalanceShards_keeps_all (fst st, h1) st' Hinv1 Hrun) as [Hinv' Hblocks].
  split; [exact Hinv'|]. rewrite Hblocks. unfold blocks_of. simpl. fold cs.
  rewrite Hcs, !all_blocks_app, !all_blocks_single. unfold h1.
  rewrite Shard_AddBlock_same by exact Hl. simpl.
  rewrite (all_blocks_ext (snd st) _ cs').
  - rewrite app_assoc. symmetry. apply Permutation_cons_append.
  - apply Forall_forall. intros q Hq. rewrite Shard_AddBlock_other; [reflexivity|].
    intros ->. contradiction.
Qed.

Lemma run_ops_keeps_all (ops : list Op) :
  forall st st',
    manager_inv st -> run_ops st ops = Some st' ->
    manager_inv st' /\ blocks_of st' ≡ₚ distributed_blocks ops ++ blocks_of st.
Proof.
  induction ops as [|op ops IH]; intros st st' Hinv Hrun; simpl in Hrun.
  - injection Hrun as <-. split; [exact Hinv|reflexivity].
  - destruct (run_op st op) as [st1|] eqn:E1; [|discriminate Hrun]. simpl in Hrun.
    assert (H1 : manager_inv st1
                 /\ blocks_of st1 ≡ₚ distributed_blocks [op] ++ blocks_of st).
    { destruct op as [block| |threshold]; simpl in E1 |- *.
      - apply DistributeBlock_keeps_all; assumption.
      - apply RebalanceShards_keeps_all; assumption.
      - eapply MergeShards_keeps_all; eassumption. }
    destruct H1 as [Hinv1 Hb1].
    destruct (IH st1 st' Hinv1 Hrun) as [Hinv' Hb'].
    split; [exact Hinv'|]. rewrite Hb', Hb1.
    destruct op; simpl; [|reflexivity..].
    symmetry. apply Permutation_middle.
Qed.

Lemma reachable_keeps_all (ops : list Op) :
  exists st,
    run_from_new ops = Some st
    /\ manager_inv st
    /\ blocks_of st ≡ₚ distributed_blocks ops.
Proof.
  unfold run_from_new.
  assert (E0 : NewShardManager []
               = Some (mkShardManager (RBN Black RBNil 0%nat RBNil), [NewShard 0]))
    by reflexivity.
  rewrite E0. simpl.
  destruct (run_ops_total ops (mkShardManager (RBN Black RBNil 0%nat RBNil), [NewShard 0]))
    as (st & Hrun & _ & _); [reflexivity|discriminate|].
  exists st. split; [exact Hrun|].
  assert (H0 : manager_inv (mkShardManager (RBN Black RBNil 0%nat RBNil), [NewShard 0])).
  { split; [|split]; simpl.
    - split; [reflexivity|]. split; simpl.
      + apply NoDup_singleton.
      + apply Forall_singleton. simpl. lia.
    - repeat constructor.
    - apply Forall_singleton. reflexivity. }
  destruct (run_ops_keeps_all ops _ st H0 Hrun) as [Hinv Hb].
  split; [exact Hinv|]. rewrite Hb. unfold blocks_of, all_blocks. simpl.
  rewrite app_nil_r. reflexivity.
Qed.

(** X25.  In every state the manager reaches, the enumeration of the index
    is ordered by ID (equal IDs may repeat), and [FindShard] agrees with it:
    a lookup that succeeds returns an enumerated shard with the ID asked
    for, and a lookup fails only for an ID that no enumerated shard has. *)
Theorem index_is_ordered_and_searchable (ops : list Op) :
  exists st,
    run_from_new ops = Some st
    /\ StronglySorted Z.le (shard_ids st)
    /\ forall id,
         match ShardManager_FindShard (fst st) (snd st) id with
         | Some p => p ∈ GetAllShards (Shards (fst st)) /\ ID (deref (snd st) p) = id
         | None => id ∉ shard_ids st
         end.
Proof.
  destruct (reachable_keeps_all ops) as (st & Hrun & (_ & Hsort & _) & _).
  exists st. split; [exact Hrun|].
  assert (Hids : shard_ids st = ids_of (snd st) (GetAllShards (Shards (fst st)))).
  { unfold shard_ids, shard_view, ids_of. apply map_map. }
  rewrite Hids. split; [exact Hsort|].
  intros id. unfold ShardManager_FindShard.
  destruct (RBTree_FindShard (snd st) (Shards (fst st)) id) as [p|] eqn:E.
  - apply FindShard_sound, E.
  - apply FindShard_complete; assumption.
Qed.

(** X26.  In every state the manager reaches, each enumerated shard carries
    the Merkle tree of the payloads of its blocks, or no tree and no block
    if it was never written.  So [ReconstructState] returns, for an ID that
    [FindShard] finds, the root [NewMerkleTree] gives for the payloads of
    that shard (the empty string for a shard never written), and
    [("", false)] for an ID that no enumerated shard has. *)
Theorem shard_roots_match_their_blocks (ops : list Op) :
  exists st,
    run_from_new ops = Some st
    /\ Forall shard_tree_ok (shard_view st)
    /\ forall id,
         match ShardManager_FindShard (fst st) (snd st) id with
         | Some p =>
             ReconstructState (fst st) (snd st) id
             = (match Tree (deref (snd st) p) with
                | Some _ =>
                    GetRootHash (NewMerkleTree
                                   (getDataStrings (Blocks (deref (snd st) p))))
                | None => ""
                end, true)
         | None =>
             ReconstructState (fst st) (snd st) id = ("", false)
             /\ id ∉ shard_ids st
         end.
Proof.
  destruct (reachable_keeps_all ops) as (st & Hrun & (_ & Hsort & Hok) & _).
  exists st. split; [exact Hrun|].
  split; [unfold shard_view; apply List.Forall_map; exact Hok|].
  intros id. unfold ReconstructState, ShardManager_FindShard.
  destruct (RBTree_FindShard (snd st) (Shards (fst st)) id) as [p|] eqn:E.
  - destruct (FindShard_sound _ _ _ _ E) as [Hin _].
    rewrite Forall_forall in Hok. specialize (Hok p Hin).
    unfold shard_tree_ok in Hok. unfold Shard_GetRoot.
    destruct (Tree (deref (snd st) p)) as [mt|]; [rewrite Hok|]; reflexivity.
  - split; [reflexivity|].
    assert (Hids : shard_ids st = ids_of (snd st) (GetAllShards (Shards (fst st)))).
    { unfold shard_ids, shard_view, ids_of. apply map_map. }
    rewrite Hids. apply FindShard_complete; assumption.
Qed.

(** X27.  No operation of the manager loses, repeats or invents a block: in
    every state reached, the blocks held by the enumerated shards are, up to
    their order, the blocks handed to [DistributeBlock]. *)
Theorem manager_conserves_blocks (ops : list Op) :
  exists st,
    run_from_new ops = Some st
    /\ concat (map Blocks (shard_view st)) ≡ₚ distributed_blocks ops.
Proof.
  destruct (reachable_keeps_all ops) as (st & Hrun & _ & Hb).
  exists st. split; [exact Hrun|].
  unfold shard_view. rewrite map_map. exact Hb.
Qed.
(** ** The leader election: the highest score among the honest nodes *)

Lemma string_ltb_irrefl (a : string) : string_ltb a a = false.
Proof.
  induction a as [|x a IH]; simpl; [reflexivity|].
  rewrite Nat.ltb_irrefl. exact IH.
Qed.

Lemma string_ltb_trans (a b c : string) :
  string_ltb a b = true -> string_ltb b c = true -> string_ltb a c = true.
Proof.
  revert b c. induction a as [|x a IH]; intros [|y b] [|z c]; simpl;
    try discriminate; try reflexivity.
  destruct (Nat.ltb_spec (nat_of_ascii x) (nat_of_ascii y)) as [Hxy|Hxy];
  destruct (Nat.ltb_spec (nat_of_ascii y) (nat_of_ascii z)) as [Hyz|Hyz];
  destruct (Nat.ltb_spec (nat_of_ascii x) (nat_of_ascii z)) as [Hxz|Hxz];
  destruct (Nat.ltb_spec (nat_of_ascii y) (nat_of_ascii x)) as [Hyx|Hyx];
  destruct (Nat.ltb_spec (nat_of_ascii z) (nat_of_ascii y)) as [Hzy|Hzy];
  destruct (Nat.ltb_spec (nat_of_ascii z) (nat_of_ascii x)) as [Hzx|Hzx];
    try reflexivity; try discriminate; try lia.
  apply IH.
Qed.

Lemma string_ltb_total (a b : string) :
  string_ltb a b = false -> string_ltb b a = false -> a = b.
Proof.
  revert b. induction a as [|x a IH]; intros [|y b]; simpl;
    try discriminate; try reflexivity.
  destruct (Nat.ltb_spec (nat_of_ascii x) (nat_of_ascii y)) as [Hxy|Hxy];
    [discriminate|].
  destruct (Nat.ltb_spec (nat_of_ascii y) (nat_of_ascii x)) as [Hyx|Hyx];
    [discriminate|].
  intros H1 H2. f_equal; [|exact (IH _ H1 H2)].
  rewrite <- (ascii_nat_embedding x), <- (ascii_nat_embedding y).
  f_equal. lia.
Qed.

Lemma vrf_score_nonempty (nonce : string) (node : Node) :
  string_ltb "" (vrf_score nonce node) = true.
Proof.
  unfold vrf_score.
  destruct (sha256_hex_is_digest (nonce ++ "-" ++ Itoa (node_ID node))) as [Hlen _].
  destruct (sha256_hex _); [discriminate Hlen | reflexivity].
Qed.

Lemma election_step_inv (nonce : string) (seen : list Node)
    (st : option nat * string) (node : Node) :
  election_inv nonce seen st ->
  election_inv nonce (seen ++ [node]) (election_step nonce st (length seen, node)).
Proof.
  destruct st as [leader hs]. unfold election_inv, election_step. simpl.
  intros Hinv.
  destruct (Byzantine node) eqn:Hbyz.
  - simpl. destruct leader as [i|].
    + destruct Hinv as (n & Hn & Hh & Hs & Hmax).
      exists n. split; [apply lookup_app_l_Some; exact Hn|].
      split; [exact Hh|]. split; [exact Hs|].
      intros j m Hj Hm. apply lookup_app_Some in Hj as [Hj|[_ Hj]].
      * exact (Hmax j m Hj Hm).
      * apply list_lookup_singleton_Some in Hj as [_ ->]. congruence.
    + destruct Hinv as [Hs Hall]. split; [exact Hs|].
      apply Forall_app. split; [exact Hall|]. constructor; [exact Hbyz|constructor].
  - destruct (string_ltb hs (vrf_score nonce node)) eqn:Hlt; simpl.
    + exists node. split; [apply list_lookup_middle; reflexivity|].
      split; [exact Hbyz|]. split; [reflexivity|].
      intros j m Hj Hm. apply lookup_app_Some in Hj as [Hj|[Hge Hj]].
      * assert (Hold : string_ltb hs (vrf_score nonce m) = false).
        { destruct leader as [i|].
          - destruct Hinv as (n & _ & _ & _ & Hmax). exact (proj1 (Hmax j m Hj Hm)).
          - destruct Hinv as [_ Hall].
            rewrite Forall_lookup in Hall. specialize (Hall j m Hj). congruence. }
        split.
        -- destruct (string_ltb (vrf_score nonce node) (vrf_score nonce m)) eqn:E;
             [|reflexivity].
           rewrite (string_ltb_trans _ _ _ Hlt E) in Hold. discriminate.
        -- intros E. rewrite E in Hold. congruence.
      * apply list_lookup_singleton_Some in Hj as [Hj ->].
        split; [apply string_ltb_irrefl|]. intros _. lia.
    + destruct leader as [i|].
      * destruct Hinv as (n & Hn & Hh & Hs & Hmax).
        exists n. split; [apply lookup_app_l_Some; exact Hn|].
        split; [exact Hh|]. split; [exact Hs|].
        intros j m Hj Hm. apply lookup_app_Some in Hj as [Hj|[Hge Hj]].
        -- exact (Hmax j m Hj Hm).
        -- apply list_lookup_singleton_Some in Hj as [Hj ->].
           split; [exact Hlt|]. intros _.
           apply lookup_lt_Some in Hn. lia.
      * destruct Hinv as [-> _]. rewrite vrf_score_nonempty in Hlt. discriminate.
Qed.

Lemma election_loop_inv (nonce : string) (rest seen : list Node)
    (st : option nat * string) :
  election_inv nonce seen st ->
  election_inv nonce (seen ++ rest)
    (fold_left (election_step nonce) (indexed_from (length seen) rest) st).
Proof.
  revert seen st. induction rest as [|node rest IH]; intros seen st Hinv; simpl.
  - rewrite app_nil_r. exact Hinv.
  - apply (election_step_inv nonce seen st node) in Hinv.
    apply IH in Hinv. rewrite length_app, Nat.add_1_r, <- app_assoc in Hinv.
    exact Hinv.
Qed.

(** X28.  The election returns no leader exactly when every node is Byzantine.
    Otherwise the leader is an honest node whose score no honest node
    exceeds, and the first of the nodes with that score. *)
Theorem election_picks_the_highest_score (cm : ConsensusManager) (nonce : string) :
  let nodes := Nodes (BFT cm) in
  let leader := simulateVRFLeaderElection cm nonce in
  (leader = None <-> Forall (fun n => Byzantine n = true) nodes) /\
  (forall i, leader = Some i ->
     exists n, nodes !! i = Some n /\ Byzantine n = false /\
       forall j m, nodes !! j = Some m -> Byzantine m = false ->
         string_ltb (vrf_score nonce n) (vrf_score nonce m) = false /\
         (vrf_score nonce m = vrf_score nonce n -> (i <= j)%nat)).
Proof.
  intros nodes leader.
  assert (Hinv : election_inv nonce nodes
            (fold_left (election_step nonce) (indexed nodes) (None, ""))).
  { apply (election_loop_inv nonce nodes [] (None, "")).
    split; [reflexivity | constructor]. }
  unfold election_inv in Hinv.
  subst leader. unfold simulateVRFLeaderElection. fold nodes.
  destruct (fold_left (election_step nonce) (indexed nodes) (None, ""))
    as [leader hs]. simpl in *.
  destruct leader as [i|].
  - destruct Hinv as (n & Hn & Hh & Hs & Hmax). split.
    + split; [discriminate|]. intros Hall.
      rewrite Forall_lookup in Hall. specialize (Hall i n Hn). congruence.
    + intros i' [= <-]. exists n. split; [exact Hn|]. split; [exact Hh|].
      rewrite <- Hs. exact Hmax.
  - destruct Hinv as [_ Hall]. split; [tauto|]. discriminate.
Qed.
(** ** Secret sharing: polynomials modulo a prime *)

Lemma peval_padd (a b : list Z) (x : Z) :
  peval (padd a b) x = peval a x + peval b x.
Proof.
  revert b. induction a as [|u a IH]; intros [|v b]; simpl; try lia.
  rewrite IH. lia.
Qed.

Lemma peval_pscale (k : Z) (c : list Z) (x : Z) :
  peval (pscale k c) x = k * peval c x.
Proof.
  induction c as [|u c IH]; simpl; [lia|].
  fold (pscale k c). rewrite IH. lia.
Qed.

Lemma peval_pmul_linear (r : Z) (c : list Z) (x : Z) :
  peval (pmul_linear r c) x = (x - r) * peval c x.
Proof.
  unfold pmul_linear. rewrite peval_padd, peval_pscale. simpl. lia.
Qed.

Lemma length_padd (a b : list Z) :
  length (padd a b) = Nat.max (length a) (length b).
Proof.
  revert b. induction a as [|u a IH]; intros [|v b]; simpl; try lia.
  rewrite IH. reflexivity.
Qed.

Lemma length_pscale (k : Z) (c : list Z) : length (pscale k c) = length c.
Proof. apply length_map. Qed.

Lemma length_pvanishing (roots : list Z) :
  length (pvanishing roots) = S (length roots).
Proof.
  induction roots as [|r roots IH]; simpl; [reflexivity|].
  unfold pmul_linear. rewrite length_padd, length_pscale. simpl. lia.
Qed.

Lemma peval_pvanishing_root (roots : list Z) (x : Z) :
  x ∈ roots -> peval (pvanishing roots) x = 0.
Proof.
  induction roots as [|r roots IH]; intros Hin.
  - inversion Hin.
  - simpl. rewrite peval_pmul_linear.
    apply elem_of_cons in Hin as [->|Hin]; [lia|].
    rewrite (IH Hin). lia.
Qed.

Lemma peval_pquotient (r : Z) (c : list Z) (x : Z) :
  peval c x = (x - r) * peval (pquotient r c) x + peval c r.
Proof.
  induction c as [|u c IH]; [simpl; lia|].
  destruct c as [|v c]; [simpl; lia|].
  change (pquotient r (u :: v :: c)) with (peval (v :: c) r :: pquotient r (v :: c)).
  change (peval (u :: v :: c) x) with (u + x * peval (v :: c) x).
  change (peval (u :: v :: c) r) with (u + r * peval (v :: c) r).
  change (peval (peval (v :: c) r :: pquotient r (v :: c)) x)
    with (peval (v :: c) r + x * peval (pquotient r (v :: c)) x).
  rewrite IH at 1. lia.
Qed.

Lemma length_pquotient (r : Z) (c : list Z) :
  length (pquotient r c) = pred (length c).
Proof.
  induction c as [|u c IH]; [reflexivity|].
  destruct c as [|v c]; [reflexivity|].
  change (pquotient r (u :: v :: c)) with (peval (v :: c) r :: pquotient r (v :: c)).
  simpl length in *. rewrite IH. reflexivity.
Qed.

Lemma peval_psum (l : list (list Z)) (x : Z) :
  peval (psum l) x = zsum (map (fun c => peval c x) l).
Proof.
  induction l as [|c l IH]; [reflexivity|].
  change (psum (c :: l)) with (padd c (psum l)).
  rewrite peval_padd, IH. reflexivity.
Qed.

Lemma length_psum (l : list (list Z)) (n : nat) :
  Forall (fun c => (length c <= n)%nat) l -> (length (psum l) <= n)%nat.
Proof.
  induction 1 as [|c l Hc _ IH]; [simpl; lia|].
  change (psum (c :: l)) with (padd c (psum l)).
  rewrite length_padd. lia.
Qed.

(** A sum with a single term that is not zero. *)
Lemma zsum_zero (l : list Z) :
  (forall j w, l !! j = Some w -> w = 0) -> zsum l = 0.
Proof.
  induction l as [|u l IH]; intros Hzero; [reflexivity|].
  change (zsum (u :: l)) with (u + zsum l).
  rewrite (Hzero 0%nat u eq_refl), IH; [reflexivity|].
  intros j w Hj. exact (Hzero (S j) w Hj).
Qed.

Lemma zsum_single (l : list Z) (k : nat) (v : Z) :
  l !! k = Some v ->
  (forall j w, j <> k -> l !! j = Some w -> w = 0) ->
  zsum l = v.
Proof.
  revert k. induction l as [|u l IH]; intros k Hk Hzero; [discriminate|].
  change (zsum (u :: l)) with (u + zsum l).
  destruct k as [|k]; simpl in Hk.
  - injection Hk as ->. rewrite zsum_zero; [lia|].
    intros j w Hj. apply (Hzero (S j)); [lia|exact Hj].
  - rewrite (Hzero 0%nat u); [|lia|reflexivity].
    rewrite (IH k Hk); [lia|].
    intros j w Hj Hw. apply (Hzero (S j)); [lia|exact Hw].
Qed.

(** A polynomial with more roots, distinct modulo a prime, than coefficients
    vanishes modulo that prime. *)
Lemma roots_force_zero (p : Z) (roots c : list Z) :
  Z.prime p ->
  NoDup (map (fun r => r mod p) roots) ->
  (length c <= length roots)%nat ->
  (forall r, r ∈ roots -> peval c r mod p = 0) ->
  forall x, peval c x mod p = 0.
Proof.
  intros Hp. revert c. induction roots as [|r roots IH]; intros c Hnd Hlen Hroots x.
  - destruct c; [reflexivity | simpl in Hlen; lia].
  - assert (Hp0 : p <> 0) by (apply Z.prime_ge_2 in Hp; lia).
    apply NoDup_cons in Hnd as [Hr Hnd]. simpl in Hr.
    assert (Hq : forall y, peval (pquotient r c) y mod p = 0).
    { apply IH; [exact Hnd | rewrite length_pquotient; simpl in Hlen; lia |].
      intros r' Hr'.
      assert (H1 : peval c r' mod p = 0) by (apply Hroots; right; exact Hr').
      assert (H2 : peval c r mod p = 0) by (apply Hroots; left).
      rewrite (peval_pquotient r c r') in H1.
      apply Z.mod_divide in H1, H2; [|exact Hp0..].
      apply Z.mod_divide; [exact Hp0|].
      assert (H3 : (p | (r' - r) * peval (pquotient r c) r')).
      { replace ((r' - r) * peval (pquotient r c) r')
          with (((r' - r) * peval (pquotient r c) r' + peval c r) - peval c r) by lia.
        apply Z.divide_sub_r; assumption. }
      apply (Z.divide_prime_mul _ _ _ Hp) in H3 as [H3|H3]; [|exact H3].
      exfalso. apply Hr. apply list_elem_of_fmap. exists r'. split; [|exact Hr'].
      apply Z.mod_divide in H3; [|exact Hp0].
      rewrite <- (Z.sub_add r r') at 1.
      rewrite <- Zplus_mod_idemp_l, H3. reflexivity. }
    rewrite (peval_pquotient r c x).
    rewrite <- Zplus_mod_idemp_r, (Hroots r); [|left].
    rewrite Z.add_0_r, <- Zmult_mod_idemp_r, Hq, Z.mul_0_r. reflexivity.
Qed.

(** *** Lagrange interpolation *)

Lemma indexed_from_lookup {A : Type} (l : list A) (k j : nat) :
  indexed_from k l !! j = (fun a => ((k + j)%nat, a)) <$> l !! j.
Proof.
  revert k j. induction l as [|a l IH]; intros k [|j]; simpl; try reflexivity.
  - rewrite Nat.add_0_r. reflexivity.
  - rewrite IH. replace (S k + j)%nat with (k + S j)%nat by lia. reflexivity.
Qed.

Lemma indexed_lookup {A : Type} (l : list A) (j : nat) :
  indexed l !! j = (fun a => (j, a)) <$> l !! j.
Proof. apply indexed_from_lookup. Qed.

Lemma indexed_elem {A : Type} (l : list A) (i : nat) (a : A) :
  (i, a) ∈ indexed l -> l !! i = Some a.
Proof.
  intros [j Hj]%list_elem_of_lookup. rewrite indexed_lookup in Hj.
  destruct (l !! j) as [b|] eqn:E; [|discriminate].
  injection Hj as <- <-. exact E.
Qed.

Lemma delete_elem {A : Type} (l : list A) (k : nat) (x : A) :
  x ∈ delete k l -> exists j, j <> k /\ l !! j = Some x.
Proof.
  intros [j Hj]%list_elem_of_lookup. rewrite list_lookup_delete in Hj.
  destruct (decide (j < k)%nat); eexists; (split; [|exact Hj]); lia.
Qed.

Lemma elem_delete {A : Type} (l : list A) (j k : nat) (x : A) :
  j <> k -> l !! k = Some x -> x ∈ delete j l.
Proof.
  intros Hne Hk. apply list_elem_of_lookup. destruct (decide (k < j)%nat).
  - exists k. rewrite list_lookup_delete_lt by assumption. exact Hk.
  - exists (k - 1)%nat. rewrite list_lookup_delete_ge by lia.
    replace (S (k - 1)) with k by lia. exact Hk.
Qed.

Lemma pvanishing_nonzero (p : Z) (roots : list Z) (x : Z) :
  Z.prime p ->
  (forall r, r ∈ roots -> (x - r) mod p <> 0) ->
  peval (pvanishing roots) x mod p <> 0.
Proof.
  intros Hp. pose proof (Z.prime_ge_2 _ Hp) as Hp2.
  induction roots as [|r roots IH]; intros Hne.
  - simpl. rewrite Z.mul_0_r, Z.add_0_r, Z.mod_1_l by lia. lia.
  - simpl. rewrite peval_pmul_linear. intros E.
    apply Z.mod_divide in E; [|lia].
    apply (Z.divide_prime_mul _ _ _ Hp) in E as [E|E].
    + apply (Hne r); [left|]. apply Z.mod_divide; [lia|exact E].
    + apply IH; [|apply Z.mod_divide; [lia|exact E]].
      intros r' Hr'. apply Hne. right. exact Hr'.
Qed.

Lemma distinct_mod (p : Z) (xs : list Z) (j k : nat) (a b : Z) :
  p <> 0 ->
  NoDup (map (fun r => r mod p) xs) ->
  xs !! j = Some a -> xs !! k = Some b -> j <> k -> (b - a) mod p <> 0.
Proof.
  intros Hp Hnd Hj Hk Hne E. apply Hne.
  apply (NoDup_lookup _ _ _ (a mod p) Hnd).
  - change (map (fun r => r mod p) xs) with ((fun r => r mod p) <$> xs).
    rewrite list_lookup_fmap, Hj. reflexivity.
  - change (map (fun r => r mod p) xs) with ((fun r => r mod p) <$> xs).
    rewrite list_lookup_fmap, Hk. simpl. f_equal.
    rewrite <- (Z.sub_add a b) at 1.
    rewrite <- Zplus_mod_idemp_l, E. reflexivity.
Qed.

Lemma basis_inverse_ok (p : Z) (xs : list Z) (k : nat) (x : Z) :
  Z.prime p ->
  NoDup (map (fun r => r mod p) xs) ->
  xs !! k = Some x ->
  (basis_inverse p xs k * peval (basis_numerator xs k) x) mod p = 1.
Proof.
  intros Hp Hnd Hk. pose proof (Z.prime_ge_2 _ Hp) as Hp2.
  unfold basis_inverse. rewrite Hk. simpl.
  apply Z.invmod_prime; [exact Hp|].
  apply pvanishing_nonzero; [exact Hp|].
  intros r [j [Hj Hr]]%delete_elem.
  apply (distinct_mod p xs j k r x); [lia|assumption..].
Qed.

(** The interpolating polynomial takes the prescribed value at each point. *)
Lemma lagrange_at_point (p : Z) (points : list (Z * Z)) (k : nat) (x y : Z) :
  Z.prime p ->
  NoDup (map (fun r => r mod p) (map fst points)) ->
  points !! k = Some (x, y) ->
  peval (lagrange p points) x mod p = y mod p.
Proof.
  intros Hp Hnd Hk. unfold lagrange. rewrite peval_psum, map_map.
  assert (Hxk : map fst points !! k = Some x).
  { change (map fst points) with (fst <$> points).
    rewrite list_lookup_fmap, Hk. reflexivity. }
  rewrite (zsum_single _ k
             (y * basis_inverse p (map fst points) k
                * peval (basis_numerator (map fst points) k) x)).
  - rewrite <- Z.mul_assoc, <- Zmult_mod_idemp_r,
      (basis_inverse_ok p _ k x Hp Hnd Hxk), Z.mul_1_r.
    reflexivity.
  - change (map ?f ?l) with (f <$> l).
    rewrite list_lookup_fmap, indexed_lookup, Hk. simpl.
    unfold lagrange_term. simpl. rewrite peval_pscale. reflexivity.
  - intros j w Hne Hj.
    change (map ?f ?l) with (f <$> l) in Hj.
    rewrite list_lookup_fmap, indexed_lookup in Hj.
    destruct (points !! j) as [[xj yj]|] eqn:Ej; [|discriminate].
    simpl in Hj. injection Hj as <-.
    unfold lagrange_term. simpl. rewrite peval_pscale.
    unfold basis_numerator.
    rewrite (peval_pvanishing_root _ x); [lia|].
    exact (elem_delete _ j k x Hne Hxk).
Qed.

Lemma length_lagrange (p : Z) (points : list (Z * Z)) :
  (length (lagrange p points) <= length points)%nat.
Proof.
  unfold lagrange. apply length_psum. apply Forall_forall.
  intros c Hc.
  change (map ?f ?l) with (f <$> l) in Hc.
  apply list_elem_of_fmap in Hc as [[i pt] [-> Hin]].
  apply indexed_elem in Hin.
  unfold lagrange_term, basis_numerator. simpl.
  rewrite length_pscale, length_pvanishing, length_delete.
  - rewrite length_map. apply lookup_lt_Some in Hin. lia.
  - change (map fst points) with (fst <$> points).
    rewrite list_lookup_fmap, Hin. eexists. reflexivity.
Qed.

(** Interpolating as many values of a polynomial as it has coefficients, at
    points distinct modulo the prime, gives back its constant term. *)
Lemma lagrange_at_zero (p : Z) (points : list (Z * Z)) (f : list Z) :
  Z.prime p ->
  NoDup (map (fun r => r mod p) (map fst points)) ->
  (length f <= length points)%nat ->
  (forall x y, (x, y) ∈ points -> y mod p = peval f x mod p) ->
  peval (lagrange p points) 0 mod p = peval f 0 mod p.
Proof.
  intros Hp Hnd Hlen Hval.
  pose (g := padd (lagrange p points) (pscale (-1) f)).
  assert (Hg : forall x, peval g x mod p = 0).
  { apply (roots_force_zero p (map fst points)); [exact Hp|exact Hnd| |].
    - unfold g. rewrite length_padd, length_pscale, length_map.
      pose proof (length_lagrange p points). lia.
    - intros x Hx. change (map fst points) with (fst <$> points) in Hx.
      apply list_elem_of_fmap in Hx as [[x' y] [-> Hin]]. simpl.
      pose proof Hin as [k Hk]%list_elem_of_lookup.
      unfold g. rewrite peval_padd, peval_pscale.
      rewrite <- Zplus_mod_idemp_l, (lagrange_at_point p points k x' y Hp Hnd Hk).
      rewrite Zplus_mod_idemp_l, <- Zplus_mod_idemp_l, (Hval x' y Hin).
      rewrite Zplus_mod_idemp_l.
      replace (peval f x' + -1 * peval f x') with 0 by lia. reflexivity. }
  specialize (Hg 0). unfold g in Hg. rewrite peval_padd, peval_pscale in Hg.
  replace (peval (lagrange p points) 0)
    with ((peval (lagrange p points) 0 + -1 * peval f 0) + peval f 0) by lia.
  rewrite <- Zplus_mod_idemp_l, Hg. reflexivity.
Qed.

(** *** The loops of the source, modulo the prime *)

(** [eqm_strip] proves [eqm p a ?b], where [?b] is [a] without its inner
    reductions modulo [p] and rewritten by the congruences at hand;
    [eqm_ring] proves a congruence that holds in the
    ring of integers once the reductions are removed. *)
Ltac eqm_strip :=
  lazymatch goal with
  | |- eqm ?p (?a mod ?p) _ =>
      apply (eqm_trans p _ a); [apply Zmod_eqm | eqm_strip]
  | |- eqm ?p (?a + ?b) _ => apply Zplus_eqm; eqm_strip
  | |- eqm ?p (?a * ?b) _ => apply Zmult_eqm; eqm_strip
  | |- eqm ?p (?a - ?b) _ => apply Zminus_eqm; eqm_strip
  | |- eqm ?p (- ?a) _ => apply Zopp_eqm; eqm_strip
  | |- eqm ?p _ _ => first [eassumption | apply eqm_refl]
  end.

Ltac eqm_ring :=
  eapply eqm_trans; [eqm_strip|];
  apply eqm_sym; eapply eqm_trans; [eqm_strip|];
  unfold eqm; f_equal; ring.

Lemma evaluate_loop (mpc : MPCProtocol) (x : Z) (l : list Z) (k : nat) (r : Z) :
  Prime mpc <> 0 ->
  eqm (Prime mpc)
      (fold_left (evaluate_step mpc x) (indexed_from k l) r)
      (r + x ^ Z.of_nat k * peval l x).
Proof.
  intros Hp. revert k r. induction l as [|c l IH]; intros k r.
  - simpl. unfold eqm. f_equal. ring.
  - simpl fold_left. eapply eqm_trans; [apply IH|].
    unfold evaluate_step, big_Exp. rewrite Zpow_mod_correct by exact Hp.
    rewrite Nat2Z.inj_succ, Z.pow_succ_r by lia.
    simpl peval. eqm_ring.
Qed.

Lemma evaluatePolynomial_spec (mpc : MPCProtocol) (c : list Z) (x : Z) :
  Prime mpc <> 0 ->
  evaluatePolynomial mpc c x mod Prime mpc = peval c x mod Prime mpc.
Proof.
  intros Hp. unfold evaluatePolynomial, indexed.
  pose proof (evaluate_loop mpc x c 0 0 Hp) as H. unfold eqm in H.
  rewrite H. f_equal. change (Z.of_nat 0) with 0. rewrite Z.pow_0_r. ring.
Qed.

Lemma basis_loop (mpc : MPCProtocol) (i : nat) (px : Z) (l : list (Z * Z))
    (k : nat) (n d : Z) :
  let skip := if decide (k <= i)%nat then delete (i - k)%nat l else l in
  let r := fold_left (basis_step mpc i px) (indexed_from k l) (n, d) in
  eqm (Prime mpc) (fst r) (n * peval (pvanishing (map fst skip)) 0) /\
  eqm (Prime mpc) (snd r) (d * peval (pvanishing (map fst skip)) px).
Proof.
  revert k n d. induction l as [|a l IH]; intros k n d skip r.
  - subst skip r. assert (E : (if decide (k <= i)%nat
                               then delete (i - k)%nat (@nil (Z * Z)) else []) = [])
      by (destruct (decide (k <= i)%nat); reflexivity).
    rewrite E. simpl. split; unfold eqm; f_equal; ring.
  - subst r. simpl fold_left. unfold basis_step at 2.
    destruct (Nat.eqb_spec i k) as [->|Hne].
    + specialize (IH (S k) n d). simpl in IH.
      destruct (decide (S k <= k)%nat); [lia|].
      subst skip. destruct (decide (k <= k)%nat); [|lia].
      rewrite Nat.sub_diag. exact IH.
    + match goal with
      | |- context [fold_left _ _ (?n', ?d')] => specialize (IH (S k) n' d')
      end.
      simpl in IH. destruct IH as [IHn IHd].
      assert (E : map fst skip =
                  fst a :: map fst (if decide (S k <= i)%nat
                                    then delete (i - S k)%nat l else l)).
      { subst skip. destruct (decide (k <= i)%nat), (decide (S k <= i)%nat);
          try lia; [|reflexivity].
        replace (i - k)%nat with (S (i - S k)) by lia. reflexivity. }
      rewrite E. simpl pvanishing. rewrite !peval_pmul_linear.
      split; (eapply eqm_trans; [eassumption|]); eqm_ring.
Qed.

Lemma basis_loop_numerator (mpc : MPCProtocol) (points : list (Z * Z))
    (i : nat) (px : Z) :
  let nd := fold_left (basis_step mpc i px) (indexed points) (1, 1) in
  eqm (Prime mpc) (fst nd) (peval (basis_numerator (map fst points) i) 0) /\
  eqm (Prime mpc) (snd nd) (peval (basis_numerator (map fst points) i) px).
Proof.
  intros nd. destruct (basis_loop mpc i px points 0 1 1) as [Hn Hd].
  simpl in Hn, Hd. rewrite Nat.sub_0_r in Hn, Hd.
  unfold basis_numerator.
  change (map fst points) with (fst <$> points).
  rewrite <- list_fmap_delete.
  change (fst <$> delete i points) with (map fst (delete i points)).
  split; (eapply eqm_trans; [eassumption|]); unfold eqm; f_equal; ring.
Qed.

Lemma interpolate_step_spec (mpc : MPCProtocol) (points : list (Z * Z))
    (acc : Z) (i : nat) (x y : Z) :
  Z.prime (Prime mpc) ->
  NoDup (map (fun r => r mod Prime mpc) (map fst points)) ->
  points !! i = Some (x, y) ->
  exists s,
    interpolate_step mpc points (Some acc) (i, (x, y)) = Some s /\
    s mod Prime mpc = s /\
    eqm (Prime mpc) s
        (acc + peval (lagrange_term (Prime mpc) points (i, (x, y))) 0).
Proof.
  intros Hp Hnd Hi. pose proof (Z.prime_ge_2 _ Hp) as Hp2.
  assert (Hxi : map fst points !! i = Some x).
  { change (map fst points) with (fst <$> points).
    rewrite list_lookup_fmap, Hi. reflexivity. }
  unfold interpolate_step. simpl.
  destruct (basis_loop_numerator mpc points i x) as [Hn Hd].
  set (nd := fold_left (basis_step mpc i x) (indexed points) (1, 1)) in *.
  assert (Hnz : peval (basis_numerator (map fst points) i) x mod Prime mpc <> 0).
  { apply pvanishing_nonzero; [exact Hp|].
    intros r [j [Hj Hr]]%delete_elem.
    apply (distinct_mod (Prime mpc) (map fst points) j i r x); [lia|assumption..]. }
  assert (Hinv : ModInverse (snd nd) (Prime mpc)
                 = Some (basis_inverse (Prime mpc) (map fst points) i)).
  { unfold ModInverse.
    assert (Hg : Z.gcd (snd nd) (Prime mpc) = 1).
    { rewrite Z.gcd_comm. apply Z.coprime_prime_l; [exact Hp|].
      intros Hdiv. apply Z.mod_divide in Hdiv; [|lia].
      unfold eqm in Hd. rewrite Hd in Hdiv. exact (Hnz Hdiv). }
    rewrite Hg. simpl. f_equal. unfold basis_inverse. rewrite Hxi. simpl.
    rewrite <- (Z.invmod_mod_l (snd nd)). unfold eqm in Hd. rewrite Hd.
    apply Z.invmod_mod_l. }
  rewrite Hinv. simpl. eexists. split; [reflexivity|].
  split; [apply Z.mod_mod; lia|].
  unfold lagrange_term. simpl. rewrite peval_pscale.
  eqm_ring.
Qed.

Lemma interpolate_loop (mpc : MPCProtocol) (points : list (Z * Z))
    (l : list (nat * (Z * Z))) (acc : Z) :
  Z.prime (Prime mpc) ->
  NoDup (map (fun r => r mod Prime mpc) (map fst points)) ->
  (forall i pt, (i, pt) ∈ l -> points !! i = Some pt) ->
  exists s,
    fold_left (interpolate_step mpc points) l (Some acc) = Some s /\
    (l <> [] -> s mod Prime mpc = s) /\
    eqm (Prime mpc) s
        (acc + peval (psum (map (lagrange_term (Prime mpc) points) l)) 0).
Proof.
  intros Hp Hnd. revert acc. induction l as [|[i [x y]] l IH]; intros acc Hl.
  - exists acc. split; [reflexivity|]. split; [congruence|].
    simpl. unfold eqm. f_equal. ring.
  - destruct (interpolate_step_spec mpc points acc i x y Hp Hnd)
      as (s & Hs & Hred & Hcong); [apply Hl; left|].
    destruct (IH s) as (s' & Hs' & Hred' & Hcong').
    { intros j pt Hin. apply Hl. right. exact Hin. }
    exists s'.
    change (fold_left ?f (?a :: ?r) ?st) with (fold_left f r (f st a)).
    rewrite Hs. split; [exact Hs'|]. split.
    + intros _. destruct l as [|e l]; [|apply Hred'; discriminate].
      simpl in Hs'. injection Hs' as <-. exact Hred.
    + eapply eqm_trans; [exact Hcong'|].
      change (map (lagrange_term (Prime mpc) points) ((i, (x, y)) :: l))
        with (lagrange_term (Prime mpc) points (i, (x, y))
                :: map (lagrange_term (Prime mpc) points) l).
      change (psum (?c :: ?r)) with (padd c (psum r)).
      rewrite peval_padd. eqm_ring.
Qed.

Lemma ReconstructSecret_interpolates (mpc : MPCProtocol) (shares : gmap Z Z)
    (order : list (Z * Z)) (f : list Z) :
  let points :=
    map (fun entry => (wrap_int (fst entry + 1), snd entry))
        (take (Z.to_nat (Threshold mpc)) order) in
  Z.prime (Prime mpc) ->
  0 <= Threshold mpc <= Z.of_nat (size shares) ->
  points <> [] ->
  NoDup (map (fun r => r mod Prime mpc) (map fst points)) ->
  (length f <= length points)%nat ->
  (forall x y, (x, y) ∈ points -> y mod Prime mpc = peval f x mod Prime mpc) ->
  ReconstructSecret mpc shares order = Secret (peval f 0 mod Prime mpc).
Proof.
  intros points Hp HT Hne Hnd Hlen Hval. unfold ReconstructSecret.
  destruct (Z.ltb_spec (Z.of_nat (size shares)) (Threshold mpc)); [lia|].
  destruct (Z.ltb_spec (Threshold mpc) 0); [lia|].
  fold points.
  destruct (interpolate_loop mpc points (indexed points) 0 Hp Hnd)
    as (s & Hs & Hred & Hcong).
  { intros i pt Hin. exact (indexed_elem _ _ _ Hin). }
  rewrite Hs. f_equal.
  rewrite <- Hred.
  - fold (lagrange (Prime mpc) points) in Hcong. unfold eqm in Hcong.
    rewrite Hcong, Z.add_0_l.
    exact (lagrange_at_zero (Prime mpc) points f Hp Hnd Hlen Hval).
  - unfold indexed. destruct points; [congruence|discriminate].
Qed.

(** *** Sharing, then reconstructing *)

Lemma share_loop_values (mpc : MPCProtocol) (coeffs : list Z)
    (l : list Node) (m : gmap Z Z) :
  (forall id y, m !! id = Some y ->
     y = evaluatePolynomial mpc coeffs (wrap_int (id + 1))) ->
  forall id y, fold_left (share_step mpc coeffs) l m !! id = Some y ->
    y = evaluatePolynomial mpc coeffs (wrap_int (id + 1)).
Proof.
  revert m. induction l as [|n l IH]; intros m Hm; [exact Hm|].
  simpl. apply IH. intros id y. unfold share_step.
  intros [[<- <-]|[_ H]]%lookup_insert_Some; [reflexivity|exact (Hm id y H)].
Qed.

Lemma share_loop_domain (mpc : MPCProtocol) (coeffs : list Z)
    (l : list Node) (m : gmap Z Z) (id : Z) :
  is_Some (fold_left (share_step mpc coeffs) l m !! id) <->
  is_Some (m !! id) \/ id ∈ map node_ID l.
Proof.
  revert m. induction l as [|n l IH]; intros m; simpl.
  - split; [left; assumption|]. intros [H|H]; [exact H|inversion H].
  - rewrite IH. unfold share_step. rewrite lookup_insert_is_Some.
    rewrite elem_of_cons. destruct (decide (node_ID n = id)); split; intros H.
    + right. left. congruence.
    + left. left. assumption.
    + destruct H as [[H|[_ H]]|H]; [congruence|left; exact H|right; right; exact H].
    + destruct H as [H|[H|H]]; [left; right; split; assumption|congruence|right; exact H].
Qed.

Lemma ShareSecret_inv (mpc : MPCProtocol) (secret : Z) (random : nat -> Z)
    (mpc' : MPCProtocol) :
  int_range (Threshold mpc) ->
  ShareSecret mpc secret random = Some mpc' ->
  1 <= Threshold mpc /\
  exists coeffs,
    length coeffs = Z.to_nat (Threshold mpc) /\
    peval coeffs 0 = secret /\
    mpc' = mkMPC (Participants mpc) (Threshold mpc)
                 (fold_left (share_step mpc coeffs) (Participants mpc) ∅)
                 (Prime mpc).
Proof.
  intros HT. unfold ShareSecret, generatePolynomial.
  destruct (Z.eq_dec (Threshold mpc) (- 2 ^ 63)) as [E|E].
  { rewrite E.
    replace (wrap_int (wrap_int (- 2 ^ 63 - 1) + 1) <=? 0) with true
      by (vm_compute; reflexivity).
    discriminate. }
  assert (H1 : wrap_int (Threshold mpc - 1) = Threshold mpc - 1).
  { apply wrap_int_small. unfold int_range in *. lia. }
  rewrite H1. replace (Threshold mpc - 1 + 1) with (Threshold mpc) by lia.
  rewrite (wrap_int_small _ HT).
  destruct (Z.leb_spec (Threshold mpc) 0) as [Hle|Hgt]; [discriminate|].
  simpl. intros [= <-]. split; [lia|].
  exists (secret :: map random (seq 1 (Z.to_nat (Threshold mpc - 1)))).
  split; [|split; [simpl; lia|reflexivity]].
  simpl. rewrite length_map, length_seq. lia.
Qed.

Lemma reconstruct_shared (mpc : MPCProtocol) (coeffs : list Z)
    (shares : gmap Z Z) (order : list (Z * Z)) :
  let mpc' := mkMPC (Participants mpc) (Threshold mpc)
                    (fold_left (share_step mpc coeffs) (Participants mpc) ∅)
                    (Prime mpc) in
  Z.prime (Prime mpc) ->
  1 <= Threshold mpc ->
  length coeffs = Z.to_nat (Threshold mpc) ->
  shares ⊆ SecretShares mpc' ->
  Threshold mpc <= Z.of_nat (size shares) ->
  order ≡ₚ map_to_list shares ->
  NoDup (map (fun entry => wrap_int (fst entry + 1) mod Prime mpc) order) ->
  ReconstructSecret mpc' shares order = Secret (peval coeffs 0 mod Prime mpc).
Proof.
  intros mpc' Hp HT1 Hlen Hsub Hsize Hperm Hnd.
  pose proof (Z.prime_ge_2 _ Hp) as Hp2.
  assert (Horder : length order = size shares).
  { rewrite Hperm. apply length_map_to_list. }
  apply (ReconstructSecret_interpolates mpc' shares order coeffs); simpl.
  - exact Hp.
  - lia.
  - destruct order as [|e order]; [simpl in Horder; lia|].
    destruct (Z.to_nat (Threshold mpc)) eqn:E; [lia|discriminate].
  - apply (sublist_NoDup _ _ Hnd).
    rewrite !map_map. simpl.
    change (map ?f ?l) with (f <$> l). rewrite fmap_take.
    apply sublist_take.
  - rewrite length_map, length_take. lia.
  - intros x y Hin. change (map ?f ?l) with (f <$> l) in Hin.
    apply list_elem_of_fmap in Hin as [[id y'] [[= -> ->] Hin]]. simpl.
    apply elem_of_take in Hin as (i & Hin & _).
    apply list_elem_of_lookup_2 in Hin. rewrite Hperm in Hin.
    apply elem_of_map_to_list in Hin.
    apply (lookup_weaken _ _ _ _ Hin) in Hsub. simpl in Hsub.
    apply (share_loop_values mpc coeffs) in Hsub.
    + rewrite Hsub. apply evaluatePolynomial_spec. lia.
    + intros id' y0 H0. rewrite lookup_empty in H0. discriminate.
Qed.

Lemma prime_7 : Z.prime 7.
Proof.
  split; [lia|]. intros n Hn [k Hk].
  assert (H : n = 2 \/ n = 3 \/ n = 4 \/ n = 5 \/ n = 6) by lia.
  destruct H as [-> | [-> | [-> | [-> | ->]]]]; lia.
Qed.

(** X29.  Sharing a secret and reconstructing it from any [Threshold] of the
    shares gives the secret back, reduced modulo the prime: whatever the
    random coefficients, whichever shares are presented and in whatever
    order the map is visited, provided the identifiers of the shares, plus
    one, are distinct modulo the prime. *)
Theorem shares_reconstruct_the_secret (mpc : MPCProtocol) (secret : Z)
    (random : nat -> Z) (mpc' : MPCProtocol) (shares : gmap Z Z)
    (order : list (Z * Z)) :
  Z.prime (Prime mpc) ->
  int_range (Threshold mpc) ->
  ShareSecret mpc secret random = Some mpc' ->
  shares ⊆ SecretShares mpc' ->
  Threshold mpc <= Z.of_nat (size shares) ->
  order ≡ₚ map_to_list shares ->
  NoDup (map (fun entry => wrap_int (fst entry + 1) mod Prime mpc) order) ->
  ReconstructSecret mpc' shares order = Secret (secret mod Prime mpc).
Proof.
  intros Hp HT Hshare Hsub Hsize Hperm Hnd.
  destruct (ShareSecret_inv mpc secret random mpc' HT Hshare)
    as (HT1 & coeffs & Hlen & Hsecret & ->).
  rewrite <- Hsecret.
  exact (reconstruct_shared mpc coeffs shares order Hp HT1 Hlen Hsub Hsize Hperm Hnd).
Qed.

(** Five shares modulo 7, threshold 3, secret 5. *)
Lemma shares_reconstruct_the_secret_witness :
  ReconstructSecret sharing_shared (SecretShares sharing_shared)
                    (map_to_list (SecretShares sharing_shared))
  = Secret 5.
Proof.
  apply (shares_reconstruct_the_secret sharing_mpc 5 sharing_random
           sharing_shared (SecretShares sharing_shared)
           (map_to_list (SecretShares sharing_shared))).
  - exact prime_7.
  - unfold int_range. simpl. lia.
  - reflexivity.
  - reflexivity.
  - apply Z.leb_le. vm_compute. reflexivity.
  - reflexivity.
  - apply (bool_decide_unpack _). vm_compute. exact I.
Defined.

(** *** The simulated threshold signature *)

Lemma collect_loop (mpc : MPCProtocol) (l : list Node) (m : gmap Z Z) (c : Z) :
  let limit := Threshold mpc + 1 in
  let picked := take (Z.to_nat (limit - c))
                     (filter (fun n => Byzantine n = false) l) in
  int_range limit ->
  0 <= c <= limit ->
  (forall n, n ∈ l -> is_Some (SecretShares mpc !! node_ID n)) ->
  fold_left (collect_step mpc) l (m, c)
  = (fold_left (fun m n => <[node_ID n := default 0 (SecretShares mpc !! node_ID n)]> m)
               picked m,
     c + Z.of_nat (length picked)).
Proof.
  intros limit picked Hlimit. subst picked.
  revert m c. induction l as [|n l IH]; intros m c Hc Hall.
  - rewrite filter_nil, take_nil. simpl. f_equal. lia.
  - change (fold_left ?f (?a :: ?r) ?st) with (fold_left f r (f st a)).
    unfold collect_step at 2. fold limit. rewrite (wrap_int_small _ Hlimit).
    destruct (Byzantine n) eqn:Hbyz; simpl negb; cbv iota.
    + rewrite filter_cons_False by congruence.
      apply IH; [exact Hc|]. intros n' Hn'. apply Hall. right. exact Hn'.
    + rewrite filter_cons_True by exact Hbyz.
      destruct (Z.ltb_spec c limit) as [Hlt|Hge]; simpl andb; cbv iota.
      * destruct (Hall n) as [share Hshare]; [left|]. rewrite Hshare.
        rewrite wrap_int_small by (unfold int_range in *; lia).
        rewrite IH; [|lia|intros n' Hn'; apply Hall; right; exact Hn'].
        replace (Z.to_nat (limit - c)) with (S (Z.to_nat (limit - (c + 1)))) by lia.
        simpl. rewrite Hshare. simpl. f_equal. lia.
      * rewrite IH; [|lia|intros n' Hn'; apply Hall; right; exact Hn'].
        replace (Z.to_nat (limit - c)) with 0%nat by lia.
        simpl. reflexivity.
Qed.

Lemma insert_loop_listing (v : Z -> Z) (l : list Node) (m : gmap Z Z) :
  NoDup (map node_ID l) ->
  (forall n, n ∈ l -> m !! node_ID n = None) ->
  map_to_list (fold_left (fun m n => <[node_ID n := v (node_ID n)]> m) l m)
  ≡ₚ map (fun n => (node_ID n, v (node_ID n))) l ++ map_to_list m.
Proof.
  revert m. induction l as [|n l IH]; intros m Hnd Hfresh; [reflexivity|].
  simpl in Hnd. apply NoDup_cons in Hnd as [Hn Hnd].
  simpl fold_left. rewrite IH; [|exact Hnd|].
  - rewrite map_to_list_insert by (apply Hfresh; left).
    simpl. rewrite Permutation_middle. reflexivity.
  - intros n' Hn'. rewrite lookup_insert_ne.
    + apply Hfresh. right. exact Hn'.
    + intros E. apply Hn. rewrite E.
      change (map node_ID l) with (node_ID <$> l).
      apply list_elem_of_fmap_2. exact Hn'.
Qed.

(** X30.  The simulated threshold signature.  When the honest participants
    have identifiers that stay distinct, plus one, modulo the prime, the
    run never panics; with at least [Threshold] honest participants the
    signature is the digest of the message followed by the bytes of the
    original key, whatever the random coefficients and the order of the
    map; with fewer it is the empty string. *)
Theorem simulated_signature_uses_the_key (mpc : MPCProtocol) (message : string)
    (secretKey : Z) (random : nat -> Z) (mpc' : MPCProtocol)
    (order : list (Z * Z)) :
  let honest := filter (fun n => Byzantine n = false) (Participants mpc) in
  Z.prime (Prime mpc) ->
  1 <= Threshold mpc < 2 ^ 63 - 1 ->
  0 <= secretKey < Prime mpc ->
  NoDup (map (fun n => wrap_int (node_ID n + 1) mod Prime mpc) honest) ->
  ShareSecret mpc secretKey random = Some mpc' ->
  order ≡ₚ map_to_list (collectShares mpc') ->
  SimulateMPCSignature mpc message secretKey random order
  = Some (mpc',
          if Threshold mpc <=? Z.of_nat (length honest)
          then hex_EncodeToString
                 (sha256 (bytes_of_string message ++ big_Bytes secretKey))
          else "").
Proof.
  intros honest Hp HT Hkey Hnd Hshare Hperm.
  assert (HTr : int_range (Threshold mpc)) by (unfold int_range; lia).
  destruct (ShareSecret_inv mpc secretKey random mpc' HTr Hshare)
    as (_ & coeffs & Hlen & Hsecret & Hmpc').
  unfold SimulateMPCSignature. rewrite Hshare. simpl.
  set (all := fold_left (share_step mpc coeffs) (Participants mpc) ∅) in *.
  set (v := fun id => default 0 (all !! id)).
  set (hs := take (Z.to_nat (Threshold mpc + 1 - 0)) honest).
  assert (Hall : forall n, n ∈ Participants mpc -> is_Some (all !! node_ID n)).
  { intros n Hn. apply share_loop_domain. right.
    change (map node_ID (Participants mpc)) with (node_ID <$> Participants mpc).
    apply list_elem_of_fmap_2. exact Hn. }
  assert (Hcollect : collectShares mpc'
            = fold_left (fun m n => <[node_ID n := v (node_ID n)]> m) hs ∅).
  { unfold collectShares. rewrite Hmpc'. simpl.
    rewrite (collect_loop
               (mkMPC (Participants mpc) (Threshold mpc) all (Prime mpc))
               (Participants mpc) ∅ 0); simpl.
    - reflexivity.
    - unfold int_range. lia.
    - lia.
    - exact Hall. }
  assert (Hids : NoDup (map node_ID hs)).
  { apply (sublist_NoDup _ (map node_ID honest)).
    - apply (NoDup_fmap_1 (fun id => wrap_int (id + 1) mod Prime mpc)).
      change (map node_ID honest) with (node_ID <$> honest).
      rewrite <- list_fmap_compose. exact Hnd.
    - change (map node_ID ?l) with (node_ID <$> l).
      apply fmap_sublist, sublist_take. }
  assert (Hlist : map_to_list (collectShares mpc')
                  ≡ₚ map (fun n => (node_ID n, v (node_ID n))) hs).
  { rewrite Hcollect, (insert_loop_listing v hs ∅ Hids).
    - rewrite map_to_list_empty, app_nil_r. reflexivity.
    - intros n _. apply lookup_empty. }
  assert (Hsize : size (collectShares mpc') = length hs).
  { rewrite <- length_map_to_list, Hlist, length_map. reflexivity. }
  assert (Hhs : length hs
                = Nat.min (Z.to_nat (Threshold mpc + 1)) (length honest)).
  { unfold hs. rewrite length_take. f_equal. lia. }
  destruct (Z.leb_spec (Threshold mpc) (Z.of_nat (length honest))) as [Hle|Hgt].
  - pose proof (reconstruct_shared mpc coeffs (collectShares mpc') order) as Hrec.
    cbv zeta in Hrec. fold all in Hrec. rewrite <- Hmpc' in Hrec.
    rewrite Hrec.
    + rewrite Hsecret, Z.mod_small by exact Hkey. reflexivity.
    + exact Hp.
    + lia.
    + exact Hlen.
    + rewrite Hmpc'. simpl. apply map_subseteq_spec. intros id y Hy.
      rewrite <- Hmpc' in Hy.
      apply elem_of_map_to_list in Hy. rewrite Hlist in Hy.
      change (map ?f ?l) with (f <$> l) in Hy.
      apply list_elem_of_fmap in Hy as [n [[= -> ->] Hn]].
      destruct (Hall n) as [share Hs].
      * apply elem_of_take in Hn as (i & Hi & _).
        apply list_elem_of_lookup_2 in Hi.
        apply list_elem_of_filter in Hi as [_ Hi]. exact Hi.
      * unfold v. rewrite Hs. reflexivity.
    + lia.
    + exact Hperm.
    + rewrite Hperm, Hlist, map_map. simpl.
      apply (sublist_NoDup _ _ Hnd).
      change (map ?f ?l) with (f <$> l). apply fmap_sublist, sublist_take.
  - unfold ReconstructSecret.
    replace (Threshold mpc') with (Threshold mpc) by (rewrite Hmpc'; reflexivity).
    destruct (Z.ltb_spec (Z.of_nat (size (collectShares mpc'))) (Threshold mpc));
      [reflexivity|lia].
Qed.

(** Four honest nodes of five, threshold 3, key 5. *)
Lemma simulated_signature_uses_the_key_witness :
  SimulateMPCSignature sharing_mpc "block" 5 sharing_random
                       (map_to_list (collectShares sharing_shared))
  = Some (sharing_shared,
          hex_EncodeToString (sha256 (bytes_of_string "block" ++ big_Bytes 5))).
Proof.
  apply (simulated_signature_uses_the_key sharing_mpc "block" 5 sharing_random
           sharing_shared (map_to_list (collectShares sharing_shared))).
  - exact prime_7.
  - simpl. lia.
  - simpl. lia.
  - apply (bool_decide_unpack _). vm_compute. exact I.
  - reflexivity.
  - reflexivity.
Defined.
